(** * Cache policies (FIFO, LRU, LFU) and the multilevel hierarchy

    A shallow embedding of [cache_system/core/{base,fifo,lru,lfu}.py] and
    [cache_system/multilevel/cache_hierarchy.py].

    Python objects are records; a method is a computation in a small
    state-and-exception monad over the object it is called on, so that a
    raised exception keeps the mutations made before it.  Dictionaries are
    [gmap]s, the deque and the [OrderedDict] buckets are lists, Python
    integers are [Z].  The nodes of the LRU list live in a heap indexed by
    node identity, with the [prev]/[next] links the code writes. *)

From stdpp Require Import gmap list strings functions pretty.
From Stdlib Require Import ZArith QArith Lia.

Local Open Scope Z_scope.

(** ** Exceptions and the method monad *)

Inductive exn : Type := ValueError | KeyError | IndexError | AttributeError | RuntimeError.

Inductive result (A : Type) : Type :=
| Ok (a : A)
| Raise (e : exn).
Arguments Ok {A} a.
Arguments Raise {A} e.

(** A method called on an object of type [S]: it returns or raises, and in
    both cases leaves the object in some state. *)
Definition M (S A : Type) : Type := S → result A * S.

Definition ret {S A} (a : A) : M S A := λ s, (Ok a, s).
Definition raise {S A} (e : exn) : M S A := λ s, (Raise e, s).
Definition bind {S A B} (m : M S A) (f : A → M S B) : M S B :=
  λ s, match m s with
       | (Ok a, s') => f a s'
       | (Raise e, s') => (Raise e, s')
       end.
Definition gets {S A} (f : S → A) : M S A := λ s, (Ok (f s), s).
Definition modify {S} (f : S → S) : M S unit := λ s, (Ok tt, f s).
Definition pass {S} : M S unit := ret tt.

Declare Scope py_scope.
Delimit Scope py_scope with py.
Notation "'let*' x ':=' m 'in' k" := (bind m (λ x, k))
  (at level 10, x name, m at level 100, k at level 200) : py_scope.
Notation "m >> k" := (bind m (λ _, k))
  (at level 100, k at level 200, right associativity) : py_scope.
Local Open Scope py_scope.

(** The state a method leaves, and what it returned. *)
Definition exec {S A} (m : M S A) (s : S) : S := snd (m s).
Definition returns {S A} (m : M S A) (s : S) (a : A) : Prop := fst (m s) = Ok a.
Definition succeeds {S A} (m : M S A) (s : S) : Prop := ∃ a, fst (m s) = Ok a.

(** ** Containers of the Python library *)

Section containers.
Context {K : Type} `{EqDecision K}.

(** [deque.remove(x)] and [del d[x]] on an [OrderedDict] whose keys are
    the list: the first occurrence goes; [None] when there is none (the
    code gets a [ValueError], respectively a [KeyError]). *)
Fixpoint remove_first (x : K) (l : list K) : option (list K) :=
  match l with
  | [] => None
  | y :: l' => if decide (x = y) then Some l' else cons y <$> remove_first x l'
  end.

(** [d[x] = None] on an [OrderedDict]: a new key goes to the back, a key
    already there keeps its place. *)
Definition od_set (x : K) (l : list K) : list K :=
  if decide (x ∈ l) then l else l ++ [x].
End containers.

(** [min(d.keys())] of a dictionary with integer keys that is not empty. *)
Definition min_key {B} (d : gmap Z B) : Z :=
  match (map_to_list d).*1 with
  | [] => 0
  | f :: fs => foldr Z.min f fs
  end.

(** ** base.py *)

(** A Python value is [None] or some other object [Some v]. *)
Abbreviation pyval V := (option V) (only parsing).

Module CacheEntry.
Record t (K V Time : Type) : Type := mk {
  key : K;
  value : pyval V;
  timestamp : Time;
  access_count : Z;
  size : Z
}.
Arguments mk {K V Time}.
Arguments key {K V Time}.
Arguments value {K V Time}.
Arguments timestamp {K V Time}.
Arguments access_count {K V Time}.
Arguments size {K V Time}.

Section defs.
Context {K V Time : Type}.

Definition __post_init__ (self : t K V Time) : t K V Time :=
  if access_count self =? 0
  then mk (key self) (value self) (timestamp self) 1 (size self)
  else self.

(** [CacheEntry(key=…, value=…, timestamp=…, size=…)]: [access_count]
    takes its default 0. *)
Definition new (key : K) (value : pyval V) (timestamp : Time) (size : Z) : t K V Time :=
  __post_init__ (mk key value timestamp 0 size).

Definition set_value (v : pyval V) (self : t K V Time) : t K V Time :=
  mk (key self) v (timestamp self) (access_count self) (size self).
Definition set_size (n : Z) (self : t K V Time) : t K V Time :=
  mk (key self) (value self) (timestamp self) (access_count self) n.
Definition set_timestamp (now : Time) (self : t K V Time) : t K V Time :=
  mk (key self) (value self) now (access_count self) (size self).
Definition set_access_count (n : Z) (self : t K V Time) : t K V Time :=
  mk (key self) (value self) (timestamp self) n (size self).
End defs.
End CacheEntry.

Module CacheStats.
Record t : Type := mk {
  hits : Z;
  misses : Z;
  evictions : Z;
  current_size : Z;
  max_size : Z
}.

(** [CacheStats(max_size=capacity)] and
    [CacheStats(current_size=…, max_size=…)]: the other fields are 0. *)
Definition new (current_size max_size : Z) : t := mk 0 0 0 current_size max_size.

Definition set_hits (n : Z) (s : t) : t :=
  mk n (misses s) (evictions s) (current_size s) (max_size s).
Definition set_misses (n : Z) (s : t) : t :=
  mk (hits s) n (evictions s) (current_size s) (max_size s).
Definition set_evictions (n : Z) (s : t) : t :=
  mk (hits s) (misses s) n (current_size s) (max_size s).
Definition set_current_size (n : Z) (s : t) : t :=
  mk (hits s) (misses s) (evictions s) n (max_size s).
End CacheStats.

Module CachePolicy.
(** The fields of the base class, and in [ext] those a subclass adds. *)
Record t (K V Time A : Type) `{Countable K} : Type := mk {
  _capacity : Z;
  _name : string;
  _cache : gmap K (CacheEntry.t K V Time);
  _stats : CacheStats.t;
  ext : A
}.
Arguments mk {K V Time A _ _}.
Arguments _capacity {K V Time A _ _}.
Arguments _name {K V Time A _ _}.
Arguments _cache {K V Time A _ _}.
Arguments _stats {K V Time A _ _}.
Arguments ext {K V Time A _ _}.

(** The abstract methods.  [_on_access] and [_on_update] receive the entry
    [self._cache[key]] itself, so what they do to it is done to the entry
    the dictionary holds; [now] is what [datetime.now()] returns when
    the hook reads the clock. *)
Class Hooks (K V Time A : Type) `{Countable K} : Type := {
  _evict : M (t K V Time A) unit;
  _on_access : K → Time → M (t K V Time A) unit;
  _on_insert : K → M (t K V Time A) unit;
  _on_update : K → Time → M (t K V Time A) unit;
  _on_delete : K → M (t K V Time A) unit;
  _on_clear : M (t K V Time A) unit
}.

Section defs.
Context {K V Time A : Type} `{Countable K}.
Abbreviation self_t := (t K V Time A).
Abbreviation entry := (CacheEntry.t K V Time).

Definition set_cache (c : gmap K entry) (self : self_t) : self_t :=
  mk (_capacity self) (_name self) c (_stats self) (ext self).
Definition set_stats (st : CacheStats.t) (self : self_t) : self_t :=
  mk (_capacity self) (_name self) (_cache self) st (ext self).
Definition set_ext (a : A) (self : self_t) : self_t :=
  mk (_capacity self) (_name self) (_cache self) (_stats self) a.

Definition __init__ (capacity : Z) (name : string) (ext0 : A) : result self_t :=
  if decide (capacity ≤ 0) then Raise ValueError
  else Ok (mk capacity name ∅ (CacheStats.new 0 capacity) ext0).

Definition capacity (self : self_t) : Z := _capacity self.
Definition stats (self : self_t) : CacheStats.t := _stats self.
Definition current_size (self : self_t) : Z := Z.of_nat (size (_cache self)).
Definition is_full (self : self_t) : bool := bool_decide (_capacity self ≤ current_size self).
Definition is_empty (self : self_t) : bool := bool_decide (current_size self = 0).
(** [key in self._cache] *)
Definition contains (key : K) (self : self_t) : bool := bool_decide (is_Some (_cache self !! key)).

(** [self._cache[key]] *)
Definition cache_item (key : K) : M self_t entry :=
  λ self, match _cache self !! key with
          | Some e => (Ok e, self)
          | None => (Raise KeyError, self)
          end.

(** [self._stats.f += 1] and the like *)
Definition modify_stats (f : CacheStats.t → CacheStats.t) : M self_t unit :=
  modify (λ self, set_stats (f (_stats self)) self).
(** [self._stats.current_size = self.current_size] *)
Definition sync_size : M self_t unit :=
  modify (λ self, set_stats (CacheStats.set_current_size (current_size self) (_stats self)) self).
(** An assignment to a field of the entry [self._cache[key]]. *)
Definition modify_entry (key : K) (f : entry → entry) : M self_t unit :=
  modify (λ self, set_cache (alter f key (_cache self)) self).

Context `{!Hooks K V Time A}.

Definition get (key : K) (now : Time) : M self_t (pyval V) :=
  let* present := gets (contains key) in
  if (present : bool) then
    modify_stats (λ st, CacheStats.set_hits (CacheStats.hits st + 1) st) >>
    let* entry := cache_item key in
    _on_access key now >>
    ret (CacheEntry.value entry)
  else
    modify_stats (λ st, CacheStats.set_misses (CacheStats.misses st + 1) st) >>
    ret None.

Definition _insert_entry (key : K) (value : pyval V) (size : Z) (now : Time) : M self_t unit :=
  modify (λ self, set_cache (<[key := CacheEntry.new key value now size]> (_cache self)) self) >>
  sync_size >>
  _on_insert key.

Definition _update_entry (key : K) (value : pyval V) (size : Z) (now : Time) : M self_t unit :=
  let* _ := cache_item key in
  modify_entry key (CacheEntry.set_value value) >>
  modify_entry key (CacheEntry.set_size size) >>
  _on_update key now.

Definition put (key : K) (value : pyval V) (size : Z) (now : Time) : M self_t unit :=
  let* present := gets (contains key) in
  if (present : bool) then _update_entry key value size now
  else
    let* full := gets is_full in
    (if (full : bool) then _evict else pass) >>
    _insert_entry key value size now.

Definition delete (key : K) : M self_t bool :=
  let* present := gets (contains key) in
  if (present : bool) then
    _on_delete key >>
    (let* present' := gets (contains key) in
     if (present' : bool)
     then modify (λ self, set_cache (base.delete key (_cache self)) self)
     else raise KeyError) >>
    sync_size >>
    ret true
  else ret false.

Definition clear : M self_t unit :=
  modify (set_cache ∅) >>
  _on_clear >>
  modify_stats (CacheStats.set_current_size 0).

Definition reset_stats : M self_t unit :=
  modify (λ self, set_stats (CacheStats.new (current_size self) (_capacity self)) self).
End defs.
End CachePolicy.

(** ** fifo.py *)

Module FIFOCache.
Record ext_t (K : Type) : Type := mk_ext { _insertion_queue : list K }.
Arguments mk_ext {K}.
Arguments _insertion_queue {K}.

Section defs.
Context {K V Time : Type} `{Countable K}.
Abbreviation self_t := (CachePolicy.t K V Time (ext_t K)).
Import CachePolicy.

Definition queue (self : self_t) : list K := _insertion_queue (ext self).
Definition set_queue (q : list K) : M self_t unit :=
  modify (set_ext (mk_ext q)).

Definition _evict : M self_t unit :=
  let* q := gets queue in
  match q with
  | [] => ret tt
  | oldest_key :: q' =>
      set_queue q' >>
      let* present := gets (contains oldest_key) in
      (if (present : bool)
       then modify (λ self, set_cache (base.delete oldest_key (_cache self)) self)
       else pass) >>
      modify_stats (λ st, CacheStats.set_evictions (CacheStats.evictions st + 1) st) >>
      sync_size
  end.

Definition _on_access (key : K) (now : Time) : M self_t unit := pass.

Definition _on_insert (key : K) : M self_t unit :=
  let* q := gets queue in set_queue (q ++ [key]).

Definition _on_update (key : K) (now : Time) : M self_t unit := pass.

Definition _on_delete (key : K) : M self_t unit :=
  let* q := gets queue in
  match remove_first key q with
  | Some q' => set_queue q'
  | None => pass
  end.

Definition _on_clear : M self_t unit := set_queue [].

#[global] Instance hooks : Hooks K V Time (ext_t K) := {|
  CachePolicy._evict := _evict;
  CachePolicy._on_access := _on_access;
  CachePolicy._on_insert := _on_insert;
  CachePolicy._on_update := _on_update;
  CachePolicy._on_delete := _on_delete;
  CachePolicy._on_clear := _on_clear
|}.

Definition __init__ (capacity : Z) (name : string) : result self_t :=
  CachePolicy.__init__ capacity name (mk_ext []).

Definition get_insertion_order (self : self_t) : list K := queue self.

Definition peek_next_eviction (self : self_t) : option K := head (queue self).
End defs.
End FIFOCache.

(** ** lfu.py *)

Module LFUCache.
Record ext_t (K : Type) `{Countable K} : Type := mk_ext {
  _freq_map : gmap Z (list K);
  _freq_key : gmap K Z;
  _min_freq : Z
}.
Arguments mk_ext {K _ _}.
Arguments _freq_map {K _ _}.
Arguments _freq_key {K _ _}.
Arguments _min_freq {K _ _}.

Section defs.
Context {K V Time : Type} `{Countable K}.
Abbreviation self_t := (CachePolicy.t K V Time (ext_t K)).
Import CachePolicy.

Definition freq_map (self : self_t) : gmap Z (list K) := _freq_map (ext self).
Definition freq_key (self : self_t) : gmap K Z := _freq_key (ext self).
Definition min_freq (self : self_t) : Z := _min_freq (ext self).

Definition set_freq_map (m : gmap Z (list K)) (self : self_t) : self_t :=
  set_ext (mk_ext m (freq_key self) (min_freq self)) self.
Definition set_freq_key (m : gmap K Z) (self : self_t) : self_t :=
  set_ext (mk_ext (freq_map self) m (min_freq self)) self.
Definition set_min_freq (f : Z) (self : self_t) : self_t :=
  set_ext (mk_ext (freq_map self) (freq_key self) f) self.

(** [self._freq_map[freq]]: the map is a [defaultdict(OrderedDict)], so
    reading a frequency it does not have puts an empty bucket there. *)
Definition freq_map_item (freq : Z) : M self_t (list K) :=
  let* m := gets freq_map in
  match m !! freq with
  | Some bucket => ret bucket
  | None => modify (set_freq_map (<[freq := []]> m)) >> ret []
  end.

(** The bucket [self._freq_map[freq]] is mutated in place. *)
Definition set_bucket (freq : Z) (bucket : list K) : M self_t unit :=
  modify (λ self, set_freq_map (<[freq := bucket]> (freq_map self)) self).

(** [del self._freq_map[freq]], always just after the bucket was read. *)
Definition del_bucket (freq : Z) : M self_t unit :=
  modify (λ self, set_freq_map (base.delete freq (freq_map self)) self).

(** [self._freq_key[key]] *)
Definition freq_key_item (key : K) : M self_t Z :=
  let* m := gets freq_key in
  match m !! key with
  | Some f => ret f
  | None => raise KeyError
  end.

Definition _increment_frequency (key : K) : M self_t unit :=
  let* current_freq := freq_key_item key in
  let* bucket := freq_map_item current_freq in
  match remove_first key bucket with
  | None => raise KeyError
  | Some bucket' =>
      set_bucket current_freq bucket' >>
      let* bucket := freq_map_item current_freq in
      (if decide (bucket = []) then
         del_bucket current_freq >>
         let* mf := gets min_freq in
         if decide (current_freq = mf)
         then modify (set_min_freq (current_freq + 1))
         else pass
       else pass) >>
      let new_freq := current_freq + 1 in
      let* bucket := freq_map_item new_freq in
      set_bucket new_freq (od_set key bucket) >>
      modify (λ self, set_freq_key (<[key := new_freq]> (freq_key self)) self)
  end.

Definition _evict : M self_t unit :=
  let* mf := gets min_freq in
  if decide (mf = 0) then ret tt else
  let* bucket := freq_map_item mf in
  match bucket with
  | [] => ret tt
  | lfu_key :: min_freq_keys =>
      set_bucket mf min_freq_keys >>
      (if decide (min_freq_keys = []) then del_bucket mf else pass) >>
      modify (λ self, set_freq_key (base.delete lfu_key (freq_key self)) self) >>
      modify (λ self, set_cache (base.delete lfu_key (_cache self)) self) >>
      modify_stats (λ st, CacheStats.set_evictions (CacheStats.evictions st + 1) st) >>
      sync_size
  end.

Definition _on_access (key : K) (now : Time) : M self_t unit :=
  modify_entry key (CacheEntry.set_timestamp now) >>
  modify_entry key (λ e, CacheEntry.set_access_count (CacheEntry.access_count e + 1) e) >>
  _increment_frequency key.

Definition _on_insert (key : K) : M self_t unit :=
  let freq := 1 in
  let* bucket := freq_map_item freq in
  set_bucket freq (od_set key bucket) >>
  modify (λ self, set_freq_key (<[key := freq]> (freq_key self)) self) >>
  modify (set_min_freq 1).

Definition _on_update (key : K) (now : Time) : M self_t unit := _on_access key now.

Definition _on_delete (key : K) : M self_t unit :=
  let* fk := gets freq_key in
  match fk !! key with
  | None => ret tt
  | Some freq =>
      let* m := gets freq_map in
      (match m !! freq with
       | None => pass
       | Some bucket =>
           match remove_first key bucket with
           | None => pass
           | Some bucket' =>
               set_bucket freq bucket' >>
               if decide (bucket' = []) then
                 del_bucket freq >>
                 let* mf := gets min_freq in
                 if decide (freq = mf) then
                   let* m' := gets freq_map in
                   modify (set_min_freq (if decide (m' = ∅) then 0 else min_key m'))
                 else pass
               else pass
           end
       end) >>
      modify (λ self, set_freq_key (base.delete key (freq_key self)) self)
  end.

Definition _on_clear : M self_t unit :=
  modify (set_freq_map ∅) >>
  modify (set_freq_key ∅) >>
  modify (set_min_freq 0).

#[global] Instance hooks : Hooks K V Time (ext_t K) := {|
  CachePolicy._evict := _evict;
  CachePolicy._on_access := _on_access;
  CachePolicy._on_insert := _on_insert;
  CachePolicy._on_update := _on_update;
  CachePolicy._on_delete := _on_delete;
  CachePolicy._on_clear := _on_clear
|}.

Definition __init__ (capacity : Z) (name : string) : result self_t :=
  CachePolicy.__init__ capacity name (mk_ext ∅ ∅ 0).

Definition get_elements_by_frequency (self : self_t) : gmap Z (list K) := freq_map self.

(** [{freq: len(keys) for freq, keys in self._freq_map.items()}] *)
Definition get_frequency_distribution (self : self_t) : gmap Z Z :=
  (λ keys, Z.of_nat (length keys)) <$> freq_map self.


Definition get_key_frequency (key : K) (self : self_t) : option Z := freq_key self !! key.
End defs.
End LFUCache.

(** ** lru.py *)

(** A node object is known by its identity; a reference to a node is
    [Some] identity, or [None]. *)
Abbreviation node_id := nat (only parsing).

Module DLinkedNode.
Record t (K : Type) : Type := mk {
  key : option K;
  prev : option node_id;
  next : option node_id
}.
Arguments mk {K}.
Arguments key {K}.
Arguments prev {K}.
Arguments next {K}.

(** [DLinkedNode(key)] *)
Definition new {K} (key : option K) : t K := mk key None None.
End DLinkedNode.

Module LRUCache.
(** [nodes] is the heap of node objects, by identity, and [next_id] the
    identity the next [DLinkedNode(…)] gets; the other fields are those of
    the class. *)
Record ext_t (K : Type) `{Countable K} : Type := mk_ext {
  _node_map : gmap K node_id;
  _head : node_id;
  _tail : node_id;
  nodes : node_id → DLinkedNode.t K;
  next_id : node_id
}.
Arguments mk_ext {K _ _}.
Arguments _node_map {K _ _}.
Arguments _head {K _ _}.
Arguments _tail {K _ _}.
Arguments nodes {K _ _}.
Arguments next_id {K _ _}.

Section defs.
Context {K V Time : Type} `{Countable K}.
Abbreviation self_t := (CachePolicy.t K V Time (ext_t K)).
Abbreviation node := (DLinkedNode.t K).
Import CachePolicy.

Definition node_map (self : self_t) : gmap K node_id := _node_map (ext self).
Definition head (self : self_t) : node_id := _head (ext self).
Definition tail (self : self_t) : node_id := _tail (ext self).
Definition heap (self : self_t) : node_id → node := nodes (ext self).

Definition set_node_map (m : gmap K node_id) (self : self_t) : self_t :=
  set_ext (mk_ext m (head self) (tail self) (heap self) (next_id (ext self))) self.
Definition set_heap (h : node_id → node) (self : self_t) : self_t :=
  set_ext (mk_ext (node_map self) (head self) (tail self) h (next_id (ext self))) self.

(** [x.key], [x.prev], [x.next]: an [AttributeError] when [x] is [None]. *)
Definition attr {B} (f : node → B) (x : option node_id) : M self_t B :=
  match x with
  | None => raise AttributeError
  | Some n => gets (λ self, f (heap self n))
  end.

(** [x.prev = v], [x.next = v] *)
Definition set_attr (f : node → node) (x : option node_id) : M self_t unit :=
  match x with
  | None => raise AttributeError
  | Some n => modify (λ self, set_heap (<[n := f (heap self n)]> (heap self)) self)
  end.
Definition with_prev (v : option node_id) (nd : node) : node :=
  DLinkedNode.mk (DLinkedNode.key nd) v (DLinkedNode.next nd).
Definition with_next (v : option node_id) (nd : node) : node :=
  DLinkedNode.mk (DLinkedNode.key nd) (DLinkedNode.prev nd) v.

(** [DLinkedNode(key)]: a new object. *)
Definition new_node (key : option K) : M self_t node_id :=
  λ self,
    let n := next_id (ext self) in
    (Ok n,
     set_ext (mk_ext (node_map self) (head self) (tail self)
                (<[n := DLinkedNode.new key]> (heap self)) (S n)) self).

Definition _add_to_front (node : option node_id) : M self_t unit :=
  let* h := gets head in
  let* first := attr DLinkedNode.next (Some h) in
  set_attr (with_next first) node >>
  set_attr (with_prev (Some h)) node >>
  let* first := attr DLinkedNode.next (Some h) in
  set_attr (with_prev node) first >>
  set_attr (with_next node) (Some h).

Definition _remove_node (node : option node_id) : M self_t unit :=
  let* nx := attr DLinkedNode.next node in
  let* pv := attr DLinkedNode.prev node in
  set_attr (with_next nx) pv >>
  let* pv := attr DLinkedNode.prev node in
  let* nx := attr DLinkedNode.next node in
  set_attr (with_prev pv) nx >>
  set_attr (with_prev None) node >>
  set_attr (with_next None) node.

Definition _move_to_front (node : option node_id) : M self_t unit :=
  _remove_node node >> _add_to_front node.

(** [if k in d: del d[k]] is [delete k d]; the key of a node may be
    [None], which no dictionary of the cache has. *)
Definition discard {B} (k : option K) (d : gmap K B) : gmap K B :=
  match k with
  | Some k => base.delete k d
  | None => d
  end.

Definition _evict : M self_t unit :=
  let* t := gets tail in
  let* h := gets head in
  let* lru_node := attr DLinkedNode.prev (Some t) in
  if decide (lru_node = Some h) then ret tt else
  let* lru_key := attr DLinkedNode.key lru_node in
  _remove_node lru_node >>
  modify (λ self, set_node_map (discard lru_key (node_map self)) self) >>
  modify (λ self, set_cache (discard lru_key (_cache self)) self) >>
  modify_stats (λ st, CacheStats.set_evictions (CacheStats.evictions st + 1) st) >>
  sync_size.

Definition _on_access (key : K) (now : Time) : M self_t unit :=
  modify_entry key (CacheEntry.set_timestamp now) >>
  modify_entry key (λ e, CacheEntry.set_access_count (CacheEntry.access_count e + 1) e) >>
  let* m := gets node_map in
  match m !! key with
  | Some node => _move_to_front (Some node)
  | None => pass
  end.

Definition _on_insert (key : K) : M self_t unit :=
  let* new_node := new_node (Some key) in
  _add_to_front (Some new_node) >>
  modify (λ self, set_node_map (<[key := new_node]> (node_map self)) self).

Definition _on_update (key : K) (now : Time) : M self_t unit := _on_access key now.

Definition _on_delete (key : K) : M self_t unit :=
  let* m := gets node_map in
  match m !! key with
  | Some node =>
      _remove_node (Some node) >>
      modify (λ self, set_node_map (base.delete key (node_map self)) self)
  | None => pass
  end.

Definition _on_clear : M self_t unit :=
  modify (set_node_map ∅) >>
  let* h := gets head in
  let* t := gets tail in
  set_attr (with_next (Some t)) (Some h) >>
  set_attr (with_prev (Some h)) (Some t).

#[global] Instance hooks : Hooks K V Time (ext_t K) := {|
  CachePolicy._evict := _evict;
  CachePolicy._on_access := _on_access;
  CachePolicy._on_insert := _on_insert;
  CachePolicy._on_update := _on_update;
  CachePolicy._on_delete := _on_delete;
  CachePolicy._on_clear := _on_clear
|}.

(** The two sentinels are the first two objects made; their [key] is
    [None]. *)
Definition __init__ (capacity : Z) (name : string) : result self_t :=
  let hd := DLinkedNode.mk None None (Some 1%nat) in
  let tl := DLinkedNode.mk None (Some 0%nat) None in
  CachePolicy.__init__ capacity name
    (mk_ext ∅ 0%nat 1%nat
       (<[0%nat := hd]> (<[1%nat := tl]> (λ _, DLinkedNode.new None))) 2%nat).

Definition peek_lru : M self_t (option K) :=
  let* t := gets tail in
  let* h := gets head in
  let* lru_node := attr DLinkedNode.prev (Some t) in
  if decide (lru_node = Some h) then ret None
  else attr DLinkedNode.key lru_node.

Definition peek_mru : M self_t (option K) :=
  let* h := gets head in
  let* t := gets tail in
  let* mru_node := attr DLinkedNode.next (Some h) in
  if decide (mru_node = Some t) then ret None
  else attr DLinkedNode.key mru_node.

(** The loop [while current != self._tail] of [get_access_order].  It
    may run [fuel] times; the result is [None] when the loop would go
    on after that. *)
Fixpoint access_order_loop (fuel : nat) (current : option node_id) (order : list (option K))
    : M self_t (option (list (option K))) :=
  let* t := gets tail in
  if decide (current = Some t) then ret (Some order)
  else
    match fuel with
    | O => ret None
    | S fuel' =>
        let* k := attr DLinkedNode.key current in
        let* nx := attr DLinkedNode.next current in
        access_order_loop fuel' nx (order ++ [k])
    end.

Definition get_access_order (fuel : nat) : M self_t (option (list (option K))) :=
  let* h := gets head in
  let* current := attr DLinkedNode.next (Some h) in
  access_order_loop fuel current [].
End defs.
End LRUCache.

(** ** The three concrete classes as one type

    A level of the hierarchy holds a [CachePolicy] of any of the three
    classes; a method call on it goes to the methods of its class. *)

Module Policy.
Inductive t (K V Time : Type) `{Countable K} : Type :=
| FIFO (c : CachePolicy.t K V Time (FIFOCache.ext_t K))
| LRU (c : CachePolicy.t K V Time (LRUCache.ext_t K))
| LFU (c : CachePolicy.t K V Time (LFUCache.ext_t K)).
Arguments FIFO {K V Time _ _}.
Arguments LRU {K V Time _ _}.
Arguments LFU {K V Time _ _}.

Inductive class : Type := FIFOClass | LRUClass | LFUClass.

Section defs.
Context {K V Time : Type} `{Countable K}.

Definition lift {A B} (inj : CachePolicy.t K V Time A → t K V Time)
    (m : M (CachePolicy.t K V Time A) B) (c : CachePolicy.t K V Time A)
    : result B * t K V Time :=
  let (r, c') := m c in (r, inj c').

Definition get (key : K) (now : Time) : M (t K V Time) (pyval V) :=
  λ p, match p with
       | FIFO c => lift FIFO (CachePolicy.get key now) c
       | LRU c => lift LRU (CachePolicy.get key now) c
       | LFU c => lift LFU (CachePolicy.get key now) c
       end.

Definition put (key : K) (value : pyval V) (size : Z) (now : Time) : M (t K V Time) unit :=
  λ p, match p with
       | FIFO c => lift FIFO (CachePolicy.put key value size now) c
       | LRU c => lift LRU (CachePolicy.put key value size now) c
       | LFU c => lift LFU (CachePolicy.put key value size now) c
       end.

Definition delete (key : K) : M (t K V Time) bool :=
  λ p, match p with
       | FIFO c => lift FIFO (CachePolicy.delete key) c
       | LRU c => lift LRU (CachePolicy.delete key) c
       | LFU c => lift LFU (CachePolicy.delete key) c
       end.

Definition clear : M (t K V Time) unit :=
  λ p, match p with
       | FIFO c => lift FIFO CachePolicy.clear c
       | LRU c => lift LRU CachePolicy.clear c
       | LFU c => lift LFU CachePolicy.clear c
       end.

Definition reset_stats : M (t K V Time) unit :=
  λ p, match p with
       | FIFO c => lift FIFO CachePolicy.reset_stats c
       | LRU c => lift LRU CachePolicy.reset_stats c
       | LFU c => lift LFU CachePolicy.reset_stats c
       end.

(** The hooks [put] runs for a new key, as calls on the object. *)
Definition _evict : M (t K V Time) unit :=
  λ p, match p with
       | FIFO c => lift FIFO CachePolicy._evict c
       | LRU c => lift LRU CachePolicy._evict c
       | LFU c => lift LFU CachePolicy._evict c
       end.

Definition _insert_entry (key : K) (value : pyval V) (size : Z) (now : Time)
    : M (t K V Time) unit :=
  λ p, match p with
       | FIFO c => lift FIFO (CachePolicy._insert_entry key value size now) c
       | LRU c => lift LRU (CachePolicy._insert_entry key value size now) c
       | LFU c => lift LFU (CachePolicy._insert_entry key value size now) c
       end.

(** [FIFOCache(capacity, name)], [LRUCache(capacity, name)],
    [LFUCache(capacity, name)] *)
Definition new (cls : class) (capacity : Z) (name : string) : result (t K V Time) :=
  match cls with
  | FIFOClass =>
      match FIFOCache.__init__ capacity name with Ok c => Ok (FIFO c) | Raise e => Raise e end
  | LRUClass =>
      match LRUCache.__init__ capacity name with Ok c => Ok (LRU c) | Raise e => Raise e end
  | LFUClass =>
      match LFUCache.__init__ capacity name with Ok c => Ok (LFU c) | Raise e => Raise e end
  end.

Definition _cache (p : t K V Time) : gmap K (CacheEntry.t K V Time) :=
  match p with
  | FIFO c => CachePolicy._cache c
  | LRU c => CachePolicy._cache c
  | LFU c => CachePolicy._cache c
  end.

Definition stats (p : t K V Time) : CacheStats.t :=
  match p with
  | FIFO c => CachePolicy._stats c
  | LRU c => CachePolicy._stats c
  | LFU c => CachePolicy._stats c
  end.

Definition capacity (p : t K V Time) : Z :=
  match p with
  | FIFO c => CachePolicy._capacity c
  | LRU c => CachePolicy._capacity c
  | LFU c => CachePolicy._capacity c
  end.

Definition current_size (p : t K V Time) : Z := Z.of_nat (size (_cache p)).

Definition contains (key : K) (p : t K V Time) : bool :=
  bool_decide (is_Some (_cache p !! key)).
End defs.
End Policy.

(** ** cache_hierarchy.py *)

(** The latencies are Python floats.  Their arithmetic is left abstract:
    [0.0], [x + y], [x / n] for an integer [n], and [m / n] for two
    integers. *)
Class Float (F : Type) : Type := {
  fzero : F;
  fadd : F → F → F;
  fdiv_int : F → Z → F;
  int_truediv : Z → Z → F
}.

Module LevelStats.
Record t (F : Type) : Type := mk {
  name : string;
  hits : Z;
  misses : Z;
  promotions : Z;
  demotions : Z;
  total_latency_ms : F
}.
Arguments mk {F}.
Arguments name {F}.
Arguments hits {F}.
Arguments misses {F}.
Arguments promotions {F}.
Arguments demotions {F}.
Arguments total_latency_ms {F}.

Section defs.
Context {F : Type} `{Float F}.

(** [LevelStats(name=name)] *)
Definition new (name : string) : t F := mk name 0 0 0 0 fzero.

Definition set_hits (n : Z) (s : t F) : t F :=
  mk (name s) n (misses s) (promotions s) (demotions s) (total_latency_ms s).
Definition set_misses (n : Z) (s : t F) : t F :=
  mk (name s) (hits s) n (promotions s) (demotions s) (total_latency_ms s).
Definition set_promotions (n : Z) (s : t F) : t F :=
  mk (name s) (hits s) (misses s) n (demotions s) (total_latency_ms s).
Definition set_total_latency_ms (x : F) (s : t F) : t F :=
  mk (name s) (hits s) (misses s) (promotions s) (demotions s) x.

Definition hit_rate (s : t F) : F :=
  let total := hits s + misses s in
  if decide (0 < total) then int_truediv (hits s) total else fzero.

Definition avg_latency_ms (s : t F) : F :=
  let total_accesses := hits s + misses s in
  if decide (0 < total_accesses) then fdiv_int (total_latency_ms s) total_accesses else fzero.
End defs.
End LevelStats.

Module CacheLevel.
Record t (K V Time F : Type) `{Countable K} : Type := mk {
  cache : Policy.t K V Time;
  name : string;
  latency_ms : F;
  stats : LevelStats.t F
}.
Arguments mk {K V Time F _ _}.
Arguments cache {K V Time F _ _}.
Arguments name {K V Time F _ _}.
Arguments latency_ms {K V Time F _ _}.
Arguments stats {K V Time F _ _}.

Section defs.
Context {K V Time F : Type} `{Countable K}.
Definition set_cache (c : Policy.t K V Time) (l : t K V Time F) : t K V Time F :=
  mk c (name l) (latency_ms l) (stats l).
Definition set_stats (st : LevelStats.t F) (l : t K V Time F) : t K V Time F :=
  mk (cache l) (name l) (latency_ms l) st.
End defs.
End CacheLevel.

Module CacheHierarchy.
Record t (K V Time F : Type) `{Countable K} : Type := mk {
  _name : string;
  _levels : list (CacheLevel.t K V Time F);
  _total_hits : Z;
  _total_misses : Z;
  _total_promotions : Z;
  _total_latency_ms : F
}.
Arguments mk {K V Time F _ _}.
Arguments _name {K V Time F _ _}.
Arguments _levels {K V Time F _ _}.
Arguments _total_hits {K V Time F _ _}.
Arguments _total_misses {K V Time F _ _}.
Arguments _total_promotions {K V Time F _ _}.
Arguments _total_latency_ms {K V Time F _ _}.

Section defs.
Context {K V Time F : Type} `{Countable K} `{Float F}.
Abbreviation self_t := (t K V Time F).
Abbreviation level := (CacheLevel.t K V Time F).

Definition __init__ (name : string) : self_t := mk name [] 0 0 0 fzero.

Definition set_levels (ls : list level) (self : self_t) : self_t :=
  mk (_name self) ls (_total_hits self) (_total_misses self)
     (_total_promotions self) (_total_latency_ms self).
Definition set_total_hits (n : Z) (self : self_t) : self_t :=
  mk (_name self) (_levels self) n (_total_misses self)
     (_total_promotions self) (_total_latency_ms self).
Definition set_total_misses (n : Z) (self : self_t) : self_t :=
  mk (_name self) (_levels self) (_total_hits self) n
     (_total_promotions self) (_total_latency_ms self).
Definition set_total_promotions (n : Z) (self : self_t) : self_t :=
  mk (_name self) (_levels self) (_total_hits self) (_total_misses self)
     n (_total_latency_ms self).
Definition set_total_latency_ms (x : F) (self : self_t) : self_t :=
  mk (_name self) (_levels self) (_total_hits self) (_total_misses self)
     (_total_promotions self) x.

Definition num_levels (self : self_t) : nat := length (_levels self).
Definition total_capacity (self : self_t) : Z :=
  foldr Z.add 0 (Policy.capacity ∘ CacheLevel.cache <$> _levels self).
Definition total_size (self : self_t) : Z :=
  foldr Z.add 0 (Policy.current_size ∘ CacheLevel.cache <$> _levels self).

Definition add_level (cache : Policy.t K V Time) (name : option string) (latency_ms : F)
    : M self_t unit :=
  let* n := gets num_levels in
  let name := match name with
              | None => "L" +:+ pretty (n + 1)%nat
              | Some name => name
              end in
  let* ls := gets _levels in
  if existsb (λ l, bool_decide (CacheLevel.name l = name)) ls
  then raise ValueError
  else modify (set_levels (ls ++ [CacheLevel.mk cache name latency_ms (LevelStats.new name)])).

(** [self._levels[i]], the level object at index [i]. *)
Definition level_item (i : nat) : M self_t level :=
  λ self, match _levels self !! i with
          | Some l => (Ok l, self)
          | None => (Raise IndexError, self)
          end.

(** An assignment to a field of [self._levels[i].stats]. *)
Definition modify_level_stats (i : nat) (f : LevelStats.t F → LevelStats.t F) : M self_t unit :=
  modify (λ self,
    set_levels (alter (λ l, CacheLevel.set_stats (f (CacheLevel.stats l)) l) i (_levels self)) self).

(** A method call on [self._levels[i].cache]. *)
Definition on_cache {B} (i : nat) (m : M (Policy.t K V Time) B) : M self_t B :=
  λ self, match _levels self !! i with
          | Some l =>
              let (r, c) := m (CacheLevel.cache l) in
              (r, set_levels (<[i := CacheLevel.set_cache c l]> (_levels self)) self)
          | None => (Raise IndexError, self)
          end.

(** [clock k] is what [datetime.now()] returns during the [k]-th call
    that one call of [get] or [put] makes on a policy; [tick] counts
    those calls.  The loop [for upper_level_index in range(…)]: [n]
    rounds are left. *)
Fixpoint promote_loop (key : K) (value : pyval V) (clock : nat → Time) (tick : nat)
    (n : nat) (upper_level_index : nat) : M self_t unit :=
  match n with
  | O => ret tt
  | S n' =>
      let* _ := level_item upper_level_index in
      on_cache upper_level_index (Policy.put key value 1 (clock tick)) >>
      modify_level_stats upper_level_index
        (λ st, LevelStats.set_promotions (LevelStats.promotions st + 1) st) >>
      modify (λ self, set_total_promotions (_total_promotions self + 1) self) >>
      promote_loop key value clock (S tick) n' (S upper_level_index)
  end.

Definition _promote_to_upper_levels (key : K) (value : pyval V) (from_level_index : nat)
    (clock : nat → Time) (tick : nat) : M self_t unit :=
  promote_loop key value clock tick from_level_index 0%nat.

(** The loop [for level_index, level in enumerate(self._levels)] of
    [get], with [n] levels left, and what follows it. *)
Fixpoint get_loop (key : K) (clock : nat → Time) (n : nat) (level_index : nat)
    (cumulative_latency : F) : M self_t (pyval V) :=
  match n with
  | O =>
      modify (λ self, set_total_misses (_total_misses self + 1) self) >>
      ret None
  | S n' =>
      let* level := level_item level_index in
      let cumulative_latency := fadd cumulative_latency (CacheLevel.latency_ms level) in
      modify_level_stats level_index
        (λ st, LevelStats.set_total_latency_ms
                 (fadd (LevelStats.total_latency_ms st) (CacheLevel.latency_ms level)) st) >>
      let* value := on_cache level_index (Policy.get key (clock level_index)) in
      match value with
      | Some _ =>
          modify_level_stats level_index
            (λ st, LevelStats.set_hits (LevelStats.hits st + 1) st) >>
          modify (λ self, set_total_hits (_total_hits self + 1) self) >>
          modify (λ self, set_total_latency_ms
                            (fadd (_total_latency_ms self) cumulative_latency) self) >>
          (if decide (0 < level_index)%nat
           then _promote_to_upper_levels key value level_index clock (S level_index)
           else pass) >>
          ret value
      | None =>
          modify_level_stats level_index
            (λ st, LevelStats.set_misses (LevelStats.misses st + 1) st) >>
          get_loop key clock n' (S level_index) cumulative_latency
      end
  end.

Definition get (key : K) (clock : nat → Time) : M self_t (pyval V) :=
  let* n := gets num_levels in
  get_loop key clock n 0%nat fzero.

(** The loop [for level in self._levels] of [put]. *)
Fixpoint put_loop (key : K) (value : pyval V) (clock : nat → Time) (n : nat)
    (level_index : nat) : M self_t unit :=
  match n with
  | O => ret tt
  | S n' =>
      on_cache level_index (Policy.put key value 1 (clock level_index)) >>
      put_loop key value clock n' (S level_index)
  end.

Definition put (key : K) (value : pyval V) (clock : nat → Time) : M self_t unit :=
  let* n := gets num_levels in
  if decide (n = 0%nat) then raise RuntimeError
  else put_loop key value clock n 0%nat.

(** The loop [for level in self._levels] of [delete]; [deleted] is the
    local variable of that name. *)
Fixpoint delete_loop (key : K) (n : nat) (level_index : nat) (deleted : bool)
    : M self_t bool :=
  match n with
  | O => ret deleted
  | S n' =>
      let* r := on_cache level_index (Policy.delete key) in
      delete_loop key n' (S level_index) (if (r : bool) then true else deleted)
  end.

Definition delete (key : K) : M self_t bool :=
  let* n := gets num_levels in
  delete_loop key n 0%nat false.

Definition contains (key : K) (self : self_t) : bool :=
  existsb (λ l, Policy.contains key (CacheLevel.cache l)) (_levels self).

(** The loop [for level in self._levels] of [clear]. *)
Fixpoint clear_loop (n : nat) (level_index : nat) : M self_t unit :=
  match n with
  | O => ret tt
  | S n' => on_cache level_index Policy.clear >> clear_loop n' (S level_index)
  end.

Definition clear : M self_t unit :=
  let* n := gets num_levels in
  clear_loop n 0%nat.

(** The loop [for level in self._levels] of [reset_stats]. *)
Fixpoint reset_stats_loop (n : nat) (level_index : nat) : M self_t unit :=
  match n with
  | O => ret tt
  | S n' =>
      let* level := level_item level_index in
      modify_level_stats level_index (λ _, LevelStats.new (CacheLevel.name level)) >>
      on_cache level_index Policy.reset_stats >>
      reset_stats_loop n' (S level_index)
  end.

Definition reset_stats : M self_t unit :=
  let* n := gets num_levels in
  reset_stats_loop n 0%nat >>
  modify (set_total_hits 0) >>
  modify (set_total_misses 0) >>
  modify (set_total_promotions 0) >>
  modify (set_total_latency_ms fzero).

(** [get_level(name)]: the first level of that name. *)
Definition get_level (name : string) (self : self_t) : option level :=
  find (λ l, bool_decide (CacheLevel.name l = name)) (_levels self).

(** [level.stats if level else None]: a level object is never falsy. *)
Definition get_level_stats (name : string) (self : self_t) : option (LevelStats.t F) :=
  CacheLevel.stats <$> get_level name self.

(** The entries ['total_accesses'], ['total_latency_ms'] and
    ['avg_latency_ms'] of [get_all_stats()['global']]. *)
Definition total_accesses (self : self_t) : Z := _total_hits self + _total_misses self.
Definition global_hit_rate (self : self_t) : F :=
  if decide (0 < total_accesses self)
  then int_truediv (_total_hits self) (total_accesses self) else fzero.
Definition avg_latency_ms (self : self_t) : F :=
  if decide (0 < total_accesses self)
  then fdiv_int (_total_latency_ms self) (total_accesses self) else fzero.
End defs.
End CacheHierarchy.

(** * Specification *)

Section spec.
Context {K V Time : Type} `{Countable K}.

(** ** Sequences of public operations *)

Inductive op : Type :=
| Get (key : K) (now : Time)
| Put (key : K) (value : pyval V) (size : Z) (now : Time)
| Delete (key : K)
| Clear
| ResetStats.

Definition call (o : op) : M (Policy.t K V Time) unit :=
  match o with
  | Get key now => Policy.get key now >> ret tt
  | Put key value size now => Policy.put key value size now
  | Delete key => Policy.delete key >> ret tt
  | Clear => Policy.clear
  | ResetStats => Policy.reset_stats
  end.

(** The object after the calls [ops], whatever each call returned. *)
Definition after (ops : list op) (p : Policy.t K V Time) : Policy.t K V Time :=
  foldl (λ p o, exec (call o) p) p ops.

(** A policy instance: an object of one of the three classes, constructed
    and then used through its public methods only. *)
Definition reachable (p : Policy.t K V Time) : Prop :=
  ∃ cls capacity name p0 ops, Policy.new cls capacity name = Ok p0 ∧ p = after ops p0.

(** ** Invariants *)

Definition base_inv {A} (s : CachePolicy.t K V Time A) : Prop :=
  0 < CachePolicy._capacity s ∧
  CachePolicy.current_size s ≤ CachePolicy._capacity s ∧
  CacheStats.current_size (CachePolicy._stats s) = CachePolicy.current_size s ∧
  CacheStats.max_size (CachePolicy._stats s) = CachePolicy._capacity s.

(** FIFO: the queue holds each cached key once. *)
Definition fifo_aux (c : gmap K (CacheEntry.t K V Time)) (q : list K) : Prop :=
  NoDup q ∧ ∀ k, k ∈ q ↔ is_Some (c !! k).

Definition fifo_inv (s : CachePolicy.t K V Time (FIFOCache.ext_t K)) : Prop :=
  base_inv s ∧ fifo_aux (CachePolicy._cache s) (FIFOCache.queue s).

(** LFU: the buckets partition the cached keys by their frequency, no
    bucket is empty, frequencies start at 1. *)
Definition lfu_buckets (c : gmap K (CacheEntry.t K V Time))
    (fm : gmap Z (list K)) (fk : gmap K Z) : Prop :=
  (∀ f b, fm !! f = Some b → b ≠ [] ∧ NoDup b ∧ ∀ k, k ∈ b → fk !! k = Some f) ∧
  (∀ k f, fk !! k = Some f → 1 ≤ f ∧ ∃ b, fm !! f = Some b ∧ k ∈ b) ∧
  (∀ k, is_Some (fk !! k) ↔ is_Some (c !! k)).

(** [mf] is 0 when there is no bucket, and the least frequency that has a
    bucket otherwise. *)
Definition lfu_min (fm : gmap Z (list K)) (mf : Z) : Prop :=
  (fm = ∅ ∧ mf = 0) ∨ (is_Some (fm !! mf) ∧ ∀ f, is_Some (fm !! f) → mf ≤ f).

Definition lfu_inv (s : CachePolicy.t K V Time (LFUCache.ext_t K)) : Prop :=
  base_inv s ∧
  (lfu_buckets (CachePolicy._cache s) (LFUCache.freq_map s) (LFUCache.freq_key s) ∧
   lfu_min (LFUCache.freq_map s) (LFUCache.min_freq s)).

(** LRU: the nodes [ids], in this order, are linked between the two
    sentinels, both ways. *)
Fixpoint dseg (h : node_id → DLinkedNode.t K) (p : node_id) (ids : list node_id)
    (t : node_id) : Prop :=
  match ids with
  | [] => DLinkedNode.next (h p) = Some t ∧ DLinkedNode.prev (h t) = Some p
  | n :: ids' =>
      DLinkedNode.next (h p) = Some n ∧ DLinkedNode.prev (h n) = Some p ∧ dseg h n ids' t
  end.

(** The structure of the list: the nodes [ids] between the sentinels are
    distinct, linked, and objects that exist. *)
Definition lru_linked (a : LRUCache.ext_t K) (ids : list node_id) : Prop :=
  NoDup (LRUCache._head a :: ids ++ [LRUCache._tail a]) ∧
  dseg (LRUCache.nodes a) (LRUCache._head a) ids (LRUCache._tail a) ∧
  (∀ n, n ∈ LRUCache._head a :: ids ++ [LRUCache._tail a] → (n < LRUCache.next_id a)%nat).

(** [ks] are the keys of the nodes [ids], from most to least recently
    used, and the node map sends each key to its node. *)
Definition lru_keyed (a : LRUCache.ext_t K) (ids : list node_id) (ks : list K) : Prop :=
  (λ n, DLinkedNode.key (LRUCache.nodes a n)) <$> ids = Some <$> ks ∧
  NoDup ks ∧
  (∀ k n, LRUCache._node_map a !! k = Some n ↔
          n ∈ ids ∧ DLinkedNode.key (LRUCache.nodes a n) = Some k).

Definition lru_list (a : LRUCache.ext_t K) (ids : list node_id) (ks : list K) : Prop :=
  lru_linked a ids ∧ lru_keyed a ids ks.

(** The keys in the list are the cached keys. *)
Definition lru_aux (c : gmap K (CacheEntry.t K V Time)) (a : LRUCache.ext_t K) : Prop :=
  ∃ ids ks, lru_list a ids ks ∧ ∀ k, k ∈ ks ↔ is_Some (c !! k).

Definition lru_inv (s : CachePolicy.t K V Time (LRUCache.ext_t K)) : Prop :=
  base_inv s ∧ lru_aux (CachePolicy._cache s) (CachePolicy.ext s).

(** The order of the LRU list, most recently used first. *)
Definition lru_order (s : CachePolicy.t K V Time (LRUCache.ext_t K)) (ks : list K) : Prop :=
  ∃ ids, lru_list (CachePolicy.ext s) ids ks.

(** The heap after [_remove_node(n)], when [n] is between [pv] and [nx],
    and after [_add_to_front(n)], when [f] follows the head [hd]. *)
Definition unlinked (n pv nx : node_id) (h : node_id → DLinkedNode.t K)
    : node_id → DLinkedNode.t K :=
  let h1 := <[pv := LRUCache.with_next (Some nx) (h pv)]> h in
  let h2 := <[nx := LRUCache.with_prev (Some pv) (h1 nx)]> h1 in
  let h3 := <[n := LRUCache.with_prev None (h2 n)]> h2 in
  <[n := LRUCache.with_next None (h3 n)]> h3.

Definition linked_front (n hd f : node_id) (h : node_id → DLinkedNode.t K)
    : node_id → DLinkedNode.t K :=
  let h1 := <[n := LRUCache.with_next (Some f) (h n)]> h in
  let h2 := <[n := LRUCache.with_prev (Some hd) (h1 n)]> h1 in
  let h3 := <[f := LRUCache.with_prev (Some n) (h2 f)]> h2 in
  <[hd := LRUCache.with_next (Some n) (h3 hd)]> h3.

Definition inv (p : Policy.t K V Time) : Prop :=
  match p with
  | Policy.FIFO c => fifo_inv c
  | Policy.LRU c => lru_inv c
  | Policy.LFU c => lfu_inv c
  end.

(** What [_on_access] of LRU and LFU does to the entry. *)
Definition touch (now : Time) (e : CacheEntry.t K V Time) : CacheEntry.t K V Time :=
  CacheEntry.set_access_count (CacheEntry.access_count (CacheEntry.set_timestamp now e) + 1)
    (CacheEntry.set_timestamp now e).

(** What [_update_entry] assigns before it calls [_on_update]. *)
Definition overwrite (value : pyval V) (size : Z) (e : CacheEntry.t K V Time)
    : CacheEntry.t K V Time :=
  CacheEntry.set_size size (CacheEntry.set_value value e).

(** The states the methods of the base class pass through. *)
Definition hit_stats (st : CacheStats.t) : CacheStats.t :=
  CacheStats.set_hits (CacheStats.hits st + 1) st.
Definition miss_stats (st : CacheStats.t) : CacheStats.t :=
  CacheStats.set_misses (CacheStats.misses st + 1) st.

(** After [self._cache[key] = entry] and the size update of
    [_insert_entry], before [_on_insert]. *)
Definition inserted {A} (s : CachePolicy.t K V Time A) (k : K) (v : pyval V) (sz : Z)
    (now : Time) : CachePolicy.t K V Time A :=
  let c := <[k := CacheEntry.new k v now sz]> (CachePolicy._cache s) in
  CachePolicy.mk (CachePolicy._capacity s) (CachePolicy._name s) c
    (CacheStats.set_current_size (Z.of_nat (size c)) (CachePolicy._stats s)) (CachePolicy.ext s).

(** After an eviction of [k0] that leaves the subclass fields [a]. *)
Definition evicted {A} (s : CachePolicy.t K V Time A) (k0 : K) (a : A)
    : CachePolicy.t K V Time A :=
  let c := delete k0 (CachePolicy._cache s) in
  CachePolicy.mk (CachePolicy._capacity s) (CachePolicy._name s) c
    (CacheStats.set_current_size (Z.of_nat (size c))
       (CacheStats.set_evictions (CacheStats.evictions (CachePolicy._stats s) + 1)
          (CachePolicy._stats s))) a.

(** The subclass fields of an LFU cache after [_increment_frequency(k)],
    when [k] had frequency [f] and its bucket without it is [b']. *)
Definition lfu_bumped (k : K) (f : Z) (b' : list K) (a : LFUCache.ext_t K) : LFUCache.ext_t K :=
  let fm1 := if decide (b' = []) then delete f (LFUCache._freq_map a)
             else <[f := b']> (LFUCache._freq_map a) in
  let mf1 := if decide (b' = []) then
               if decide (f = LFUCache._min_freq a) then f + 1 else LFUCache._min_freq a
             else LFUCache._min_freq a in
  LFUCache.mk_ext (<[f + 1 := od_set k (default [] (fm1 !! (f + 1)))]> fm1)
    (<[k := f + 1]> (LFUCache._freq_key a)) mf1.

(** After [_evict] took [k0] out of the bucket at [_min_freq], of which
    [b'] remains. *)
Definition lfu_evicted (k0 : K) (b' : list K) (a : LFUCache.ext_t K) : LFUCache.ext_t K :=
  let mf := LFUCache._min_freq a in
  LFUCache.mk_ext
    (if decide (b' = []) then delete mf (LFUCache._freq_map a)
     else <[mf := b']> (LFUCache._freq_map a))
    (delete k0 (LFUCache._freq_key a)) mf.

(** After [_on_insert(k)]. *)
Definition lfu_inserted (k : K) (a : LFUCache.ext_t K) : LFUCache.ext_t K :=
  LFUCache.mk_ext
    (<[1 := od_set k (default [] (LFUCache._freq_map a !! 1))]> (LFUCache._freq_map a))
    (<[k := 1]> (LFUCache._freq_key a)) 1.

(** After [_on_delete(k)], when [k] had frequency [f] and its bucket
    without it is [b']. *)
Definition lfu_deleted (k : K) (f : Z) (b' : list K) (a : LFUCache.ext_t K) : LFUCache.ext_t K :=
  let fm1 := if decide (b' = []) then delete f (LFUCache._freq_map a)
             else <[f := b']> (LFUCache._freq_map a) in
  let mf1 := if decide (b' = []) then
               if decide (f = LFUCache._min_freq a)
               then (if decide (fm1 = ∅) then 0 else min_key fm1)
               else LFUCache._min_freq a
             else LFUCache._min_freq a in
  LFUCache.mk_ext fm1 (delete k (LFUCache._freq_key a)) mf1.

Definition lfu_aux (c : gmap K (CacheEntry.t K V Time)) (a : LFUCache.ext_t K) : Prop :=
  lfu_buckets c (LFUCache._freq_map a) (LFUCache._freq_key a) ∧
  lfu_min (LFUCache._freq_map a) (LFUCache._min_freq a).

Definition lfu_pre (c : gmap K (CacheEntry.t K V Time)) (a : LFUCache.ext_t K) : Prop :=
  lfu_buckets c (LFUCache._freq_map a) (LFUCache._freq_key a).

(** The FIFO invariant on the subclass fields. *)
Definition FInv (c : gmap K (CacheEntry.t K V Time)) (a : FIFOCache.ext_t K) : Prop :=
  fifo_aux c (FIFOCache._insertion_queue a).

(** The neighbours of a node of the list: the last of [p :: l1], the first
    of [l2 ++ [t]]. *)
Definition before (p : node_id) (l1 : list node_id) : node_id := default p (last l1).
Definition behind (l2 : list node_id) (t : node_id) : node_id := default t (head l2).

(** What a [get] or an update does to the entry it finds: nothing in FIFO,
    whose [_on_access] is empty. *)
Definition ptouch (p : Policy.t K V Time) (now : Time) (e : CacheEntry.t K V Time)
    : CacheEntry.t K V Time :=
  match p with
  | Policy.FIFO _ => e
  | _ => touch now e
  end.

Definition same_class (p p' : Policy.t K V Time) : Prop :=
  match p, p' with
  | Policy.FIFO _, Policy.FIFO _ | Policy.LRU _, Policy.LRU _ | Policy.LFU _, Policy.LFU _ => True
  | _, _ => False
  end.

End spec.

(** ** The hierarchy *)

Section hierarchy_spec.
Context {K V Time F : Type} `{Countable K} `{Float F}.

(** A hierarchy whose levels hold policy instances.  Each level has a
    policy object of its own: a list of level records shares none. *)
Definition hier_ok (h : CacheHierarchy.t K V Time F) : Prop :=
  ∀ l, l ∈ CacheHierarchy._levels h → reachable (CacheLevel.cache l).

(** What [level.cache.get(key)] returns: the stored value, or [None] for an
    absent key. *)
Definition lookup_at (key : K) (l : CacheLevel.t K V Time F) : pyval V :=
  Policy._cache (CacheLevel.cache l) !! key ≫= CacheEntry.value.

(** The lookup of [key] hits at level [i] with value [v]: the levels before
    it return [None], level [i] returns [v], which is not [None]. *)
Definition hits_at (h : CacheHierarchy.t K V Time F) (key : K) (i : nat) (v : V) : Prop :=
  (∃ l, CacheHierarchy._levels h !! i = Some l ∧ lookup_at key l = Some v) ∧
  ∀ j l, (j < i)%nat → CacheHierarchy._levels h !! j = Some l → lookup_at key l = None.

(** The level at index [j] after [get] looked [key] up in it: found or not,
    its latency is counted and its policy has served a [get]. *)
Definition probed (key : K) (clock : nat → Time) (j : nat) (l : CacheLevel.t K V Time F)
    : CacheLevel.t K V Time F :=
  CacheLevel.mk (exec (Policy.get key (clock j)) (CacheLevel.cache l))
    (CacheLevel.name l) (CacheLevel.latency_ms l)
    (LevelStats.set_total_latency_ms
       (fadd (LevelStats.total_latency_ms (CacheLevel.stats l)) (CacheLevel.latency_ms l))
       (CacheLevel.stats l)).

Definition missed (key : K) (clock : nat → Time) (j : nat) (l : CacheLevel.t K V Time F)
    : CacheLevel.t K V Time F :=
  let l' := probed key clock j l in
  CacheLevel.set_stats
    (LevelStats.set_misses (LevelStats.misses (CacheLevel.stats l') + 1) (CacheLevel.stats l')) l'.

Definition hit (key : K) (clock : nat → Time) (j : nat) (l : CacheLevel.t K V Time F)
    : CacheLevel.t K V Time F :=
  let l' := probed key clock j l in
  CacheLevel.set_stats
    (LevelStats.set_hits (LevelStats.hits (CacheLevel.stats l') + 1) (CacheLevel.stats l')) l'.

(** The level after a promotion wrote [key] to it at time [now]. *)
Definition promoted (key : K) (value : pyval V) (now : Time) (l : CacheLevel.t K V Time F)
    : CacheLevel.t K V Time F :=
  CacheLevel.mk (exec (Policy.put key value 1 now) (CacheLevel.cache l))
    (CacheLevel.name l) (CacheLevel.latency_ms l)
    (LevelStats.set_promotions (LevelStats.promotions (CacheLevel.stats l) + 1)
       (CacheLevel.stats l)).

(** The level at index [j] after the write-through [put]. *)
Definition written (key : K) (value : pyval V) (clock : nat → Time) (j : nat)
    (l : CacheLevel.t K V Time F) : CacheLevel.t K V Time F :=
  CacheLevel.set_cache (exec (Policy.put key value 1 (clock j)) (CacheLevel.cache l)) l.

Definition levels_inv (ls : list (CacheLevel.t K V Time F)) : Prop :=
  Forall (λ l, inv (CacheLevel.cache l)) ls.

(** The counters of the hierarchy are those of [h]. *)
Definition same_totals (h h' : CacheHierarchy.t K V Time F) : Prop :=
  CacheHierarchy._total_hits h' = CacheHierarchy._total_hits h ∧
  CacheHierarchy._total_misses h' = CacheHierarchy._total_misses h ∧
  CacheHierarchy._total_promotions h' = CacheHierarchy._total_promotions h ∧
  CacheHierarchy._total_latency_ms h' = CacheHierarchy._total_latency_ms h.

End hierarchy_spec.

(** ** Properties named in the statements *)

Section properties.
Context {K V Time : Type} `{Countable K}.

Definition is_fifo (p : Policy.t K V Time) : bool :=
  match p with
  | Policy.FIFO _ => true
  | _ => false
  end.

(** A [get] of [key] at time [now] updates the entry it finds: the
    timestamp becomes [now] and the access count grows by 1. *)
Definition get_touches (p : Policy.t K V Time) (key : K) (now : Time) : Prop :=
  ∀ e, Policy._cache p !! key = Some e →
  ∃ e', Policy._cache (exec (Policy.get key now) p) !! key = Some e' ∧
        CacheEntry.timestamp e' = now ∧
        CacheEntry.access_count e' = CacheEntry.access_count e + 1.

End properties.

(** ** Counting the calls *)

Section counting.
Context {K V Time : Type}.

(** The [get] calls among [ops] that come after the last [reset_stats],
    and the [put] calls likewise. *)
Definition gets_since_reset (ops : list (@op K V Time)) : Z :=
  foldl (λ n o, match o with Get _ _ => n + 1 | ResetStats => 0 | _ => n end) 0 ops.

Definition puts_since_reset (ops : list (@op K V Time)) : Z :=
  foldl (λ n o, match o with Put _ _ _ _ => n + 1 | ResetStats => 0 | _ => n end) 0 ops.
End counting.

(** ** The frequencies of LFU *)

Section lfu_spec.
Context {K V Time : Type} `{Countable K}.

(** The frequency of each key is the access count of its entry. *)
Definition freq_counts (s : CachePolicy.t K V Time (LFUCache.ext_t K)) : Prop :=
  ∀ k, LFUCache.freq_key s !! k = CacheEntry.access_count <$> CachePolicy._cache s !! k.

(** The bucket the frequency map holds when the keys [b] are left at a
    frequency: the code deletes a bucket that has become empty. *)
Definition bucket_of (b : list K) : option (list K) :=
  if decide (b = []) then None else Some b.
End lfu_spec.

(** ** Hierarchies made through their public methods *)

Section hierarchy_calls.
Context {K V Time F : Type} `{Countable K} `{Float F}.

Inductive hop : Type :=
| HAddLevel (cache : Policy.t K V Time) (name : option string) (latency_ms : F)
| HGet (key : K) (clock : nat → Time)
| HPut (key : K) (value : pyval V) (clock : nat → Time)
| HDelete (key : K)
| HClear
| HResetStats.

Definition hcall (o : hop) : M (CacheHierarchy.t K V Time F) unit :=
  match o with
  | HAddLevel cache name latency_ms => CacheHierarchy.add_level cache name latency_ms
  | HGet key clock => CacheHierarchy.get key clock >> ret tt
  | HPut key value clock => CacheHierarchy.put key value clock
  | HDelete key => CacheHierarchy.delete key >> ret tt
  | HClear => CacheHierarchy.clear
  | HResetStats => CacheHierarchy.reset_stats
  end.

(** The hierarchy after the calls [ops], whether they returned or raised. *)
Definition hafter (ops : list hop) (h : CacheHierarchy.t K V Time F)
    : CacheHierarchy.t K V Time F :=
  foldl (λ h o, exec (hcall o) h) h ops.

(** A hierarchy made by [CacheHierarchy(name)] and calls of its public
    methods, where each [add_level] is given a policy instance that is
    used for this level only. *)
Definition built (h : CacheHierarchy.t K V Time F) : Prop :=
  ∃ name ops,
    Forall (λ o, match o with HAddLevel cache _ _ => reachable cache | _ => True end) ops ∧
    h = hafter ops (CacheHierarchy.__init__ name).

(** The sum of a counter over the levels. *)
Definition level_sum (f : LevelStats.t F → Z) (h : CacheHierarchy.t K V Time F) : Z :=
  foldr Z.add 0 ((λ l, f (CacheLevel.stats l)) <$> CacheHierarchy._levels h).
End hierarchy_calls.

(** * Small instances

    Caches and hierarchies over integer keys, values and clock readings,
    with latencies in exact rational arithmetic. *)

Definition exact : Float Q := {|
  fzero := 0%Q;
  fadd := Qplus;
  fdiv_int := λ x n, Qdiv x (inject_Z n);
  int_truediv := λ m n, Qdiv (inject_Z m) (inject_Z n)
|}.

(** [FIFOCache(1)], and after [put(1, 7)] at time 10. *)
Definition fifo_new : Policy.t Z Z Z :=
  Policy.FIFO (CachePolicy.mk 1 "FIFO" ∅ (CacheStats.new 0 1) (FIFOCache.mk_ext [])).
Definition fifo_one : Policy.t Z Z Z := after [Put 1 (Some 7) 1 10] fifo_new.

(** [LRUCache(2)] and [LFUCache(2)] with the keys 1 and 2, put in this
    order at times 10 and 11. *)
Definition two_puts : list (@op Z Z Z) := [Put 1 (Some 7) 1 10; Put 2 (Some 8) 1 11].
Definition lru_new : Policy.t Z Z Z :=
  match Policy.new Policy.LRUClass 2 "LRUCache" with Ok p => p | Raise _ => fifo_new end.
Definition lru_two : Policy.t Z Z Z := after two_puts lru_new.
Definition lfu_new : Policy.t Z Z Z :=
  match Policy.new Policy.LFUClass 2 "LFUCache" with Ok p => p | Raise _ => fifo_new end.
Definition lfu_two : Policy.t Z Z Z := after two_puts lfu_new.

(** The state of a policy, whatever its class, as an LRU or LFU object. *)
Definition as_lru (p : Policy.t Z Z Z) : CachePolicy.t Z Z Z (LRUCache.ext_t Z) :=
  match p with
  | Policy.LRU s => s
  | _ => CachePolicy.mk 0 "" ∅ (CacheStats.new 0 0)
           (LRUCache.mk_ext ∅ 0%nat 1%nat (λ _, DLinkedNode.new None) 2%nat)
  end.
Definition as_lfu (p : Policy.t Z Z Z) : CachePolicy.t Z Z Z (LFUCache.ext_t Z) :=
  match p with
  | Policy.LFU s => s
  | _ => CachePolicy.mk 0 "" ∅ (CacheStats.new 0 0) (LFUCache.mk_ext ∅ ∅ 0)
  end.

(** A hierarchy of three FIFO levels of capacity 1; the key 1 is in the
    last level only. *)
Definition level_of (p : Policy.t Z Z Z) (name : string) (latency : Q)
    : CacheLevel.t Z Z Z Q :=
  CacheLevel.mk p name latency (@LevelStats.new Q exact name).
Definition three_levels : CacheHierarchy.t Z Z Z Q :=
  CacheHierarchy.mk "MemoryHierarchy"
    [level_of fifo_new "L1" 1%Q; level_of fifo_new "L2" 5%Q; level_of fifo_one "L3" 20%Q]
    0 0 0 0%Q.

(** A hierarchy of one empty FIFO level. *)
Definition one_level : CacheHierarchy.t Z Z Z Q :=
  CacheHierarchy.mk "MemoryHierarchy" [level_of fifo_new "L1" 1%Q] 0 0 0 0%Q.

(** A clock that reads 20, 21, 22, … *)
Definition ticking (k : nat) : Z := 20 + Z.of_nat k.

(** The LRU and the LFU cache of two keys, as objects of their class. *)
Definition lru_two_s : CachePolicy.t Z Z Z (LRUCache.ext_t Z) := as_lru lru_two.
Definition lfu_two_s : CachePolicy.t Z Z Z (LFUCache.ext_t Z) := as_lfu lfu_two.

(** The FIFO cache holding key 1, as an object of its class. *)
Definition as_fifo (p : Policy.t Z Z Z) : CachePolicy.t Z Z Z (FIFOCache.ext_t Z) :=
  match p with
  | Policy.FIFO s => s
  | _ => CachePolicy.mk 0 "" ∅ (CacheStats.new 0 0) (FIFOCache.mk_ext [])
  end.
Definition fifo_one_s : CachePolicy.t Z Z Z (FIFOCache.ext_t Z) := as_fifo fifo_one.

(** The calls [get(1)], [put(1, 7)], [put(2, 8)], [get(1)], [get(3)]. *)
Definition five_calls : list (@op Z Z Z) :=
  [Get 1 9; Put 1 (Some 7) 1 10; Put 2 (Some 8) 1 11; Get 1 12; Get 3 13].

(** A hierarchy made through its methods: two levels, the second named by
    default and holding key 1, then a lookup of key 1 and one of key 5. *)
Definition two_built_calls : list (@hop Z Z Z Q _ _) :=
  [HAddLevel fifo_new (Some "L1") 1%Q; HAddLevel fifo_one None 5%Q;
   HGet 1 ticking; HGet 5 ticking].
Definition two_built : CacheHierarchy.t Z Z Z Q :=
  hafter (H0 := exact) two_built_calls (CacheHierarchy.__init__ (H0 := exact) "MemoryHierarchy").

#[local] Set Warnings "-clear-no-such-hyp".

(** * Proofs *)

Ltac munfold :=
  unfold bind, ret, raise, gets, modify, pass, CachePolicy.modify_stats, CachePolicy.sync_size,
    CachePolicy.modify_entry, CachePolicy.cache_item in *.

(** ** The methods of the base class, in terms of the hooks *)

Section base.
Context {K V Time A : Type} `{Countable K} `{!CachePolicy.Hooks K V Time A}.
Implicit Types (s : CachePolicy.t K V Time A) (k : K) (e : CacheEntry.t K V Time).

Lemma contains_true s k e : CachePolicy._cache s !! k = Some e → CachePolicy.contains k s = true.
Proof. intros Hk. unfold CachePolicy.contains. rewrite Hk. apply bool_decide_eq_true_2. by eexists. Qed.

Lemma contains_false s k : CachePolicy._cache s !! k = None → CachePolicy.contains k s = false.
Proof. intros Hk. unfold CachePolicy.contains. rewrite Hk. apply bool_decide_eq_false_2. by intros [? ?]. Qed.

Lemma get_miss s k now :
  CachePolicy._cache s !! k = None →
  CachePolicy.get k now s = (Ok None, CachePolicy.set_stats (miss_stats (CachePolicy._stats s)) s).
Proof.
  intros Hk. unfold CachePolicy.get. munfold. simpl. by rewrite (contains_false _ _ Hk).
Qed.

Lemma get_hit s k now e :
  CachePolicy._cache s !! k = Some e →
  CachePolicy.get k now s =
    match CachePolicy._on_access k now (CachePolicy.set_stats (hit_stats (CachePolicy._stats s)) s) with
    | (Ok _, s2) => (Ok (CacheEntry.value e), s2)
    | (Raise x, s2) => (Raise x, s2)
    end.
Proof.
  intros Hk. unfold CachePolicy.get. munfold. simpl. rewrite (contains_true _ _ _ Hk). simpl.
  by rewrite Hk.
Qed.

Lemma alter_alter_insert (c : gmap K (CacheEntry.t K V Time)) k e f g :
  c !! k = Some e → alter f k (alter g k c) = <[k := f (g e)]> c.
Proof.
  intros Hk. apply map_eq. intros k'. destruct (decide (k' = k)) as [->|Hne].
  - rewrite lookup_alter_eq, lookup_alter_eq, Hk, lookup_insert_eq. done.
  - rewrite !lookup_alter_ne, lookup_insert_ne by done. done.
Qed.

Lemma put_present s k v sz now e :
  CachePolicy._cache s !! k = Some e →
  CachePolicy.put k v sz now s =
    CachePolicy._on_update k now
      (CachePolicy.set_cache (<[k := overwrite v sz e]> (CachePolicy._cache s)) s).
Proof.
  intros Hk. unfold CachePolicy.put, CachePolicy._update_entry. munfold. simpl.
  rewrite (contains_true _ _ _ Hk). simpl. rewrite Hk.
  unfold CachePolicy.set_cache at 2. simpl.
  rewrite (alter_alter_insert _ _ e) by done. done.
Qed.

Lemma insert_entry_eq s k v sz now :
  CachePolicy._insert_entry k v sz now s = CachePolicy._on_insert k (inserted s k v sz now).
Proof. reflexivity. Qed.

Lemma put_new s k v sz now :
  CachePolicy._cache s !! k = None →
  CachePolicy.put k v sz now s =
    if CachePolicy.is_full s
    then (CachePolicy._evict >> CachePolicy._insert_entry k v sz now) s
    else CachePolicy._insert_entry k v sz now s.
Proof.
  intros Hk. unfold CachePolicy.put. munfold. simpl. rewrite (contains_false _ _ Hk).
  destruct (CachePolicy.is_full s); [done|]. done.
Qed.

Lemma delete_absent s k :
  CachePolicy._cache s !! k = None → CachePolicy.delete k s = (Ok false, s).
Proof.
  intros Hk. unfold CachePolicy.delete. munfold. simpl. by rewrite (contains_false _ _ Hk).
Qed.

Lemma size_nonempty (c : gmap K (CacheEntry.t K V Time)) : (0 < size c)%nat → c ≠ ∅.
Proof. intros Hs ->. rewrite map_size_empty in Hs. lia. Qed.

Lemma full_nonempty s : base_inv s → CachePolicy.is_full s = true → CachePolicy._cache s ≠ ∅.
Proof.
  intros (Hc & _) Hf. apply bool_decide_eq_true_1 in Hf. unfold CachePolicy.current_size in Hf.
  apply size_nonempty. lia.
Qed.
End base.

(** ** What the base class makes of hooks that keep their structure

    [AInv c a]: the subclass fields [a] fit the dictionary [c];
    [APre c a]: they do but for what [_on_insert] re-establishes. *)

Section generic.
Context {K V Time A : Type} `{Countable K} `{!CachePolicy.Hooks K V Time A}.
Implicit Types (s : CachePolicy.t K V Time A) (k : K) (e : CacheEntry.t K V Time).

Variables AInv APre : gmap K (CacheEntry.t K V Time) → A → Prop.
Variable tch : Time → CacheEntry.t K V Time → CacheEntry.t K V Time.

Hypothesis AInv_APre : ∀ c a, AInv c a → APre c a.
Hypothesis AInv_dom : ∀ c c' a,
  (∀ k, is_Some (c' !! k) ↔ is_Some (c !! k)) → AInv c a → AInv c' a.
Hypothesis H_evict : ∀ s,
  AInv (CachePolicy._cache s) (CachePolicy.ext s) → CachePolicy._cache s ≠ ∅ →
  ∃ k0 a', is_Some (CachePolicy._cache s !! k0) ∧
           CachePolicy._evict s = (Ok tt, evicted s k0 a') ∧
           APre (delete k0 (CachePolicy._cache s)) a'.
Hypothesis H_insert : ∀ s k,
  is_Some (CachePolicy._cache s !! k) →
  APre (delete k (CachePolicy._cache s)) (CachePolicy.ext s) →
  ∃ a', CachePolicy._on_insert k s = (Ok tt, CachePolicy.set_ext a' s) ∧
        AInv (CachePolicy._cache s) a'.
Hypothesis H_access : ∀ s k now e,
  CachePolicy._cache s !! k = Some e →
  AInv (CachePolicy._cache s) (CachePolicy.ext s) →
  ∃ a', CachePolicy._on_access k now s =
          (Ok tt, CachePolicy.set_ext a'
                    (CachePolicy.set_cache (<[k := tch now e]> (CachePolicy._cache s)) s)) ∧
        AInv (<[k := tch now e]> (CachePolicy._cache s)) a'.
Hypothesis H_update : ∀ s k now, CachePolicy._on_update k now s = CachePolicy._on_access k now s.
Hypothesis H_delete : ∀ s k,
  is_Some (CachePolicy._cache s !! k) →
  AInv (CachePolicy._cache s) (CachePolicy.ext s) →
  ∃ a', CachePolicy._on_delete k s = (Ok tt, CachePolicy.set_ext a' s) ∧
        AInv (delete k (CachePolicy._cache s)) a'.
Hypothesis H_clear : ∀ s c0,
  AInv c0 (CachePolicy.ext s) →
  ∃ a', CachePolicy._on_clear s = (Ok tt, CachePolicy.set_ext a' s) ∧ AInv ∅ a'.

Local Abbreviation GInv s := (base_inv s ∧ AInv (CachePolicy._cache s) (CachePolicy.ext s)).

Lemma base_inv_same_size {B} (s s' : CachePolicy.t K V Time B) :
  base_inv s →
  CachePolicy._capacity s' = CachePolicy._capacity s →
  size (CachePolicy._cache s') = size (CachePolicy._cache s) →
  CacheStats.current_size (CachePolicy._stats s') = CacheStats.current_size (CachePolicy._stats s) →
  CacheStats.max_size (CachePolicy._stats s') = CacheStats.max_size (CachePolicy._stats s) →
  base_inv s'.
Proof.
  unfold base_inv, CachePolicy.current_size. intros (? & ? & ? & ?) -> -> -> ->. done.
Qed.

Lemma generic_get s k now :
  GInv s →
  ∃ s', CachePolicy.get k now s = (Ok (CachePolicy._cache s !! k ≫= CacheEntry.value), s') ∧
        GInv s' ∧
        CachePolicy._capacity s' = CachePolicy._capacity s ∧
        CachePolicy._cache s' =
          match CachePolicy._cache s !! k with
          | Some e => <[k := tch now e]> (CachePolicy._cache s)
          | None => CachePolicy._cache s
          end ∧
        CachePolicy._stats s' =
          match CachePolicy._cache s !! k with
          | Some _ => hit_stats (CachePolicy._stats s)
          | None => miss_stats (CachePolicy._stats s)
          end.
Proof.
  intros [Hb Ha]. destruct (CachePolicy._cache s !! k) as [e|] eqn:Hk.
  - rewrite (get_hit _ _ _ _ Hk).
    destruct (H_access (CachePolicy.set_stats (hit_stats (CachePolicy._stats s)) s) k now e Hk Ha)
      as (a' & -> & Ha').
    eexists. split; [reflexivity|]. simpl. split; [split; [|done]|done].
    apply (base_inv_same_size s); try done. simpl. by rewrite map_size_insert_Some by eauto.
  - rewrite (get_miss _ _ _ Hk). eexists. split; [reflexivity|]. simpl.
    split; [split; [|done]|done]. by apply (base_inv_same_size s).
Qed.

Lemma insert_same_dom (c : gmap K (CacheEntry.t K V Time)) k e e' :
  c !! k = Some e → ∀ k', is_Some (<[k := e']> c !! k') ↔ is_Some (c !! k').
Proof.
  intros Hk k'. destruct (decide (k' = k)) as [->|Hne].
  - rewrite lookup_insert_eq, Hk. split; eauto.
  - by rewrite lookup_insert_ne.
Qed.

Lemma generic_put_present s k v sz now e :
  GInv s → CachePolicy._cache s !! k = Some e →
  ∃ s', CachePolicy.put k v sz now s = (Ok tt, s') ∧ GInv s' ∧
        CachePolicy._capacity s' = CachePolicy._capacity s ∧
        CachePolicy._cache s' = <[k := tch now (overwrite v sz e)]> (CachePolicy._cache s) ∧
        CachePolicy._stats s' = CachePolicy._stats s.
Proof.
  intros [Hb Ha] Hk. rewrite (put_present s k v sz now e Hk), H_update.
  set (s1 := CachePolicy.set_cache _ s).
  destruct (H_access s1 k now (overwrite v sz e)) as (a' & -> & Ha').
  { simpl. apply lookup_insert_eq. }
  { simpl. eapply AInv_dom; [|exact Ha]. by eapply insert_same_dom. }
  eexists. split; [reflexivity|]. simpl. simpl in Ha'. rewrite insert_insert_eq in *.
  split; [split; [|done]|done].
  apply (base_inv_same_size s); try done. simpl. by rewrite map_size_insert_Some by eauto.
Qed.

Lemma generic_insert s k v sz now :
  base_inv s → APre (CachePolicy._cache s) (CachePolicy.ext s) →
  CachePolicy._cache s !! k = None →
  CachePolicy.current_size s < CachePolicy._capacity s →
  ∃ a', CachePolicy._insert_entry k v sz now s =
          (Ok tt, CachePolicy.set_ext a' (inserted s k v sz now)) ∧
        GInv (CachePolicy.set_ext a' (inserted s k v sz now)).
Proof.
  intros (Hc & Hsz & Hst & Hmx) Ha Hk Hlt. rewrite insert_entry_eq.
  destruct (H_insert (inserted s k v sz now) k) as (a' & -> & Ha').
  { simpl. rewrite lookup_insert_eq. eauto. }
  { simpl. rewrite delete_insert_id by done. done. }
  exists a'. split; [done|]. split; [|done].
  unfold base_inv, CachePolicy.current_size in *. simpl.
  rewrite map_size_insert_None by done. split_and!; try done. lia.
Qed.

Lemma generic_evict s :
  GInv s → CachePolicy._cache s ≠ ∅ →
  ∃ k0 a', is_Some (CachePolicy._cache s !! k0) ∧
           CachePolicy._evict s = (Ok tt, evicted s k0 a') ∧
           base_inv (evicted s k0 a') ∧
           APre (delete k0 (CachePolicy._cache s)) a' ∧
           CachePolicy.current_size (evicted s k0 a') = CachePolicy.current_size s - 1.
Proof.
  intros [(Hc & Hsz & Hst & Hmx) Ha] Hne.
  destruct (H_evict s Ha Hne) as (k0 & a' & [e0 Hk0] & Hev & Hpre).
  exists k0, a'. split; [eauto|]. split; [done|].
  assert (Hs : CachePolicy.current_size (evicted s k0 a') = CachePolicy.current_size s - 1).
  { unfold CachePolicy.current_size. simpl. rewrite map_size_delete_Some by eauto.
    assert (size (CachePolicy._cache s) ≠ 0%nat) by by apply map_size_non_empty_iff.
    lia. }
  split_and!; try done.
  unfold base_inv. rewrite Hs. simpl. split_and!; try done; lia.
Qed.

Lemma generic_put_new s k v sz now :
  GInv s → CachePolicy._cache s !! k = None →
  ∃ s' c0, CachePolicy.put k v sz now s = (Ok tt, s') ∧ GInv s' ∧
        CachePolicy._capacity s' = CachePolicy._capacity s ∧
        CachePolicy._cache s' = <[k := CacheEntry.new k v now sz]> c0 ∧
        (if CachePolicy.is_full s
         then ∃ k0, is_Some (CachePolicy._cache s !! k0) ∧ c0 = delete k0 (CachePolicy._cache s)
         else c0 = CachePolicy._cache s) ∧
        CacheStats.hits (CachePolicy._stats s') = CacheStats.hits (CachePolicy._stats s) ∧
        CacheStats.misses (CachePolicy._stats s') = CacheStats.misses (CachePolicy._stats s).
Proof.
  intros HG Hk. rewrite (put_new _ _ _ _ _ Hk).
  destruct (CachePolicy.is_full s) eqn:Hf.
  - destruct (generic_evict s HG (full_nonempty _ (proj1 HG) Hf))
      as (k0 & a1 & Hk0 & Hev & Hb1 & Hpre & Hs1).
    unfold bind. rewrite Hev.
    assert (Hk1 : CachePolicy._cache (evicted s k0 a1) !! k = None).
    { simpl. rewrite lookup_delete_None. by right. }
    assert (Hlt : CachePolicy.current_size (evicted s k0 a1) <
                  CachePolicy._capacity (evicted s k0 a1)).
    { rewrite Hs1. simpl. destruct HG as [(? & ? & ? & ?) _]. lia. }
    destruct (generic_insert (evicted s k0 a1) k v sz now Hb1 Hpre Hk1 Hlt) as (a' & -> & HG').
    eexists _, _. split; [reflexivity|]. split; [done|]. simpl.
    split; [done|]. split; [done|]. split; [eauto|]. done.
  - destruct HG as [Hb Ha].
    assert (Hlt : CachePolicy.current_size s < CachePolicy._capacity s).
    { apply bool_decide_eq_false_1 in Hf. lia. }
    destruct (generic_insert s k v sz now Hb (AInv_APre _ _ Ha) Hk Hlt) as (a' & -> & HG').
    eexists _, _. split; [reflexivity|]. split; [done|]. simpl. done.
Qed.

Lemma generic_delete s k :
  GInv s →
  ∃ s', CachePolicy.delete k s = (Ok (bool_decide (is_Some (CachePolicy._cache s !! k))), s') ∧
        GInv s' ∧ CachePolicy._capacity s' = CachePolicy._capacity s ∧
        CachePolicy._cache s' = delete k (CachePolicy._cache s).
Proof.
  intros [Hb Ha]. destruct (CachePolicy._cache s !! k) as [e|] eqn:Hk.
  - destruct (H_delete s k) as (a' & Hd & Ha'); [by rewrite Hk|done|].
    unfold CachePolicy.delete. munfold. simpl. rewrite (contains_true _ _ _ Hk). simpl.
    rewrite Hd. simpl. unfold CachePolicy.contains at 1. simpl. rewrite Hk.
    rewrite bool_decide_eq_true_2 by eauto. simpl.
    eexists. split; [reflexivity|]. simpl. split; [split; [|done]|done].
    destruct Hb as (? & Hsz & ? & ?).
    unfold base_inv, CachePolicy.current_size in *. simpl.
    rewrite map_size_delete_Some by eauto. split_and!; try done. lia.
  - rewrite (delete_absent _ _ Hk). eexists. rewrite bool_decide_eq_false_2 by (by intros [? ?]).
    split; [reflexivity|]. rewrite delete_id by done. done.
Qed.

Lemma generic_clear s :
  GInv s →
  ∃ s', CachePolicy.clear s = (Ok tt, s') ∧ GInv s' ∧
        CachePolicy._capacity s' = CachePolicy._capacity s ∧ CachePolicy._cache s' = ∅.
Proof.
  intros [(Hc & Hsz & Hst & Hmx) Ha]. unfold CachePolicy.clear. munfold. simpl.
  destruct (H_clear (CachePolicy.set_cache ∅ s) _ Ha) as (a' & -> & Ha'). simpl.
  eexists. split; [reflexivity|]. simpl. split; [split; [|done]|done].
  unfold base_inv, CachePolicy.current_size. simpl.
  rewrite map_size_empty. split_and!; try done. lia.
Qed.

Lemma generic_reset_stats s :
  GInv s →
  CachePolicy.reset_stats s =
    (Ok tt, CachePolicy.set_stats
              (CacheStats.new (CachePolicy.current_size s) (CachePolicy._capacity s)) s) ∧
  GInv (CachePolicy.set_stats
          (CacheStats.new (CachePolicy.current_size s) (CachePolicy._capacity s)) s).
Proof.
  intros [(Hc & Hsz & Hst & Hmx) Ha]. split; [done|]. split; [|done].
  unfold base_inv, CachePolicy.current_size in *. simpl. done.
Qed.
End generic.

(** ** Lists as queues and ordered sets *)

Section containers_facts.
Context {K : Type} `{EqDecision K}.
Implicit Types (x y : K) (l : list K).

Lemma remove_first_elem x l : x ∈ l → is_Some (remove_first x l).
Proof.
  induction l as [|y l IH]; [by intros ?%elem_of_nil|].
  intros Hx. simpl. destruct (decide (x = y)); [eauto|].
  apply elem_of_cons in Hx as [?|Hx]; [done|]. destruct (IH Hx) as [l' ->]. simpl. eauto.
Qed.

Lemma remove_first_not_elem x l : x ∉ l → remove_first x l = None.
Proof.
  induction l as [|y l IH]; [done|].
  intros Hx. apply not_elem_of_cons in Hx as [? ?]. simpl.
  destruct (decide (x = y)); [done|]. by rewrite IH.
Qed.

Lemma remove_first_spec x l l' :
  NoDup l → remove_first x l = Some l' →
  NoDup l' ∧ x ∈ l ∧ ∀ y, y ∈ l' ↔ y ∈ l ∧ y ≠ x.
Proof.
  revert l'. induction l as [|z l IH]; [done|].
  intros l' Hnd Hr. apply NoDup_cons in Hnd as [Hz Hnd]. simpl in Hr.
  destruct (decide (x = z)) as [->|Hne].
  - injection Hr as <-. split; [done|]. split; [by left|].
    intros y. rewrite elem_of_cons. split; [|naive_solver].
    intros Hy. split; [by right|]. by intros ->.
  - destruct (remove_first x l) as [l0|] eqn:Hr0; [|done]. simpl in Hr. injection Hr as <-.
    destruct (IH l0 Hnd eq_refl) as (Hnd0 & Hx & Hl0).
    split; [|split].
    + apply NoDup_cons. split; [|done]. rewrite Hl0. naive_solver.
    + by right.
    + intros y. rewrite !elem_of_cons, Hl0. naive_solver.
Qed.

Lemma od_set_new x l : x ∉ l → od_set x l = l ++ [x].
Proof. intros Hx. unfold od_set. by rewrite decide_False. Qed.

Lemma od_set_elem x y l : y ∈ od_set x l ↔ y = x ∨ y ∈ l.
Proof.
  unfold od_set. destruct (decide (x ∈ l)).
  - naive_solver.
  - rewrite elem_of_app, list_elem_of_singleton. naive_solver.
Qed.

Lemma od_set_NoDup x l : NoDup l → NoDup (od_set x l).
Proof.
  intros Hnd. unfold od_set. destruct (decide (x ∈ l)); [done|].
  apply NoDup_app. split; [done|]. split; [|apply NoDup_singleton].
  intros y Hy ->%list_elem_of_singleton. done.
Qed.
End containers_facts.

Lemma is_Some_delete {K B} `{Countable K} (m : gmap K B) (k0 k : K) :
  is_Some (delete k0 m !! k) ↔ is_Some (m !! k) ∧ k ≠ k0.
Proof.
  destruct (decide (k = k0)) as [->|Hne].
  - rewrite lookup_delete_eq. split; [by intros [? ?]|naive_solver].
  - rewrite lookup_delete_ne by done. naive_solver.
Qed.

(** ** FIFO *)

Section fifo.
Context {K V Time : Type} `{Countable K}.
Implicit Types (s : CachePolicy.t K V Time (FIFOCache.ext_t K)) (k : K).
Implicit Types (c : gmap K (CacheEntry.t K V Time)).

Lemma fifo_aux_dom c c' q :
  (∀ k, is_Some (c' !! k) ↔ is_Some (c !! k)) → fifo_aux c q → fifo_aux c' q.
Proof. intros Hd [Hnd Hq]. split; [done|]. intros k. by rewrite Hq, Hd. Qed.

Lemma fifo_evict s :
  fifo_aux (CachePolicy._cache s) (FIFOCache.queue s) → CachePolicy._cache s ≠ ∅ →
  ∃ k0 q', FIFOCache.queue s = k0 :: q' ∧ is_Some (CachePolicy._cache s !! k0) ∧
           CachePolicy._evict s = (Ok tt, evicted s k0 (FIFOCache.mk_ext q')) ∧
           fifo_aux (delete k0 (CachePolicy._cache s)) q'.
Proof.
  intros [Hnd Hq] Hne.
  destruct (FIFOCache.queue s) as [|k0 q'] eqn:Hqs.
  { exfalso. apply Hne. apply map_empty. intros k. apply eq_None_not_Some.
    rewrite <- Hq. apply not_elem_of_nil. }
  assert (Hk0 : is_Some (CachePolicy._cache s !! k0)) by (apply Hq; left).
  exists k0, q'. split; [done|]. split; [done|]. split.
  - simpl. unfold FIFOCache._evict, FIFOCache.set_queue. munfold. simpl. rewrite Hqs.
    unfold CachePolicy.contains. simpl. rewrite bool_decide_eq_true_2 by done. done.
  - apply NoDup_cons in Hnd as [Hk0q Hnd]. split; [done|].
    intros k. rewrite is_Some_delete, <- Hq, elem_of_cons. split; [|naive_solver].
    intros Hk. split; [by right|]. by intros ->.
Qed.

Lemma fifo_on_insert s k :
  is_Some (CachePolicy._cache s !! k) →
  fifo_aux (delete k (CachePolicy._cache s)) (FIFOCache.queue s) →
  CachePolicy._on_insert k s =
    (Ok tt, CachePolicy.set_ext (FIFOCache.mk_ext (FIFOCache.queue s ++ [k])) s) ∧
  fifo_aux (CachePolicy._cache s) (FIFOCache.queue s ++ [k]).
Proof.
  intros Hk [Hnd Hq]. split; [done|]. split.
  - apply NoDup_app. split; [done|]. split; [|apply NoDup_singleton].
    intros x Hx ->%list_elem_of_singleton. apply Hq in Hx. apply is_Some_delete in Hx. naive_solver.
  - intros x. rewrite elem_of_app, list_elem_of_singleton, Hq, is_Some_delete.
    destruct (decide (x = k)) as [->|]; naive_solver.
Qed.

Lemma set_same s e k :
  CachePolicy._cache s !! k = Some e →
  CachePolicy.set_ext (CachePolicy.ext s)
    (CachePolicy.set_cache (<[k := e]> (CachePolicy._cache s)) s) = s.
Proof. intros Hk. destruct s. simpl in *. unfold CachePolicy.set_ext, CachePolicy.set_cache. simpl. by rewrite insert_id. Qed.

Lemma fifo_on_access s k now e :
  CachePolicy._cache s !! k = Some e →
  CachePolicy._on_access k now s =
    (Ok tt, CachePolicy.set_ext (CachePolicy.ext s)
              (CachePolicy.set_cache (<[k := e]> (CachePolicy._cache s)) s)).
Proof. intros Hk. by rewrite set_same. Qed.

Lemma fifo_on_delete s k :
  is_Some (CachePolicy._cache s !! k) →
  fifo_aux (CachePolicy._cache s) (FIFOCache.queue s) →
  ∃ q', CachePolicy._on_delete k s = (Ok tt, CachePolicy.set_ext (FIFOCache.mk_ext q') s) ∧
        remove_first k (FIFOCache.queue s) = Some q' ∧
        fifo_aux (delete k (CachePolicy._cache s)) q'.
Proof.
  intros Hk [Hnd Hq]. destruct (remove_first_elem k (FIFOCache.queue s)) as [q' Hr].
  { by apply Hq. }
  exists q'. destruct (remove_first_spec _ _ _ Hnd Hr) as (Hnd' & _ & Hq').
  split; [|split; [done|]].
  - simpl. unfold FIFOCache._on_delete. munfold. simpl. by rewrite Hr.
  - split; [done|]. intros x. by rewrite Hq', is_Some_delete, Hq.
Qed.

Lemma fifo_on_clear s :
  CachePolicy._on_clear s = (Ok tt, CachePolicy.set_ext (FIFOCache.mk_ext []) s) ∧
  fifo_aux (∅ : gmap K (CacheEntry.t K V Time)) [].
Proof.
  split; [done|]. split; [apply NoDup_nil_2|].
  intros k. rewrite lookup_empty. split; [by intros ?%elem_of_nil|by intros [? ?]].
Qed.
End fifo.

(** ** LFU *)

Section lfu.
Context {K V Time : Type} `{Countable K}.
Implicit Types (s : CachePolicy.t K V Time (LFUCache.ext_t K)) (k : K) (f : Z).
Implicit Types (c : gmap K (CacheEntry.t K V Time)) (a : LFUCache.ext_t K).
Implicit Types (fm : gmap Z (list K)) (fk : gmap K Z).

Ltac lfu_unfold :=
  repeat (progress (
    unfold LFUCache._increment_frequency, LFUCache.freq_key_item, LFUCache.freq_map_item,
      LFUCache.set_bucket, LFUCache.del_bucket, LFUCache.freq_map, LFUCache.freq_key,
      LFUCache.min_freq, LFUCache.set_freq_map, LFUCache.set_freq_key, LFUCache.set_min_freq,
      CachePolicy.set_ext, CachePolicy.set_cache, CachePolicy.set_stats in *;
    munfold; simpl in *)).

Lemma lfu_increment s k f b b' :
  LFUCache.freq_key s !! k = Some f →
  LFUCache.freq_map s !! f = Some b →
  remove_first k b = Some b' →
  LFUCache._increment_frequency k s =
    (Ok tt, CachePolicy.set_ext (lfu_bumped k f b' (CachePolicy.ext s)) s).
Proof.
  intros Hk Hf Hr. destruct s as [cap nm c st [fm fk mf]]. lfu_unfold.
  rewrite Hk. simpl. rewrite Hf. simpl. rewrite Hr. simpl.
  rewrite lookup_insert_eq. simpl. unfold lfu_bumped. simpl.
  destruct (decide (b' = [])) as [->|Hb'].
  - lfu_unfold. rewrite delete_insert_eq.
    destruct (decide (f = mf)) as [->|Hmf]; lfu_unfold.
    + destruct (delete mf fm !! (mf + 1)) as [b1|] eqn:Hb1; lfu_unfold.
      * done.
      * rewrite insert_insert_eq. done.
    + destruct (delete f fm !! (f + 1)) as [b1|] eqn:Hb1; lfu_unfold.
      * done.
      * rewrite insert_insert_eq. done.
  - lfu_unfold. destruct (<[f:=b']> fm !! (f + 1)) as [b1|] eqn:Hb1; lfu_unfold.
    + done.
    + rewrite insert_insert_eq. done.
Qed.

Lemma lfu_evict_eq s k0 b' :
  LFUCache.min_freq s ≠ 0 →
  LFUCache.freq_map s !! LFUCache.min_freq s = Some (k0 :: b') →
  CachePolicy._evict s = (Ok tt, evicted s k0 (lfu_evicted k0 b' (CachePolicy.ext s))).
Proof.
  intros Hmf Hb. destruct s as [cap nm c st [fm fk mf]]. simpl. unfold LFUCache._evict.
  lfu_unfold. rewrite decide_False by done. lfu_unfold. rewrite Hb. lfu_unfold.
  unfold evicted, lfu_evicted. simpl.
  destruct (decide (b' = [])) as [->|Hb']; lfu_unfold.
  - by rewrite delete_insert_eq.
  - done.
Qed.

Lemma lfu_on_insert_eq s k :
  CachePolicy._on_insert k s =
    (Ok tt, CachePolicy.set_ext (lfu_inserted k (CachePolicy.ext s)) s).
Proof.
  destruct s as [cap nm c st [fm fk mf]]. simpl. unfold LFUCache._on_insert, lfu_inserted.
  lfu_unfold. destruct (fm !! 1) as [b|] eqn:Hb; lfu_unfold.
  - done.
  - by rewrite insert_insert_eq.
Qed.

Lemma lfu_on_delete_eq s k f b b' :
  LFUCache.freq_key s !! k = Some f →
  LFUCache.freq_map s !! f = Some b →
  remove_first k b = Some b' →
  CachePolicy._on_delete k s =
    (Ok tt, CachePolicy.set_ext (lfu_deleted k f b' (CachePolicy.ext s)) s).
Proof.
  intros Hk Hf Hr. destruct s as [cap nm c st [fm fk mf]]. simpl. unfold LFUCache._on_delete.
  lfu_unfold. rewrite Hk. lfu_unfold. rewrite Hf. lfu_unfold. rewrite Hr. lfu_unfold.
  unfold lfu_deleted. simpl.
  destruct (decide (b' = [])) as [->|Hb']; lfu_unfold.
  - rewrite delete_insert_eq. destruct (decide (f = mf)) as [->|Hmf]; lfu_unfold; done.
  - done.
Qed.

Lemma lfu_on_clear_eq s :
  CachePolicy._on_clear s = (Ok tt, CachePolicy.set_ext (LFUCache.mk_ext ∅ ∅ 0) s).
Proof. by destruct s as [cap nm c st [fm fk mf]]. Qed.

(** The bucket of [f] replaced by [b'], or dropped when [b'] is empty. *)
Lemma shrink_lookup fm f b' f' :
  (if decide (b' = []) then delete f fm else <[f := b']> fm) !! f' =
  if decide (f' = f) then (if decide (b' = []) then None else Some b') else fm !! f'.
Proof.
  destruct (decide (b' = [])); destruct (decide (f' = f)) as [->|Hne].
  - apply lookup_delete_eq.
  - by apply lookup_delete_ne.
  - apply lookup_insert_eq.
  - by apply lookup_insert_ne.
Qed.

Lemma lfu_buckets_dom c c' fm fk :
  (∀ k, is_Some (c' !! k) ↔ is_Some (c !! k)) → lfu_buckets c fm fk → lfu_buckets c' fm fk.
Proof. intros Hd (H1 & H2 & H3). split; [done|]. split; [done|]. intros k. by rewrite H3, Hd. Qed.

Lemma lfu_buckets_find c fm fk k f :
  lfu_buckets c fm fk → fk !! k = Some f →
  ∃ b b', fm !! f = Some b ∧ k ∈ b ∧ remove_first k b = Some b' ∧
          NoDup b' ∧ ∀ y, y ∈ b' ↔ y ∈ b ∧ y ≠ k.
Proof.
  intros (H1 & H2 & H3) Hk. destruct (H2 k f Hk) as (_ & b & Hb & Hkb).
  destruct (remove_first_elem k b Hkb) as [b' Hr].
  destruct (H1 f b Hb) as (_ & Hnd & _).
  destruct (remove_first_spec _ _ _ Hnd Hr) as (Hnd' & _ & Hb').
  by exists b, b'.
Qed.

Lemma lfu_buckets_remove c fm fk k f b b' :
  lfu_buckets c fm fk → fk !! k = Some f → fm !! f = Some b →
  remove_first k b = Some b' →
  lfu_buckets (delete k c) (if decide (b' = []) then delete f fm else <[f := b']> fm)
    (delete k fk).
Proof.
  intros (H1 & H2 & H3) Hk Hf Hr.
  destruct (H1 f b Hf) as (_ & Hnd & Hbk).
  destruct (remove_first_spec _ _ _ Hnd Hr) as (Hnd' & Hkb & Hb').
  split; [|split].
  - intros f' b0. rewrite shrink_lookup. destruct (decide (f' = f)) as [->|Hne].
    + destruct (decide (b' = [])); [done|]. intros [= <-]. split; [done|]. split; [done|].
      intros y [Hy Hyk]%Hb'. rewrite lookup_delete_ne by done. by apply Hbk.
    + intros Hb0. destruct (H1 f' b0 Hb0) as (Hne0 & Hnd0 & Hk0).
      split; [done|]. split; [done|]. intros y Hy.
      destruct (decide (y = k)) as [->|Hyk].
      * pose proof (Hk0 k Hy) as Hk'. congruence.
      * rewrite lookup_delete_ne by done. by apply Hk0.
  - intros y f'. destruct (decide (y = k)) as [->|Hyk]; [by rewrite lookup_delete_eq|].
    rewrite lookup_delete_ne by done. intros Hy.
    destruct (H2 y f' Hy) as (Hge & b0 & Hb0 & Hyb0). split; [done|].
    rewrite shrink_lookup. destruct (decide (f' = f)) as [->|Hne].
    + assert (b0 = b) as -> by congruence.
      assert (Hyb' : y ∈ b') by (apply Hb'; done).
      destruct (decide (b' = [])) as [->|]; [by apply elem_of_nil in Hyb'|]. eauto.
    + eauto.
  - intros y. rewrite !is_Some_delete. by rewrite H3.
Qed.

Lemma lfu_buckets_add c fm fk k f :
  lfu_buckets (delete k c) fm fk → is_Some (c !! k) → 1 ≤ f →
  lfu_buckets c (<[f := od_set k (default [] (fm !! f))]> fm) (<[k := f]> fk).
Proof.
  intros (H1 & H2 & H3) Hk Hf.
  assert (Hfk : fk !! k = None).
  { apply eq_None_not_Some. rewrite H3, lookup_delete_eq. by intros [? ?]. }
  assert (Hnotin : ∀ f' b0, fm !! f' = Some b0 → k ∉ b0).
  { intros f' b0 Hb0 Hkb0. destruct (H1 f' b0 Hb0) as (_ & _ & Hk0).
    pose proof (Hk0 k Hkb0). congruence. }
  assert (Hold : (k ∉ default [] (fm !! f)) ∧ NoDup (default [] (fm !! f)) ∧
                 ∀ y, y ∈ default [] (fm !! f) → fk !! y = Some f).
  { destruct (fm !! f) as [b0|] eqn:Hb0; simpl.
    - destruct (H1 f b0 Hb0) as (_ & ? & ?). split; [by eapply Hnotin|done].
    - split; [apply not_elem_of_nil|]. split; [apply NoDup_nil_2|]. by intros y ?%elem_of_nil. }
  destruct Hold as (Hko & Hndo & Hfo).
  split; [|split].
  - intros f' b0. destruct (decide (f' = f)) as [->|Hne].
    + rewrite lookup_insert_eq. intros [= <-]. split; [|split].
      * rewrite od_set_new by done. by intros [_ [=]]%app_eq_nil.
      * by apply od_set_NoDup.
      * intros y [->|Hy]%od_set_elem; [apply lookup_insert_eq|].
        rewrite lookup_insert_ne by (by intros <-). by apply Hfo.
    + rewrite lookup_insert_ne by done. intros Hb0.
      destruct (H1 f' b0 Hb0) as (? & ? & Hk0). split; [done|]. split; [done|].
      intros y Hy. rewrite lookup_insert_ne; [by apply Hk0|].
      intros <-. by eapply Hnotin.
  - intros y f'. destruct (decide (y = k)) as [->|Hyk].
    + rewrite lookup_insert_eq. intros [= <-]. split; [done|].
      rewrite lookup_insert_eq. eexists. split; [done|]. apply od_set_elem. by left.
    + rewrite lookup_insert_ne by done. intros Hy.
      destruct (H2 y f' Hy) as (? & b0 & Hb0 & Hyb0). split; [done|].
      destruct (decide (f' = f)) as [->|Hne].
      * rewrite lookup_insert_eq. eexists. split; [done|]. apply od_set_elem. right.
        by rewrite Hb0.
      * rewrite lookup_insert_ne by done. eauto.
  - intros y. destruct (decide (y = k)) as [->|Hyk].
    + rewrite lookup_insert_eq. split; eauto.
    + rewrite lookup_insert_ne by done. rewrite H3, lookup_delete_ne by done. done.
Qed.

Lemma lfu_buckets_ge1 c fm fk f :
  lfu_buckets c fm fk → is_Some (fm !! f) → 1 ≤ f.
Proof.
  intros (H1 & H2 & _) [b Hb]. destruct (H1 f b Hb) as (Hne & _ & Hk).
  destruct b as [|y b]; [done|]. apply (H2 y f). apply Hk. by left.
Qed.

Lemma lfu_buckets_empty c fm fk : lfu_buckets c fm fk → c ≠ ∅ → fm ≠ ∅.
Proof.
  intros (H1 & H2 & H3) Hc ->. apply Hc. apply map_empty. intros k.
  apply eq_None_not_Some. rewrite <- H3. intros [f Hf].
  destruct (H2 k f Hf) as (_ & b & Hb & _). by rewrite lookup_empty in Hb.
Qed.

Lemma foldr_min_spec (f : Z) (fs : list Z) :
  (foldr Z.min f fs = f ∨ foldr Z.min f fs ∈ fs) ∧
  foldr Z.min f fs ≤ f ∧ ∀ x, x ∈ fs → foldr Z.min f fs ≤ x.
Proof.
  induction fs as [|y fs (IH1 & IH2 & IH3)]; simpl.
  - split; [by left|]. split; [lia|]. by intros x ?%elem_of_nil.
  - split; [|split].
    + destruct (Z.min_spec y (foldr Z.min f fs)) as [[_ ->]|[_ ->]].
      * right. by left.
      * destruct IH1 as [->|?]; [by left|]. right. by right.
    + lia.
    + intros x [->|Hx]%elem_of_cons; [lia|]. specialize (IH3 x Hx). lia.
Qed.

Lemma min_key_spec {B} (d : gmap Z B) :
  d ≠ ∅ → is_Some (d !! min_key d) ∧ ∀ f, is_Some (d !! f) → min_key d ≤ f.
Proof.
  intros Hne. unfold min_key.
  assert (Hel : ∀ x, x ∈ (map_to_list d).*1 ↔ is_Some (d !! x)).
  { intros x. rewrite list_elem_of_fmap. split.
    - intros ([x' y] & -> & Hy%elem_of_map_to_list). eauto.
    - intros [y Hy]. exists (x, y). split; [done|]. by apply elem_of_map_to_list. }
  destruct ((map_to_list d).*1) as [|f fs] eqn:Hl.
  { exfalso. apply Hne. apply map_to_list_empty_iff. by apply fmap_nil_inv in Hl. }
  destruct (foldr_min_spec f fs) as (H1 & H2 & H3). split.
  - apply Hel. destruct H1 as [->|?]; [by left|by right].
  - intros x [->|Hx]%Hel%elem_of_cons; [done|]. by apply H3.
Qed.

Lemma lfu_min_keep fm mf f b b' :
  lfu_min fm mf → fm !! f = Some b → (b' ≠ [] ∨ f ≠ mf) →
  lfu_min (if decide (b' = []) then delete f fm else <[f := b']> fm) mf.
Proof.
  intros [[-> _]|[Hmf Hle]] Hf Hor; [by rewrite lookup_empty in Hf|]. right. split.
  - rewrite shrink_lookup. destruct (decide (mf = f)) as [->|]; [|done].
    destruct (decide (b' = [])); [naive_solver|eauto].
  - intros f'. rewrite shrink_lookup. destruct (decide (f' = f)) as [->|]; [|by apply Hle].
    intros _. apply Hle. eauto.
Qed.

Lemma lfu_bumped_aux c a k f b b' :
  lfu_aux c a → LFUCache._freq_key a !! k = Some f → LFUCache._freq_map a !! f = Some b →
  remove_first k b = Some b' → lfu_aux c (lfu_bumped k f b' a).
Proof.
  intros [Hb Hm] Hk Hf Hr. destruct a as [fm fk mf]. simpl in *.
  assert (Hck : is_Some (c !! k)) by (apply Hb; eauto).
  assert (Hge : 1 ≤ f) by (eapply lfu_buckets_ge1; eauto).
  pose proof (lfu_buckets_remove _ _ _ _ _ _ _ Hb Hk Hf Hr) as Hrem.
  split; simpl.
  - rewrite <- (insert_delete_eq fk). apply lfu_buckets_add; [done|done|lia].
  - destruct Hm as [[-> _]|[Hmf Hle]]; [by rewrite lookup_empty in Hf|].
    assert (mf ≤ f) by (apply Hle; eauto). right.
    destruct (decide (b' = [])) as [->|Hb'].
    + destruct (decide (f = mf)) as [->|Hne].
      * split; [rewrite lookup_insert_eq; eauto|]. intros f'.
        destruct (decide (f' = mf + 1)) as [->|Hne']; [lia|].
        rewrite lookup_insert_ne by done. destruct (decide (f' = mf)) as [->|Hne2].
        { rewrite lookup_delete_eq. by intros [? ?]. }
        rewrite lookup_delete_ne by done. intros Hf'%Hle. lia.
      * split.
        { rewrite lookup_insert_ne by lia. by rewrite lookup_delete_ne. }
        intros f'. destruct (decide (f' = f + 1)) as [->|Hne']; [lia|].
        rewrite lookup_insert_ne by done. destruct (decide (f' = f)) as [->|Hne2]; [lia|].
        rewrite lookup_delete_ne by done. apply Hle.
    + split.
      * destruct (decide (mf = f + 1)) as [->|]; [rewrite lookup_insert_eq; eauto|].
        rewrite lookup_insert_ne by done.
        destruct (decide (mf = f)) as [->|]; [rewrite lookup_insert_eq; eauto|].
        by rewrite lookup_insert_ne.
      * intros f'. destruct (decide (f' = f + 1)) as [->|Hne']; [lia|].
        rewrite lookup_insert_ne by done. destruct (decide (f' = f)) as [->|Hne2]; [lia|].
        rewrite lookup_insert_ne by done. apply Hle.
Qed.

Lemma lfu_evicted_pre c a :
  lfu_aux c a → c ≠ ∅ →
  ∃ k0 b', LFUCache._min_freq a ≠ 0 ∧
           LFUCache._freq_map a !! LFUCache._min_freq a = Some (k0 :: b') ∧
           LFUCache._freq_key a !! k0 = Some (LFUCache._min_freq a) ∧
           is_Some (c !! k0) ∧
           lfu_pre (delete k0 c) (lfu_evicted k0 b' a).
Proof.
  intros [Hb Hm] Hc. destruct a as [fm fk mf]. simpl in *.
  destruct Hm as [[-> _]|[[b Hmf] Hle]].
  { by destruct (lfu_buckets_empty _ _ _ Hb Hc). }
  destruct (proj1 Hb mf b Hmf) as (Hbne & Hnd & Hbk).
  destruct b as [|k0 b']; [done|]. exists k0, b'.
  assert (Hk0 : fk !! k0 = Some mf) by (apply Hbk; by left).
  assert (1 ≤ mf) by (eapply lfu_buckets_ge1; eauto).
  split; [lia|]. split; [done|]. split; [done|]. split; [apply Hb; eauto|].
  unfold lfu_pre, lfu_evicted. simpl.
  apply (lfu_buckets_remove _ _ _ _ _ (k0 :: b')); try done.
  simpl. by rewrite decide_True.
Qed.

Lemma lfu_inserted_aux c a k :
  is_Some (c !! k) → lfu_pre (delete k c) a → lfu_aux c (lfu_inserted k a).
Proof.
  intros Hk Hb. destruct a as [fm fk mf]. unfold lfu_pre in Hb. simpl in *. split; simpl.
  - by apply lfu_buckets_add.
  - right. split; [rewrite lookup_insert_eq; eauto|]. intros f'.
    destruct (decide (f' = 1)) as [->|Hne]; [done|]. rewrite lookup_insert_ne by done.
    by eapply lfu_buckets_ge1.
Qed.

Lemma lfu_deleted_aux c a k f b b' :
  lfu_aux c a → LFUCache._freq_key a !! k = Some f → LFUCache._freq_map a !! f = Some b →
  remove_first k b = Some b' → lfu_aux (delete k c) (lfu_deleted k f b' a).
Proof.
  intros [Hb Hm] Hk Hf Hr. destruct a as [fm fk mf]. simpl in *.
  split; simpl; [by eapply lfu_buckets_remove|].
  destruct (decide (b' = [])) as [->|Hb'].
  - destruct (decide (f = mf)) as [->|Hne].
    + destruct (decide (delete mf fm = ∅)) as [He|He]; [by left|]. right.
      by apply min_key_spec.
    + pose proof (lfu_min_keep fm mf f b [] Hm Hf) as Hkeep.
      rewrite decide_True in Hkeep by done. apply Hkeep. by right.
  - pose proof (lfu_min_keep fm mf f b b' Hm Hf) as Hkeep.
    rewrite decide_False in Hkeep by done. apply Hkeep. by left.
Qed.

Lemma lfu_clear_aux : lfu_aux (∅ : gmap K (CacheEntry.t K V Time)) (LFUCache.mk_ext ∅ ∅ 0).
Proof.
  split; simpl; [|by left]. split; [|split].
  - intros f b. by rewrite lookup_empty.
  - intros k f. by rewrite lookup_empty.
  - intros k. by rewrite !lookup_empty.
Qed.

Lemma lfu_aux_dom c c' a :
  (∀ k, is_Some (c' !! k) ↔ is_Some (c !! k)) → lfu_aux c a → lfu_aux c' a.
Proof. intros Hd [Hb Hm]. split; [by eapply lfu_buckets_dom|done]. Qed.
End lfu.

(** ** The hooks of FIFO and LFU meet the assumptions on hooks *)

Section fifo_lfu_hooks.
Context {K V Time : Type} `{Countable K}.
Implicit Types (c : gmap K (CacheEntry.t K V Time)).

Lemma fifo_H_dom c c' a :
  (∀ k, is_Some (c' !! k) ↔ is_Some (c !! k)) → FInv c a → FInv c' a.
Proof. apply fifo_aux_dom. Qed.

Lemma fifo_H_evict (s : CachePolicy.t K V Time (FIFOCache.ext_t K)) :
  FInv (CachePolicy._cache s) (CachePolicy.ext s) → CachePolicy._cache s ≠ ∅ →
  ∃ k0 a', is_Some (CachePolicy._cache s !! k0) ∧
           CachePolicy._evict s = (Ok tt, evicted s k0 a') ∧
           FInv (delete k0 (CachePolicy._cache s)) a'.
Proof.
  intros Ha Hne. destruct (fifo_evict s Ha Hne) as (k0 & q' & _ & Hk0 & Hev & Ha').
  by exists k0, (FIFOCache.mk_ext q').
Qed.

Lemma fifo_H_insert (s : CachePolicy.t K V Time (FIFOCache.ext_t K)) k :
  is_Some (CachePolicy._cache s !! k) →
  FInv (delete k (CachePolicy._cache s)) (CachePolicy.ext s) →
  ∃ a', CachePolicy._on_insert k s = (Ok tt, CachePolicy.set_ext a' s) ∧
        FInv (CachePolicy._cache s) a'.
Proof.
  intros Hk Ha. destruct (fifo_on_insert s k Hk Ha) as [Hi Ha']. eexists. split; [exact Hi|done].
Qed.

Lemma fifo_H_access (s : CachePolicy.t K V Time (FIFOCache.ext_t K)) k now e :
  CachePolicy._cache s !! k = Some e →
  FInv (CachePolicy._cache s) (CachePolicy.ext s) →
  ∃ a', CachePolicy._on_access k now s =
          (Ok tt, CachePolicy.set_ext a'
                    (CachePolicy.set_cache (<[k := e]> (CachePolicy._cache s)) s)) ∧
        FInv (<[k := e]> (CachePolicy._cache s)) a'.
Proof.
  intros Hk Ha. exists (CachePolicy.ext s). split; [by apply fifo_on_access|].
  by rewrite insert_id.
Qed.

Lemma fifo_H_delete (s : CachePolicy.t K V Time (FIFOCache.ext_t K)) k :
  is_Some (CachePolicy._cache s !! k) →
  FInv (CachePolicy._cache s) (CachePolicy.ext s) →
  ∃ a', CachePolicy._on_delete k s = (Ok tt, CachePolicy.set_ext a' s) ∧
        FInv (delete k (CachePolicy._cache s)) a'.
Proof.
  intros Hk Ha. destruct (fifo_on_delete s k Hk Ha) as (q' & Hd & _ & Ha').
  by exists (FIFOCache.mk_ext q').
Qed.

Lemma fifo_H_clear (s : CachePolicy.t K V Time (FIFOCache.ext_t K)) c0 :
  FInv c0 (CachePolicy.ext s) →
  ∃ a', CachePolicy._on_clear s = (Ok tt, CachePolicy.set_ext a' s) ∧
        FInv (∅ : gmap K (CacheEntry.t K V Time)) a'.
Proof. intros _. exists (FIFOCache.mk_ext []). apply fifo_on_clear. Qed.

Lemma lfu_on_access (s : CachePolicy.t K V Time (LFUCache.ext_t K)) k now e :
  CachePolicy._cache s !! k = Some e →
  lfu_aux (CachePolicy._cache s) (CachePolicy.ext s) →
  ∃ f b b', LFUCache.freq_key s !! k = Some f ∧ LFUCache.freq_map s !! f = Some b ∧
            remove_first k b = Some b' ∧
            CachePolicy._on_access k now s =
              (Ok tt, CachePolicy.set_ext (lfu_bumped k f b' (CachePolicy.ext s))
                        (CachePolicy.set_cache (<[k := touch now e]> (CachePolicy._cache s)) s)).
Proof.
  intros Hk [Hb Hm].
  assert (Hfk : is_Some (LFUCache._freq_key (CachePolicy.ext s) !! k)) by (apply Hb; eauto).
  destruct Hfk as [f Hf].
  destruct (lfu_buckets_find _ _ _ _ _ Hb Hf) as (b & b' & Hfb & _ & Hr & _).
  exists f, b, b'. split; [done|]. split; [done|]. split; [done|].
  simpl. unfold LFUCache._on_access. munfold. simpl.
  rewrite (alter_alter_insert _ _ e) by done.
  rewrite (lfu_increment _ k f b b'); done.
Qed.

Lemma lfu_H_evict (s : CachePolicy.t K V Time (LFUCache.ext_t K)) :
  lfu_aux (CachePolicy._cache s) (CachePolicy.ext s) → CachePolicy._cache s ≠ ∅ →
  ∃ k0 a', is_Some (CachePolicy._cache s !! k0) ∧
           CachePolicy._evict s = (Ok tt, evicted s k0 a') ∧
           lfu_pre (delete k0 (CachePolicy._cache s)) a'.
Proof.
  intros Ha Hne. destruct (lfu_evicted_pre _ _ Ha Hne) as (k0 & b' & Hmf & Hb & _ & Hk0 & Hpre).
  exists k0, (lfu_evicted k0 b' (CachePolicy.ext s)). split; [done|]. split; [|done].
  by apply lfu_evict_eq.
Qed.

Lemma lfu_H_insert (s : CachePolicy.t K V Time (LFUCache.ext_t K)) k :
  is_Some (CachePolicy._cache s !! k) →
  lfu_pre (delete k (CachePolicy._cache s)) (CachePolicy.ext s) →
  ∃ a', CachePolicy._on_insert k s = (Ok tt, CachePolicy.set_ext a' s) ∧
        lfu_aux (CachePolicy._cache s) a'.
Proof.
  intros Hk Ha. exists (lfu_inserted k (CachePolicy.ext s)).
  split; [apply lfu_on_insert_eq|by apply lfu_inserted_aux].
Qed.

Lemma lfu_H_access (s : CachePolicy.t K V Time (LFUCache.ext_t K)) k now e :
  CachePolicy._cache s !! k = Some e →
  lfu_aux (CachePolicy._cache s) (CachePolicy.ext s) →
  ∃ a', CachePolicy._on_access k now s =
          (Ok tt, CachePolicy.set_ext a'
                    (CachePolicy.set_cache (<[k := touch now e]> (CachePolicy._cache s)) s)) ∧
        lfu_aux (<[k := touch now e]> (CachePolicy._cache s)) a'.
Proof.
  intros Hk Ha. destruct (lfu_on_access s k now e Hk Ha) as (f & b & b' & Hf & Hb & Hr & Hacc).
  eexists. split; [exact Hacc|]. eapply lfu_aux_dom; [by eapply insert_same_dom|].
  by eapply lfu_bumped_aux.
Qed.

Lemma lfu_H_delete (s : CachePolicy.t K V Time (LFUCache.ext_t K)) k :
  is_Some (CachePolicy._cache s !! k) →
  lfu_aux (CachePolicy._cache s) (CachePolicy.ext s) →
  ∃ a', CachePolicy._on_delete k s = (Ok tt, CachePolicy.set_ext a' s) ∧
        lfu_aux (delete k (CachePolicy._cache s)) a'.
Proof.
  intros Hk Ha.
  assert (Hfk : is_Some (LFUCache._freq_key (CachePolicy.ext s) !! k)) by (by apply Ha).
  destruct Hfk as [f Hf].
  destruct (lfu_buckets_find _ _ _ _ _ (proj1 Ha) Hf) as (b & b' & Hfb & _ & Hr & _).
  exists (lfu_deleted k f b' (CachePolicy.ext s)).
  split; [by eapply lfu_on_delete_eq|by eapply lfu_deleted_aux].
Qed.

Lemma lfu_H_clear (s : CachePolicy.t K V Time (LFUCache.ext_t K)) c0 :
  lfu_aux c0 (CachePolicy.ext s) →
  ∃ a', CachePolicy._on_clear s = (Ok tt, CachePolicy.set_ext a' s) ∧
        lfu_aux (∅ : gmap K (CacheEntry.t K V Time)) a'.
Proof. intros _. eexists. split; [apply lfu_on_clear_eq|apply lfu_clear_aux]. Qed.
End fifo_lfu_hooks.

(** ** LRU: the linked list in the heap *)

Section lru_heap.
Context {K : Type}.
Implicit Types (h : node_id → DLinkedNode.t K) (n p t pv nx : node_id) (ids : list node_id).

Ltac decs := repeat (case_decide; try done).

Ltac heap_cases :=
  repeat match goal with
  | |- context [ (<[?a := _]> _) ?x ] =>
      destruct (decide (a = x)) as [?|?];
      [subst; rewrite ?fn_lookup_insert | rewrite (fn_lookup_insert_ne _ a x) by done]
  end.

Lemma unlinked_key n pv nx h x :
  DLinkedNode.key (unlinked n pv nx h x) = DLinkedNode.key (h x).
Proof. unfold unlinked. heap_cases; simpl; heap_cases; done. Qed.

Lemma unlinked_next n pv nx h x :
  pv ≠ n →
  DLinkedNode.next (unlinked n pv nx h x) =
    if decide (x = n) then None else if decide (x = pv) then Some nx else DLinkedNode.next (h x).
Proof.
  intros Hne. unfold unlinked.
  destruct (decide (x = n)) as [->|Hxn].
  - by rewrite fn_lookup_insert.
  - rewrite !(fn_lookup_insert_ne _ n x) by done.
    destruct (decide (x = pv)) as [->|Hxp]; heap_cases; simpl; heap_cases; done.
Qed.

Lemma unlinked_prev n pv nx h x :
  nx ≠ n →
  DLinkedNode.prev (unlinked n pv nx h x) =
    if decide (x = n) then None else if decide (x = nx) then Some pv else DLinkedNode.prev (h x).
Proof.
  intros Hne. unfold unlinked.
  destruct (decide (x = n)) as [->|Hxn].
  - rewrite fn_lookup_insert. simpl. by rewrite fn_lookup_insert.
  - rewrite !(fn_lookup_insert_ne _ n x) by done.
    destruct (decide (x = nx)) as [->|Hxp]; heap_cases; simpl; heap_cases; done.
Qed.

Lemma linked_front_key n hd f h x :
  DLinkedNode.key (linked_front n hd f h x) = DLinkedNode.key (h x).
Proof. unfold linked_front. heap_cases; simpl; heap_cases; simpl; heap_cases; done. Qed.

Lemma linked_front_next n hd f h x :
  DLinkedNode.next (linked_front n hd f h x) =
    if decide (x = hd) then Some n else if decide (x = n) then Some f else DLinkedNode.next (h x).
Proof.
  unfold linked_front.
  destruct (decide (x = hd)) as [->|Hxh].
  - by rewrite fn_lookup_insert.
  - rewrite (fn_lookup_insert_ne _ hd x) by done.
    destruct (decide (x = n)) as [->|Hxn]; heap_cases; simpl; heap_cases; done.
Qed.

Lemma linked_front_prev n hd f h x :
  n ≠ f →
  DLinkedNode.prev (linked_front n hd f h x) =
    if decide (x = f) then Some n else if decide (x = n) then Some hd else DLinkedNode.prev (h x).
Proof.
  intros Hnf. unfold linked_front.
  destruct (decide (x = f)) as [->|Hxf].
  - heap_cases; simpl; heap_cases; done.
  - destruct (decide (x = n)) as [->|Hxn]; heap_cases; simpl; heap_cases; done.
Qed.

Lemma dseg_app h p l1 n l2 t :
  dseg h p (l1 ++ n :: l2) t ↔ dseg h p l1 n ∧ dseg h n l2 t.
Proof.
  revert p. induction l1 as [|a l1 IH]; intros p; simpl.
  - tauto.
  - rewrite IH. tauto.
Qed.

Lemma dseg_frame h h' p ids t :
  (∀ x, x ∈ p :: ids → DLinkedNode.next (h' x) = DLinkedNode.next (h x)) →
  (∀ x, x ∈ ids ++ [t] → DLinkedNode.prev (h' x) = DLinkedNode.prev (h x)) →
  dseg h p ids t → dseg h' p ids t.
Proof.
  revert p. induction ids as [|a ids IH]; intros p Hn Hp; simpl.
  - intros [H1 H2]. rewrite Hn by (by left). rewrite Hp by (by left). done.
  - intros (H1 & H2 & H3). rewrite Hn by (by left). rewrite Hp by (by left).
    split; [done|]. split; [done|]. apply IH; [| |done].
    + intros x Hx. apply Hn. by right.
    + intros x Hx. apply Hp. by right.
Qed.

Lemma before_elem p l1 : before p l1 ∈ p :: l1.
Proof.
  unfold before. destruct (last l1) as [x|] eqn:Hl; simpl; [|by left].
  right. apply last_Some in Hl as [l' ->]. apply elem_of_app. right. by left.
Qed.

Lemma behind_elem l2 t : behind l2 t ∈ l2 ++ [t].
Proof. destruct l2; simpl; by left. Qed.

Lemma before_cons p a l1 : before p (a :: l1) = before a l1.
Proof.
  unfold before. destruct l1 as [|b l1]; [done|]. rewrite last_cons_cons.
  destruct (last (b :: l1)) eqn:E; [done|]. by apply last_None in E.
Qed.

Lemma dseg_last h p l1 n : dseg h p l1 n → DLinkedNode.prev (h n) = Some (before p l1).
Proof.
  revert p. induction l1 as [|a l1 IH]; intros p; simpl.
  - by intros [_ ?].
  - intros (_ & _ & Hd). rewrite before_cons. by apply IH.
Qed.

Lemma dseg_first h n l2 t : dseg h n l2 t → DLinkedNode.next (h n) = Some (behind l2 t).
Proof. destruct l2; simpl; [by intros [? _]|by intros (? & _)]. Qed.

Lemma NoDup_mid {A} (l1 : list A) (n : A) (l2 : list A) :
  NoDup (l1 ++ n :: l2) →
  NoDup l1 ∧ NoDup l2 ∧ (n ∉ l1) ∧ (n ∉ l2) ∧ ∀ x, x ∈ l1 → x ∉ l2.
Proof.
  intros (H1 & H2 & H3)%NoDup_app. apply NoDup_cons in H3 as [H3 H4].
  split; [done|]. split; [done|]. split.
  { intros Hn. apply (H2 n Hn). by left. }
  split; [done|]. intros x Hx Hx2. apply (H2 x Hx). by right.
Qed.

Lemma dseg_unlink_aux h h' p l1 n l2 t :
  NoDup (p :: l1) → NoDup (l2 ++ [t]) → n ∉ p :: l1 → n ∉ l2 ++ [t] →
  (∀ x, x ∈ p :: l1 → x ∉ l2 ++ [t]) →
  (∀ x, DLinkedNode.next (h' x) =
        if decide (x = n) then None else if decide (x = before p l1) then Some (behind l2 t)
        else DLinkedNode.next (h x)) →
  (∀ x, DLinkedNode.prev (h' x) =
        if decide (x = n) then None else if decide (x = behind l2 t) then Some (before p l1)
        else DLinkedNode.prev (h x)) →
  dseg h p (l1 ++ n :: l2) t → dseg h' p (l1 ++ l2) t.
Proof.
  intros F1 F2 F3 F4 F5 Hnext Hprev.
  revert p F1 F3 F5 Hnext Hprev. induction l1 as [|a l1 IH]; intros p F1 F3 F5 Hnext Hprev Hd.
  - simpl in *. destruct Hd as (Hpn & Hnp & Hd). unfold before in *. simpl in *.
    assert (Hpn' : p ≠ n) by (intros ->; apply F3; by left).
    assert (Hpb : p ≠ behind l2 t) by (intros Heq; apply (F5 p); [by left|];
                                        rewrite Heq at 1; apply behind_elem).
    assert (Hbn : behind l2 t ≠ n) by (intros Heq; apply F4; rewrite <- Heq; apply behind_elem).
    destruct l2 as [|m l2]; simpl in *; unfold behind in *; simpl in *.
    + rewrite Hnext, Hprev. decs.
    + destruct Hd as (Hnm & Hmn & Hd).
      split; [rewrite Hnext; decs|]. split; [rewrite Hprev; decs|].
      apply NoDup_cons in F2 as [Hm F2].
      apply (dseg_frame h); [| |done].
      * intros x Hx. rewrite Hnext.
        rewrite decide_False by (intros ->; apply F4; rewrite app_comm_cons;
                                 apply elem_of_app; by left).
        rewrite decide_False; [done|]. intros ->. apply (F5 p); [by left|].
        rewrite app_comm_cons. apply elem_of_app; by left.
      * intros x Hx. rewrite Hprev.
        rewrite decide_False by (intros ->; apply F4; by right).
        rewrite decide_False; [done|]. by intros ->.
  - simpl in Hd. destruct Hd as (Hpa & Hap & Hd). rewrite before_cons in *.
    apply NoDup_cons in F1 as [Hp F1].
    assert (Hd' : dseg h' a (l1 ++ l2) t).
    { apply IH; try done.
      - intros Hn. apply F3. by right.
      - intros x Hx. apply F5. by right. }
    simpl. split; [|split; [|done]].
    + rewrite Hnext. rewrite decide_False by (intros ->; apply F3; by left).
      rewrite decide_False; [done|]. intros ->. apply Hp, before_elem.
    + rewrite Hprev. rewrite decide_False by (intros ->; apply F3; right; by left).
      rewrite decide_False; [done|]. intros Heq. apply (F5 a); [right; by left|].
      rewrite Heq at 1. apply behind_elem.
Qed.

Lemma dseg_unlink h p l1 n l2 t :
  NoDup (p :: l1 ++ n :: l2 ++ [t]) →
  dseg h p (l1 ++ n :: l2) t →
  before p l1 ≠ n ∧ behind l2 t ≠ n ∧
  dseg (unlinked n (before p l1) (behind l2 t) h) p (l1 ++ l2) t.
Proof.
  intros Hnd Hd. rewrite app_comm_cons in Hnd.
  destruct (NoDup_mid _ _ _ Hnd) as (F1 & F2 & F3 & F4 & F5).
  assert (Hpv : before p l1 ≠ n) by (intros Heq; apply F3; rewrite <- Heq; apply before_elem).
  assert (Hnx : behind l2 t ≠ n) by (intros Heq; apply F4; rewrite <- Heq; apply behind_elem).
  split; [done|]. split; [done|].
  apply (dseg_unlink_aux h _ p l1 n l2 t); try done.
  - intros x. by apply unlinked_next.
  - intros x. by apply unlinked_prev.
Qed.

Lemma dseg_link_front h p n ids t :
  NoDup (p :: n :: ids ++ [t]) →
  dseg h p ids t →
  dseg (linked_front n p (behind ids t) h) p (n :: ids) t.
Proof.
  intros Hnd Hd.
  apply NoDup_cons in Hnd as [Hp Hnd]. apply NoDup_cons in Hnd as [Hn Hnd].
  apply not_elem_of_cons in Hp as [Hpn Hp].
  assert (Hnf : n ≠ behind ids t).
  { intros Heq. apply Hn. rewrite Heq. apply behind_elem. }
  assert (Hpf : p ≠ behind ids t).
  { intros Heq. apply Hp. rewrite Heq. apply behind_elem. }
  pose proof (dseg_first _ _ _ _ Hd) as Hfirst.
  simpl. split; [rewrite linked_front_next; decs|].
  split; [rewrite linked_front_prev by done; decs|].
  destruct ids as [|m ids]; simpl in *.
  - unfold behind in *. simpl in *.
    rewrite linked_front_next, linked_front_prev by done. decs.
  - unfold behind in *. simpl in *. destruct Hd as (Hpm & Hmp & Hd).
    split; [rewrite linked_front_next; decs|].
    split; [rewrite linked_front_prev by done; decs|].
    apply NoDup_cons in Hnd as [Hm Hnd].
    apply (dseg_frame h); [| |done].
    + intros x Hx. rewrite linked_front_next.
      rewrite decide_False by (intros ->; apply Hp; rewrite app_comm_cons;
                               apply elem_of_app; by left).
      rewrite decide_False; [done|]. intros ->. apply Hn. rewrite app_comm_cons.
      apply elem_of_app. by left.
    + intros x Hx. rewrite linked_front_prev by done.
      rewrite decide_False by (by intros ->).
      rewrite decide_False; [done|]. intros ->. apply Hn. by right.
Qed.
End lru_heap.

(** ** LRU: what the list methods compute *)

Section lru_ops.
Context {K V Time : Type} `{Countable K}.
Implicit Types (s : CachePolicy.t K V Time (LRUCache.ext_t K)) (k : K).
Implicit Types (n pv nx f : node_id) (a : LRUCache.ext_t K).

Ltac lru_unfold :=
  repeat (progress (
    unfold LRUCache._remove_node, LRUCache._add_to_front, LRUCache._move_to_front,
      LRUCache.attr, LRUCache.set_attr, LRUCache.set_heap, LRUCache.set_node_map,
      LRUCache.heap, LRUCache.head, LRUCache.tail, LRUCache.node_map, LRUCache.new_node,
      CachePolicy.set_ext, CachePolicy.set_cache, CachePolicy.set_stats in *;
    munfold; simpl in *)).

Lemma lru_remove_node_eq s n pv nx :
  DLinkedNode.prev (LRUCache.heap s n) = Some pv →
  DLinkedNode.next (LRUCache.heap s n) = Some nx →
  LRUCache._remove_node (Some n) s =
    (Ok tt, LRUCache.set_heap (unlinked n pv nx (LRUCache.heap s)) s).
Proof.
  intros Hp Hn. destruct s as [cap nm c st [ndm hd tl h nid]]. lru_unfold.
  rewrite Hn, Hp. simpl.
  assert (Hp1 : DLinkedNode.prev ((<[pv := LRUCache.with_next (Some nx) (h pv)]> h) n) = Some pv).
  { destruct (decide (pv = n)) as [->|Hne].
    - by rewrite fn_lookup_insert.
    - by rewrite fn_lookup_insert_ne. }
  assert (Hn1 : DLinkedNode.next ((<[pv := LRUCache.with_next (Some nx) (h pv)]> h) n) = Some nx).
  { destruct (decide (pv = n)) as [->|Hne].
    - by rewrite fn_lookup_insert.
    - by rewrite fn_lookup_insert_ne. }
  rewrite Hp1, Hn1. simpl. done.
Qed.

Lemma lru_add_to_front_eq s n f :
  DLinkedNode.next (LRUCache.heap s (LRUCache.head s)) = Some f →
  n ≠ LRUCache.head s →
  LRUCache._add_to_front (Some n) s =
    (Ok tt, LRUCache.set_heap (linked_front n (LRUCache.head s) f (LRUCache.heap s)) s).
Proof.
  intros Hf Hne. destruct s as [cap nm c st [ndm hd tl h nid]]. lru_unfold.
  rewrite Hf. simpl. rewrite !(fn_lookup_insert_ne _ n hd) by done. rewrite Hf. simpl. done.
Qed.

Lemma lru_linked_unlink s l1 n l2 :
  lru_linked (CachePolicy.ext s) (l1 ++ n :: l2) →
  DLinkedNode.prev (LRUCache.heap s n) = Some (before (LRUCache.head s) l1) ∧
  DLinkedNode.next (LRUCache.heap s n) = Some (behind l2 (LRUCache.tail s)) ∧
  n ≠ LRUCache.head s ∧ (n ∉ l1 ++ l2) ∧
  lru_linked
    (CachePolicy.ext
       (LRUCache.set_heap
          (unlinked n (before (LRUCache.head s) l1) (behind l2 (LRUCache.tail s))
             (LRUCache.heap s)) s))
    (l1 ++ l2).
Proof.
  destruct s as [cap nm c st [ndm hd tl h nid]]. unfold lru_linked. simpl.
  intros (Hnd & Hd & Hb). rewrite <- app_assoc in Hnd. simpl in Hnd.
  pose proof (proj1 (dseg_app _ _ _ _ _ _) Hd) as [Hd1 Hd2].
  split; [by eapply dseg_last|]. split; [by eapply dseg_first|].
  destruct (dseg_unlink _ _ _ _ _ _ Hnd Hd) as (_ & _ & Hd').
  rewrite app_comm_cons in Hnd. destruct (NoDup_mid _ _ _ Hnd) as (F1 & F2 & F3 & F4 & F5).
  split; [intros ->; apply F3; by left|]. split.
  { intros [?|?]%elem_of_app; [apply F3; by right|apply F4, elem_of_app; by left]. }
  split; [|split; [done|]].
  - rewrite <- app_assoc, app_comm_cons. apply NoDup_app. done.
  - intros x Hx. apply Hb. rewrite <- app_assoc in Hx. rewrite app_comm_cons in Hx.
    apply elem_of_app in Hx as [Hx|Hx].
    + rewrite <- app_assoc, app_comm_cons. apply elem_of_app. by left.
    + rewrite <- app_assoc, app_comm_cons. apply elem_of_app. right. by right.
Qed.

Lemma lru_linked_link s n ids :
  lru_linked (CachePolicy.ext s) ids →
  n ∉ LRUCache.head s :: ids ++ [LRUCache.tail s] →
  (n < LRUCache.next_id (CachePolicy.ext s))%nat →
  DLinkedNode.next (LRUCache.heap s (LRUCache.head s)) = Some (behind ids (LRUCache.tail s)) ∧
  lru_linked
    (CachePolicy.ext
       (LRUCache.set_heap
          (linked_front n (LRUCache.head s) (behind ids (LRUCache.tail s)) (LRUCache.heap s)) s))
    (n :: ids).
Proof.
  destruct s as [cap nm c st [ndm hd tl h nid]]. unfold lru_linked. simpl.
  intros (Hnd & Hd & Hb) Hn Hlt. split; [by eapply dseg_first|].
  apply not_elem_of_cons in Hn as [Hnh Hn].
  assert (Hnd' : NoDup (hd :: n :: ids ++ [tl])).
  { apply NoDup_cons in Hnd as [Hh Hnd]. apply NoDup_cons. split.
    - apply not_elem_of_cons. split; [by intros ->|done].
    - by apply NoDup_cons. }
  split; [done|]. split; [by apply dseg_link_front|].
  intros x [->|[->|Hx]%elem_of_cons]%elem_of_cons.
  - apply Hb. by left.
  - done.
  - apply Hb. by right.
Qed.

Lemma keys_split (g : node_id → option K) (l1 : list node_id) n l2 (ks : list K) :
  g <$> (l1 ++ n :: l2) = Some <$> ks →
  ∃ ks1 k ks2, ks = ks1 ++ k :: ks2 ∧ g n = Some k ∧
               g <$> l1 = Some <$> ks1 ∧ g <$> l2 = Some <$> ks2.
Proof.
  rewrite fmap_app, fmap_cons. intros Heq. symmetry in Heq.
  apply fmap_app_inv in Heq as (ks1 & ks' & H1 & H2 & ->).
  symmetry in H2. apply fmap_cons_inv in H2 as (k & ks2 & Hk & H2 & ->).
  exists ks1, k, ks2. done.
Qed.

Lemma keys_elem (g : node_id → option K) (ids : list node_id) (ks : list K) k :
  g <$> ids = Some <$> ks → (k ∈ ks ↔ ∃ n, n ∈ ids ∧ g n = Some k).
Proof.
  intros Heq. split.
  - intros Hk. assert (Hin : Some k ∈ Some <$> ks) by (apply list_elem_of_fmap; eauto).
    rewrite <- Heq in Hin. apply list_elem_of_fmap in Hin as (n & ? & ?). eauto.
  - intros (n & Hn & Hg). assert (Hin : Some k ∈ g <$> ids) by (apply list_elem_of_fmap; eauto).
    rewrite Heq in Hin. apply list_elem_of_fmap in Hin as (k' & [= ->] & ?). done.
Qed.

Lemma keys_ext (g g' : node_id → option K) (ids : list node_id) :
  (∀ n, g' n = g n) → g' <$> ids = g <$> ids.
Proof. intros Hg. apply list_fmap_ext. intros _ x _. apply Hg. Qed.

(** Taking the node [n] of key [k] out of the list and of the node map. *)
Lemma lru_list_remove s l1 n l2 ks1 k ks2 :
  lru_list (CachePolicy.ext s) (l1 ++ n :: l2) (ks1 ++ k :: ks2) →
  length l1 = length ks1 →
  DLinkedNode.key (LRUCache.heap s n) = Some k ∧
  lru_list
    (CachePolicy.ext
       (LRUCache.set_node_map (delete k (LRUCache.node_map s))
          (LRUCache.set_heap
             (unlinked n (before (LRUCache.head s) l1) (behind l2 (LRUCache.tail s))
                (LRUCache.heap s)) s)))
    (l1 ++ l2) (ks1 ++ ks2).
Proof.
  intros [Hl (Hk & Hnd & Hm)] Hlen.
  destruct (lru_linked_unlink s l1 n l2 Hl) as (_ & _ & _ & Hn & Hl').
  rewrite !fmap_app, !fmap_cons in Hk.
  apply app_inj_1 in Hk as [Hk1 Hk2]; [|by rewrite !length_fmap].
  injection Hk2 as Hkey Hk2.
  split; [done|].
  destruct s as [cap nm c st [ndm hd tl h nid]]. unfold lru_list, lru_linked, lru_keyed in *.
  lru_unfold. split; [exact Hl'|].
  destruct (NoDup_mid _ _ _ Hnd) as (G1 & G2 & G3 & G4 & G5).
  split; [|split].
  - rewrite (keys_ext (λ n, DLinkedNode.key (h n))) by (intros x; apply unlinked_key).
    by rewrite !fmap_app, Hk1, Hk2.
  - apply NoDup_app. done.
  - intros k0 n0. rewrite unlinked_key. destruct (decide (k0 = k)) as [->|Hne].
    + rewrite lookup_delete_eq. split; [done|]. intros [Hn0 Hk0].
      assert (ndm !! k = Some n0) as Hm0.
      { apply Hm. split; [|done]. apply elem_of_app in Hn0 as [?|?]; apply elem_of_app;
          [by left|right; by right]. }
      assert (ndm !! k = Some n) as Hm1.
      { apply Hm. split; [|done]. apply elem_of_app. right. by left. }
      assert (n0 = n) as -> by congruence. done.
    + rewrite lookup_delete_ne by done. rewrite Hm. split.
      * intros [Hn0 Hk0]. split; [|done].
        apply elem_of_app in Hn0 as [?|[->|?]%elem_of_cons]; [apply elem_of_app; by left| |
          apply elem_of_app; by right].
        congruence.
      * intros [Hn0 Hk0]. split; [|done].
        apply elem_of_app in Hn0 as [?|?]; apply elem_of_app; [by left|right; by right].
Qed.

Lemma lru_evict_spec s ids ks :
  lru_list (CachePolicy.ext s) ids ks → ks ≠ [] →
  ∃ ks1 k a', ks = ks1 ++ [k] ∧
    CachePolicy._evict s = (Ok tt, evicted s k a') ∧
    ∃ ids', lru_list a' ids' ks1.
Proof.
  intros Hl Hne.
  assert (Hids : ids ≠ []).
  { intros ->. destruct Hl as [_ (Hk & _)]. destruct ks; [done|]. done. }
  destruct ids as [|n0 ids0] using rev_ind; [done|]. clear IHids0 Hids.
  rename ids0 into l1, n0 into n.
  destruct (lru_linked_unlink s l1 n [] (proj1 Hl)) as (Hpv & Hnx & Hnh & _ & _).
  destruct (keys_split _ _ _ _ _ (proj1 (proj2 Hl))) as (ks1 & k & ks2 & -> & Hk & Hk1 & Hk2).
  destruct ks2; [|done].
  destruct (lru_list_remove s l1 n [] ks1 k [] Hl) as (_ & Hl').
  { apply (f_equal length) in Hk1. by rewrite !length_fmap in Hk1. }
  exists ks1, k. eexists. split; [done|]. rewrite !app_nil_r in Hl'. split; [|eauto].
  assert (Hprev : DLinkedNode.prev (LRUCache.heap s (LRUCache.tail s)) = Some n).
  { destruct Hl as [(_ & Hd & _) _]. apply dseg_app in Hd as [_ [_ Hd]]. exact Hd. }
  simpl. unfold LRUCache._evict. munfold. simpl. unfold LRUCache.attr at 1. munfold.
  rewrite Hprev. rewrite decide_False by (by intros [= ?]).
  change (DLinkedNode.key (LRUCache.heap s n) = Some k) in Hk.
  rewrite (lru_remove_node_eq s n _ _ Hpv Hnx). rewrite Hk. simpl.
  destruct s as [cap nm c st [ndm hd tl h nid]]. done.
Qed.

Lemma lru_node_of_key a ids ks k :
  lru_keyed a ids ks → k ∈ ks →
  ∃ n l1 l2 ks1 ks2, LRUCache._node_map a !! k = Some n ∧ ids = l1 ++ n :: l2 ∧
    ks = ks1 ++ k :: ks2 ∧ length l1 = length ks1.
Proof.
  intros (Hk & Hnd & Hm) Hin.
  apply (keys_elem _ _ _ _ Hk) in Hin as (n & Hn & Hkey).
  apply list_elem_of_split in Hn as (l1 & l2 & ->).
  destruct (keys_split _ _ _ _ _ Hk) as (ks1 & k' & ks2 & -> & Hk' & Hk1 & Hk2).
  assert (k' = k) as -> by congruence.
  exists n, l1, l2, ks1, ks2. split.
  { apply Hm. split; [|done]. apply elem_of_app. right. by left. }
  split; [done|]. split; [done|].
  apply (f_equal length) in Hk1. by rewrite !length_fmap in Hk1.
Qed.

Lemma lru_delete_spec s ids ks1 k ks2 :
  lru_list (CachePolicy.ext s) ids (ks1 ++ k :: ks2) →
  ∃ a' ids', CachePolicy._on_delete k s = (Ok tt, CachePolicy.set_ext a' s) ∧
             lru_list a' ids' (ks1 ++ ks2).
Proof.
  intros Hl.
  destruct (lru_node_of_key _ _ _ k (proj2 Hl)) as (n & l1 & l2 & ks1' & ks2' & Hm & -> & Hks & Hlen).
  { apply elem_of_app. right. by left. }
  pose proof (proj1 (proj2 (proj2 Hl))) as Hnd.
  assert (ks1' = ks1 ∧ ks2' = ks2) as [-> ->].
  { clear -Hks Hnd. revert ks1' Hks. induction ks1 as [|x ks1 IH]; intros ks1' Hks.
    - destruct ks1' as [|y ks1']; simpl in *; [by injection Hks as ->|].
      injection Hks as <- ->. apply NoDup_cons in Hnd as [Hk _]. exfalso. apply Hk.
      apply elem_of_app. right. by left.
    - destruct ks1' as [|y ks1']; simpl in *.
      + injection Hks as -> <-. apply NoDup_cons in Hnd as [Hk _]. exfalso. apply Hk.
        apply elem_of_app. right. by left.
      + injection Hks as <- Hks. apply NoDup_cons in Hnd as [_ Hnd].
        destruct (IH Hnd _ Hks) as [-> ->]. done. }
  destruct (lru_list_remove s l1 n l2 ks1 k ks2 Hl Hlen) as (Hkey & Hl').
  destruct (lru_linked_unlink s l1 n l2 (proj1 Hl)) as (Hpv & Hnx & _).
  eexists _, _. split; [|exact Hl'].
  simpl. unfold LRUCache._on_delete. munfold. unfold LRUCache.node_map at 1. rewrite Hm.
  rewrite (lru_remove_node_eq s n _ _ Hpv Hnx).
  destruct s as [cap nm c st [ndm hd tl h nid]]. done.
Qed.

Lemma lru_access_spec s ids ks k now e :
  lru_list (CachePolicy.ext s) ids ks →
  CachePolicy._cache s !! k = Some e → k ∈ ks →
  ∃ a' ids' ks1 ks2, ks = ks1 ++ k :: ks2 ∧
    CachePolicy._on_access k now s =
      (Ok tt, CachePolicy.set_ext a'
                (CachePolicy.set_cache (<[k := touch now e]> (CachePolicy._cache s)) s)) ∧
    lru_list a' ids' (k :: ks1 ++ ks2).
Proof.
  intros Hl Hc Hin.
  destruct (lru_node_of_key _ _ _ k (proj2 Hl) Hin)
    as (n & l1 & l2 & ks1 & ks2 & Hm & -> & -> & Hlen).
  destruct (lru_linked_unlink s l1 n l2 (proj1 Hl)) as (Hpv & Hnx & Hnh & Hn & Hl1).
  set (s1 := LRUCache.set_heap _ s) in Hl1.
  assert (Hnt : n ≠ LRUCache.tail s).
  { destruct Hl as [(Hnd & _) _]. intros ->. apply NoDup_cons in Hnd as [_ Hnd].
    rewrite <- app_assoc in Hnd. simpl in Hnd. apply NoDup_mid in Hnd as (_ & _ & _ & Hx & _).
    apply Hx. apply elem_of_app. right. by left. }
  assert (Hlt : (n < LRUCache.next_id (CachePolicy.ext s))%nat).
  { destruct Hl as [(_ & _ & Hb) _]. apply Hb. right. rewrite <- app_assoc.
    apply elem_of_app. right. by left. }
  destruct (lru_linked_link s1 n (l1 ++ l2) Hl1) as (Hf & Hl2).
  { intros [?|[?|?%list_elem_of_singleton]%elem_of_app]%elem_of_cons; done. }
  { destruct s as [cap nm c st [ndm hd tl h nid]]. exact Hlt. }
  set (s2 := LRUCache.set_heap _ s1) in Hl2.
  exists (CachePolicy.ext s2), (n :: l1 ++ l2), ks1, ks2. split; [done|]. split.
  - simpl. unfold LRUCache._on_access. munfold. simpl.
    rewrite (alter_alter_insert _ _ e) by done. unfold LRUCache.node_map at 1. simpl. rewrite Hm.
    unfold LRUCache._move_to_front. munfold.
    set (sc := CachePolicy.set_cache (<[k := touch now e]> (CachePolicy._cache s)) s).
    change (LRUCache._remove_node (Some n) _) with (LRUCache._remove_node (Some n) sc).
    rewrite (lru_remove_node_eq sc n _ _ Hpv Hnx).
    rewrite (lru_add_to_front_eq _ n (behind (l1 ++ l2) (LRUCache.tail s))).
    + destruct s as [cap nm c st [ndm hd tl h nid]]. done.
    + destruct s as [cap nm c st [ndm hd tl h nid]]. exact Hf.
    + destruct s as [cap nm c st [ndm hd tl h nid]]. exact Hnh.
  - split; [exact Hl2|].
    destruct (lru_list_remove s l1 n l2 ks1 k ks2 Hl Hlen) as (Hkey & _).
    destruct Hl as [_ (Hk & Hnd & Hmap)].
    rewrite !fmap_app, !fmap_cons in Hk.
    apply app_inj_1 in Hk as [Hk1 Hk2]; [|by rewrite !length_fmap].
    injection Hk2 as _ Hk2.
    destruct s as [cap nm c st [ndm hd tl h nid]]. unfold lru_keyed in *. lru_unfold.
    assert (Hkeys : ∀ x, DLinkedNode.key
              (linked_front n hd (behind (l1 ++ l2) tl)
                 (unlinked n (before hd l1) (behind l2 tl) h) x) = DLinkedNode.key (h x)).
    { intros x. by rewrite linked_front_key, unlinked_key. }
    split; [|split].
    + rewrite Hkeys, Hkey. f_equal.
      rewrite (keys_ext (λ n, DLinkedNode.key (h n))) by done.
      by rewrite !fmap_app, Hk1, Hk2.
    + apply NoDup_mid in Hnd as (G1 & G2 & G3 & G4 & G5). apply NoDup_cons. split.
      * intros [?|?]%elem_of_app; done.
      * by apply NoDup_app.
    + intros k0 n0. rewrite Hkeys, Hmap. rewrite !elem_of_cons, !elem_of_app, !elem_of_cons.
      naive_solver.
Qed.

Lemma lru_insert_spec s ids ks k :
  lru_list (CachePolicy.ext s) ids ks → k ∉ ks →
  ∃ a' ids', CachePolicy._on_insert k s = (Ok tt, CachePolicy.set_ext a' s) ∧
             lru_list a' ids' (k :: ks).
Proof.
  intros Hl Hk. destruct s as [cap nm c st [ndm hd tl h nid]].
  set (h1 := <[nid := DLinkedNode.new (Some k)]> h).
  set (s1 := CachePolicy.mk cap nm c st (LRUCache.mk_ext ndm hd tl h1 (S nid))).
  destruct Hl as [(Hnd & Hd & Hb) (Hks & Hndk & Hm)]. simpl in *.
  assert (Hfresh : nid ∉ hd :: ids ++ [tl]).
  { intros Hin%Hb. lia. }
  assert (Hh1 : ∀ x, x ≠ nid → h1 x = h x).
  { intros x Hx. unfold h1. by rewrite fn_lookup_insert_ne. }
  assert (Hl1 : lru_linked (CachePolicy.ext s1) ids).
  { split; [done|]. split; simpl.
    - apply (dseg_frame h); [| |done].
      + intros x Hx. rewrite Hh1; [done|]. intros ->. apply Hfresh.
        apply elem_of_cons in Hx as [->|Hx]; [by left|]. right. apply elem_of_app. by left.
      + intros x Hx. rewrite Hh1; [done|]. intros ->. apply Hfresh. by right.
    - intros x Hx%Hb. lia. }
  destruct (lru_linked_link s1 nid ids Hl1) as (Hf & Hl2); [done|simpl; lia|].
  eexists _, (nid :: ids). split.
  - simpl. unfold LRUCache._on_insert. munfold. unfold LRUCache.new_node. simpl.
    fold h1. change (LRUCache._add_to_front (Some nid) _) with (LRUCache._add_to_front (Some nid) s1).
    rewrite (lru_add_to_front_eq s1 nid _ Hf).
    + reflexivity.
    + unfold LRUCache.head. simpl. intros Heq. apply Hfresh. rewrite Heq. by left.
  - split; [exact Hl2|]. unfold lru_keyed. subst s1. lru_unfold.
    assert (Hkeys : ∀ x, DLinkedNode.key (linked_front nid hd (behind ids tl) h1 x) =
              if decide (x = nid) then Some k else DLinkedNode.key (h x)).
    { intros x. rewrite linked_front_key. unfold h1. destruct (decide (x = nid)) as [->|Hx].
      - by rewrite fn_lookup_insert.
      - by rewrite fn_lookup_insert_ne. }
    assert (Hidsne : ∀ x, x ∈ ids → x ≠ nid).
    { intros x Hx ->. apply Hfresh. right. apply elem_of_app. by left. }
    split; [|split].
    + rewrite Hkeys, decide_True by done. f_equal. etrans; [|exact Hks].
      apply list_fmap_ext. intros _ x Hx%list_elem_of_lookup_2. rewrite Hkeys.
      by rewrite decide_False by (by apply Hidsne).
    + by apply NoDup_cons.
    + intros k0 n0. rewrite Hkeys. destruct (decide (k0 = k)) as [->|Hne].
      * rewrite lookup_insert_eq. split.
        { intros [= <-]. split; [by left|]. by rewrite decide_True. }
        intros [[->|Hin]%elem_of_cons Hkey]; [done|]. exfalso.
        rewrite decide_False in Hkey by (by apply Hidsne).
        apply Hk. apply (keys_elem _ _ _ _ Hks). eauto.
      * rewrite lookup_insert_ne by done. rewrite Hm. split.
        { intros [Hin Hkey]. split; [by right|]. by rewrite decide_False by (by apply Hidsne). }
        intros [[->|Hin]%elem_of_cons Hkey].
        { rewrite decide_True in Hkey by done. congruence. }
        rewrite decide_False in Hkey by (by apply Hidsne). done.
Qed.

Lemma lru_clear_spec s ids ks :
  lru_list (CachePolicy.ext s) ids ks →
  ∃ a', CachePolicy._on_clear s = (Ok tt, CachePolicy.set_ext a' s) ∧ lru_list a' [] [].
Proof.
  intros [(Hnd & Hd & Hb) _]. destruct s as [cap nm c st [ndm hd tl h nid]]. simpl in *.
  eexists. split; [reflexivity|].
  assert (Hne : hd ≠ tl).
  { intros ->. apply NoDup_cons in Hnd as [Hx _]. apply Hx. apply elem_of_app. right. by left. }
  unfold lru_list, lru_linked, lru_keyed. lru_unfold.
  split; [split; [|split]|split; [|split]]; simpl.
  - apply NoDup_cons. split; [by intros ?%list_elem_of_singleton|apply NoDup_singleton].
  - rewrite fn_lookup_insert. rewrite fn_lookup_insert_ne by done.
    rewrite fn_lookup_insert. done.
  - intros x [->|Hx%list_elem_of_singleton]%elem_of_cons; apply Hb; [by left|].
    subst x. right. apply elem_of_app. right. by left.
  - done.
  - apply NoDup_nil_2.
  - intros k n. rewrite lookup_empty. split; [done|]. by intros [?%elem_of_nil _].
Qed.

Lemma lru_aux_dom (c c' : gmap K (CacheEntry.t K V Time)) a :
  (∀ k, is_Some (c' !! k) ↔ is_Some (c !! k)) → lru_aux c a → lru_aux c' a.
Proof.
  intros Hd (ids & ks & Hl & Hc). exists ids, ks. split; [done|]. intros k. by rewrite Hc, Hd.
Qed.

Lemma lru_H_evict s :
  lru_aux (CachePolicy._cache s) (CachePolicy.ext s) → CachePolicy._cache s ≠ ∅ →
  ∃ k0 a', is_Some (CachePolicy._cache s !! k0) ∧
           CachePolicy._evict s = (Ok tt, evicted s k0 a') ∧
           lru_aux (delete k0 (CachePolicy._cache s)) a'.
Proof.
  intros (ids & ks & Hl & Hc) Hne.
  assert (Hks : ks ≠ []).
  { intros ->. apply Hne. apply map_empty. intros k. apply eq_None_not_Some. rewrite <- Hc.
    apply not_elem_of_nil. }
  destruct (lru_evict_spec s ids ks Hl Hks) as (ks1 & k & a' & -> & Hev & ids' & Hl').
  exists k, a'. split; [|split; [done|]].
  - apply Hc. apply elem_of_app. right. by left.
  - exists ids', ks1. split; [done|]. intros k0. rewrite is_Some_delete, <- Hc.
    destruct Hl as [_ (_ & Hnd & _)]. apply NoDup_app in Hnd as (_ & Hdis & _).
    rewrite elem_of_app, list_elem_of_singleton. split; [|naive_solver].
    intros Hk0. split; [by left|]. intros ->. apply (Hdis k Hk0). by left.
Qed.

Lemma lru_H_insert s k :
  is_Some (CachePolicy._cache s !! k) →
  lru_aux (delete k (CachePolicy._cache s)) (CachePolicy.ext s) →
  ∃ a', CachePolicy._on_insert k s = (Ok tt, CachePolicy.set_ext a' s) ∧
        lru_aux (CachePolicy._cache s) a'.
Proof.
  intros Hk (ids & ks & Hl & Hc).
  destruct (lru_insert_spec s ids ks k Hl) as (a' & ids' & Hi & Hl').
  { rewrite Hc, is_Some_delete. naive_solver. }
  exists a'. split; [done|]. exists ids', (k :: ks). split; [done|].
  intros k0. rewrite elem_of_cons, Hc, is_Some_delete.
  destruct (decide (k0 = k)) as [->|]; naive_solver.
Qed.

Lemma lru_H_access s k now e :
  CachePolicy._cache s !! k = Some e →
  lru_aux (CachePolicy._cache s) (CachePolicy.ext s) →
  ∃ a', CachePolicy._on_access k now s =
          (Ok tt, CachePolicy.set_ext a'
                    (CachePolicy.set_cache (<[k := touch now e]> (CachePolicy._cache s)) s)) ∧
        lru_aux (<[k := touch now e]> (CachePolicy._cache s)) a'.
Proof.
  intros Hk (ids & ks & Hl & Hc).
  destruct (lru_access_spec s ids ks k now e Hl Hk) as (a' & ids' & ks1 & ks2 & -> & Ha & Hl').
  { apply Hc. eauto. }
  exists a'. split; [done|]. exists ids', (k :: ks1 ++ ks2). split; [done|].
  intros k0. rewrite (insert_same_dom _ _ e) by done. rewrite <- Hc.
  rewrite !elem_of_cons, !elem_of_app, !elem_of_cons. naive_solver.
Qed.

Lemma lru_H_delete s k :
  is_Some (CachePolicy._cache s !! k) →
  lru_aux (CachePolicy._cache s) (CachePolicy.ext s) →
  ∃ a', CachePolicy._on_delete k s = (Ok tt, CachePolicy.set_ext a' s) ∧
        lru_aux (delete k (CachePolicy._cache s)) a'.
Proof.
  intros Hk (ids & ks & Hl & Hc).
  apply Hc in Hk. apply list_elem_of_split in Hk as (ks1 & ks2 & ->).
  destruct (lru_delete_spec s ids ks1 k ks2 Hl) as (a' & ids' & Hd & Hl').
  exists a'. split; [done|]. exists ids', (ks1 ++ ks2). split; [done|].
  intros k0. rewrite is_Some_delete, <- Hc.
  destruct Hl as [_ (_ & Hnd & _)]. apply NoDup_mid in Hnd as (_ & _ & G3 & G4 & _).
  rewrite !elem_of_app, !elem_of_cons. split; [|naive_solver].
  intros [?|?]; (split; [naive_solver|by intros ->]).
Qed.

Lemma lru_H_clear s (c0 : gmap K (CacheEntry.t K V Time)) :
  lru_aux c0 (CachePolicy.ext s) →
  ∃ a', CachePolicy._on_clear s = (Ok tt, CachePolicy.set_ext a' s) ∧
        lru_aux (∅ : gmap K (CacheEntry.t K V Time)) a'.
Proof.
  intros (ids & ks & Hl & _). destruct (lru_clear_spec s ids ks Hl) as (a' & Hcl & Hl').
  exists a'. split; [done|]. exists [], []. split; [done|].
  intros k. rewrite lookup_empty. split; [by intros ?%elem_of_nil|by intros [? ?]].
Qed.
End lru_ops.

(** ** The three classes together *)

Section policy.
Context {K V Time : Type} `{Countable K}.
Implicit Types (p : Policy.t K V Time) (k : K).

Lemma same_class_refl p : same_class p p.
Proof. by destruct p. Qed.

Lemma same_class_trans p1 p2 p3 : same_class p1 p2 → same_class p2 p3 → same_class p1 p3.
Proof. by destruct p1, p2, p3. Qed.

Lemma ptouch_same_class p p' now e : same_class p p' → ptouch p' now e = ptouch p now e.
Proof. by destruct p, p'. Qed.

Lemma ptouch_value p now e : CacheEntry.value (ptouch p now e) = CacheEntry.value e.
Proof. by destruct p. Qed.

Lemma policy_get p k now :
  inv p →
  ∃ p', Policy.get k now p = (Ok (Policy._cache p !! k ≫= CacheEntry.value), p') ∧
        inv p' ∧ same_class p p' ∧
        Policy.capacity p' = Policy.capacity p ∧
        Policy._cache p' =
          match Policy._cache p !! k with
          | Some e => <[k := ptouch p now e]> (Policy._cache p)
          | None => Policy._cache p
          end ∧
        Policy.stats p' =
          match Policy._cache p !! k with
          | Some _ => hit_stats (Policy.stats p)
          | None => miss_stats (Policy.stats p)
          end.
Proof.
  destruct p as [s|s|s]; intros Hi; simpl.
  - destruct (generic_get FInv (λ _ e, e) fifo_H_access s k now Hi) as (s' & Hg & Hi' & Hr).
    exists (Policy.FIFO s'). unfold Policy.lift. by rewrite Hg.
  - destruct (generic_get lru_aux touch lru_H_access s k now Hi) as (s' & Hg & Hi' & Hr).
    exists (Policy.LRU s'). unfold Policy.lift. by rewrite Hg.
  - destruct (generic_get lfu_aux touch lfu_H_access s k now Hi) as (s' & Hg & Hi' & Hr).
    exists (Policy.LFU s'). unfold Policy.lift. by rewrite Hg.
Qed.

Lemma policy_put_present p k v sz now e :
  inv p → Policy._cache p !! k = Some e →
  ∃ p', Policy.put k v sz now p = (Ok tt, p') ∧ inv p' ∧ same_class p p' ∧
        Policy.capacity p' = Policy.capacity p ∧
        Policy._cache p' = <[k := ptouch p now (overwrite v sz e)]> (Policy._cache p) ∧
        Policy.stats p' = Policy.stats p.
Proof.
  destruct p as [s|s|s]; intros Hi Hk; simpl in *.
  - destruct (generic_put_present FInv (λ _ e, e) fifo_H_dom fifo_H_access (λ _ _ _, eq_refl)
                s k v sz now e Hi Hk) as (s' & Hg & Hi' & Hr).
    exists (Policy.FIFO s'). unfold Policy.lift. by rewrite Hg.
  - destruct (generic_put_present lru_aux touch lru_aux_dom lru_H_access (λ _ _ _, eq_refl)
                s k v sz now e Hi Hk) as (s' & Hg & Hi' & Hr).
    exists (Policy.LRU s'). unfold Policy.lift. by rewrite Hg.
  - destruct (generic_put_present lfu_aux touch lfu_aux_dom lfu_H_access (λ _ _ _, eq_refl)
                s k v sz now e Hi Hk) as (s' & Hg & Hi' & Hr).
    exists (Policy.LFU s'). unfold Policy.lift. by rewrite Hg.
Qed.

Lemma policy_put_new p k v sz now :
  inv p → Policy._cache p !! k = None →
  ∃ p' c0, Policy.put k v sz now p = (Ok tt, p') ∧ inv p' ∧ same_class p p' ∧
        Policy.capacity p' = Policy.capacity p ∧
        Policy._cache p' = <[k := CacheEntry.new k v now sz]> c0 ∧
        (if bool_decide (Policy.capacity p ≤ Policy.current_size p)
         then ∃ k0, is_Some (Policy._cache p !! k0) ∧ c0 = delete k0 (Policy._cache p)
         else c0 = Policy._cache p) ∧
        CacheStats.hits (Policy.stats p') = CacheStats.hits (Policy.stats p) ∧
        CacheStats.misses (Policy.stats p') = CacheStats.misses (Policy.stats p).
Proof.
  destruct p as [s|s|s]; intros Hi Hk; simpl in *.
  - destruct (generic_put_new FInv FInv (λ _ _ H, H) fifo_H_evict fifo_H_insert
                s k v sz now Hi Hk) as (s' & c0 & Hg & Hi' & Hr).
    exists (Policy.FIFO s'), c0. unfold Policy.lift. by rewrite Hg.
  - destruct (generic_put_new lru_aux lru_aux (λ _ _ H, H) lru_H_evict lru_H_insert
                s k v sz now Hi Hk) as (s' & c0 & Hg & Hi' & Hr).
    exists (Policy.LRU s'), c0. unfold Policy.lift. by rewrite Hg.
  - destruct (generic_put_new lfu_aux lfu_pre (λ _ _ H, proj1 H) lfu_H_evict lfu_H_insert
                s k v sz now Hi Hk) as (s' & c0 & Hg & Hi' & Hr).
    exists (Policy.LFU s'), c0. unfold Policy.lift. by rewrite Hg.
Qed.

Lemma policy_delete p k :
  inv p →
  ∃ p', Policy.delete k p = (Ok (bool_decide (is_Some (Policy._cache p !! k))), p') ∧
        inv p' ∧ same_class p p' ∧ Policy.capacity p' = Policy.capacity p ∧
        Policy._cache p' = delete k (Policy._cache p).
Proof.
  destruct p as [s|s|s]; intros Hi; simpl in *.
  - destruct (generic_delete FInv fifo_H_delete s k Hi) as (s' & Hg & Hi' & Hr).
    exists (Policy.FIFO s'). unfold Policy.lift. by rewrite Hg.
  - destruct (generic_delete lru_aux lru_H_delete s k Hi) as (s' & Hg & Hi' & Hr).
    exists (Policy.LRU s'). unfold Policy.lift. by rewrite Hg.
  - destruct (generic_delete lfu_aux lfu_H_delete s k Hi) as (s' & Hg & Hi' & Hr).
    exists (Policy.LFU s'). unfold Policy.lift. by rewrite Hg.
Qed.

Lemma policy_clear p :
  inv p →
  ∃ p', Policy.clear p = (Ok tt, p') ∧ inv p' ∧ same_class p p' ∧
        Policy.capacity p' = Policy.capacity p ∧ Policy._cache p' = ∅.
Proof.
  destruct p as [s|s|s]; intros Hi; simpl in *.
  - destruct (generic_clear FInv fifo_H_clear s Hi) as (s' & Hg & Hi' & Hr).
    exists (Policy.FIFO s'). unfold Policy.lift. by rewrite Hg.
  - destruct (generic_clear lru_aux lru_H_clear s Hi) as (s' & Hg & Hi' & Hr).
    exists (Policy.LRU s'). unfold Policy.lift. by rewrite Hg.
  - destruct (generic_clear lfu_aux lfu_H_clear s Hi) as (s' & Hg & Hi' & Hr).
    exists (Policy.LFU s'). unfold Policy.lift. by rewrite Hg.
Qed.

Lemma policy_reset_stats p :
  inv p →
  ∃ p', Policy.reset_stats p = (Ok tt, p') ∧ inv p' ∧ same_class p p' ∧
        Policy.capacity p' = Policy.capacity p ∧ Policy._cache p' = Policy._cache p.
Proof.
  destruct p as [s|s|s]; intros Hi; simpl in *.
  - destruct (generic_reset_stats FInv s Hi) as (Hg & Hi').
    eexists (Policy.FIFO _). unfold Policy.lift. by rewrite Hg.
  - destruct (generic_reset_stats lru_aux s Hi) as (Hg & Hi').
    eexists (Policy.LRU _). unfold Policy.lift. by rewrite Hg.
  - destruct (generic_reset_stats lfu_aux s Hi) as (Hg & Hi').
    eexists (Policy.LFU _). unfold Policy.lift. by rewrite Hg.
Qed.

Lemma policy_evict p :
  inv p → Policy.capacity p ≤ Policy.current_size p →
  ∃ p1 k0, Policy._evict p = (Ok tt, p1) ∧ is_Some (Policy._cache p !! k0) ∧
        Policy._cache p1 = delete k0 (Policy._cache p) ∧
        Policy.current_size p1 = Policy.current_size p - 1 ∧
        CacheStats.evictions (Policy.stats p1) = CacheStats.evictions (Policy.stats p) + 1.
Proof.
  destruct p as [s|s|s]; intros Hi Hf; simpl in Hi, Hf.
  - destruct (generic_evict FInv FInv fifo_H_evict s Hi) as (k0 & a' & Hk0 & Hev & _ & _ & Hs).
    { apply full_nonempty; [apply Hi|]. by apply bool_decide_eq_true_2. }
    exists (Policy.FIFO (evicted s k0 a')), k0. unfold Policy._evict, Policy.lift. by rewrite Hev.
  - destruct (generic_evict lru_aux lru_aux lru_H_evict s Hi) as (k0 & a' & Hk0 & Hev & _ & _ & Hs).
    { apply full_nonempty; [apply Hi|]. by apply bool_decide_eq_true_2. }
    exists (Policy.LRU (evicted s k0 a')), k0. unfold Policy._evict, Policy.lift. by rewrite Hev.
  - destruct (generic_evict lfu_aux lfu_pre lfu_H_evict s Hi) as (k0 & a' & Hk0 & Hev & _ & _ & Hs).
    { apply full_nonempty; [apply Hi|]. by apply bool_decide_eq_true_2. }
    exists (Policy.LFU (evicted s k0 a')), k0. unfold Policy._evict, Policy.lift. by rewrite Hev.
Qed.

Lemma policy_put_new_eq p k v sz now :
  Policy._cache p !! k = None →
  Policy.put k v sz now p =
    if bool_decide (Policy.capacity p ≤ Policy.current_size p)
    then (Policy._evict >> Policy._insert_entry k v sz now) p
    else Policy._insert_entry k v sz now p.
Proof.
  destruct p as [s|s|s]; intros Hk; simpl in Hk;
    unfold Policy.put, Policy.lift, Policy.capacity, Policy.current_size, Policy._cache;
    rewrite (put_new _ _ _ _ _ Hk); unfold CachePolicy.is_full, CachePolicy.current_size;
    destruct (bool_decide _); try done; unfold bind, Policy._evict, Policy.lift;
    destruct (CachePolicy._evict s) as [[[]|x] s1]; done.
Qed.
End policy.

(** ** Every policy instance satisfies the invariant of its class *)

Section reachability.
Context {K V Time : Type} `{Countable K}.
Implicit Types (p : Policy.t K V Time) (k : K).

Lemma policy_new cls capacity name p :
  Policy.new cls capacity name = Ok p →
  inv p ∧ 0 < capacity ∧ Policy.capacity p = capacity ∧ Policy._cache p = ∅ ∧
  Policy.stats p = CacheStats.new 0 capacity.
Proof.
  unfold Policy.new, FIFOCache.__init__, LRUCache.__init__, LFUCache.__init__,
    CachePolicy.__init__.
  destruct cls; destruct (decide (capacity ≤ 0)) as [|Hc]; try done; intros [= <-]; simpl.
  - split; [|split; [lia|done]]. split.
    + unfold base_inv, CachePolicy.current_size. simpl. rewrite map_size_empty.
      split_and!; try done; lia.
    + split; [apply NoDup_nil_2|]. intros k. unfold FIFOCache.queue. simpl.
      rewrite lookup_empty. split; [by intros ?%elem_of_nil|by intros [? ?]].
  - split; [|split; [lia|done]]. split.
    + unfold base_inv, CachePolicy.current_size. simpl. rewrite map_size_empty.
      split_and!; try done; lia.
    + exists [], []. unfold lru_list, lru_linked, lru_keyed. simpl. split; [split|].
      * split; [|split]; simpl.
        -- apply NoDup_cons. split; [by intros ?%list_elem_of_singleton|apply NoDup_singleton].
        -- done.
        -- intros n [->|Hn%list_elem_of_singleton]%elem_of_cons; [lia|]. subst n. lia.
      * split; [done|]. split; [apply NoDup_nil_2|]. simpl. intros k n.
        rewrite lookup_empty. split; [done|]. by intros [?%elem_of_nil _].
      * intros k. rewrite lookup_empty. split; [by intros ?%elem_of_nil|by intros [? ?]].
  - split; [|split; [lia|done]]. split.
    + unfold base_inv, CachePolicy.current_size. simpl. rewrite map_size_empty.
      split_and!; try done; lia.
    + apply lfu_clear_aux.
Qed.

Lemma policy_call p o :
  inv p →
  ∃ p', call o p = (Ok tt, p') ∧ inv p' ∧ same_class p p' ∧
        Policy.capacity p' = Policy.capacity p.
Proof.
  intros Hi. destruct o as [k now|k v sz now|k| |]; simpl; unfold bind.
  - destruct (policy_get p k now Hi) as (p' & -> & Hi' & Hs & Hc & _). by exists p'.
  - destruct (Policy._cache p !! k) as [e|] eqn:Hk.
    + destruct (policy_put_present p k v sz now e Hi Hk) as (p' & -> & Hi' & Hs & Hc & _).
      by exists p'.
    + destruct (policy_put_new p k v sz now Hi Hk) as (p' & c0 & -> & Hi' & Hs & Hc & _).
      by exists p'.
  - destruct (policy_delete p k Hi) as (p' & -> & Hi' & Hs & Hc & _). by exists p'.
  - destruct (policy_clear p Hi) as (p' & -> & Hi' & Hs & Hc & _). by exists p'.
  - destruct (policy_reset_stats p Hi) as (p' & -> & Hi' & Hs & Hc & _). by exists p'.
Qed.

Lemma after_inv ops p :
  inv p → inv (after ops p) ∧ same_class p (after ops p) ∧
          Policy.capacity (after ops p) = Policy.capacity p.
Proof.
  revert p. induction ops as [|o ops IH]; intros p Hi; simpl.
  - split; [done|]. split; [apply same_class_refl|done].
  - destruct (policy_call p o Hi) as (p' & Hc & Hi' & Hs & Hcap).
    unfold exec. rewrite Hc. simpl. destruct (IH p' Hi') as (? & ? & ?).
    split; [done|]. split; [by eapply same_class_trans|congruence].
Qed.

Lemma reachable_inv p : reachable p → inv p.
Proof.
  intros (cls & capacity & name & p0 & ops & Hnew & ->).
  apply after_inv. by eapply policy_new.
Qed.

Lemma reachable_step p o : reachable p → reachable (exec (call o) p).
Proof.
  intros (cls & capacity & name & p0 & ops & Hnew & ->).
  exists cls, capacity, name, p0, (ops ++ [o]). split; [done|].
  unfold after. by rewrite foldl_app.
Qed.

Lemma reachable_get p k now : reachable p → reachable (exec (Policy.get k now) p).
Proof.
  intros Hr. pose proof (reachable_step p (Get k now) Hr) as Hr'.
  unfold exec in *. simpl in Hr'. unfold bind in Hr'.
  by destruct (Policy.get k now p) as [[?|?] ?].
Qed.

Lemma reachable_put p k v sz now : reachable p → reachable (exec (Policy.put k v sz now) p).
Proof. apply (reachable_step p (Put k v sz now)). Qed.
End reachability.

(** ** The hierarchy: one round of each loop *)

Section hierarchy.
Context {K V Time F : Type} `{Countable K} `{Float F}.
Implicit Types (h : CacheHierarchy.t K V Time F) (l : CacheLevel.t K V Time F).
Implicit Types (ls : list (CacheLevel.t K V Time F)) (key : K) (p : Policy.t K V Time).

Lemma policy_put_total p key v sz now :
  inv p →
  ∃ p' e', Policy.put key v sz now p = (Ok tt, p') ∧ inv p' ∧
           Policy._cache p' !! key = Some e' ∧ CacheEntry.value e' = v ∧
           CacheStats.hits (Policy.stats p') = CacheStats.hits (Policy.stats p) ∧
           CacheStats.misses (Policy.stats p') = CacheStats.misses (Policy.stats p).
Proof.
  intros Hi. destruct (Policy._cache p !! key) as [e|] eqn:Hk.
  - destruct (policy_put_present p key v sz now e Hi Hk) as (p' & Hp & Hi' & _ & _ & Hc & Hs).
    exists p', (ptouch p now (overwrite v sz e)). split; [done|]. split; [done|].
    rewrite Hc, lookup_insert_eq, ptouch_value, Hs. done.
  - destruct (policy_put_new p key v sz now Hi Hk)
      as (p' & c0 & Hp & Hi' & _ & _ & Hc & _ & Hh & Hm).
    exists p', (CacheEntry.new key v now sz). split; [done|]. split; [done|].
    rewrite Hc, lookup_insert_eq. done.
Qed.

Lemma set_levels_id h : CacheHierarchy.set_levels (CacheHierarchy._levels h) h = h.
Proof. by destruct h. Qed.

Lemma list_alter_Some {A} (f : A → A) (xs : list A) i x :
  xs !! i = Some x → alter f i xs = <[i := f x]> xs.
Proof.
  intros Hx. apply list_eq. intros j. destruct (decide (i = j)) as [->|Hne].
  - rewrite list_lookup_alter_eq, Hx, list_lookup_insert_eq by (by eapply lookup_lt_Some). done.
  - by rewrite list_lookup_alter_ne, list_lookup_insert_ne.
Qed.

Lemma on_cache_eq {B} h i l (m : M (Policy.t K V Time) B) r c :
  CacheHierarchy._levels h !! i = Some l → m (CacheLevel.cache l) = (r, c) →
  CacheHierarchy.on_cache i m h =
    (r, CacheHierarchy.set_levels (<[i := CacheLevel.set_cache c l]> (CacheHierarchy._levels h)) h).
Proof. intros Hl Hm. unfold CacheHierarchy.on_cache. by rewrite Hl, Hm. Qed.

Lemma modify_level_stats_eq h i l f :
  CacheHierarchy._levels h !! i = Some l →
  CacheHierarchy.modify_level_stats i f h =
    (Ok tt, CacheHierarchy.set_levels
              (<[i := CacheLevel.set_stats (f (CacheLevel.stats l)) l]> (CacheHierarchy._levels h)) h).
Proof.
  intros Hl. unfold CacheHierarchy.modify_level_stats, modify.
  by rewrite (list_alter_Some _ _ _ _ Hl).
Qed.

Lemma lookup_at_get key now l :
  inv (CacheLevel.cache l) →
  ∃ c, Policy.get key now (CacheLevel.cache l) = (Ok (lookup_at key l), c) ∧ inv c.
Proof.
  intros Hi. destruct (policy_get _ key now Hi) as (c & Hg & Hi' & _). by exists c.
Qed.

Lemma get_loop_step_miss key clock n i cum h l :
  CacheHierarchy._levels h !! i = Some l → inv (CacheLevel.cache l) →
  lookup_at key l = None →
  CacheHierarchy.get_loop key clock (S n) i cum h =
    CacheHierarchy.get_loop key clock n (S i) (fadd cum (CacheLevel.latency_ms l))
      (CacheHierarchy.set_levels (<[i := missed key clock i l]> (CacheHierarchy._levels h)) h).
Proof.
  intros Hl Hi Hk. destruct (lookup_at_get key (clock i) l Hi) as (c & Hg & _).
  rewrite Hk in Hg. simpl. unfold bind at 1. unfold CacheHierarchy.level_item at 1. rewrite Hl.
  unfold bind at 1. rewrite (modify_level_stats_eq _ _ _ _ Hl).
  assert (Hlt : (i < length (CacheHierarchy._levels h))%nat) by (by eapply lookup_lt_Some).
  set (l1 := CacheLevel.set_stats _ l).
  unfold bind at 1. erewrite (on_cache_eq _ i l1 _ _ c);
    [|simpl; by apply list_lookup_insert_eq|exact Hg].
  cbv beta iota. unfold bind at 1.
  rewrite (modify_level_stats_eq _ i (CacheLevel.set_cache c l1));
    [|simpl; rewrite list_insert_insert_eq; by apply list_lookup_insert_eq].
  subst l1.
  simpl. rewrite !list_insert_insert_eq. unfold missed, probed, exec. rewrite Hg. done.
Qed.

Lemma get_loop_step_hit key clock n i cum h l v :
  CacheHierarchy._levels h !! i = Some l → inv (CacheLevel.cache l) →
  lookup_at key l = Some v →
  CacheHierarchy.get_loop key clock (S n) i cum h =
    let h1 := CacheHierarchy.set_total_latency_ms
                (fadd (CacheHierarchy._total_latency_ms h) (fadd cum (CacheLevel.latency_ms l)))
                (CacheHierarchy.set_total_hits (CacheHierarchy._total_hits h + 1)
                   (CacheHierarchy.set_levels
                      (<[i := hit key clock i l]> (CacheHierarchy._levels h)) h)) in
    match (if decide (0 < i)%nat
           then CacheHierarchy._promote_to_upper_levels key (Some v) i clock (S i)
           else pass) h1 with
    | (Ok _, h2) => (Ok (Some v), h2)
    | (Raise e, h2) => (Raise e, h2)
    end.
Proof.
  intros Hl Hi Hk. destruct (lookup_at_get key (clock i) l Hi) as (c & Hg & _).
  rewrite Hk in Hg. simpl. unfold bind at 1. unfold CacheHierarchy.level_item at 1. rewrite Hl.
  unfold bind at 1. rewrite (modify_level_stats_eq _ _ _ _ Hl).
  assert (Hlt : (i < length (CacheHierarchy._levels h))%nat) by (by eapply lookup_lt_Some).
  set (l1 := CacheLevel.set_stats _ l).
  unfold bind at 1. erewrite (on_cache_eq _ i l1 _ _ c);
    [|simpl; by apply list_lookup_insert_eq|exact Hg].
  cbv beta iota. unfold bind at 1.
  rewrite (modify_level_stats_eq _ i (CacheLevel.set_cache c l1));
    [|simpl; rewrite list_insert_insert_eq; by apply list_lookup_insert_eq].
  subst l1.
  simpl. rewrite !list_insert_insert_eq. unfold bind, modify, ret. simpl.
  unfold hit, probed, exec. rewrite Hg. simpl.
  destruct (decide (0 < i)%nat); simpl; [|done].
  match goal with
  | |- (let (_, _) := ?m ?s1 in _) = (let (_, _) := ?m ?s2 in _) =>
      change s1 with s2; destruct (m s2) as [[[]|x] h2]; done
  end.
Qed.

(** ** The hierarchy: the loops *)

Lemma written_inv key v clock j l :
  inv (CacheLevel.cache l) → inv (CacheLevel.cache (written key v clock j l)).
Proof.
  intros Hi. destruct (policy_put_total _ key v 1 (clock j) Hi) as (p' & e' & Hp & Hi' & _).
  unfold written, exec. simpl. by rewrite Hp.
Qed.

Lemma put_loop_spec key v clock n : ∀ i h,
  (i + n = length (CacheHierarchy._levels h))%nat →
  levels_inv (CacheHierarchy._levels h) →
  ∃ h', CacheHierarchy.put_loop key v clock n i h = (Ok tt, h') ∧
        same_totals h h' ∧ levels_inv (CacheHierarchy._levels h') ∧
        ∀ j, CacheHierarchy._levels h' !! j =
             if decide (i ≤ j)%nat then written key v clock j <$> CacheHierarchy._levels h !! j
             else CacheHierarchy._levels h !! j.
Proof.
  induction n as [|n IH]; intros i h Hlen Hinv.
  - exists h. split; [done|]. split; [done|]. split; [done|]. intros j.
    destruct (decide (i ≤ j)%nat); [|done].
    rewrite (lookup_ge_None_2 _ j) by lia. done.
  - assert (Hlt : (i < length (CacheHierarchy._levels h))%nat) by lia.
    destruct (lookup_lt_is_Some_2 _ _ Hlt) as [l Hl].
    pose proof (Forall_lookup_1 _ _ _ _ Hinv Hl) as Hi.
    destruct (policy_put_total _ key v 1 (clock i) Hi) as (p' & e' & Hp & Hi' & _).
    simpl. unfold bind at 1. rewrite (on_cache_eq _ i l _ _ _ Hl Hp).
    set (h1 := CacheHierarchy.set_levels _ h).
    destruct (IH (S i) h1) as (h' & Hput & Htot & Hinv' & Hlev).
    { simpl. rewrite length_insert. lia. }
    { simpl. apply Forall_insert; done. }
    exists h'. split; [done|]. split; [done|]. split; [done|].
    intros j. rewrite Hlev. simpl.
    destruct (decide (j = i)) as [->|Hne].
    + rewrite decide_False by lia. rewrite decide_True by lia.
      rewrite list_lookup_insert_eq by done. rewrite Hl. simpl.
      unfold written, exec. by rewrite Hp.
    + rewrite list_lookup_insert_ne by done.
      destruct (decide (S i ≤ j)%nat), (decide (i ≤ j)%nat); try done; lia.
Qed.

Lemma promoted_inv key v now l :
  inv (CacheLevel.cache l) → inv (CacheLevel.cache (promoted key v now l)).
Proof.
  intros Hi. destruct (policy_put_total _ key v 1 now Hi) as (p' & e' & Hp & Hi' & _).
  unfold promoted, exec. simpl. by rewrite Hp.
Qed.

Lemma promote_loop_spec key v clock n : ∀ tick i h,
  (i + n ≤ length (CacheHierarchy._levels h))%nat →
  levels_inv (CacheHierarchy._levels h) →
  ∃ h', CacheHierarchy.promote_loop key v clock tick n i h = (Ok tt, h') ∧
        CacheHierarchy._total_hits h' = CacheHierarchy._total_hits h ∧
        CacheHierarchy._total_misses h' = CacheHierarchy._total_misses h ∧
        CacheHierarchy._total_promotions h' = CacheHierarchy._total_promotions h + Z.of_nat n ∧
        CacheHierarchy._total_latency_ms h' = CacheHierarchy._total_latency_ms h ∧
        levels_inv (CacheHierarchy._levels h') ∧
        ∀ j, CacheHierarchy._levels h' !! j =
             if decide (i ≤ j < i + n)%nat
             then promoted key v (clock (tick + (j - i))%nat) <$> CacheHierarchy._levels h !! j
             else CacheHierarchy._levels h !! j.
Proof.
  induction n as [|n IH]; intros tick i h Hlen Hinv.
  - exists h. split; [done|]. split; [done|]. split; [done|]. split; [simpl; lia|].
    split; [done|]. split; [done|]. intros j. rewrite decide_False by lia. done.
  - assert (Hlt : (i < length (CacheHierarchy._levels h))%nat) by lia.
    destruct (lookup_lt_is_Some_2 _ _ Hlt) as [l Hl].
    pose proof (Forall_lookup_1 _ _ _ _ Hinv Hl) as Hi.
    destruct (policy_put_total _ key v 1 (clock tick) Hi) as (p' & e' & Hp & Hi' & _).
    simpl. unfold bind at 1. unfold CacheHierarchy.level_item at 1. rewrite Hl.
    unfold bind at 1. rewrite (on_cache_eq _ i l _ _ _ Hl Hp).
    unfold bind at 1. erewrite (modify_level_stats_eq _ i (CacheLevel.set_cache p' l));
      [|simpl; by apply list_lookup_insert_eq].
    unfold bind at 1. unfold modify at 1. simpl. rewrite list_insert_insert_eq.
    set (h1 := CacheHierarchy.set_total_promotions _ _).
    destruct (IH (S tick) (S i) h1) as (h' & Hpr & Hth & Htm & Htp & Htl & Hinv' & Hlev).
    { simpl. rewrite length_insert. lia. }
    { simpl. apply Forall_insert; [done|]. done. }
    exists h'. split; [done|]. split; [done|]. split; [done|].
    split; [rewrite Htp; simpl; lia|]. split; [done|]. split; [done|].
    intros j. rewrite Hlev. simpl.
    destruct (decide (j = i)) as [->|Hne].
    + rewrite decide_False by lia. rewrite decide_True by lia.
      rewrite list_lookup_insert_eq by done. rewrite Hl. simpl.
      replace (tick + (i - i))%nat with tick by lia.
      unfold promoted, exec. by rewrite Hp.
    + rewrite list_lookup_insert_ne by done.
      repeat case_decide; try done; try lia.
      replace (S (tick + (j - S i)))%nat with (tick + (j - i))%nat by lia. done.
Qed.

Lemma probed_inv key clock j l :
  inv (CacheLevel.cache l) → inv (CacheLevel.cache (probed key clock j l)).
Proof.
  intros Hi. destruct (lookup_at_get key (clock j) l Hi) as (c & Hg & Hi').
  unfold probed, exec. simpl. by rewrite Hg.
Qed.

Lemma get_loop_miss_spec key clock n : ∀ i cum h,
  (i + n = length (CacheHierarchy._levels h))%nat →
  levels_inv (CacheHierarchy._levels h) →
  (∀ j l, (i ≤ j)%nat → CacheHierarchy._levels h !! j = Some l → lookup_at key l = None) →
  ∃ h', CacheHierarchy.get_loop key clock n i cum h = (Ok None, h') ∧
        CacheHierarchy._total_hits h' = CacheHierarchy._total_hits h ∧
        CacheHierarchy._total_misses h' = CacheHierarchy._total_misses h + 1 ∧
        CacheHierarchy._total_promotions h' = CacheHierarchy._total_promotions h ∧
        CacheHierarchy._total_latency_ms h' = CacheHierarchy._total_latency_ms h ∧
        levels_inv (CacheHierarchy._levels h') ∧
        ∀ j, CacheHierarchy._levels h' !! j =
             if decide (i ≤ j)%nat then missed key clock j <$> CacheHierarchy._levels h !! j
             else CacheHierarchy._levels h !! j.
Proof.
  induction n as [|n IH]; intros i cum h Hlen Hinv Hmiss.
  - eexists. split; [reflexivity|]. simpl. split; [done|]. split; [done|]. split; [done|].
    split; [done|]. split; [done|]. intros j.
    destruct (decide (i ≤ j)%nat); [|done].
    rewrite (lookup_ge_None_2 _ j) by lia. done.
  - assert (Hlt : (i < length (CacheHierarchy._levels h))%nat) by lia.
    destruct (lookup_lt_is_Some_2 _ _ Hlt) as [l Hl].
    pose proof (Forall_lookup_1 _ _ _ _ Hinv Hl) as Hi.
    rewrite (get_loop_step_miss key clock n i cum h l Hl Hi) by (by eapply Hmiss).
    set (h1 := CacheHierarchy.set_levels _ h).
    destruct (IH (S i) (fadd cum (CacheLevel.latency_ms l)) h1)
      as (h' & Hget & Hth & Htm & Htp & Htl & Hinv' & Hlev).
    { simpl. rewrite length_insert. lia. }
    { simpl. apply Forall_insert; [done|]. by apply probed_inv. }
    { intros j l' Hj. simpl. rewrite list_lookup_insert_ne by lia. apply Hmiss. lia. }
    exists h'. split; [done|]. split; [done|]. split; [done|]. split; [done|].
    split; [done|]. split; [done|]. intros j. rewrite Hlev. simpl.
    destruct (decide (j = i)) as [->|Hne].
    + rewrite decide_False by lia. rewrite decide_True by lia.
      rewrite list_lookup_insert_eq by done. by rewrite Hl.
    + rewrite list_lookup_insert_ne by done. repeat case_decide; try done; lia.
Qed.

Lemma get_loop_hit_spec key clock v n : ∀ i cum h i0 l0,
  (i + n = length (CacheHierarchy._levels h))%nat → (i ≤ i0)%nat →
  levels_inv (CacheHierarchy._levels h) →
  CacheHierarchy._levels h !! i0 = Some l0 → lookup_at key l0 = Some v →
  (∀ j l, (i ≤ j < i0)%nat → CacheHierarchy._levels h !! j = Some l → lookup_at key l = None) →
  ∃ h', CacheHierarchy.get_loop key clock n i cum h = (Ok (Some v), h') ∧
        CacheHierarchy._total_hits h' = CacheHierarchy._total_hits h + 1 ∧
        CacheHierarchy._total_misses h' = CacheHierarchy._total_misses h ∧
        CacheHierarchy._total_promotions h' = CacheHierarchy._total_promotions h + Z.of_nat i0 ∧
        levels_inv (CacheHierarchy._levels h') ∧
        ∀ j, CacheHierarchy._levels h' !! j =
             if decide (j < i0)%nat then
               (λ l, promoted key (Some v) (clock (S i0 + j)%nat)
                       (if decide (i ≤ j)%nat then missed key clock j l else l))
                 <$> CacheHierarchy._levels h !! j
             else if decide (j = i0) then hit key clock j <$> CacheHierarchy._levels h !! j
             else CacheHierarchy._levels h !! j.
Proof.
  induction n as [|n IH]; intros i cum h i0 l0 Hlen Hle Hinv Hl0 Hv Hmiss.
  - apply lookup_lt_Some in Hl0. lia.
  - assert (Hlt : (i < length (CacheHierarchy._levels h))%nat) by lia.
    destruct (lookup_lt_is_Some_2 _ _ Hlt) as [l Hl].
    pose proof (Forall_lookup_1 _ _ _ _ Hinv Hl) as Hi.
    destruct (decide (i = i0)) as [->|Hne].
    + assert (l = l0) as -> by congruence.
      rewrite (get_loop_step_hit key clock n i0 cum h l0 v Hl Hi Hv). cbv zeta.
      set (h1 := CacheHierarchy.set_total_latency_ms _ _).
      assert (Hinv1 : levels_inv (CacheHierarchy._levels h1)).
      { simpl. apply Forall_insert; [done|]. by apply probed_inv. }
      destruct (decide (0 < i0)%nat) as [Hpos|Hz].
      * destruct (promote_loop_spec key (Some v) clock i0 (S i0) 0%nat h1)
          as (h' & Hpr & Hth & Htm & Htp & Htl & Hinv' & Hlev); [|done|].
        { simpl. rewrite length_insert. lia. }
        unfold CacheHierarchy._promote_to_upper_levels. rewrite Hpr.
        exists h'. split; [done|]. split; [by rewrite Hth|]. split; [by rewrite Htm|].
        split; [by rewrite Htp|]. split; [done|]. intros j. rewrite Hlev. simpl.
        destruct (decide (j = i0)) as [->|Hj].
        -- rewrite decide_False by lia. rewrite decide_False by lia.
           rewrite list_lookup_insert_eq by done. by rewrite Hl.
        -- rewrite list_lookup_insert_ne by done.
           replace (i0 + (j - 0))%nat with (i0 + j)%nat by lia.
           destruct (CacheHierarchy._levels h !! j) as [lj|]; simpl;
             repeat case_decide; try done; lia.
      * assert (i0 = 0%nat) as -> by lia. exists h1. split; [done|]. simpl.
        split; [done|]. split; [done|]. split; [lia|]. split; [done|]. intros j.
        destruct (decide (j = 0%nat)) as [->|Hj].
        -- rewrite list_lookup_insert_eq by done. by rewrite Hl.
        -- by rewrite list_lookup_insert_ne.
    + rewrite (get_loop_step_miss key clock n i cum h l Hl Hi) by (eapply Hmiss; [|done]; lia).
      set (h1 := CacheHierarchy.set_levels _ h).
      destruct (IH (S i) (fadd cum (CacheLevel.latency_ms l)) h1 i0 l0)
        as (h' & Hget & Hth & Htm & Htp & Hinv' & Hlev).
      { simpl. rewrite length_insert. lia. }
      { lia. }
      { simpl. apply Forall_insert; [done|]. by apply probed_inv. }
      { simpl. by rewrite list_lookup_insert_ne. }
      { done. }
      { intros j l' Hj. simpl. rewrite list_lookup_insert_ne by lia. apply Hmiss. lia. }
      exists h'. split; [done|]. split; [done|]. split; [done|]. split; [done|].
      split; [done|]. intros j. rewrite Hlev. simpl.
      destruct (decide (j = i)) as [->|Hj].
      * rewrite list_lookup_insert_eq by done. rewrite Hl. simpl.
        repeat case_decide; try done; lia.
      * rewrite list_lookup_insert_ne by done.
        destruct (CacheHierarchy._levels h !! j) as [lj|]; simpl;
          repeat case_decide; try done; lia.
Qed.
End hierarchy.

(** ** LFU: frequencies *)

Section lfu_facts.
Context {K V Time : Type} `{Countable K}.
Implicit Types (s : CachePolicy.t K V Time (LFUCache.ext_t K)) (k : K).

Lemma lfu_get_hit_eq s k now e :
  lfu_inv s → CachePolicy._cache s !! k = Some e →
  ∃ f b b', LFUCache.freq_key s !! k = Some f ∧ LFUCache.freq_map s !! f = Some b ∧
    remove_first k b = Some b' ∧
    CachePolicy.get k now s =
      (Ok (CacheEntry.value e),
       CachePolicy.set_ext (lfu_bumped k f b' (CachePolicy.ext s))
         (CachePolicy.set_cache (<[k := touch now e]> (CachePolicy._cache s))
            (CachePolicy.set_stats (hit_stats (CachePolicy._stats s)) s))).
Proof.
  intros [_ Ha] Hk. rewrite (get_hit _ _ _ _ Hk).
  destruct (lfu_on_access (CachePolicy.set_stats (hit_stats (CachePolicy._stats s)) s) k now e Hk Ha)
    as (f & b & b' & Hf & Hb & Hr & ->).
  exists f, b, b'. done.
Qed.

Lemma lfu_put_present_eq s k v sz now e :
  lfu_inv s → CachePolicy._cache s !! k = Some e →
  ∃ f b b', LFUCache.freq_key s !! k = Some f ∧ LFUCache.freq_map s !! f = Some b ∧
    remove_first k b = Some b' ∧
    CachePolicy.put k v sz now s =
      (Ok tt,
       CachePolicy.set_ext (lfu_bumped k f b' (CachePolicy.ext s))
         (CachePolicy.set_cache (<[k := touch now (overwrite v sz e)]> (CachePolicy._cache s)) s)).
Proof.
  intros [_ Ha] Hk. rewrite (put_present _ _ _ _ _ _ Hk).
  set (s1 := CachePolicy.set_cache _ s).
  destruct (lfu_on_access s1 k now (overwrite v sz e)) as (f & b & b' & Hf & Hb & Hr & Hacc).
  { simpl. apply lookup_insert_eq. }
  { eapply lfu_aux_dom; [|exact Ha]. simpl. by eapply insert_same_dom. }
  exists f, b, b'. split; [done|]. split; [done|]. split; [done|].
  change (CachePolicy._on_update k now s1) with (CachePolicy._on_access k now s1).
  rewrite Hacc. simpl. by rewrite insert_insert_eq.
Qed.

Lemma lfu_bumped_freq k f b' (a : LFUCache.ext_t K) :
  LFUCache._freq_key (lfu_bumped k f b' a) !! k = Some (f + 1).
Proof. unfold lfu_bumped. simpl. apply lookup_insert_eq. Qed.

Lemma lfu_bumped_bucket (c : gmap K (CacheEntry.t K V Time)) a k f b b' :
  lfu_aux c a → LFUCache._freq_key a !! k = Some f → LFUCache._freq_map a !! f = Some b →
  LFUCache._freq_map (lfu_bumped k f b' a) !! (f + 1) =
    Some (default [] (LFUCache._freq_map a !! (f + 1)) ++ [k]).
Proof.
  intros [(H1 & H2 & H3) _] Hk Hf. unfold lfu_bumped. simpl. rewrite lookup_insert_eq.
  rewrite shrink_lookup. rewrite decide_False by lia. f_equal. apply od_set_new.
  destruct (LFUCache._freq_map a !! (f + 1)) as [b1|] eqn:Hb1; simpl; [|apply not_elem_of_nil].
  intros Hin. destruct (H1 _ _ Hb1) as (_ & _ & Hall). specialize (Hall k Hin).
  rewrite Hk in Hall. injection Hall. lia.
Qed.

Lemma lfu_inserted_facts (c : gmap K (CacheEntry.t K V Time)) a k :
  lfu_pre c a → c !! k = None →
  LFUCache._freq_key (lfu_inserted k a) !! k = Some 1 ∧
  LFUCache._min_freq (lfu_inserted k a) = 1 ∧
  LFUCache._freq_map (lfu_inserted k a) !! 1 =
    Some (default [] (LFUCache._freq_map a !! 1) ++ [k]).
Proof.
  intros (H1 & H2 & H3) Hk. unfold lfu_inserted. simpl. rewrite !lookup_insert_eq.
  split; [done|]. split; [done|]. f_equal. apply od_set_new.
  destruct (LFUCache._freq_map a !! 1) as [b1|] eqn:Hb1; simpl; [|apply not_elem_of_nil].
  intros Hin. destruct (H1 _ _ Hb1) as (_ & _ & Hall). specialize (Hall k Hin).
  assert (is_Some (c !! k)) as [? ?] by (apply H3; eauto). congruence.
Qed.

Lemma lfu_evict_full s :
  lfu_inv s → CachePolicy._cache s ≠ ∅ →
  ∃ k0 b', LFUCache.min_freq s ≠ 0 ∧
    LFUCache.freq_map s !! LFUCache.min_freq s = Some (k0 :: b') ∧
    LFUCache.freq_key s !! k0 = Some (LFUCache.min_freq s) ∧
    is_Some (CachePolicy._cache s !! k0) ∧
    (∀ k f, LFUCache.freq_key s !! k = Some f → LFUCache.min_freq s ≤ f) ∧
    CachePolicy._evict s = (Ok tt, evicted s k0 (lfu_evicted k0 b' (CachePolicy.ext s))) ∧
    base_inv (evicted s k0 (lfu_evicted k0 b' (CachePolicy.ext s))) ∧
    lfu_pre (delete k0 (CachePolicy._cache s)) (lfu_evicted k0 b' (CachePolicy.ext s)).
Proof.
  intros [Hb Ha] Hne.
  destruct (lfu_evicted_pre _ _ Ha Hne) as (k0 & b' & Hmf & Hbk & Hfk & Hk0 & Hpre).
  exists k0, b'. split; [done|]. split; [done|]. split; [done|]. split; [done|]. split.
  { intros k f Hf. destruct Ha as [(_ & H2 & _) [[He _]|[_ Hle]]].
    - destruct (H2 k f Hf) as (_ & b & Hb' & _). unfold LFUCache.freq_map in *.
      rewrite He in Hb'. by rewrite lookup_empty in Hb'.
    - apply Hle. destruct (H2 k f Hf) as (_ & b & Hb' & _). eauto. }
  split; [by apply lfu_evict_eq|]. split; [|done].
  destruct (generic_evict lfu_aux lfu_pre lfu_H_evict s (conj Hb Ha) Hne)
    as (k1 & a1 & _ & Hev & Hb1 & _).
  rewrite (lfu_evict_eq s k0 b' Hmf Hbk) in Hev.
  assert (Heq : evicted s k1 a1 = evicted s k0 (lfu_evicted k0 b' (CachePolicy.ext s)))
    by congruence.
  by rewrite <- Heq.
Qed.

Lemma lfu_put_new_eq s k v sz now :
  lfu_inv s → CachePolicy._cache s !! k = None →
  ∃ s1, (if CachePolicy.is_full s then CachePolicy._evict s = (Ok tt, s1) else s1 = s) ∧
        lfu_pre (CachePolicy._cache s1) (CachePolicy.ext s1) ∧
        CachePolicy._cache s1 !! k = None ∧
        CachePolicy.put k v sz now s =
          (Ok tt, CachePolicy.set_ext (lfu_inserted k (CachePolicy.ext s1))
                    (inserted s1 k v sz now)).
Proof.
  intros Hi Hk. rewrite (put_new _ _ _ _ _ Hk). destruct (CachePolicy.is_full s) eqn:Hf.
  - destruct (lfu_evict_full s Hi (full_nonempty _ (proj1 Hi) Hf))
      as (k0 & b' & _ & _ & _ & _ & _ & Hev & _ & Hpre).
    eexists. split; [exact Hev|]. split; [exact Hpre|]. split.
    { simpl. rewrite lookup_delete_None. by right. }
    unfold bind. rewrite Hev. rewrite insert_entry_eq. by rewrite lfu_on_insert_eq.
  - exists s. split; [done|]. split; [apply Hi|]. split; [done|].
    rewrite insert_entry_eq. by rewrite lfu_on_insert_eq.
Qed.
End lfu_facts.

(** ** LRU: the two ends of the list *)

Section lru_facts.
Context {K V Time : Type} `{Countable K}.
Implicit Types (s : CachePolicy.t K V Time (LRUCache.ext_t K)) (k : K).

Lemma lru_peek_mru s ids k ks :
  lru_list (CachePolicy.ext s) ids (k :: ks) → LRUCache.peek_mru s = (Ok (Some k), s).
Proof.
  intros [(Hnd & Hd & _) (Hk & _)]. destruct ids as [|n ids]; [done|].
  simpl in Hk. injection Hk as Hkey _. simpl in Hd. destruct Hd as (Hnext & _).
  unfold LRUCache.peek_mru, LRUCache.attr. munfold. unfold LRUCache.heap, LRUCache.head.
  rewrite Hnext. rewrite decide_False.
  - by rewrite Hkey.
  - intros [= Heq]. apply NoDup_cons in Hnd as [_ Hnd]. simpl in Hnd.
    apply NoDup_cons in Hnd as [Hn _]. apply Hn. unfold LRUCache.tail in Heq. rewrite Heq.
    apply elem_of_app. right. by left.
Qed.

Lemma lru_peek_lru s ids ks k :
  lru_list (CachePolicy.ext s) ids (ks ++ [k]) → LRUCache.peek_lru s = (Ok (Some k), s).
Proof.
  intros [(Hnd & Hd & _) (Hk & _)].
  destruct ids as [|n0 ids0] using rev_ind.
  { destruct ks; done. }
  clear IHids0. rewrite !fmap_app in Hk. simpl in Hk.
  apply app_inj_tail in Hk as [_ Hkey].
  apply dseg_app in Hd as [_ [_ Hprev]].
  unfold LRUCache.peek_lru, LRUCache.attr. munfold. unfold LRUCache.heap, LRUCache.tail.
  rewrite Hprev. rewrite decide_False.
  - by rewrite Hkey.
  - intros [= Heq]. apply NoDup_cons in Hnd as [Hh _]. apply Hh. unfold LRUCache.head in Heq.
    rewrite <- Heq. apply elem_of_app. left. apply elem_of_app. right. by left.
Qed.

Lemma lru_get_hit_order s k now e :
  lru_inv s → CachePolicy._cache s !! k = Some e →
  ∃ s' ks1 ks2, lru_order s (ks1 ++ k :: ks2) ∧
    CachePolicy.get k now s = (Ok (CacheEntry.value e), s') ∧ lru_order s' (k :: ks1 ++ ks2).
Proof.
  intros [_ (ids & ks & Hl & Hc)] Hk. rewrite (get_hit _ _ _ _ Hk).
  destruct (lru_access_spec (CachePolicy.set_stats (hit_stats (CachePolicy._stats s)) s)
              ids ks k now e Hl Hk) as (a' & ids' & ks1 & ks2 & -> & -> & Hl').
  { apply Hc. eauto. }
  eexists _, ks1, ks2. split; [by exists ids|]. split; [done|]. by exists ids'.
Qed.

Lemma lru_put_present_order s k v sz now e :
  lru_inv s → CachePolicy._cache s !! k = Some e →
  ∃ s' ks1 ks2, lru_order s (ks1 ++ k :: ks2) ∧
    CachePolicy.put k v sz now s = (Ok tt, s') ∧ lru_order s' (k :: ks1 ++ ks2).
Proof.
  intros [_ (ids & ks & Hl & Hc)] Hk. rewrite (put_present _ _ _ _ _ _ Hk).
  set (s1 := CachePolicy.set_cache _ s).
  destruct (lru_access_spec s1 ids ks k now (overwrite v sz e) Hl)
    as (a' & ids' & ks1 & ks2 & -> & Hacc & Hl').
  { simpl. apply lookup_insert_eq. }
  { apply Hc. eauto. }
  change (CachePolicy._on_update k now s1) with (CachePolicy._on_access k now s1).
  rewrite Hacc. eexists _, ks1, ks2. split; [by exists ids|]. split; [done|]. by exists ids'.
Qed.

Lemma lru_put_new_full s k v sz now :
  lru_inv s → CachePolicy._cache s !! k = None → CachePolicy.is_full s = true →
  ∃ s' ks1 k0, lru_order s (ks1 ++ [k0]) ∧ is_Some (CachePolicy._cache s !! k0) ∧
    CachePolicy.put k v sz now s = (Ok tt, s') ∧
    CachePolicy._cache s' = <[k := CacheEntry.new k v now sz]> (delete k0 (CachePolicy._cache s)) ∧
    lru_order s' (k :: ks1).
Proof.
  intros [Hb (ids & ks & Hl & Hc)] Hk Hf. rewrite (put_new _ _ _ _ _ Hk), Hf.
  assert (Hks : ks ≠ []).
  { intros ->. apply (full_nonempty _ Hb Hf). apply map_empty. intros k'.
    apply eq_None_not_Some. rewrite <- Hc. apply not_elem_of_nil. }
  destruct (lru_evict_spec s ids ks Hl Hks) as (ks1 & k0 & a' & -> & Hev & ids' & Hl').
  unfold bind. rewrite Hev. rewrite insert_entry_eq.
  destruct (lru_insert_spec (inserted (evicted s k0 a') k v sz now) ids' ks1 k Hl')
    as (a'' & ids'' & Hins & Hl'').
  { intros Hin. assert (is_Some (CachePolicy._cache s !! k)) as [? ?].
    { apply Hc. apply elem_of_app. by left. }
    congruence. }
  rewrite Hins. eexists _, ks1, k0. split; [by exists ids|]. split.
  { apply Hc. apply elem_of_app. right. by left. }
  split; [done|]. split; [done|]. by exists ids''.
Qed.
End lru_facts.

(** * The claims *)

Section policy_claims.
Context {K V Time : Type} `{Countable K}.
Implicit Types (p : Policy.t K V Time) (key : K).

(** C9. Constructing a policy of any of the three classes raises
    [ValueError] exactly when the capacity is not positive; the failed
    construction yields the exception and no object, the successful one an
    empty cache of that capacity. *)
Theorem C9_constructor_checks_capacity (cls : Policy.class) (capacity : Z) (name : string) :
  match Policy.new (K:=K) (V:=V) (Time:=Time) cls capacity name with
  | Raise e => e = ValueError ∧ capacity ≤ 0
  | Ok p => 0 < capacity ∧ Policy.capacity p = capacity ∧ Policy._cache p = ∅
  end.
Proof.
  destruct (Policy.new cls capacity name) as [p|e] eqn:Hnew.
  - destruct (policy_new cls capacity name p Hnew) as (_ & ? & ? & ? & _). done.
  - revert Hnew.
    unfold Policy.new, FIFOCache.__init__, LRUCache.__init__, LFUCache.__init__,
      CachePolicy.__init__.
    destruct cls; destruct (decide (capacity ≤ 0)); try done; by intros [= <-].
Qed.

(** C1. After any sequence of public operations on a policy constructed
    with capacity C > 0, [current_size <= C]; and a [put] of a new key into
    a cache with [current_size = C] is one call of [_evict], which frees
    exactly one slot, followed by the insertion, which fills it again. *)
Theorem C1_capacity_never_exceeded (cls : Policy.class) (capacity : Z) (name : string)
    (p0 : Policy.t K V Time) (ops : list op) :
  Policy.new cls capacity name = Ok p0 →
  0 < capacity ∧
  Policy.capacity (after ops p0) = capacity ∧
  Policy.current_size (after ops p0) ≤ capacity ∧
  ∀ key value sz now,
    Policy._cache (after ops p0) !! key = None →
    Policy.current_size (after ops p0) = capacity →
    ∃ p1 p2,
      Policy.put key value sz now (after ops p0) =
        (Policy._evict >> Policy._insert_entry key value sz now) (after ops p0) ∧
      Policy._evict (after ops p0) = (Ok tt, p1) ∧
      Policy.current_size p1 = capacity - 1 ∧
      CacheStats.evictions (Policy.stats p1) =
        CacheStats.evictions (Policy.stats (after ops p0)) + 1 ∧
      Policy._insert_entry key value sz now p1 = (Ok tt, p2) ∧
      Policy.current_size p2 = capacity.
Proof.
  intros Hnew. destruct (policy_new _ _ _ _ Hnew) as (Hi0 & Hpos & Hcap0 & _).
  destruct (after_inv ops p0 Hi0) as (Hi & _ & Hcap). set (p := after ops p0) in *.
  assert (Hsz : Policy.current_size p ≤ Policy.capacity p).
  { destruct p as [s|s|s]; apply Hi. }
  split; [done|]. split; [congruence|]. split; [congruence|].
  intros key value sz now Hk Hfull.
  assert (Hge : Policy.capacity p ≤ Policy.current_size p) by lia.
  destruct (policy_evict p Hi Hge) as (p1 & k0 & Hev & Hk0 & Hc1 & Hs1 & He1).
  destruct (policy_put_new p key value sz now Hi Hk)
    as (p2 & c0 & Hput & _ & _ & _ & Hc2 & Hc0 & _).
  rewrite bool_decide_eq_true_2 in Hc0 by done. destruct Hc0 as (k1 & Hk1 & ->).
  pose proof (policy_put_new_eq p key value sz now Hk) as Heq.
  rewrite bool_decide_eq_true_2 in Heq by done.
  exists p1, p2. split; [done|]. split; [done|]. split; [lia|]. split; [done|].
  split.
  - rewrite Heq in Hput. unfold bind in Hput. by rewrite Hev in Hput.
  - unfold Policy.current_size. rewrite Hc2.
    rewrite map_size_insert_None.
    2:{ rewrite lookup_delete_None. by right. }
    rewrite map_size_delete_Some by done.
    unfold Policy.current_size in Hfull.
    assert (size (Policy._cache p) ≠ 0%nat).
    { apply map_size_non_empty_iff. intros He. rewrite He in Hk1.
      rewrite lookup_empty in Hk1. by destruct Hk1. }
    lia.
Qed.
End policy_claims.

Lemma C1_witness :
  Policy.new Policy.FIFOClass 1 "FIFO" = Ok fifo_new ∧
  Policy._cache fifo_one !! 2 = None ∧
  Policy.current_size fifo_one = 1 ∧
  ∃ p1 p2,
    Policy.put 2 (Some 8) 1 11 fifo_one =
      (Policy._evict >> Policy._insert_entry 2 (Some 8) 1 11) fifo_one ∧
    Policy._evict fifo_one = (Ok tt, p1) ∧
    Policy.current_size p1 = 1 - 1 ∧
    CacheStats.evictions (Policy.stats p1) = CacheStats.evictions (Policy.stats fifo_one) + 1 ∧
    Policy._insert_entry 2 (Some 8) 1 11 p1 = (Ok tt, p2) ∧
    Policy.current_size p2 = 1.
Proof.
  split; [reflexivity|]. split; [reflexivity|]. split; [reflexivity|].
  apply (C1_capacity_never_exceeded Policy.FIFOClass 1 "FIFO" fifo_new
           [Put 1 (Some 7) 1 10] eq_refl); reflexivity.
Defined.

Section get_claims.
Context {K V Time : Type} `{Countable K}.
Implicit Types (p : Policy.t K V Time) (key : K).

(** C6, amended. On a policy instance of any class, [get] of a present
    key adds 1 to [hits] and returns the stored value; in LRU and LFU it
    sets the entry's timestamp to the time of the call and adds 1 to its
    access count, in FIFO it leaves the entry as it is.  [get] of an
    absent key adds 1 to [misses] and returns [None]; it does not raise. *)
Theorem C6_get_hit_and_miss p key now :
  reachable p →
  match Policy._cache p !! key with
  | Some e =>
      ∃ p' e', Policy.get key now p = (Ok (CacheEntry.value e), p') ∧
        CacheStats.hits (Policy.stats p') = CacheStats.hits (Policy.stats p) + 1 ∧
        CacheStats.misses (Policy.stats p') = CacheStats.misses (Policy.stats p) ∧
        Policy._cache p' !! key = Some e' ∧
        CacheEntry.value e' = CacheEntry.value e ∧
        if is_fifo p then e' = e
        else CacheEntry.timestamp e' = now ∧
             CacheEntry.access_count e' = CacheEntry.access_count e + 1
  | None =>
      ∃ p', Policy.get key now p = (Ok None, p') ∧
        CacheStats.misses (Policy.stats p') = CacheStats.misses (Policy.stats p) + 1 ∧
        CacheStats.hits (Policy.stats p') = CacheStats.hits (Policy.stats p) ∧
        Policy._cache p' = Policy._cache p
  end.
Proof.
  intros Hi%reachable_inv.
  destruct (policy_get p key now Hi) as (p' & Hg & _ & _ & _ & Hc & Hs).
  destruct (Policy._cache p !! key) as [e|] eqn:Hk; simpl in Hg.
  - exists p', (ptouch p now e). split; [done|]. rewrite Hs, Hc, lookup_insert_eq.
    split; [done|]. split; [done|]. split; [done|]. split; [apply ptouch_value|].
    by destruct p.
  - exists p'. split; [done|]. by rewrite Hs, Hc.
Qed.

(** C4, the part on policies. On a policy instance of any class,
    [put(k, v)] followed by [get(k)] returns [v] and counts a hit. *)
Lemma policy_put_then_get p key v sz now1 now2 :
  reachable p →
  ∃ p1 p2, Policy.put key v sz now1 p = (Ok tt, p1) ∧
    Policy.get key now2 p1 = (Ok v, p2) ∧
    CacheStats.hits (Policy.stats p2) = CacheStats.hits (Policy.stats p1) + 1 ∧
    CacheStats.misses (Policy.stats p2) = CacheStats.misses (Policy.stats p1).
Proof.
  intros Hi%reachable_inv.
  destruct (policy_put_total p key v sz now1 Hi) as (p1 & e' & Hp & Hi1 & Hk & Hv & _).
  destruct (policy_get p1 key now2 Hi1) as (p2 & Hg & _ & _ & _ & _ & Hs).
  rewrite Hk in Hg, Hs. simpl in Hg. rewrite Hv in Hg.
  exists p1, p2. split; [done|]. split; [done|]. by rewrite Hs.
Qed.
End get_claims.

Lemma fifo_one_reachable : reachable fifo_one.
Proof. exists Policy.FIFOClass, 1, "FIFO"%string, fifo_new, [Put 1 (Some 7) 1 10]. done. Qed.

Lemma C6_witness :
  reachable fifo_one ∧
  ∃ p' e', Policy.get 1 20 fifo_one = (Ok (Some 7), p') ∧
    CacheStats.hits (Policy.stats p') = CacheStats.hits (Policy.stats fifo_one) + 1 ∧
    CacheStats.misses (Policy.stats p') = CacheStats.misses (Policy.stats fifo_one) ∧
    Policy._cache p' !! 1 = Some e' ∧
    CacheEntry.value e' = Some 7 ∧
    e' = CacheEntry.new 1 (Some 7) 10 1.
Proof.
  split; [exact fifo_one_reachable|].
  exact (C6_get_hit_and_miss fifo_one 1 20 fifo_one_reachable).
Defined.

(** C6 as stated fails for FIFO: [get(1)] at time 20 leaves the entry with
    the timestamp 10 of its insertion. *)
Lemma C6_counterexample : reachable fifo_one ∧ ¬ get_touches fifo_one 1 20.
Proof.
  split; [exact fifo_one_reachable|]. intros Hc.
  destruct (Hc (CacheEntry.new 1 (Some 7) 10 1) eq_refl) as (e' & He' & Ht & _).
  vm_compute in He'. injection He' as <-. discriminate Ht.
Qed.

(** * Facts shared by the statements on order *)

Section order_facts.
Context {K : Type} `{Countable K}.

Lemma filter_absent (x : K) (l : list K) : x ∉ l → filter (λ y, y ≠ x) l = l.
Proof.
  induction l as [|y l IH]; [done|]. intros Hx. apply not_elem_of_cons in Hx as [Hxy Hx].
  rewrite filter_cons_True by done. f_equal. by apply IH.
Qed.

Lemma remove_first_filter (x : K) (l l' : list K) :
  NoDup l → remove_first x l = Some l' → l' = filter (λ y, y ≠ x) l.
Proof.
  revert l'. induction l as [|y l IH]; intros l' Hnd; simpl; [done|].
  apply NoDup_cons in Hnd as [Hy Hnd]. case_decide as Hxy.
  - intros [= <-]. subst y. rewrite filter_cons_False by (by intros ?).
    symmetry. by apply filter_absent.
  - destruct (remove_first x l) as [l0|] eqn:Hr; [|done]. simpl. intros [= <-].
    rewrite filter_cons_True by done. f_equal. by apply IH.
Qed.

Lemma keys_length {B} (m : gmap K B) (l : list K) :
  NoDup l → (∀ k, k ∈ l ↔ is_Some (m !! k)) → length l = size m.
Proof.
  intros Hnd Hl. rewrite <-(size_dom (D:=gset K) m).
  change (size (dom m)) with (length (elements (dom m))). apply Permutation_length.
  apply NoDup_Permutation; [done|apply NoDup_elements|].
  intros k. by rewrite Hl, elem_of_elements, elem_of_dom.
Qed.
End order_facts.

(** [delete] of a cached key and [clear], given what the hooks do. *)
Section base_delete.
Context {K V Time A : Type} `{Countable K} `{!CachePolicy.Hooks K V Time A}.
Implicit Types (s : CachePolicy.t K V Time A) (k : K) (e : CacheEntry.t K V Time).

Lemma delete_present_eq s k e a' :
  CachePolicy._cache s !! k = Some e →
  CachePolicy._on_delete k s = (Ok tt, CachePolicy.set_ext a' s) →
  CachePolicy.delete k s =
    (Ok true,
     CachePolicy.mk (CachePolicy._capacity s) (CachePolicy._name s)
       (delete k (CachePolicy._cache s))
       (CacheStats.set_current_size (Z.of_nat (size (delete k (CachePolicy._cache s))))
          (CachePolicy._stats s)) a').
Proof.
  intros Hk Hd.
  unfold CachePolicy.delete. munfold. simpl. rewrite (contains_true _ _ _ Hk). simpl.
  rewrite Hd. simpl. unfold CachePolicy.contains at 1. simpl. rewrite Hk.
  rewrite bool_decide_eq_true_2 by eauto. simpl. done.
Qed.

Lemma clear_eq s a' :
  CachePolicy._on_clear (CachePolicy.set_cache ∅ s) =
    (Ok tt, CachePolicy.set_ext a' (CachePolicy.set_cache ∅ s)) →
  CachePolicy.clear s =
    (Ok tt,
     CachePolicy.mk (CachePolicy._capacity s) (CachePolicy._name s) ∅
       (CacheStats.set_current_size 0 (CachePolicy._stats s)) a').
Proof. intros Hc. unfold CachePolicy.clear. munfold. simpl. by rewrite Hc. Qed.
End base_delete.

Section lfu_claims.
Context {K V Time : Type} `{Countable K}.
Implicit Types (s : CachePolicy.t K V Time (LFUCache.ext_t K)) (key : K).

(** C8. In an LFU policy instance, after any public operations: every
    cached key is in exactly one frequency bucket, once, and that bucket is
    the one of its entry in the key-to-frequency map; the buckets hold
    cached keys only; and [_min_freq] is 0 when the cache is empty, and
    otherwise the least frequency that has a non-empty bucket. *)
Theorem C8_lfu_bookkeeping s :
  reachable (Policy.LFU s) →
  (∀ key, is_Some (CachePolicy._cache s !! key) →
     ∃ f b, LFUCache.freq_key s !! key = Some f ∧ LFUCache.freq_map s !! f = Some b ∧
            key ∈ b ∧ NoDup b ∧
            ∀ f' b', LFUCache.freq_map s !! f' = Some b' → key ∈ b' → f' = f) ∧
  (∀ f b key, LFUCache.freq_map s !! f = Some b → key ∈ b →
     is_Some (CachePolicy._cache s !! key)) ∧
  ((CachePolicy._cache s = ∅ ∧ LFUCache.min_freq s = 0) ∨
   (CachePolicy._cache s ≠ ∅ ∧
    ∃ b, LFUCache.freq_map s !! LFUCache.min_freq s = Some b ∧ b ≠ [] ∧
         ∀ f b', LFUCache.freq_map s !! f = Some b' → b' ≠ [] → LFUCache.min_freq s ≤ f)).
Proof.
  intros Hr. pose proof (reachable_inv _ Hr) as [_ [(H1 & H2 & H3) Hm]].
  split; [|split].
  - intros key Hk. apply H3 in Hk as [f Hf]. destruct (H2 key f Hf) as (_ & b & Hb & Hin).
    destruct (H1 f b Hb) as (_ & Hnd & _). exists f, b. split; [done|]. split; [done|].
    split; [done|]. split; [done|]. intros f' b' Hb' Hin'.
    destruct (H1 f' b' Hb') as (_ & _ & Hall). specialize (Hall key Hin'). congruence.
  - intros f b key Hb Hin. apply H3. destruct (H1 f b Hb) as (_ & _ & Hall). eauto.
  - destruct Hm as [[He Hz]|[[b Hb] Hle]].
    + left. split; [|done]. apply map_empty. intros key. apply eq_None_not_Some.
      rewrite <- H3. intros [f Hf]. destruct (H2 key f Hf) as (_ & b & Hb & _).
      rewrite He in Hb. by rewrite lookup_empty in Hb.
    + right. destruct (H1 _ b Hb) as (Hne & _ & Hall). split.
      * destruct b as [|k0 b]; [done|]. intros He.
        assert (is_Some (CachePolicy._cache s !! k0)) as [? Hk0].
        { apply H3. rewrite (Hall k0); [eauto|by left]. }
        rewrite He in Hk0. by rewrite lookup_empty in Hk0.
      * exists b. split; [done|]. split; [done|]. intros f b' Hb' _. apply Hle. eauto.
Qed.

Lemma lfu_bumped_map (c : gmap K (CacheEntry.t K V Time)) a key f b b' :
  lfu_aux c a → LFUCache._freq_key a !! key = Some f → LFUCache._freq_map a !! f = Some b →
  remove_first key b = Some b' →
  key ∈ b ∧ b' = filter (λ k, k ≠ key) b ∧
  LFUCache._freq_map (lfu_bumped key f b' a) !! f = bucket_of b' ∧
  (∀ f', f' ≠ f → f' ≠ f + 1 →
     LFUCache._freq_map (lfu_bumped key f b' a) !! f' = LFUCache._freq_map a !! f') ∧
  (∀ k, k ≠ key →
     LFUCache._freq_key (lfu_bumped key f b' a) !! k = LFUCache._freq_key a !! k).
Proof.
  intros [(H1 & _) _] Hk Hf Hr. destruct (H1 _ _ Hf) as (_ & Hnd & _).
  destruct (remove_first_spec _ _ _ Hnd Hr) as (_ & Hin & _).
  split; [done|]. split; [by apply remove_first_filter|].
  unfold lfu_bumped, bucket_of. simpl. split; [|split].
  - rewrite lookup_insert_ne by lia. rewrite shrink_lookup. by rewrite decide_True.
  - intros f' Hf1 Hf2. rewrite lookup_insert_ne by done. rewrite shrink_lookup.
    by rewrite decide_False.
  - intros k Hne. by rewrite lookup_insert_ne.
Qed.

Lemma lfu_delete_eq s key e :
  lfu_inv s → CachePolicy._cache s !! key = Some e →
  ∃ f b b', LFUCache.freq_key s !! key = Some f ∧ LFUCache.freq_map s !! f = Some b ∧
    remove_first key b = Some b' ∧
    CachePolicy.delete key s =
      (Ok true,
       CachePolicy.mk (CachePolicy._capacity s) (CachePolicy._name s)
         (delete key (CachePolicy._cache s))
         (CacheStats.set_current_size (Z.of_nat (size (delete key (CachePolicy._cache s))))
            (CachePolicy._stats s))
         (lfu_deleted key f b' (CachePolicy.ext s))).
Proof.
  intros [_ Ha] Hk.
  assert (Hfk : is_Some (LFUCache.freq_key s !! key)) by (apply Ha; eauto).
  destruct Hfk as [f Hf].
  destruct (lfu_buckets_find _ _ _ _ _ (proj1 Ha) Hf) as (b & b' & Hfb & _ & Hr & _).
  exists f, b, b'. split; [done|]. split; [done|]. split; [done|].
  apply (delete_present_eq s key e); [done|]. by eapply lfu_on_delete_eq.
Qed.

(** C5. In an LFU policy instance the buckets keep the order in which
    their keys came to their frequency, and [_evict] takes from the front.
    A [put] of a new key gives it the frequency 1, appends it to bucket 1,
    sets [_min_freq] to 1 and leaves every other bucket.  A [get] or an
    update of a present key of frequency [f] gives it the frequency
    [f + 1] and appends it to bucket [f + 1]; bucket [f] loses this key,
    the keys that stay keep their order, and the other buckets and the
    frequencies of the other keys are as they were.  [delete] takes the
    key out of its bucket in the same way.  [_evict] removes the first
    key of the bucket at [_min_freq], which no frequency of a cached key
    is below; the rest of that bucket stays in its order and the other
    buckets are as they were. *)
Theorem C5_lfu_frequencies s :
  reachable (Policy.LFU s) →
  (∀ key v sz now, CachePolicy._cache s !! key = None →
     ∃ s1 s', (if CachePolicy.is_full s then CachePolicy._evict s = (Ok tt, s1) else s1 = s) ∧
       CachePolicy.put key v sz now s = (Ok tt, s') ∧
       LFUCache.freq_key s' !! key = Some 1 ∧
       LFUCache.min_freq s' = 1 ∧
       LFUCache.freq_map s' !! 1 = Some (default [] (LFUCache.freq_map s1 !! 1) ++ [key]) ∧
       (∀ f', f' ≠ 1 → LFUCache.freq_map s' !! f' = LFUCache.freq_map s1 !! f')) ∧
  (∀ key e, CachePolicy._cache s !! key = Some e →
     ∃ f b, LFUCache.freq_key s !! key = Some f ∧
       LFUCache.freq_map s !! f = Some b ∧ key ∈ b ∧
       (∀ now, ∃ s', CachePolicy.get key now s = (Ok (CacheEntry.value e), s') ∧
          LFUCache.freq_key s' !! key = Some (f + 1) ∧
          LFUCache.freq_map s' !! (f + 1) =
            Some (default [] (LFUCache.freq_map s !! (f + 1)) ++ [key]) ∧
          LFUCache.freq_map s' !! f = bucket_of (filter (λ k, k ≠ key) b) ∧
          (∀ f', f' ≠ f → f' ≠ f + 1 →
             LFUCache.freq_map s' !! f' = LFUCache.freq_map s !! f') ∧
          (∀ k, k ≠ key → LFUCache.freq_key s' !! k = LFUCache.freq_key s !! k)) ∧
       (∀ v sz now, ∃ s', CachePolicy.put key v sz now s = (Ok tt, s') ∧
          LFUCache.freq_key s' !! key = Some (f + 1) ∧
          LFUCache.freq_map s' !! (f + 1) =
            Some (default [] (LFUCache.freq_map s !! (f + 1)) ++ [key]) ∧
          LFUCache.freq_map s' !! f = bucket_of (filter (λ k, k ≠ key) b) ∧
          (∀ f', f' ≠ f → f' ≠ f + 1 →
             LFUCache.freq_map s' !! f' = LFUCache.freq_map s !! f') ∧
          (∀ k, k ≠ key → LFUCache.freq_key s' !! k = LFUCache.freq_key s !! k)) ∧
       (∃ s', CachePolicy.delete key s = (Ok true, s') ∧
          LFUCache.freq_key s' = delete key (LFUCache.freq_key s) ∧
          LFUCache.freq_map s' !! f = bucket_of (filter (λ k, k ≠ key) b) ∧
          (∀ f', f' ≠ f → LFUCache.freq_map s' !! f' = LFUCache.freq_map s !! f'))) ∧
  (CachePolicy._cache s ≠ ∅ →
     ∃ k0 b' s1, LFUCache.freq_map s !! LFUCache.min_freq s = Some (k0 :: b') ∧
       LFUCache.freq_key s !! k0 = Some (LFUCache.min_freq s) ∧
       (∀ k f, LFUCache.freq_key s !! k = Some f → LFUCache.min_freq s ≤ f) ∧
       CachePolicy._evict s = (Ok tt, s1) ∧
       CachePolicy._cache s1 = delete k0 (CachePolicy._cache s) ∧
       LFUCache.freq_key s1 = delete k0 (LFUCache.freq_key s) ∧
       LFUCache.freq_map s1 !! LFUCache.min_freq s = bucket_of b' ∧
       (∀ f', f' ≠ LFUCache.min_freq s →
          LFUCache.freq_map s1 !! f' = LFUCache.freq_map s !! f')).
Proof.
  intros Hr. pose proof (reachable_inv _ Hr) as Hi. simpl in Hi. split; [|split].
  - intros key v sz now Hk.
    destruct (lfu_put_new_eq s key v sz now Hi Hk) as (s1 & Hs1 & Hpre & Hk1 & Hput).
    destruct (lfu_inserted_facts _ _ key Hpre Hk1) as (Hf & Hm & Hb).
    eexists s1, _. split; [done|]. split; [exact Hput|]. split; [done|]. split; [done|].
    split; [done|]. intros f' Hf'. unfold LFUCache.freq_map, lfu_inserted. simpl.
    by rewrite lookup_insert_ne.
  - intros key e Hk.
    assert (Hfk0 : is_Some (LFUCache.freq_key s !! key)) by (apply Hi; eauto).
    destruct Hfk0 as [f Hf].
    destruct (lfu_buckets_find _ _ _ _ _ (proj1 (proj2 Hi)) Hf) as (b & b0 & Hb & _ & Hr0 & _).
    destruct (lfu_bumped_map (CachePolicy._cache s) _ key f b b0 (proj2 Hi) Hf Hb Hr0)
      as (Hin & Hb0 & Hsrc & Hoth & Hfk).
    exists f, b. split; [done|]. split; [done|]. split; [done|]. split; [|split].
    + intros now.
      destruct (lfu_get_hit_eq s key now e Hi Hk) as (f1 & b1 & b' & Hf1 & Hb1 & Hr' & Hget).
      assert (f1 = f) as -> by congruence. assert (b1 = b) as -> by congruence.
      assert (b' = b0) as -> by congruence.
      eexists. split; [exact Hget|]. split; [apply lfu_bumped_freq|]. split.
      { apply (lfu_bumped_bucket (CachePolicy._cache s) _ key f b b0); [apply Hi|done|done]. }
      split; [by rewrite <-Hb0|]. done.
    + intros v sz now.
      destruct (lfu_put_present_eq s key v sz now e Hi Hk)
        as (f1 & b1 & b' & Hf1 & Hb1 & Hr' & Hput).
      assert (f1 = f) as -> by congruence. assert (b1 = b) as -> by congruence.
      assert (b' = b0) as -> by congruence.
      eexists. split; [exact Hput|]. split; [apply lfu_bumped_freq|]. split.
      { apply (lfu_bumped_bucket (CachePolicy._cache s) _ key f b b0); [apply Hi|done|done]. }
      split; [by rewrite <-Hb0|]. done.
    + destruct (lfu_delete_eq s key e Hi Hk) as (f1 & b1 & b' & Hf1 & Hb1 & Hr' & Hdel).
      assert (f1 = f) as -> by congruence. assert (b1 = b) as -> by congruence.
      assert (b' = b0) as -> by congruence.
      eexists. split; [exact Hdel|]. split; [done|].
      unfold LFUCache.freq_map, lfu_deleted. simpl. split.
      * rewrite shrink_lookup, decide_True by done. by rewrite <-Hb0.
      * intros f' Hf'. by rewrite shrink_lookup, decide_False.
  - intros Hne.
    destruct (lfu_evict_full s Hi Hne) as (k0 & b' & _ & Hb & Hk0 & _ & Hmin & Hev & _).
    eexists k0, b', _. split; [done|]. split; [done|]. split; [done|]. split; [exact Hev|].
    split; [done|]. split; [done|].
    unfold LFUCache.freq_map, LFUCache.min_freq, lfu_evicted. simpl. split.
    + by rewrite shrink_lookup, decide_True.
    + intros f' Hf'. by rewrite shrink_lookup, decide_False.
Qed.
End lfu_claims.

Lemma C8_witness :
  reachable (Policy.LFU lfu_two_s) ∧
  (∀ key, is_Some (CachePolicy._cache lfu_two_s !! key) →
     ∃ f b, LFUCache.freq_key lfu_two_s !! key = Some f ∧
            LFUCache.freq_map lfu_two_s !! f = Some b ∧
            key ∈ b ∧ NoDup b ∧
            ∀ f' b', LFUCache.freq_map lfu_two_s !! f' = Some b' → key ∈ b' → f' = f) ∧
  (∀ f b key, LFUCache.freq_map lfu_two_s !! f = Some b → key ∈ b →
     is_Some (CachePolicy._cache lfu_two_s !! key)) ∧
  ((CachePolicy._cache lfu_two_s = ∅ ∧ LFUCache.min_freq lfu_two_s = 0) ∨
   (CachePolicy._cache lfu_two_s ≠ ∅ ∧
    ∃ b, LFUCache.freq_map lfu_two_s !! LFUCache.min_freq lfu_two_s = Some b ∧ b ≠ [] ∧
         ∀ f b', LFUCache.freq_map lfu_two_s !! f = Some b' → b' ≠ [] →
                 LFUCache.min_freq lfu_two_s ≤ f)).
Proof.
  assert (Hr : reachable (Policy.LFU lfu_two_s)).
  { exists Policy.LFUClass, 2, "LFUCache"%string, lfu_new, two_puts. split; vm_compute; reflexivity. }
  split; [exact Hr|]. exact (C8_lfu_bookkeeping lfu_two_s Hr).
Defined.

(** C5 on the full LFU cache of the keys 1 and 2, put in this order and
    both of frequency 1, so that bucket 1 is [1; 2]: key 3 is new, key 1
    is cached and the cache is not empty, so every part of C5 applies.
    After [get(1)] bucket 1 is [2] and bucket 2 is [1]; the key that
    [_evict] removes from the cache as it is is 1, the first of bucket 1,
    which leaves [2]. *)
Lemma C5_witness :
  reachable (Policy.LFU lfu_two_s) ∧
  CachePolicy._cache lfu_two_s !! 3 = None ∧
  CachePolicy._cache lfu_two_s !! 1 = Some (CacheEntry.new 1 (Some 7) 10 1) ∧
  CachePolicy._cache lfu_two_s ≠ ∅ ∧
  CachePolicy.is_full lfu_two_s = true ∧
  LFUCache.freq_map lfu_two_s !! 1 = Some [1; 2] ∧
  LFUCache.min_freq lfu_two_s = 1 ∧
  (∀ v sz now,
     ∃ s1 s', (if CachePolicy.is_full lfu_two_s
               then CachePolicy._evict lfu_two_s = (Ok tt, s1) else s1 = lfu_two_s) ∧
       CachePolicy.put 3 v sz now lfu_two_s = (Ok tt, s') ∧
       LFUCache.freq_key s' !! 3 = Some 1 ∧
       LFUCache.min_freq s' = 1 ∧
       LFUCache.freq_map s' !! 1 = Some (default [] (LFUCache.freq_map s1 !! 1) ++ [3]) ∧
       (∀ f', f' ≠ 1 → LFUCache.freq_map s' !! f' = LFUCache.freq_map s1 !! f')) ∧
  (∃ f b, LFUCache.freq_key lfu_two_s !! 1 = Some f ∧
     LFUCache.freq_map lfu_two_s !! f = Some b ∧ 1 ∈ b ∧
     (∀ now, ∃ s', CachePolicy.get 1 now lfu_two_s = (Ok (Some 7), s') ∧
        LFUCache.freq_key s' !! 1 = Some (f + 1) ∧
        LFUCache.freq_map s' !! (f + 1) =
          Some (default [] (LFUCache.freq_map lfu_two_s !! (f + 1)) ++ [1]) ∧
        LFUCache.freq_map s' !! f = bucket_of (filter (λ k, k ≠ 1) b) ∧
        (∀ f', f' ≠ f → f' ≠ f + 1 →
           LFUCache.freq_map s' !! f' = LFUCache.freq_map lfu_two_s !! f') ∧
        (∀ k, k ≠ 1 → LFUCache.freq_key s' !! k = LFUCache.freq_key lfu_two_s !! k)) ∧
     (∀ v sz now, ∃ s', CachePolicy.put 1 v sz now lfu_two_s = (Ok tt, s') ∧
        LFUCache.freq_key s' !! 1 = Some (f + 1) ∧
        LFUCache.freq_map s' !! (f + 1) =
          Some (default [] (LFUCache.freq_map lfu_two_s !! (f + 1)) ++ [1]) ∧
        LFUCache.freq_map s' !! f = bucket_of (filter (λ k, k ≠ 1) b) ∧
        (∀ f', f' ≠ f → f' ≠ f + 1 →
           LFUCache.freq_map s' !! f' = LFUCache.freq_map lfu_two_s !! f') ∧
        (∀ k, k ≠ 1 → LFUCache.freq_key s' !! k = LFUCache.freq_key lfu_two_s !! k)) ∧
     (∃ s', CachePolicy.delete 1 lfu_two_s = (Ok true, s') ∧
        LFUCache.freq_key s' = delete 1 (LFUCache.freq_key lfu_two_s) ∧
        LFUCache.freq_map s' !! f = bucket_of (filter (λ k, k ≠ 1) b) ∧
        (∀ f', f' ≠ f → LFUCache.freq_map s' !! f' = LFUCache.freq_map lfu_two_s !! f'))) ∧
  (∃ k0 b' s1,
     LFUCache.freq_map lfu_two_s !! LFUCache.min_freq lfu_two_s = Some (k0 :: b') ∧
     LFUCache.freq_key lfu_two_s !! k0 = Some (LFUCache.min_freq lfu_two_s) ∧
     (∀ k f, LFUCache.freq_key lfu_two_s !! k = Some f → LFUCache.min_freq lfu_two_s ≤ f) ∧
     CachePolicy._evict lfu_two_s = (Ok tt, s1) ∧
     CachePolicy._cache s1 = delete k0 (CachePolicy._cache lfu_two_s) ∧
     LFUCache.freq_key s1 = delete k0 (LFUCache.freq_key lfu_two_s) ∧
     LFUCache.freq_map s1 !! LFUCache.min_freq lfu_two_s = bucket_of b' ∧
     (∀ f', f' ≠ LFUCache.min_freq lfu_two_s →
        LFUCache.freq_map s1 !! f' = LFUCache.freq_map lfu_two_s !! f')) ∧
  LFUCache.freq_map (exec (CachePolicy.get 1 20) lfu_two_s) !! 1 = Some [2] ∧
  LFUCache.freq_map (exec (CachePolicy.get 1 20) lfu_two_s) !! 2 = Some [1] ∧
  CachePolicy.contains 1 (exec CachePolicy._evict lfu_two_s) = false ∧
  CachePolicy.contains 2 (exec CachePolicy._evict lfu_two_s) = true ∧
  LFUCache.freq_map (exec CachePolicy._evict lfu_two_s) !! 1 = Some [2].
Proof.
  assert (Hr : reachable (Policy.LFU lfu_two_s)).
  { exists Policy.LFUClass, 2, "LFUCache"%string, lfu_new, two_puts. split; vm_compute; reflexivity. }
  assert (H3 : CachePolicy._cache lfu_two_s !! 3 = None).
  { vm_compute. reflexivity. }
  assert (H1 : CachePolicy._cache lfu_two_s !! 1 = Some (CacheEntry.new 1 (Some 7) 10 1)).
  { vm_compute. reflexivity. }
  assert (Hne : CachePolicy._cache lfu_two_s ≠ ∅).
  { intros He. rewrite He in H1. discriminate H1. }
  destruct (C5_lfu_frequencies lfu_two_s Hr) as (Hnew & Hpres & Hev).
  split; [exact Hr|]. split; [exact H3|]. split; [exact H1|]. split; [exact Hne|].
  split; [vm_compute; reflexivity|]. split; [vm_compute; reflexivity|].
  split; [vm_compute; reflexivity|].
  split; [intros v sz now; exact (Hnew 3 v sz now H3)|].
  split; [exact (Hpres 1 _ H1)|]. split; [exact (Hev Hne)|].
  vm_compute. repeat split.
Defined.

(** Scenario B of the specification, on the cache of two keys: after
    [get(1)] the key 1 has frequency 2, and a [put] of the new key 3 into
    the full cache evicts the key 2, the first of bucket 1. *)
Example lfu_scenario :
  let s1 := exec (CachePolicy.get 1 20) lfu_two_s in
  let s2 := exec (CachePolicy.put 3 (Some 9) 1 21) s1 in
  fst (CachePolicy.get 1 20 lfu_two_s) = Ok (Some 7) ∧
  LFUCache.freq_key s1 !! 1 = Some 2 ∧ LFUCache.freq_key s1 !! 2 = Some 1 ∧
  fst (CachePolicy.put 3 (Some 9) 1 21 s1) = Ok tt ∧
  CachePolicy.contains 2 s2 = false ∧ CachePolicy.contains 1 s2 = true ∧
  LFUCache.freq_key s2 !! 3 = Some 1 ∧ LFUCache.min_freq s2 = 1.
Proof. vm_compute. split_and!; reflexivity. Qed.

Section lru_claims.
Context {K V Time : Type} `{Countable K}.
Implicit Types (s : CachePolicy.t K V Time (LRUCache.ext_t K)) (key : K).

(** C7. In an LRU policy instance: after [get(k)] or [put(k, v)] on a key
    [k] that was present, [peek_mru()] returns [k]; and a [put] of a new
    key into a full cache evicts the key that [peek_lru()] returned just
    before it. *)
Theorem C7_lru_recency s :
  reachable (Policy.LRU s) →
  (∀ key e, CachePolicy._cache s !! key = Some e →
     (∀ now, ∃ s', CachePolicy.get key now s = (Ok (CacheEntry.value e), s') ∧
        LRUCache.peek_mru s' = (Ok (Some key), s')) ∧
     (∀ v sz now, ∃ s', CachePolicy.put key v sz now s = (Ok tt, s') ∧
        LRUCache.peek_mru s' = (Ok (Some key), s'))) ∧
  (∀ key v sz now, CachePolicy._cache s !! key = None → CachePolicy.is_full s = true →
     ∃ k0 s', LRUCache.peek_lru s = (Ok (Some k0), s) ∧
       is_Some (CachePolicy._cache s !! k0) ∧
       CachePolicy.put key v sz now s = (Ok tt, s') ∧
       CachePolicy._cache s' =
         <[key := CacheEntry.new key v now sz]> (delete k0 (CachePolicy._cache s)) ∧
       CachePolicy._cache s' !! k0 = None).
Proof.
  intros Hr. pose proof (reachable_inv _ Hr) as Hi. simpl in Hi. split.
  - intros key e Hk. split.
    + intros now. destruct (lru_get_hit_order s key now e Hi Hk)
        as (s' & ks1 & ks2 & _ & Hget & [ids' Hl']).
      exists s'. split; [done|]. by eapply lru_peek_mru.
    + intros v sz now. destruct (lru_put_present_order s key v sz now e Hi Hk)
        as (s' & ks1 & ks2 & _ & Hput & [ids' Hl']).
      exists s'. split; [done|]. by eapply lru_peek_mru.
  - intros key v sz now Hk Hf.
    destruct (lru_put_new_full s key v sz now Hi Hk Hf)
      as (s' & ks1 & k0 & [ids Hl] & Hk0 & Hput & Hc & _).
    exists k0, s'. split; [by eapply lru_peek_lru|]. split; [done|]. split; [done|].
    split; [done|]. rewrite Hc. rewrite lookup_insert_ne.
    + apply lookup_delete_eq.
    + intros <-. destruct Hk0 as [? Hk0]. congruence.
Qed.
End lru_claims.


(** C7 on the full LRU cache of the keys 1 and 2, put in this order, so
    that 2 is the most and 1 the least recently used key: key 1 is
    cached, key 3 is new and the cache is full, so both parts of C7
    apply.  [get(1)] makes 1 the most and 2 the least recently used key; a
    [put] of key 3 after it evicts 2, and a [put] of key 3 into the cache
    as it is evicts 1. *)
Lemma C7_witness :
  reachable (Policy.LRU lru_two_s) ∧
  CachePolicy._cache lru_two_s !! 1 = Some (CacheEntry.new 1 (Some 7) 10 1) ∧
  CachePolicy._cache lru_two_s !! 3 = None ∧
  CachePolicy.is_full lru_two_s = true ∧
  fst (LRUCache.peek_mru lru_two_s) = Ok (Some 2) ∧
  fst (LRUCache.peek_lru lru_two_s) = Ok (Some 1) ∧
  (∀ now, ∃ s', CachePolicy.get 1 now lru_two_s = (Ok (Some 7), s') ∧
     LRUCache.peek_mru s' = (Ok (Some 1), s')) ∧
  (∀ v sz now, ∃ s', CachePolicy.put 1 v sz now lru_two_s = (Ok tt, s') ∧
     LRUCache.peek_mru s' = (Ok (Some 1), s')) ∧
  (∀ v sz now,
     ∃ k0 s', LRUCache.peek_lru lru_two_s = (Ok (Some k0), lru_two_s) ∧
       is_Some (CachePolicy._cache lru_two_s !! k0) ∧
       CachePolicy.put 3 v sz now lru_two_s = (Ok tt, s') ∧
       CachePolicy._cache s' =
         <[3 := CacheEntry.new 3 v now sz]> (delete k0 (CachePolicy._cache lru_two_s)) ∧
       CachePolicy._cache s' !! k0 = None) ∧
  fst (LRUCache.peek_mru (exec (CachePolicy.get 1 20) lru_two_s)) = Ok (Some 1) ∧
  fst (LRUCache.peek_lru (exec (CachePolicy.get 1 20) lru_two_s)) = Ok (Some 2) ∧
  fst (LRUCache.peek_mru (exec (CachePolicy.put 1 (Some 9) 1 20) lru_two_s)) = Ok (Some 1) ∧
  CachePolicy.contains 2
    (exec (CachePolicy.put 3 (Some 9) 1 21) (exec (CachePolicy.get 1 20) lru_two_s)) = false ∧
  CachePolicy.contains 1
    (exec (CachePolicy.put 3 (Some 9) 1 21) (exec (CachePolicy.get 1 20) lru_two_s)) = true ∧
  CachePolicy.contains 1 (exec (CachePolicy.put 3 (Some 9) 1 21) lru_two_s) = false ∧
  CachePolicy.contains 2 (exec (CachePolicy.put 3 (Some 9) 1 21) lru_two_s) = true ∧
  CachePolicy.contains 3 (exec (CachePolicy.put 3 (Some 9) 1 21) lru_two_s) = true ∧
  fst (LRUCache.peek_mru (exec (CachePolicy.put 3 (Some 9) 1 21) lru_two_s)) = Ok (Some 3).
Proof.
  assert (Hr : reachable (Policy.LRU lru_two_s)).
  { exists Policy.LRUClass, 2, "LRUCache"%string, lru_new, two_puts. split; vm_compute; reflexivity. }
  assert (H1 : CachePolicy._cache lru_two_s !! 1 = Some (CacheEntry.new 1 (Some 7) 10 1)).
  { vm_compute. reflexivity. }
  assert (H3 : CachePolicy._cache lru_two_s !! 3 = None).
  { vm_compute. reflexivity. }
  assert (Hf : CachePolicy.is_full lru_two_s = true).
  { vm_compute. reflexivity. }
  destruct (C7_lru_recency lru_two_s Hr) as (Hpres & Hnew).
  destruct (Hpres 1 _ H1) as (Hget & Hput).
  split; [exact Hr|]. split; [exact H1|]. split; [exact H3|]. split; [exact Hf|].
  split; [vm_compute; reflexivity|]. split; [vm_compute; reflexivity|].
  split; [exact Hget|]. split; [exact Hput|].
  split; [intros v sz now; exact (Hnew 3 v sz now H3 Hf)|].
  vm_compute. repeat split.
Defined.

(** Scenario A of the specification, on the cache of two keys: [get(1)]
    makes 1 the most and 2 the least recently used key, and a [put] of the
    new key 3 into the full cache evicts 2. *)
Example lru_scenario :
  let s1 := exec (CachePolicy.get 1 20) lru_two_s in
  let s2 := exec (CachePolicy.put 3 (Some 9) 1 21) s1 in
  fst (CachePolicy.get 1 20 lru_two_s) = Ok (Some 7) ∧
  fst (LRUCache.peek_mru s1) = Ok (Some 1) ∧ fst (LRUCache.peek_lru s1) = Ok (Some 2) ∧
  fst (CachePolicy.put 3 (Some 9) 1 21 s1) = Ok tt ∧
  CachePolicy.contains 2 s2 = false ∧ CachePolicy.contains 1 s2 = true ∧
  fst (LRUCache.peek_mru s2) = Ok (Some 3) ∧ fst (LRUCache.peek_lru s2) = Ok (Some 1).
Proof. vm_compute. split_and!; reflexivity. Qed.

(** * The hierarchy: promotion, write-through, round trip, latency *)

Section hierarchy_claims.
Context {K V Time F : Type} `{Countable K} `{Float F}.
Implicit Types (h : CacheHierarchy.t K V Time F) (l : CacheLevel.t K V Time F).

Lemma hier_levels_inv h : hier_ok h → levels_inv (CacheHierarchy._levels h).
Proof.
  intros Hok. apply Forall_forall. intros l Hl. by apply reachable_inv, Hok.
Qed.

Lemma lookup_at_put key v sz now l p' :
  inv (CacheLevel.cache l) →
  lookup_at key
    (CacheLevel.mk (exec (Policy.put key v sz now) (CacheLevel.cache l)) (CacheLevel.name l)
       (CacheLevel.latency_ms l) p') = v.
Proof.
  intros Hi.
  destruct (policy_put_total (CacheLevel.cache l) key v sz now Hi)
    as (c & e' & Hp & _ & Hk & Hv & _).
  unfold lookup_at, exec. simpl. rewrite Hp. simpl. by rewrite Hk.
Qed.

Lemma lookup_at_written key v clock j l :
  inv (CacheLevel.cache l) → lookup_at key (written key v clock j l) = v.
Proof. intros Hi. unfold written, CacheLevel.set_cache. by apply lookup_at_put. Qed.

Lemma lookup_at_promoted key v now l :
  inv (CacheLevel.cache l) → lookup_at key (promoted key v now l) = v.
Proof. intros Hi. unfold promoted. by apply lookup_at_put. Qed.

Lemma lookup_at_contains key l v :
  lookup_at key l = Some v → Policy.contains key (CacheLevel.cache l) = true.
Proof.
  unfold lookup_at, Policy.contains. intros Hl. apply bool_decide_eq_true.
  destruct (Policy._cache (CacheLevel.cache l) !! key); [by eexists|done].
Qed.

Lemma missed_inv key clock j l :
  inv (CacheLevel.cache l) → inv (CacheLevel.cache (missed key clock j l)).
Proof. intros Hi. by apply (probed_inv key clock j l). Qed.

(** C2, amended.  A lookup that hits at level index [i] returns the value;
    afterwards every level before [i] holds the key with that value and
    its promotion counter has grown by 1, the promotion counters of the
    other levels are unchanged, and the global promotion counter has
    grown by [i], once for each level written to.  For [i = 0] nothing is
    promoted. *)
Theorem C2_promotion_on_hit h key clock i v :
  hier_ok h → hits_at h key i v →
  ∃ h', CacheHierarchy.get key clock h = (Ok (Some v), h') ∧
    CacheHierarchy._total_promotions h' = CacheHierarchy._total_promotions h + Z.of_nat i ∧
    (∀ j l, (j < i)%nat → CacheHierarchy._levels h !! j = Some l →
       ∃ l', CacheHierarchy._levels h' !! j = Some l' ∧
             lookup_at key l' = Some v ∧
             Policy.contains key (CacheLevel.cache l') = true ∧
             LevelStats.promotions (CacheLevel.stats l') =
               LevelStats.promotions (CacheLevel.stats l) + 1) ∧
    (∀ j l, (i ≤ j)%nat → CacheHierarchy._levels h !! j = Some l →
       ∃ l', CacheHierarchy._levels h' !! j = Some l' ∧
             LevelStats.promotions (CacheLevel.stats l') =
               LevelStats.promotions (CacheLevel.stats l)).
Proof.
  intros Hok [(l0 & Hl0 & Hv) Hbefore].
  pose proof (hier_levels_inv h Hok) as Hinv.
  destruct (get_loop_hit_spec key clock v (length (CacheHierarchy._levels h))
              0%nat fzero h i l0) as (h' & Hg & _ & _ & Hp & _ & Hlv);
    [done|lia|done|done|done|intros j l [_ Hj]; by apply Hbefore|].
  exists h'. split; [done|]. split; [done|]. split.
  - intros j l Hj Hl. rewrite Hlv, Hl. rewrite decide_True by done.
    simpl. destruct (decide (0 ≤ j)%nat); [|lia]. eexists. split; [done|].
    assert (Hm : inv (CacheLevel.cache (missed key clock j l))).
    { apply missed_inv. eapply (proj1 (Forall_forall _ _) Hinv), list_elem_of_lookup_2, Hl. }
    pose proof (lookup_at_promoted key (Some v) (clock (S i + j)%nat) _ Hm) as Hlk.
    split; [done|]. split; [by eapply lookup_at_contains|done].
  - intros j l Hj Hl. rewrite Hlv, Hl. rewrite decide_False by lia.
    case_decide; simpl; eexists; (split; [done|done]).
Qed.

(** C3.  [put] on a hierarchy without levels raises [RuntimeError] and
    leaves the hierarchy as it was.  Otherwise it succeeds; the [j]-th call
    it makes on a policy is [put(key, value)] on the level at index [j],
    for every level; the counters of the hierarchy are unchanged; and each
    level's own [get(key)] then returns [value]. *)
Theorem C3_put_writes_through h key v clock :
  hier_ok h →
  (CacheHierarchy._levels h = [] →
     CacheHierarchy.put key v clock h = (Raise RuntimeError, h)) ∧
  (CacheHierarchy._levels h ≠ [] →
     ∃ h', CacheHierarchy.put key v clock h = (Ok tt, h') ∧
       (∀ j, CacheHierarchy._levels h' !! j =
             written key v clock j <$> CacheHierarchy._levels h !! j) ∧
       same_totals h h' ∧
       ∀ j l' now, CacheHierarchy._levels h' !! j = Some l' →
         ∃ c, Policy.get key now (CacheLevel.cache l') = (Ok v, c)).
Proof.
  intros Hok. pose proof (hier_levels_inv h Hok) as Hinv. split.
  - intros Hnil. unfold CacheHierarchy.put, bind, gets, CacheHierarchy.num_levels.
    rewrite Hnil. done.
  - intros Hne.
    destruct (put_loop_spec key v clock (length (CacheHierarchy._levels h)) 0%nat h)
      as (h' & Hp & Ht & Hinv' & Hlv); [done|done|].
    exists h'. split; [|split; [|split; [done|]]].
    + unfold CacheHierarchy.put, bind, gets, CacheHierarchy.num_levels.
      rewrite decide_False; [done|]. by destruct (CacheHierarchy._levels h).
    + intros j. rewrite Hlv. by rewrite decide_True by lia.
    + intros j l' now Hl'.
      assert (Hi' : inv (CacheLevel.cache l')).
      { eapply (proj1 (Forall_forall _ _) Hinv'), list_elem_of_lookup_2, Hl'. }
      destruct (lookup_at_get key now l' Hi') as (c & Hg & _).
      exists c. rewrite Hg. f_equal. f_equal.
      rewrite Hlv, decide_True in Hl' by lia.
      destruct (CacheHierarchy._levels h !! j) as [l|] eqn:Hl; [|done].
      injection Hl' as <-. apply lookup_at_written.
      eapply (proj1 (Forall_forall _ _) Hinv), list_elem_of_lookup_2, Hl.
Qed.

Lemma stored_none_level key clock j l :
  inv (CacheLevel.cache l) →
  is_Some (Policy._cache (CacheLevel.cache (written key None clock j l)) !! key) ∧
  lookup_at key (written key None clock j l) = None.
Proof.
  intros Hi. split; [|by apply lookup_at_written].
  destruct (policy_put_total (CacheLevel.cache l) key None 1 (clock j) Hi)
    as (c & e' & Hp & _ & Hk & _).
  unfold written, exec. simpl. rewrite Hp. simpl. by rewrite Hk.
Qed.

Lemma missed_stored key clock j l e :
  inv (CacheLevel.cache l) → Policy._cache (CacheLevel.cache l) !! key = Some e →
  LevelStats.misses (CacheLevel.stats (missed key clock j l)) =
    LevelStats.misses (CacheLevel.stats l) + 1 ∧
  LevelStats.hits (CacheLevel.stats (missed key clock j l)) =
    LevelStats.hits (CacheLevel.stats l) ∧
  Policy.contains key (CacheLevel.cache (missed key clock j l)) = true ∧
  CacheStats.hits (Policy.stats (CacheLevel.cache (missed key clock j l))) =
    CacheStats.hits (Policy.stats (CacheLevel.cache l)) + 1 ∧
  CacheStats.misses (Policy.stats (CacheLevel.cache (missed key clock j l))) =
    CacheStats.misses (Policy.stats (CacheLevel.cache l)).
Proof.
  intros Hi He. split; [done|]. split; [done|].
  destruct (policy_get (CacheLevel.cache l) key (clock j) Hi) as (c & Hg & _ & _ & _ & Hc & Hs).
  rewrite He in Hc, Hs. unfold missed, probed, exec. simpl. rewrite Hg. simpl.
  split; [|by rewrite Hs].
  unfold Policy.contains. apply bool_decide_eq_true. rewrite Hc, lookup_insert_eq. by eexists.
Qed.

(** C4, amended.  On a policy, [put(key, v)] followed by [get(key)]
    returns [v], whatever [v] is, and that [get] adds 1 to the hits of the
    policy and leaves its misses.  On a hierarchy with a level,
    [put(key, w)] followed by [get(key)] returns [w] and adds 1 to the
    global hits, leaving the global misses, when [w] is a value other than
    [None].  For the value [None] the key is stored at every level, and
    the [get] of the hierarchy returns [None] and counts a miss: the
    global misses and the misses of every level grow by 1 and no hits of
    the hierarchy grow, while the policy of every level, which holds the
    key, counts a hit; the key is still stored afterwards. *)
Theorem C4_put_then_get (p : Policy.t K V Time) h key (v : pyval V) (w : V) sz
    (now now' : Time) clock clock' :
  reachable p → hier_ok h → CacheHierarchy._levels h ≠ [] →
  (∃ p1 p2, Policy.put key v sz now p = (Ok tt, p1) ∧
     Policy.get key now' p1 = (Ok v, p2) ∧
     CacheStats.hits (Policy.stats p2) = CacheStats.hits (Policy.stats p1) + 1 ∧
     CacheStats.misses (Policy.stats p2) = CacheStats.misses (Policy.stats p1)) ∧
  (∃ h1 h2, CacheHierarchy.put key (Some w) clock h = (Ok tt, h1) ∧
     CacheHierarchy.get key clock' h1 = (Ok (Some w), h2) ∧
     CacheHierarchy._total_hits h2 = CacheHierarchy._total_hits h1 + 1 ∧
     CacheHierarchy._total_misses h2 = CacheHierarchy._total_misses h1) ∧
  (∃ h1 h2, CacheHierarchy.put key None clock h = (Ok tt, h1) ∧
     CacheHierarchy.contains key h1 = true ∧
     CacheHierarchy.get key clock' h1 = (Ok None, h2) ∧
     CacheHierarchy._total_hits h2 = CacheHierarchy._total_hits h1 ∧
     CacheHierarchy._total_misses h2 = CacheHierarchy._total_misses h1 + 1 ∧
     CacheHierarchy.contains key h2 = true ∧
     ∀ j l1, CacheHierarchy._levels h1 !! j = Some l1 →
       Policy.contains key (CacheLevel.cache l1) = true ∧
       ∃ l2, CacheHierarchy._levels h2 !! j = Some l2 ∧
         LevelStats.misses (CacheLevel.stats l2) = LevelStats.misses (CacheLevel.stats l1) + 1 ∧
         LevelStats.hits (CacheLevel.stats l2) = LevelStats.hits (CacheLevel.stats l1) ∧
         Policy.contains key (CacheLevel.cache l2) = true ∧
         CacheStats.hits (Policy.stats (CacheLevel.cache l2)) =
           CacheStats.hits (Policy.stats (CacheLevel.cache l1)) + 1 ∧
         CacheStats.misses (Policy.stats (CacheLevel.cache l2)) =
           CacheStats.misses (Policy.stats (CacheLevel.cache l1))).
Proof.
  intros Hr Hok Hne. split; [by apply policy_put_then_get|].
  pose proof (hier_levels_inv h Hok) as Hinv.
  assert (Hput : ∀ u h1,
    CacheHierarchy.put_loop key u clock (length (CacheHierarchy._levels h)) 0%nat h = (Ok tt, h1) →
    CacheHierarchy.put key u clock h = (Ok tt, h1)).
  { intros u h1 Hp. unfold CacheHierarchy.put, bind, gets, CacheHierarchy.num_levels.
    rewrite decide_False; [done|]. by destruct (CacheHierarchy._levels h). }
  split.
  - destruct (put_loop_spec key (Some w) clock (length (CacheHierarchy._levels h)) 0%nat h)
      as (h1 & Hp & _ & Hinv1 & Hlv); [done|done|].
    destruct (CacheHierarchy._levels h) as [|l0 ls] eqn:Hls; [done|].
    pose proof (Hlv 0%nat) as Hl0. simpl in Hl0.
    assert (Hi0 : inv (CacheLevel.cache l0)) by (by inversion Hinv).
    destruct (get_loop_hit_spec key clock' w (length (CacheHierarchy._levels h1))
                0%nat fzero h1 0%nat (written key (Some w) clock 0 l0))
      as (h2 & Hg & Hh & Hm & _); [done|lia|done|done|by apply lookup_at_written|intros; lia|].
    exists h1, h2. split; [|done]. apply Hput. exact Hp.
  - destruct (put_loop_spec key None clock (length (CacheHierarchy._levels h)) 0%nat h)
      as (h1 & Hp & _ & Hinv1 & Hlv); [done|done|].
    assert (Hall : ∀ j l1, CacheHierarchy._levels h1 !! j = Some l1 →
              is_Some (Policy._cache (CacheLevel.cache l1) !! key) ∧ lookup_at key l1 = None).
    { intros j l1 Hl1. rewrite Hlv, decide_True in Hl1 by lia.
      destruct (CacheHierarchy._levels h !! j) as [l|] eqn:Hl; [|done]. injection Hl1 as <-.
      apply stored_none_level. exact (Forall_lookup_1 _ _ _ _ Hinv Hl). }
    destruct (get_loop_miss_spec key clock' (length (CacheHierarchy._levels h1)) 0%nat fzero h1)
      as (h2 & Hg & Hh & Hm & _ & _ & Hinv2 & Hlv2); [done|done| |].
    { intros j l _ Hj. by apply (Hall j l). }
    assert (Hlev : ∀ j l1, CacheHierarchy._levels h1 !! j = Some l1 →
      Policy.contains key (CacheLevel.cache l1) = true ∧
      ∃ l2, CacheHierarchy._levels h2 !! j = Some l2 ∧
        LevelStats.misses (CacheLevel.stats l2) = LevelStats.misses (CacheLevel.stats l1) + 1 ∧
        LevelStats.hits (CacheLevel.stats l2) = LevelStats.hits (CacheLevel.stats l1) ∧
        Policy.contains key (CacheLevel.cache l2) = true ∧
        CacheStats.hits (Policy.stats (CacheLevel.cache l2)) =
          CacheStats.hits (Policy.stats (CacheLevel.cache l1)) + 1 ∧
        CacheStats.misses (Policy.stats (CacheLevel.cache l2)) =
          CacheStats.misses (Policy.stats (CacheLevel.cache l1))).
    { intros j l1 Hl1. destruct (Hall j l1 Hl1) as [[e He] _]. split.
      - unfold Policy.contains. apply bool_decide_eq_true. by eexists.
      - exists (missed key clock' j l1). split.
        + rewrite Hlv2, Hl1. by rewrite decide_True by lia.
        + apply (missed_stored key clock' j l1 e); [|done].
          exact (Forall_lookup_1 _ _ _ _ Hinv1 Hl1). }
    assert (Hfirst : ∃ l1, CacheHierarchy._levels h1 !! 0%nat = Some l1).
    { rewrite Hlv. simpl. destruct (CacheHierarchy._levels h) as [|l0 ls]; [done|]. by eexists. }
    destruct Hfirst as [l1 Hl1]. destruct (Hlev 0%nat l1 Hl1) as (Hc1 & l2 & Hl2 & _ & _ & Hc2 & _).
    exists h1, h2. split; [by apply Hput|]. split.
    { unfold CacheHierarchy.contains. destruct (CacheHierarchy._levels h1) as [|x xs]; [done|].
      injection Hl1 as ->. simpl. by rewrite Hc1. }
    split; [done|]. split; [done|]. split; [done|]. split; [|done].
    unfold CacheHierarchy.contains. destruct (CacheHierarchy._levels h2) as [|x xs]; [done|].
    injection Hl2 as ->. simpl. by rewrite Hc2.
Qed.

(** C10.  A [get] that finds the key at no level returns [None]; the
    global latency total is what it was, the global misses have grown by
    1, and the latency total of each level has grown by the latency of
    that level.  The average latency reported afterwards is the unchanged
    total over one more access. *)
Theorem C10_miss_adds_no_global_latency h key clock :
  hier_ok h →
  (∀ l, l ∈ CacheHierarchy._levels h → lookup_at key l = None) →
  ∃ h', CacheHierarchy.get key clock h = (Ok None, h') ∧
    CacheHierarchy._total_latency_ms h' = CacheHierarchy._total_latency_ms h ∧
    CacheHierarchy._total_hits h' = CacheHierarchy._total_hits h ∧
    CacheHierarchy._total_misses h' = CacheHierarchy._total_misses h + 1 ∧
    CacheHierarchy.total_accesses h' = CacheHierarchy.total_accesses h + 1 ∧
    (∀ j, CacheHierarchy._levels h' !! j = missed key clock j <$> CacheHierarchy._levels h !! j) ∧
    (∀ j l, CacheHierarchy._levels h !! j = Some l →
       ∃ l', CacheHierarchy._levels h' !! j = Some l' ∧
             CacheLevel.latency_ms l' = CacheLevel.latency_ms l ∧
             LevelStats.total_latency_ms (CacheLevel.stats l') =
               fadd (LevelStats.total_latency_ms (CacheLevel.stats l)) (CacheLevel.latency_ms l)) ∧
    CacheHierarchy.avg_latency_ms h' =
      if decide (0 < CacheHierarchy.total_accesses h + 1)
      then fdiv_int (CacheHierarchy._total_latency_ms h) (CacheHierarchy.total_accesses h + 1)
      else fzero.
Proof.
  intros Hok Hmiss. pose proof (hier_levels_inv h Hok) as Hinv.
  destruct (get_loop_miss_spec key clock (length (CacheHierarchy._levels h)) 0%nat fzero h)
    as (h' & Hg & Hh & Hm & _ & Hl & _ & Hlv); [done|done| |].
  { intros j l _ Hj. eapply Hmiss, list_elem_of_lookup_2, Hj. }
  assert (Ha : CacheHierarchy.total_accesses h' = CacheHierarchy.total_accesses h + 1).
  { unfold CacheHierarchy.total_accesses. lia. }
  exists h'. split; [done|]. split; [done|]. split; [done|]. split; [done|].
  split; [done|]. split; [|split].
  - intros j. rewrite Hlv. by rewrite decide_True by lia.
  - intros j l Hj. rewrite Hlv, Hj. rewrite decide_True by lia. simpl.
    eexists. split; [done|]. done.
  - unfold CacheHierarchy.avg_latency_ms. by rewrite Ha, Hl.
Qed.

End hierarchy_claims.

(** * The hierarchy claims on the small instances *)

#[local] Existing Instance exact.

Lemma fifo_new_reachable : reachable fifo_new.
Proof. exists Policy.FIFOClass, 1, "FIFO"%string, fifo_new, []. done. Qed.

Lemma three_levels_ok : hier_ok three_levels.
Proof.
  intros l Hl. unfold three_levels in Hl. simpl in Hl.
  rewrite !elem_of_cons, elem_of_nil in Hl.
  destruct Hl as [->|[->|[->|[]]]]; simpl;
    [exact fifo_new_reachable|exact fifo_new_reachable|exact fifo_one_reachable].
Qed.

Lemma one_level_ok : hier_ok one_level.
Proof.
  intros l Hl. unfold one_level in Hl. simpl in Hl.
  rewrite elem_of_cons, elem_of_nil in Hl.
  destruct Hl as [->|[]]. exact fifo_new_reachable.
Qed.

(** In [three_levels] the lookup of key 1 hits at the last level, index 2,
    with value 7; key 5 is at no level. *)
Lemma three_levels_hit : hits_at three_levels 1 2 7.
Proof.
  split.
  - eexists. split; [reflexivity|]. vm_compute. reflexivity.
  - intros j l Hj. destruct j as [|[|j]]; [| |lia]; intros [= <-]; vm_compute; reflexivity.
Qed.

Lemma three_levels_miss l :
  l ∈ CacheHierarchy._levels three_levels → lookup_at 5 l = None.
Proof.
  unfold three_levels. simpl. rewrite !elem_of_cons, elem_of_nil.
  intros [->|[->|[->|[]]]]; vm_compute; reflexivity.
Qed.

Lemma one_level_nonempty : CacheHierarchy._levels one_level ≠ [].
Proof. discriminate. Qed.

Lemma C2_witness :
  hier_ok three_levels ∧ hits_at three_levels 1 2 7 ∧
  ∃ h' : CacheHierarchy.t Z Z Z Q, CacheHierarchy.get 1 ticking three_levels = (Ok (Some 7), h') ∧
    CacheHierarchy._total_promotions h' =
      CacheHierarchy._total_promotions three_levels + Z.of_nat 2 ∧
    (∀ j l, (j < 2)%nat → CacheHierarchy._levels three_levels !! j = Some l →
       ∃ l', CacheHierarchy._levels h' !! j = Some l' ∧
             lookup_at 1 l' = Some 7 ∧
             Policy.contains 1 (CacheLevel.cache l') = true ∧
             LevelStats.promotions (CacheLevel.stats l') =
               LevelStats.promotions (CacheLevel.stats l) + 1) ∧
    (∀ j l, (2 ≤ j)%nat → CacheHierarchy._levels three_levels !! j = Some l →
       ∃ l', CacheHierarchy._levels h' !! j = Some l' ∧
             LevelStats.promotions (CacheLevel.stats l') =
               LevelStats.promotions (CacheLevel.stats l)).
Proof.
  split; [exact three_levels_ok|]. split; [exact three_levels_hit|].
  exact (C2_promotion_on_hit three_levels 1 ticking 2%nat 7
           three_levels_ok three_levels_hit).
Defined.

(** C2 as stated fails: the lookup of key 1 in [three_levels] hits at
    level index 2, the two levels before it are written to, and the global
    promotion counter grows by 2, not by 1. *)
Lemma C2_counterexample :
  hier_ok three_levels ∧ hits_at three_levels 1 2 7 ∧
  fst (CacheHierarchy.get 1 ticking three_levels) = Ok (Some 7) ∧
  CacheHierarchy._total_promotions
    (exec (CacheHierarchy.get 1 ticking) three_levels) ≠
  CacheHierarchy._total_promotions three_levels + 1.
Proof.
  split; [exact three_levels_ok|]. split; [exact three_levels_hit|].
  split; vm_compute; [reflexivity|discriminate].
Qed.

Lemma C3_witness :
  hier_ok three_levels ∧
  (CacheHierarchy._levels three_levels = [] →
     CacheHierarchy.put 5 (Some 9) ticking three_levels =
       (Raise RuntimeError, three_levels)) ∧
  (CacheHierarchy._levels three_levels ≠ [] →
     ∃ h' : CacheHierarchy.t Z Z Z Q, CacheHierarchy.put 5 (Some 9) ticking three_levels = (Ok tt, h') ∧
       (∀ j, CacheHierarchy._levels h' !! j =
             written 5 (Some 9) ticking j <$> CacheHierarchy._levels three_levels !! j) ∧
       same_totals three_levels h' ∧
       ∀ j l' now, CacheHierarchy._levels h' !! j = Some l' →
         ∃ c, Policy.get 5 now (CacheLevel.cache l') = (Ok (Some 9), c)).
Proof.
  split; [exact three_levels_ok|].
  exact (C3_put_writes_through three_levels 5 (Some 9) ticking
           three_levels_ok).
Defined.

Lemma C4_witness :
  reachable fifo_one ∧ hier_ok one_level ∧ CacheHierarchy._levels one_level ≠ [] ∧
  (∃ p1 p2, Policy.put 1 None 1 20 fifo_one = (Ok tt, p1) ∧
     Policy.get 1 21 p1 = (Ok None, p2) ∧
     CacheStats.hits (Policy.stats p2) = CacheStats.hits (Policy.stats p1) + 1 ∧
     CacheStats.misses (Policy.stats p2) = CacheStats.misses (Policy.stats p1)) ∧
  (∃ h1 h2 : CacheHierarchy.t Z Z Z Q, CacheHierarchy.put 1 (Some 7) ticking one_level = (Ok tt, h1) ∧
     CacheHierarchy.get 1 ticking h1 = (Ok (Some 7), h2) ∧
     CacheHierarchy._total_hits h2 = CacheHierarchy._total_hits h1 + 1 ∧
     CacheHierarchy._total_misses h2 = CacheHierarchy._total_misses h1) ∧
  (∃ h1 h2 : CacheHierarchy.t Z Z Z Q,
     CacheHierarchy.put 1 None ticking one_level = (Ok tt, h1) ∧
     CacheHierarchy.contains 1 h1 = true ∧
     CacheHierarchy.get 1 ticking h1 = (Ok None, h2) ∧
     CacheHierarchy._total_hits h2 = CacheHierarchy._total_hits h1 ∧
     CacheHierarchy._total_misses h2 = CacheHierarchy._total_misses h1 + 1 ∧
     CacheHierarchy.contains 1 h2 = true ∧
     ∀ j l1, CacheHierarchy._levels h1 !! j = Some l1 →
       Policy.contains 1 (CacheLevel.cache l1) = true ∧
       ∃ l2, CacheHierarchy._levels h2 !! j = Some l2 ∧
         LevelStats.misses (CacheLevel.stats l2) = LevelStats.misses (CacheLevel.stats l1) + 1 ∧
         LevelStats.hits (CacheLevel.stats l2) = LevelStats.hits (CacheLevel.stats l1) ∧
         Policy.contains 1 (CacheLevel.cache l2) = true ∧
         CacheStats.hits (Policy.stats (CacheLevel.cache l2)) =
           CacheStats.hits (Policy.stats (CacheLevel.cache l1)) + 1 ∧
         CacheStats.misses (Policy.stats (CacheLevel.cache l2)) =
           CacheStats.misses (Policy.stats (CacheLevel.cache l1))).
Proof.
  split; [exact fifo_one_reachable|]. split; [exact one_level_ok|].
  split; [exact one_level_nonempty|].
  exact (C4_put_then_get fifo_one one_level 1 None 7 1 20 21 ticking ticking
           fifo_one_reachable one_level_ok one_level_nonempty).
Defined.

(** C4 as stated fails on a hierarchy for the value [None]: after
    [put(1, None)] the level holds the key, its [get] returns the stored
    [None], and the hierarchy takes that for an absent key: the call
    returns [None] and is counted as a miss, not as a hit. *)
Lemma C4_counterexample :
  let h1 := exec (CacheHierarchy.put 1 None ticking) one_level in
  let h2 := exec (CacheHierarchy.get 1 ticking) h1 in
  hier_ok one_level ∧ CacheHierarchy._levels one_level ≠ [] ∧
  fst (CacheHierarchy.put 1 None ticking one_level) = Ok tt ∧
  CacheHierarchy.contains 1 h1 = true ∧
  fst (CacheHierarchy.get 1 ticking h1) = Ok None ∧
  CacheHierarchy._total_hits h2 = CacheHierarchy._total_hits h1 ∧
  CacheHierarchy._total_misses h2 = CacheHierarchy._total_misses h1 + 1 ∧
  CacheHierarchy._total_hits h2 ≠ CacheHierarchy._total_hits h1 + 1.
Proof.
  split; [exact one_level_ok|]. split; [exact one_level_nonempty|].
  vm_compute. split_and!; (reflexivity || discriminate).
Qed.

Lemma C10_witness :
  hier_ok three_levels ∧
  (∀ l, l ∈ CacheHierarchy._levels three_levels → lookup_at 5 l = None) ∧
  ∃ h' : CacheHierarchy.t Z Z Z Q, CacheHierarchy.get 5 ticking three_levels = (Ok None, h') ∧
    CacheHierarchy._total_latency_ms h' = CacheHierarchy._total_latency_ms three_levels ∧
    CacheHierarchy._total_hits h' = CacheHierarchy._total_hits three_levels ∧
    CacheHierarchy._total_misses h' = CacheHierarchy._total_misses three_levels + 1 ∧
    CacheHierarchy.total_accesses h' = CacheHierarchy.total_accesses three_levels + 1 ∧
    (∀ j, CacheHierarchy._levels h' !! j =
          missed 5 ticking j <$> CacheHierarchy._levels three_levels !! j) ∧
    (∀ j l, CacheHierarchy._levels three_levels !! j = Some l →
       ∃ l', CacheHierarchy._levels h' !! j = Some l' ∧
             CacheLevel.latency_ms l' = CacheLevel.latency_ms l ∧
             LevelStats.total_latency_ms (CacheLevel.stats l') =
               fadd (LevelStats.total_latency_ms (CacheLevel.stats l)) (CacheLevel.latency_ms l)) ∧
    CacheHierarchy.avg_latency_ms h' =
      if decide (0 < CacheHierarchy.total_accesses three_levels + 1)
      then fdiv_int (CacheHierarchy._total_latency_ms three_levels)
             (CacheHierarchy.total_accesses three_levels + 1)
      else fzero.
Proof.
  split; [exact three_levels_ok|]. split; [exact three_levels_miss|].
  exact (C10_miss_adds_no_global_latency three_levels 5 ticking
           three_levels_ok three_levels_miss).
Defined.

(** Scenario C of the specification: the lookup of key 1 in [three_levels]
    costs the latencies 1 + 5 + 20 of the three levels, and key 1 is then
    at every level. *)
Example hierarchy_scenario :
  let h' := exec (CacheHierarchy.get 1 ticking) three_levels in
  Qeq (CacheHierarchy._total_latency_ms h') 26 ∧
  CacheHierarchy._total_hits h' = 1 ∧ CacheHierarchy._total_misses h' = 0 ∧
  CacheHierarchy._total_promotions h' = 2 ∧
  (Policy.contains 1 ∘ CacheLevel.cache <$> CacheHierarchy._levels h') = [true; true; true] ∧
  (LevelStats.promotions ∘ CacheLevel.stats <$> CacheHierarchy._levels h') = [1; 1; 0].
Proof. vm_compute. split_and!; reflexivity. Qed.

(** * More of the code: counters, contents and order of the policies *)

(** ** What [delete], [clear] and a [put] of a new key do to the counters *)

Section generic_stats.
Context {K V Time A : Type} `{Countable K} `{!CachePolicy.Hooks K V Time A}.
Implicit Types (s : CachePolicy.t K V Time A) (k : K) (e : CacheEntry.t K V Time).

Variables AInv APre : gmap K (CacheEntry.t K V Time) → A → Prop.
Hypothesis AInv_APre : ∀ c a, AInv c a → APre c a.
Hypothesis H_evict : ∀ s,
  AInv (CachePolicy._cache s) (CachePolicy.ext s) → CachePolicy._cache s ≠ ∅ →
  ∃ k0 a', is_Some (CachePolicy._cache s !! k0) ∧
           CachePolicy._evict s = (Ok tt, evicted s k0 a') ∧
           APre (delete k0 (CachePolicy._cache s)) a'.
Hypothesis H_insert : ∀ s k,
  is_Some (CachePolicy._cache s !! k) →
  APre (delete k (CachePolicy._cache s)) (CachePolicy.ext s) →
  ∃ a', CachePolicy._on_insert k s = (Ok tt, CachePolicy.set_ext a' s) ∧
        AInv (CachePolicy._cache s) a'.
Hypothesis H_delete : ∀ s k,
  is_Some (CachePolicy._cache s !! k) →
  AInv (CachePolicy._cache s) (CachePolicy.ext s) →
  ∃ a', CachePolicy._on_delete k s = (Ok tt, CachePolicy.set_ext a' s) ∧
        AInv (delete k (CachePolicy._cache s)) a'.
Hypothesis H_clear : ∀ s c0,
  AInv c0 (CachePolicy.ext s) →
  ∃ a', CachePolicy._on_clear s = (Ok tt, CachePolicy.set_ext a' s) ∧ AInv ∅ a'.

Local Abbreviation GInv s := (base_inv s ∧ AInv (CachePolicy._cache s) (CachePolicy.ext s)).

Lemma set_current_size_id (st : CacheStats.t) n :
  CacheStats.current_size st = n → CacheStats.set_current_size n st = st.
Proof. destruct st. simpl. by intros ->. Qed.

Lemma generic_delete_stats s k :
  GInv s →
  CachePolicy._stats (exec (CachePolicy.delete k) s) =
    CacheStats.set_current_size (Z.of_nat (size (delete k (CachePolicy._cache s))))
      (CachePolicy._stats s) ∧
  (CachePolicy._cache s !! k = None → exec (CachePolicy.delete k) s = s).
Proof.
  intros [Hb Ha]. unfold exec. destruct (CachePolicy._cache s !! k) as [e|] eqn:Hk.
  - destruct (H_delete s k) as (a' & Hd & Ha'); [by rewrite Hk|done|].
    split; [|done].
    unfold CachePolicy.delete. munfold. simpl. rewrite (contains_true _ _ _ Hk). simpl.
    rewrite Hd. simpl. unfold CachePolicy.contains at 1. simpl. rewrite Hk.
    rewrite bool_decide_eq_true_2 by eauto. simpl. done.
  - rewrite (delete_absent _ _ Hk). simpl. split; [|done].
    rewrite delete_id by done. symmetry. apply set_current_size_id. apply Hb.
Qed.

Lemma generic_clear_stats s :
  GInv s →
  CachePolicy._stats (exec CachePolicy.clear s) =
    CacheStats.set_current_size 0 (CachePolicy._stats s).
Proof.
  intros [Hb Ha]. unfold exec, CachePolicy.clear. munfold. simpl.
  destruct (H_clear (CachePolicy.set_cache ∅ s) _ Ha) as (a' & -> & Ha'). done.
Qed.

Lemma generic_put_new_stats s k v sz now :
  GInv s → CachePolicy._cache s !! k = None →
  CacheStats.evictions (CachePolicy._stats (exec (CachePolicy.put k v sz now) s)) =
    CacheStats.evictions (CachePolicy._stats s) + (if CachePolicy.is_full s then 1 else 0).
Proof.
  intros HG Hk. unfold exec. rewrite (put_new _ _ _ _ _ Hk).
  destruct (CachePolicy.is_full s) eqn:Hf.
  - destruct (generic_evict AInv APre H_evict s HG (full_nonempty _ (proj1 HG) Hf))
      as (k0 & a1 & Hk0 & Hev & Hb1 & Hpre & Hs1).
    unfold bind. rewrite Hev.
    assert (Hk1 : CachePolicy._cache (evicted s k0 a1) !! k = None).
    { simpl. rewrite lookup_delete_None. by right. }
    assert (Hlt : CachePolicy.current_size (evicted s k0 a1) <
                  CachePolicy._capacity (evicted s k0 a1)).
    { rewrite Hs1. simpl. destruct HG as [(? & ? & ? & ?) _]. lia. }
    destruct (generic_insert AInv APre H_insert (evicted s k0 a1) k v sz now Hb1 Hpre Hk1 Hlt)
      as (a' & -> & HG').
    done.
  - destruct HG as [Hb Ha].
    assert (Hlt : CachePolicy.current_size s < CachePolicy._capacity s).
    { apply bool_decide_eq_false_1 in Hf. lia. }
    destruct (generic_insert AInv APre H_insert s k v sz now Hb (AInv_APre _ _ Ha) Hk Hlt)
      as (a' & -> & HG').
    simpl. lia.
Qed.

End generic_stats.

Section policy_stats.
Context {K V Time : Type} `{Countable K}.
Implicit Types (p : Policy.t K V Time) (k : K).

Lemma policy_delete_stats p k :
  inv p →
  Policy.stats (exec (Policy.delete k) p) =
    CacheStats.set_current_size (Z.of_nat (size (delete k (Policy._cache p)))) (Policy.stats p) ∧
  (Policy._cache p !! k = None → exec (Policy.delete k) p = p).
Proof.
  destruct p as [s|s|s]; intros Hi; simpl in *.
  - destruct (generic_delete_stats FInv fifo_H_delete s k Hi) as [Hs Hid].
    unfold exec, Policy.delete, Policy.lift in *.
    destruct (CachePolicy.delete k s) as [r s']. simpl in *.
    split; [done|]. intros Hk. by rewrite Hid.
  - destruct (generic_delete_stats lru_aux lru_H_delete s k Hi) as [Hs Hid].
    unfold exec, Policy.delete, Policy.lift in *.
    destruct (CachePolicy.delete k s) as [r s']. simpl in *.
    split; [done|]. intros Hk. by rewrite Hid.
  - destruct (generic_delete_stats lfu_aux lfu_H_delete s k Hi) as [Hs Hid].
    unfold exec, Policy.delete, Policy.lift in *.
    destruct (CachePolicy.delete k s) as [r s']. simpl in *.
    split; [done|]. intros Hk. by rewrite Hid.
Qed.

Lemma policy_clear_stats p :
  inv p →
  Policy.stats (exec Policy.clear p) = CacheStats.set_current_size 0 (Policy.stats p).
Proof.
  destruct p as [s|s|s]; intros Hi; simpl in *.
  - pose proof (generic_clear_stats FInv fifo_H_clear s Hi) as Hs.
    unfold exec, Policy.clear, Policy.lift in *.
    by destruct (CachePolicy.clear s) as [r s'].
  - pose proof (generic_clear_stats lru_aux lru_H_clear s Hi) as Hs.
    unfold exec, Policy.clear, Policy.lift in *.
    by destruct (CachePolicy.clear s) as [r s'].
  - pose proof (generic_clear_stats lfu_aux lfu_H_clear s Hi) as Hs.
    unfold exec, Policy.clear, Policy.lift in *.
    by destruct (CachePolicy.clear s) as [r s'].
Qed.

Lemma policy_reset_stats_eq p :
  inv p →
  Policy.stats (exec Policy.reset_stats p) =
    CacheStats.new (Policy.current_size p) (Policy.capacity p).
Proof. by destruct p as [s|s|s]. Qed.

Lemma policy_put_new_stats p k v sz now :
  inv p → Policy._cache p !! k = None →
  CacheStats.evictions (Policy.stats (exec (Policy.put k v sz now) p)) =
    CacheStats.evictions (Policy.stats p) +
    (if bool_decide (Policy.capacity p ≤ Policy.current_size p) then 1 else 0).
Proof.
  destruct p as [s|s|s]; intros Hi Hk; simpl in *.
  - pose proof (generic_put_new_stats FInv FInv (λ _ _ H, H) fifo_H_evict fifo_H_insert
                  s k v sz now Hi Hk) as Hs.
    unfold exec, Policy.put, Policy.lift in *.
    by destruct (CachePolicy.put k v sz now s) as [r s'].
  - pose proof (generic_put_new_stats lru_aux lru_aux (λ _ _ H, H) lru_H_evict lru_H_insert
                  s k v sz now Hi Hk) as Hs.
    unfold exec, Policy.put, Policy.lift in *.
    by destruct (CachePolicy.put k v sz now s) as [r s'].
  - pose proof (generic_put_new_stats lfu_aux lfu_pre (λ _ _ H, proj1 H) lfu_H_evict lfu_H_insert
                  s k v sz now Hi Hk) as Hs.
    unfold exec, Policy.put, Policy.lift in *.
    by destruct (CachePolicy.put k v sz now s) as [r s'].
Qed.

(** Induction over the calls that made a policy instance. *)
Lemma after_snoc ops o p : after (ops ++ [o]) p = exec (call o) (after ops p).
Proof. unfold after. by rewrite foldl_app. Qed.

Lemma reachable_ind (P : Policy.t K V Time → Prop) :
  (∀ cls capacity name p0, Policy.new cls capacity name = Ok p0 → P p0) →
  (∀ p o, reachable p → P p → P (exec (call o) p)) →
  ∀ p, reachable p → P p.
Proof.
  intros Hnew Hstep p (cls & capacity & name & p0 & ops & Hp0 & ->).
  induction ops as [|o ops IH] using rev_ind.
  - by eapply Hnew.
  - rewrite after_snoc. apply Hstep; [|done]. by exists cls, capacity, name, p0, ops.
Qed.

(** The state after each kind of call. *)
Lemma exec_call_get p k now : exec (call (Get k now)) p = exec (Policy.get k now) p.
Proof. unfold exec, call, bind. by destruct (Policy.get k now p) as [[?|?] ?]. Qed.

Lemma exec_call_delete p k : exec (call (Delete k)) p = exec (Policy.delete k) p.
Proof. unfold exec, call, bind. by destruct (Policy.delete k p) as [[?|?] ?]. Qed.

End policy_stats.

(** ** The public methods of the base class *)

Section base_methods.
Context {K V Time : Type} `{Countable K}.
Implicit Types (p : Policy.t K V Time) (key k : K).

Lemma contains_lookup p k : Policy.contains k p = bool_decide (is_Some (Policy._cache p !! k)).
Proof. done. Qed.

(** [delete(key)] returns whether the key was cached.  Afterwards the key
    is not cached and every other key has the entry it had; the size has
    gone down by one if the key was there; [hits], [misses] and
    [evictions] are what they were and the size in the statistics is the
    new size.  A [delete] of a key that is not cached changes nothing at
    all. *)
Theorem delete_removes_the_key p key :
  reachable p →
  ∃ p', Policy.delete key p = (Ok (Policy.contains key p), p') ∧
    Policy._cache p' = delete key (Policy._cache p) ∧
    Policy.contains key p' = false ∧
    Policy.current_size p' =
      Policy.current_size p - (if Policy.contains key p then 1 else 0) ∧
    CacheStats.hits (Policy.stats p') = CacheStats.hits (Policy.stats p) ∧
    CacheStats.misses (Policy.stats p') = CacheStats.misses (Policy.stats p) ∧
    CacheStats.evictions (Policy.stats p') = CacheStats.evictions (Policy.stats p) ∧
    CacheStats.current_size (Policy.stats p') = Policy.current_size p' ∧
    (Policy.contains key p = false → p' = p).
Proof.
  intros Hi%reachable_inv.
  destruct (policy_delete p key Hi) as (p' & Hd & Hi' & _ & _ & Hc).
  destruct (policy_delete_stats p key Hi) as [Hs Hid].
  unfold exec in Hs, Hid. rewrite Hd in Hs, Hid. simpl in Hs, Hid.
  exists p'. split; [done|]. split; [done|].
  rewrite !contains_lookup, Hc, lookup_delete_eq.
  split; [by apply bool_decide_eq_false_2; intros [? ?]|].
  split.
  { unfold Policy.current_size. rewrite Hc.
    destruct (Policy._cache p !! key) as [e|] eqn:Hk.
    - rewrite bool_decide_eq_true_2 by eauto. rewrite map_size_delete_Some by eauto.
      assert (size (Policy._cache p) ≠ 0%nat); [|lia].
      apply map_size_non_empty_iff. intros He. by rewrite He, lookup_empty in Hk.
    - rewrite bool_decide_eq_false_2 by (by intros [? ?]). rewrite delete_id by done. lia. }
  rewrite Hs. simpl. split; [done|]. split; [done|]. split; [done|].
  split; [by unfold Policy.current_size; rewrite Hc|].
  intros Hk%bool_decide_eq_false_1. apply Hid.
  by destruct (Policy._cache p !! key); [destruct Hk; eauto|].
Qed.

(** [clear()] empties the cache and sets the size in the statistics to 0;
    it keeps the capacity and the counters [hits], [misses] and
    [evictions]. *)
Theorem clear_keeps_the_counters p :
  reachable p →
  ∃ p', Policy.clear p = (Ok tt, p') ∧
    Policy._cache p' = ∅ ∧ Policy.current_size p' = 0 ∧
    Policy.capacity p' = Policy.capacity p ∧
    CacheStats.hits (Policy.stats p') = CacheStats.hits (Policy.stats p) ∧
    CacheStats.misses (Policy.stats p') = CacheStats.misses (Policy.stats p) ∧
    CacheStats.evictions (Policy.stats p') = CacheStats.evictions (Policy.stats p) ∧
    CacheStats.current_size (Policy.stats p') = 0 ∧
    CacheStats.max_size (Policy.stats p') = Policy.capacity p.
Proof.
  intros Hi%reachable_inv.
  destruct (policy_clear p Hi) as (p' & Hd & Hi' & _ & Hcap & Hc).
  pose proof (policy_clear_stats p Hi) as Hs.
  unfold exec in Hs. rewrite Hd in Hs. simpl in Hs.
  exists p'. split; [done|]. split; [done|].
  unfold Policy.current_size. rewrite Hc, map_size_empty, Hs. simpl.
  split; [done|]. split; [done|]. split; [done|]. split; [done|]. split; [done|].
  split; [done|]. destruct p; apply Hi.
Qed.

(** A [put] that needs no room evicts nothing.  When the key is cached
    already, also in a full cache, or when the cache is not full, [put]
    leaves the entries of all other keys and [evictions] as they are; the
    size grows by one for a new key and not at all for a cached one; and
    the entry of the key then has the value and the size given. *)
Theorem put_without_eviction p key v sz now :
  reachable p →
  Policy.contains key p = true ∨ Policy.current_size p < Policy.capacity p →
  ∃ p' e', Policy.put key v sz now p = (Ok tt, p') ∧
    (∀ k, k ≠ key → Policy._cache p' !! k = Policy._cache p !! k) ∧
    Policy._cache p' !! key = Some e' ∧
    CacheEntry.value e' = v ∧ CacheEntry.size e' = sz ∧
    Policy.current_size p' =
      Policy.current_size p + (if Policy.contains key p then 0 else 1) ∧
    CacheStats.evictions (Policy.stats p') = CacheStats.evictions (Policy.stats p).
Proof.
  intros Hi%reachable_inv Hroom. rewrite !contains_lookup in *.
  destruct (Policy._cache p !! key) as [e|] eqn:Hk.
  - destruct (policy_put_present p key v sz now e Hi Hk) as (p' & Hp & _ & _ & _ & Hc & Hs).
    exists p', (ptouch p now (overwrite v sz e)). split; [done|].
    rewrite Hc, Hs. split; [intros k Hne; by rewrite lookup_insert_ne|].
    split; [by rewrite lookup_insert_eq|].
    split; [by destruct p|]. split; [by destruct p|].
    rewrite bool_decide_eq_true_2 by eauto. split; [|done].
    unfold Policy.current_size. rewrite Hc. rewrite map_size_insert_Some by eauto. lia.
  - destruct Hroom as [Hf|Hlt].
    { apply bool_decide_eq_true_1 in Hf. by destruct Hf. }
    destruct (policy_put_new p key v sz now Hi Hk) as (p' & c0 & Hp & _ & _ & _ & Hc & Hc0 & _).
    pose proof (policy_put_new_stats p key v sz now Hi Hk) as Hs.
    unfold exec in Hs. rewrite Hp in Hs. simpl in Hs.
    rewrite bool_decide_eq_false_2 in Hc0, Hs by lia. subst c0.
    exists p', (CacheEntry.new key v now sz). split; [done|]. rewrite Hc.
    split; [intros k Hne; by rewrite lookup_insert_ne|].
    split; [by rewrite lookup_insert_eq|]. split; [done|]. split; [done|].
    rewrite bool_decide_eq_false_2 by (by intros [? ?]). split; [|lia].
    unfold Policy.current_size. rewrite Hc. rewrite map_size_insert_None by done. lia.
Qed.

(** The entry a policy holds under a key has that key in its [key] field
    and an access count of at least 1; in a FIFO cache, whose access hook
    does nothing, the access count stays 1. *)
Theorem entries_are_keyed p key e :
  reachable p → Policy._cache p !! key = Some e →
  CacheEntry.key e = key ∧ 1 ≤ CacheEntry.access_count e ∧
  (is_fifo p = true → CacheEntry.access_count e = 1).
Proof.
  intros Hr. revert key e. revert p Hr.
  apply (reachable_ind (λ p, ∀ key e, Policy._cache p !! key = Some e →
           CacheEntry.key e = key ∧ 1 ≤ CacheEntry.access_count e ∧
           (is_fifo p = true → CacheEntry.access_count e = 1)));
    [intros cls capacity name p0 Hnew key e He|intros p o Hr IH key e He].
  - destruct (policy_new _ _ _ _ Hnew) as (_ & _ & _ & Hc & _).
    by rewrite Hc, lookup_empty in He.
  - pose proof (reachable_inv p Hr) as Hi.
    assert (Htouch : ∀ now e0, CacheEntry.key e0 = key ∧ 1 ≤ CacheEntry.access_count e0 ∧
                (is_fifo p = true → CacheEntry.access_count e0 = 1) →
              CacheEntry.key (ptouch p now e0) = key ∧
              1 ≤ CacheEntry.access_count (ptouch p now e0) ∧
              (is_fifo p = true → CacheEntry.access_count (ptouch p now e0) = 1)).
    { intros now e0 (? & ? & ?). destruct p; simpl in *; split_and!; try done; lia. }
    assert (Hfifo : ∀ p', same_class p p' → is_fifo p' = is_fifo p).
    { intros p'. by destruct p, p'. }
    destruct o as [k now|k v sz now|k| |].
    + rewrite exec_call_get in He |- *.
      destruct (policy_get p k now Hi) as (p' & Hg & _ & Hsc & _ & Hc & _).
      unfold exec in *. rewrite Hg in *. simpl in *. rewrite (Hfifo _ Hsc). rewrite Hc in He.
      destruct (Policy._cache p !! k) as [e0|] eqn:Hk; [|by apply IH].
      destruct (decide (k = key)) as [->|Hne].
      * rewrite lookup_insert_eq in He. injection He as <-. apply Htouch. by apply IH.
      * rewrite lookup_insert_ne in He by done. by apply IH.
    + simpl in He |- *. destruct (Policy._cache p !! k) as [e0|] eqn:Hk.
      * destruct (policy_put_present p k v sz now e0 Hi Hk) as (p' & Hp & _ & Hsc & _ & Hc & _).
        unfold exec in *. rewrite Hp in *. simpl in *. rewrite (Hfifo _ Hsc). rewrite Hc in He.
        destruct (decide (k = key)) as [->|Hne].
        -- rewrite lookup_insert_eq in He. injection He as <-. apply Htouch.
           destruct (IH _ _ Hk) as (? & ? & ?). done.
        -- rewrite lookup_insert_ne in He by done. by apply IH.
      * destruct (policy_put_new p k v sz now Hi Hk)
          as (p' & c0 & Hp & _ & Hsc & _ & Hc & Hc0 & _).
        unfold exec in *. rewrite Hp in *. simpl in *. rewrite (Hfifo _ Hsc). rewrite Hc in He.
        destruct (decide (k = key)) as [->|Hne].
        -- rewrite lookup_insert_eq in He. injection He as <-. done.
        -- rewrite lookup_insert_ne in He by done. case_bool_decide.
           ++ destruct Hc0 as (k0 & _ & ->). apply lookup_delete_Some in He as [_ He].
              by apply IH.
           ++ subst c0. by apply IH.
    + rewrite exec_call_delete in He |- *.
      destruct (policy_delete p k Hi) as (p' & Hd & _ & Hsc & _ & Hc).
      unfold exec in *. rewrite Hd in *. simpl in *. rewrite (Hfifo _ Hsc). rewrite Hc in He.
      apply lookup_delete_Some in He as [_ He]. by apply IH.
    + simpl in He |- *. destruct (policy_clear p Hi) as (p' & Hd & _ & Hsc & _ & Hc).
      unfold exec in *. rewrite Hd in *. simpl in *. by rewrite Hc, lookup_empty in He.
    + simpl in He |- *. destruct (policy_reset_stats p Hi) as (p' & Hd & _ & Hsc & _ & Hc).
      unfold exec in *. rewrite Hd in *. simpl in *. rewrite (Hfifo _ Hsc). rewrite Hc in He.
      by apply IH.
Qed.

(** The counters count.  After any calls on a new policy instance,
    [hits + misses] is the number of [get] calls made since the last
    [reset_stats]; no counter is negative; and there are at most as many
    evictions as [put] calls since then. *)
Theorem accesses_are_counted cls capacity name (p0 : Policy.t K V Time) (ops : list op) :
  Policy.new cls capacity name = Ok p0 →
  CacheStats.hits (Policy.stats (after ops p0)) +
    CacheStats.misses (Policy.stats (after ops p0)) = gets_since_reset ops ∧
  0 ≤ CacheStats.hits (Policy.stats (after ops p0)) ∧
  0 ≤ CacheStats.misses (Policy.stats (after ops p0)) ∧
  0 ≤ CacheStats.evictions (Policy.stats (after ops p0)) ≤ puts_since_reset ops.
Proof.
  intros Hnew. destruct (policy_new _ _ _ _ Hnew) as (Hi0 & _ & _ & _ & Hst0).
  induction ops as [|o ops IH] using rev_ind.
  - simpl. rewrite Hst0. simpl. unfold gets_since_reset, puts_since_reset. simpl. lia.
  - rewrite after_snoc. unfold gets_since_reset, puts_since_reset in *.
    rewrite !foldl_app. simpl.
    destruct (after_inv ops p0 Hi0) as (Hi & _ & _). set (p := after ops p0) in *.
    destruct o as [k now|k v sz now|k| |].
    + rewrite exec_call_get. destruct (policy_get p k now Hi) as (p' & Hg & _ & _ & _ & _ & Hs).
      unfold exec. rewrite Hg. simpl. rewrite Hs.
      destruct (Policy._cache p !! k); simpl; lia.
    + simpl. destruct (Policy._cache p !! k) as [e0|] eqn:Hk.
      * destruct (policy_put_present p k v sz now e0 Hi Hk) as (p' & Hp & _ & _ & _ & _ & Hs).
        unfold exec. rewrite Hp. simpl. rewrite Hs. lia.
      * pose proof (policy_put_new_stats p k v sz now Hi Hk) as He.
        destruct (policy_put_new p k v sz now Hi Hk)
          as (p' & c0 & Hp & _ & _ & _ & _ & _ & Hh & Hm).
        unfold exec in *. rewrite Hp in *. simpl in *. rewrite Hh, Hm, He.
        case_bool_decide; lia.
    + rewrite exec_call_delete. destruct (policy_delete_stats p k Hi) as [Hs _].
      rewrite Hs. simpl. lia.
    + simpl. rewrite (policy_clear_stats p Hi). simpl. lia.
    + simpl. rewrite (policy_reset_stats_eq p Hi). simpl. lia.
Qed.

(** Insert, then delete.  A [put] of a key that is not cached into a cache
    that is not full, followed by [delete] of that key, leaves the entries
    as they were before the two calls; and a [get] of a key just deleted
    returns [None] and counts a miss. *)
Theorem put_then_delete_round_trips p key v sz now now' :
  reachable p →
  Policy.contains key p = false → Policy.current_size p < Policy.capacity p →
  ∃ p1 p2 p3, Policy.put key v sz now p = (Ok tt, p1) ∧
    Policy.delete key p1 = (Ok true, p2) ∧
    Policy._cache p2 = Policy._cache p ∧
    Policy.get key now' p2 = (Ok None, p3) ∧
    CacheStats.misses (Policy.stats p3) = CacheStats.misses (Policy.stats p) + 1 ∧
    CacheStats.hits (Policy.stats p3) = CacheStats.hits (Policy.stats p) ∧
    CacheStats.evictions (Policy.stats p3) = CacheStats.evictions (Policy.stats p).
Proof.
  intros Hi%reachable_inv Hk%bool_decide_eq_false_1 Hlt.
  assert (Hk' : Policy._cache p !! key = None).
  { destruct (Policy._cache p !! key); [destruct Hk; eauto|done]. }
  destruct (policy_put_new p key v sz now Hi Hk')
    as (p1 & c0 & Hp & Hi1 & _ & _ & Hc1 & Hc0 & Hh1 & Hm1).
  pose proof (policy_put_new_stats p key v sz now Hi Hk') as He1.
  unfold exec in He1. rewrite Hp in He1. simpl in He1.
  rewrite bool_decide_eq_false_2 in Hc0, He1 by lia. subst c0.
  destruct (policy_delete p1 key Hi1) as (p2 & Hd & Hi2 & _ & _ & Hc2).
  destruct (policy_delete_stats p1 key Hi1) as [Hs2 _].
  unfold exec in Hs2. rewrite Hd in Hs2. simpl in Hs2.
  destruct (policy_get p2 key now' Hi2) as (p3 & Hg & _ & _ & _ & _ & Hs3).
  assert (Hc2' : Policy._cache p2 = Policy._cache p).
  { rewrite Hc2, Hc1. by apply delete_insert_id. }
  rewrite Hc2', Hk' in Hg, Hs3. simpl in Hg.
  exists p1, p2, p3. split; [done|]. split.
  { rewrite Hd. by rewrite Hc1, lookup_insert_eq, bool_decide_eq_true_2 by eauto. }
  split; [done|]. split; [done|]. rewrite Hs3, Hs2. simpl. split; [lia|]. split; lia.
Qed.

End base_methods.

(** ** The insertion order of the FIFO cache *)

Section fifo_order.
Context {K V Time : Type} `{Countable K}.
Implicit Types (s : CachePolicy.t K V Time (FIFOCache.ext_t K)) (key k : K).

Lemma fifo_reachable_inv s : reachable (Policy.FIFO s) → fifo_inv s.
Proof. intros Hr. exact (reachable_inv _ Hr). Qed.

(** [get_insertion_order()] lists each cached key once and nothing else,
    so it is as long as the cache is big; [peek_next_eviction()] is its
    first key, and [None] when the cache is empty.  (The result [None]
    alone does not say that the cache is empty: the code returns the
    first key as it is, and [None] may be a key.) *)
Theorem fifo_insertion_order s :
  reachable (Policy.FIFO s) →
  NoDup (FIFOCache.get_insertion_order s) ∧
  (∀ key, key ∈ FIFOCache.get_insertion_order s ↔ CachePolicy.contains key s = true) ∧
  Z.of_nat (length (FIFOCache.get_insertion_order s)) = CachePolicy.current_size s ∧
  FIFOCache.peek_next_eviction s = head (FIFOCache.get_insertion_order s) ∧
  (CachePolicy.is_empty s = true → FIFOCache.peek_next_eviction s = None).
Proof.
  intros [Hb [Hnd Hq]]%fifo_reachable_inv.
  unfold FIFOCache.get_insertion_order, FIFOCache.peek_next_eviction.
  pose proof (keys_length _ _ Hnd Hq) as Hlen.
  split; [done|]. split.
  { intros key. rewrite Hq. unfold CachePolicy.contains. by rewrite bool_decide_eq_true. }
  split; [unfold CachePolicy.current_size; lia|]. split; [done|].
  unfold CachePolicy.is_empty, CachePolicy.current_size. rewrite bool_decide_eq_true.
  rewrite <-Hlen. destruct (FIFOCache.queue s); simpl; [done|lia].
Qed.

(** A [get] on a FIFO cache, in whatever state, changes a counter and
    nothing else: the entries, with their timestamps and access counts,
    and the insertion order are what they were. *)
Theorem fifo_get_changes_counters_only s key now :
  CachePolicy.get key now s =
    (Ok (CachePolicy._cache s !! key ≫= CacheEntry.value),
     CachePolicy.set_stats
       (if CachePolicy.contains key s then hit_stats (CachePolicy._stats s)
        else miss_stats (CachePolicy._stats s)) s).
Proof.
  unfold CachePolicy.contains.
  destruct (CachePolicy._cache s !! key) as [e|] eqn:Hk.
  - rewrite bool_decide_eq_true_2 by eauto. rewrite (get_hit _ _ _ _ Hk).
    rewrite (fifo_on_access _ _ _ e) by done. simpl. f_equal.
    by rewrite (set_same (CachePolicy.set_stats _ s) e key).
  - rewrite bool_decide_eq_false_2 by (by intros [? ?]). by rewrite (get_miss _ _ _ Hk).
Qed.

(** How [put] and [delete] change the insertion order.  An update leaves
    it as it is.  A new key goes to the back, after the key at the front
    has been evicted if the cache was full.  [delete] takes the key out
    and leaves the other keys in their order. *)
Theorem fifo_order_after_put_and_delete s key :
  reachable (Policy.FIFO s) →
  (∀ v sz now, CachePolicy.contains key s = true →
     FIFOCache.get_insertion_order (exec (CachePolicy.put key v sz now) s) =
       FIFOCache.get_insertion_order s) ∧
  (∀ v sz now, CachePolicy.contains key s = false →
     FIFOCache.get_insertion_order (exec (CachePolicy.put key v sz now) s) =
       (if CachePolicy.is_full s then tail (FIFOCache.get_insertion_order s)
        else FIFOCache.get_insertion_order s) ++ [key] ∧
     (CachePolicy.is_full s = true →
      ∃ k0, FIFOCache.peek_next_eviction s = Some k0 ∧
            CachePolicy.contains k0 s = true ∧
            CachePolicy.contains k0 (exec (CachePolicy.put key v sz now) s) = false)) ∧
  FIFOCache.get_insertion_order (exec (CachePolicy.delete key) s) =
    filter (λ k, k ≠ key) (FIFOCache.get_insertion_order s).
Proof.
  intros [Hb [Hnd Hq]]%fifo_reachable_inv.
  unfold FIFOCache.get_insertion_order, FIFOCache.peek_next_eviction, exec.
  split; [|split].
  - intros v sz now [e Hk]%bool_decide_eq_true_1.
    rewrite (put_present _ _ _ _ _ _ Hk). simpl. done.
  - intros v sz now Hk%bool_decide_eq_false_1.
    assert (Hk' : CachePolicy._cache s !! key = None).
    { destruct (CachePolicy._cache s !! key); [destruct Hk; eauto|done]. }
    rewrite (put_new _ _ _ _ _ Hk'). destruct (CachePolicy.is_full s) eqn:Hf.
    + destruct (fifo_evict s) as (k0 & q' & Hq0 & Hk0 & Hev & Haux');
        [done|by apply full_nonempty|].
      unfold bind. rewrite Hev. rewrite insert_entry_eq.
      assert (Hne : k0 ≠ key) by (intros ->; destruct Hk0 as [? ?]; congruence).
      destruct (fifo_on_insert (inserted (evicted s k0 (FIFOCache.mk_ext q')) key v sz now) key)
        as [Hins _].
      { simpl. rewrite lookup_insert_eq. eauto. }
      { simpl. rewrite delete_insert_id; [done|]. rewrite lookup_delete_None. by right. }
      rewrite Hins. simpl. rewrite Hq0. simpl. split; [done|]. intros _.
      exists k0. split; [done|]. unfold CachePolicy.contains. simpl.
      split; [by apply bool_decide_eq_true_2|].
      apply bool_decide_eq_false_2. rewrite lookup_insert_ne by done.
      rewrite lookup_delete_eq. by intros [? ?].
    + rewrite insert_entry_eq.
      destruct (fifo_on_insert (inserted s key v sz now) key) as [Hins _].
      { simpl. rewrite lookup_insert_eq. eauto. }
      { simpl. rewrite delete_insert_id; [done|]. done. }
      rewrite Hins. simpl. split; [done|]. done.
  - destruct (CachePolicy._cache s !! key) as [e|] eqn:Hk.
    + destruct (fifo_on_delete s key) as (q' & Hd & Hrm & _); [eauto|done|].
      rewrite (delete_present_eq s key e _ Hk Hd). simpl.
      by apply remove_first_filter.
    + rewrite (delete_absent _ _ Hk). simpl. symmetry. apply filter_absent.
      rewrite Hq, Hk. by intros [? ?].
Qed.

End fifo_order.

(** ** The access order of the LRU cache *)

Section lru_order_facts.
Context {K V Time : Type} `{Countable K}.
Implicit Types (s : CachePolicy.t K V Time (LRUCache.ext_t K)) (key k : K).

Lemma access_order_loop_spec s : ∀ ids ks fuel p acc,
  dseg (LRUCache.heap s) p ids (LRUCache.tail s) →
  LRUCache.tail s ∉ ids →
  (λ n, DLinkedNode.key (LRUCache.heap s n)) <$> ids = Some <$> ks →
  (length ids ≤ fuel)%nat →
  LRUCache.access_order_loop fuel (DLinkedNode.next (LRUCache.heap s p)) acc s =
    (Ok (Some (acc ++ (Some <$> ks))), s).
Proof.
  induction ids as [|n ids IH]; intros ks fuel p acc Hd Ht Hk Hf.
  - destruct ks; [|done]. simpl in Hd. destruct Hd as [Hn _]. rewrite Hn.
    destruct fuel; simpl; munfold; rewrite decide_True by done; by rewrite app_nil_r.
  - destruct ks as [|k ks]; [done|]. simpl in Hk. injection Hk as Hkey Hk.
    simpl in Hd. destruct Hd as (Hn & _ & Hd). rewrite Hn.
    apply not_elem_of_cons in Ht as [Htn Ht].
    destruct fuel as [|fuel]; [simpl in Hf; lia|].
    simpl. munfold. rewrite decide_False by (by intros [= ->]).
    unfold LRUCache.attr. munfold. rewrite Hkey.
    rewrite (IH ks fuel n (acc ++ [Some k])); [|done|done|done|simpl in Hf; lia].
    by rewrite <-app_assoc.
Qed.

Lemma lru_list_length (a : LRUCache.ext_t K) ids ks : lru_list a ids ks → length ids = length ks.
Proof.
  intros [_ (Hk & _)]. apply (f_equal length) in Hk. by rewrite !length_fmap in Hk.
Qed.

Lemma lru_list_tail (a : LRUCache.ext_t K) ids ks : lru_list a ids ks → LRUCache._tail a ∉ ids.
Proof.
  intros [(Hnd & _) _] Hin. apply NoDup_cons in Hnd as [_ Hnd].
  apply NoDup_app in Hnd as (_ & Hdis & _). apply (Hdis _ Hin). by left.
Qed.

(** [get_access_order()] returns the keys of the list, and leaves the
    object as it is, when the loop may run once for each key. *)
Lemma lru_order_access s ks fuel :
  lru_order s ks → (length ks ≤ fuel)%nat →
  LRUCache.get_access_order fuel s = (Ok (Some (Some <$> ks)), s).
Proof.
  intros [ids Hl] Hf. pose proof (lru_list_length _ _ _ Hl) as Hlen.
  pose proof (lru_list_tail _ _ _ Hl) as Ht. destruct Hl as [(_ & Hd & _) (Hk & _)].
  unfold LRUCache.get_access_order, LRUCache.attr. munfold.
  rewrite (access_order_loop_spec s ids ks fuel (LRUCache.head s) []); [done|done|done|done|lia].
Qed.

Lemma lru_order_unique s ks ks' : lru_order s ks → lru_order s ks' → ks = ks'.
Proof.
  intros H1 H2.
  pose proof (lru_order_access s ks (length ks + length ks') H1 ltac:(lia)) as E1.
  pose proof (lru_order_access s ks' (length ks + length ks') H2 ltac:(lia)) as E2.
  rewrite E1 in E2. injection E2 as E2.
  by apply (inj (fmap Some)) in E2.
Qed.

Lemma lru_peek_empty s ids :
  lru_list (CachePolicy.ext s) ids [] →
  LRUCache.peek_mru s = (Ok None, s) ∧ LRUCache.peek_lru s = (Ok None, s).
Proof.
  intros Hl. pose proof (lru_list_length _ _ _ Hl) as Hlen.
  destruct ids; [|done]. destruct Hl as [(_ & [Hn Hp] & _) _].
  unfold LRUCache.peek_mru, LRUCache.peek_lru, LRUCache.attr. munfold.
  unfold LRUCache.heap, LRUCache.head, LRUCache.tail. rewrite Hn, Hp.
  by rewrite !decide_True by done.
Qed.

Lemma lru_reachable_inv s : reachable (Policy.LRU s) → lru_inv s.
Proof. intros Hr. exact (reachable_inv _ Hr). Qed.

(** [get_access_order()] returns: when its loop may run [fuel] times and
    the cache holds at most [fuel] keys, it yields a list and leaves the
    cache as it is.  The list has each cached key once and nothing else;
    [peek_mru()] is its first key and [peek_lru()] its last, both [None]
    for the empty cache. *)
Theorem lru_access_order s fuel :
  reachable (Policy.LRU s) → CachePolicy.current_size s ≤ Z.of_nat fuel →
  ∃ ks, LRUCache.get_access_order fuel s = (Ok (Some (Some <$> ks)), s) ∧
    NoDup ks ∧
    (∀ key, key ∈ ks ↔ CachePolicy.contains key s = true) ∧
    Z.of_nat (length ks) = CachePolicy.current_size s ∧
    LRUCache.peek_mru s = (Ok (head ks), s) ∧
    LRUCache.peek_lru s = (Ok (last ks), s).
Proof.
  intros [Hb (ids & ks & Hl & Hc)]%lru_reachable_inv Hf.
  assert (Hnd : NoDup ks) by apply Hl.
  pose proof (keys_length _ _ Hnd Hc) as Hlen.
  exists ks. split.
  { apply lru_order_access; [by exists ids|]. unfold CachePolicy.current_size in Hf. lia. }
  split; [done|]. split.
  { intros key. rewrite Hc. unfold CachePolicy.contains. by rewrite bool_decide_eq_true. }
  split; [unfold CachePolicy.current_size; lia|].
  destruct ks as [|k0 ks0].
  { simpl. by apply (lru_peek_empty s ids). }
  split; [by apply (lru_peek_mru s ids k0 ks0)|].
  destruct (k0 :: ks0) as [|k1 ks1 _] eqn:E using rev_ind; [done|].
  rewrite last_snoc. by apply (lru_peek_lru s ids ks1 k1).
Qed.

Lemma filter_mid (ks1 : list K) k ks2 :
  NoDup (ks1 ++ k :: ks2) → filter (λ y, y ≠ k) (ks1 ++ k :: ks2) = ks1 ++ ks2.
Proof.
  intros (_ & _ & H1 & H2 & _)%NoDup_mid.
  rewrite filter_app, filter_cons_False by (by intros ?).
  by rewrite !filter_absent.
Qed.

Lemma lru_get_order s k now :
  lru_inv s →
  ∃ ks, lru_order s ks ∧
    lru_order (exec (CachePolicy.get k now) s)
      (if CachePolicy.contains k s then k :: filter (λ y, y ≠ k) ks else ks).
Proof.
  intros Hi. unfold CachePolicy.contains, exec.
  destruct (CachePolicy._cache s !! k) as [e|] eqn:Hk.
  - rewrite bool_decide_eq_true_2 by eauto.
    destruct (lru_get_hit_order s k now e Hi Hk) as (s' & ks1 & ks2 & Ho & -> & Ho').
    exists (ks1 ++ k :: ks2). split; [done|]. simpl. rewrite filter_mid; [done|].
    destruct Ho as [ids Hl]. apply Hl.
  - rewrite bool_decide_eq_false_2 by (by intros [? ?]). rewrite (get_miss _ _ _ Hk).
    destruct Hi as [_ (ids & ks & Hl & _)]. exists ks. split; by exists ids.
Qed.

Lemma lru_put_order s k v sz now :
  lru_inv s →
  ∃ ks, lru_order s ks ∧
    lru_order (exec (CachePolicy.put k v sz now) s)
      (k :: (if CachePolicy.contains k s then filter (λ y, y ≠ k) ks
             else if CachePolicy.is_full s then removelast ks else ks)).
Proof.
  intros Hi. unfold CachePolicy.contains, exec.
  destruct (CachePolicy._cache s !! k) as [e|] eqn:Hk.
  - rewrite bool_decide_eq_true_2 by eauto.
    destruct (lru_put_present_order s k v sz now e Hi Hk) as (s' & ks1 & ks2 & Ho & -> & Ho').
    exists (ks1 ++ k :: ks2). split; [done|]. simpl. rewrite filter_mid; [done|].
    destruct Ho as [ids Hl]. apply Hl.
  - rewrite bool_decide_eq_false_2 by (by intros [? ?]).
    destruct (CachePolicy.is_full s) eqn:Hf.
    + destruct (lru_put_new_full s k v sz now Hi Hk Hf) as (s' & ks1 & k0 & Ho & _ & -> & _ & Ho').
      exists (ks1 ++ [k0]). split; [done|]. simpl. by rewrite removelast_last.
    + destruct Hi as [_ (ids & ks & Hl & Hc)]. exists ks. split; [by exists ids|].
      rewrite (put_new _ _ _ _ _ Hk), Hf. rewrite insert_entry_eq.
      destruct (lru_insert_spec (inserted s k v sz now) ids ks k Hl)
        as (a' & ids' & -> & Hl').
      { rewrite Hc, Hk. by intros [? ?]. }
      simpl. by exists ids'.
Qed.

Lemma lru_delete_order s k :
  lru_inv s →
  ∃ ks, lru_order s ks ∧
    lru_order (exec (CachePolicy.delete k) s) (filter (λ y, y ≠ k) ks).
Proof.
  intros [_ (ids & ks & Hl & Hc)]. exists ks. split; [by exists ids|]. unfold exec.
  destruct (CachePolicy._cache s !! k) as [e|] eqn:Hk.
  - assert (Hin : k ∈ ks) by (apply Hc; eauto).
    apply list_elem_of_split in Hin as (ks1 & ks2 & ->).
    destruct (lru_delete_spec s ids ks1 k ks2 Hl) as (a' & ids' & Hd & Hl').
    rewrite (delete_present_eq s k e a' Hk Hd). simpl.
    rewrite filter_mid by apply Hl. by exists ids'.
  - rewrite (delete_absent _ _ Hk). simpl. rewrite filter_absent; [by exists ids|].
    rewrite Hc, Hk. by intros [? ?].
Qed.

Lemma lru_clear_order s : lru_inv s → lru_order (exec CachePolicy.clear s) [].
Proof.
  intros [_ (ids & ks & Hl & Hc)]. unfold exec.
  destruct (lru_clear_spec (CachePolicy.set_cache ∅ s) ids ks Hl) as (a' & Hcl & Hl').
  rewrite (clear_eq s a' Hcl). simpl. by exists [].
Qed.

Lemma reachable_call_capacity (p : Policy.t K V Time) o :
  reachable p →
  reachable (exec (call o) p) ∧ Policy.capacity (exec (call o) p) = Policy.capacity p.
Proof.
  intros Hr. split; [by apply reachable_step|].
  destruct (policy_call p o (reachable_inv p Hr)) as (p' & Hc & _ & _ & Hcap).
  unfold exec. by rewrite Hc.
Qed.

Lemma lru_exec_call s o :
  (∀ k now, o = Get k now →
     exec (call o) (Policy.LRU s) = Policy.LRU (exec (CachePolicy.get k now) s)) ∧
  (∀ k v sz now, o = Put k v sz now →
     exec (call o) (Policy.LRU s) = Policy.LRU (exec (CachePolicy.put k v sz now) s)) ∧
  (∀ k, o = Delete k →
     exec (call o) (Policy.LRU s) = Policy.LRU (exec (CachePolicy.delete k) s)) ∧
  (o = Clear → exec (call o) (Policy.LRU s) = Policy.LRU (exec CachePolicy.clear s)).
Proof.
  split_and!; intros; subst o; unfold exec, call, bind; simpl; unfold Policy.lift.
  - by destruct (CachePolicy.get k now s) as [[?|?] ?].
  - by destruct (CachePolicy.put k v sz now s) as [[?|?] ?].
  - by destruct (CachePolicy.delete k s) as [[?|?] ?].
  - by destruct (CachePolicy.clear s) as [[?|?] ?].
Qed.

Lemma lru_order_run s ks fuel :
  reachable (Policy.LRU s) → lru_order s ks → CachePolicy._capacity s ≤ Z.of_nat fuel →
  LRUCache.get_access_order fuel s = (Ok (Some (Some <$> ks)), s).
Proof.
  intros [Hb (ids & ks0 & Hl & Hc)]%lru_reachable_inv Ho Hf.
  assert (ks = ks0) as -> by (eapply lru_order_unique; [done|by exists ids]).
  apply lru_order_access; [done|].
  rewrite (keys_length _ _ (proj1 (proj2 (proj2 Hl))) Hc).
  destruct Hb as (_ & Hsz & _). unfold CachePolicy.current_size in Hsz. lia.
Qed.

(** How the calls change the access order, read with a loop that may run
    once for each place of the cache.  A [get] of a cached key or an
    update moves the key to the front; a [get] of a key that is not cached
    changes nothing; a new key goes to the front, after the last key has
    been evicted if the cache was full; [delete] takes the key out;
    [clear] leaves no key.  The keys not named keep their order. *)
Theorem lru_order_after_calls s key fuel :
  reachable (Policy.LRU s) → CachePolicy._capacity s ≤ Z.of_nat fuel →
  ∃ ks, LRUCache.get_access_order fuel s = (Ok (Some (Some <$> ks)), s) ∧
    (∀ now,
       fst (LRUCache.get_access_order fuel (exec (CachePolicy.get key now) s)) =
         Ok (Some (Some <$> (if CachePolicy.contains key s
                             then key :: filter (λ k, k ≠ key) ks else ks)))) ∧
    (∀ v sz now,
       fst (LRUCache.get_access_order fuel (exec (CachePolicy.put key v sz now) s)) =
         Ok (Some (Some <$> (key :: (if CachePolicy.contains key s
                                     then filter (λ k, k ≠ key) ks
                                     else if CachePolicy.is_full s then removelast ks
                                     else ks))))) ∧
    fst (LRUCache.get_access_order fuel (exec (CachePolicy.delete key) s)) =
      Ok (Some (Some <$> filter (λ k, k ≠ key) ks)) ∧
    fst (LRUCache.get_access_order fuel (exec CachePolicy.clear s)) = Ok (Some []).
Proof.
  intros Hr Hf. pose proof (lru_reachable_inv s Hr) as Hi.
  destruct Hi as [Hb (ids & ks & Hl & Hc)].
  assert (Hi : lru_inv s) by (split; [done|]; by exists ids, ks).
  assert (Ho : lru_order s ks) by (by exists ids).
  assert (Hrun : ∀ o s' ks', exec (call o) (Policy.LRU s) = Policy.LRU s' →
            lru_order s' ks' →
            fst (LRUCache.get_access_order fuel s') = Ok (Some (Some <$> ks'))).
  { intros o s' ks' He Ho'. destruct (reachable_call_capacity _ o Hr) as [Hr' Hcap].
    rewrite He in Hr', Hcap. simpl in Hcap.
    rewrite (lru_order_run s' ks' fuel); [done|done|done|lia]. }
  exists ks. split; [by apply lru_order_run|]. split_and!.
  - intros now. destruct (lru_get_order s key now Hi) as (ks0 & Ho0 & Ho').
    rewrite (lru_order_unique _ _ _ Ho0 Ho) in Ho'.
    apply (Hrun (Get key now)); [|done]. by apply (lru_exec_call s (Get key now)).
  - intros v sz now. destruct (lru_put_order s key v sz now Hi) as (ks0 & Ho0 & Ho').
    rewrite (lru_order_unique _ _ _ Ho0 Ho) in Ho'.
    apply (Hrun (Put key v sz now)); [|done]. by apply (lru_exec_call s (Put key v sz now)).
  - destruct (lru_delete_order s key Hi) as (ks0 & Ho0 & Ho').
    rewrite (lru_order_unique _ _ _ Ho0 Ho) in Ho'.
    apply (Hrun (Delete key)); [|done]. by apply (lru_exec_call s (Delete key)).
  - apply (Hrun Clear _ []); [by apply (lru_exec_call s Clear)|by apply lru_clear_order].
Qed.

End lru_order_facts.

(** ** The frequencies of the LFU cache *)

Section lfu_frequency.
Context {K V Time : Type} `{Countable K}.
Implicit Types (s : CachePolicy.t K V Time (LFUCache.ext_t K)) (key k : K).

Lemma lfu_reachable_inv s : reachable (Policy.LFU s) → lfu_inv s.
Proof. intros Hr. exact (reachable_inv _ Hr). Qed.

Lemma lfu_exec_call s o :
  (∀ k now, o = Get k now →
     exec (call o) (Policy.LFU s) = Policy.LFU (exec (CachePolicy.get k now) s)) ∧
  (∀ k v sz now, o = Put k v sz now →
     exec (call o) (Policy.LFU s) = Policy.LFU (exec (CachePolicy.put k v sz now) s)) ∧
  (∀ k, o = Delete k →
     exec (call o) (Policy.LFU s) = Policy.LFU (exec (CachePolicy.delete k) s)) ∧
  (o = Clear → exec (call o) (Policy.LFU s) = Policy.LFU (exec CachePolicy.clear s)) ∧
  (o = ResetStats →
     exec (call o) (Policy.LFU s) = Policy.LFU (exec CachePolicy.reset_stats s)).
Proof.
  split_and!; intros; subst o; unfold exec, call, bind; simpl; unfold Policy.lift.
  - by destruct (CachePolicy.get k now s) as [[?|?] ?].
  - by destruct (CachePolicy.put k v sz now s) as [[?|?] ?].
  - by destruct (CachePolicy.delete k s) as [[?|?] ?].
  - by destruct (CachePolicy.clear s) as [[?|?] ?].
  - done.
Qed.

Lemma freq_counts_get s k now : lfu_inv s → freq_counts s → freq_counts (exec (CachePolicy.get k now) s).
Proof.
  intros Hi Hq. unfold exec. destruct (CachePolicy._cache s !! k) as [e|] eqn:Hk.
  - destruct (lfu_get_hit_eq s k now e Hi Hk) as (f & b & b' & Hf & _ & _ & ->).
    intros k'. unfold LFUCache.freq_key. simpl. specialize (Hq k').
    destruct (decide (k = k')) as [<-|Hne].
    + rewrite !lookup_insert_eq. simpl. rewrite Hk, Hf in Hq. simpl in Hq. congruence.
    + by rewrite !lookup_insert_ne by done.
  - by rewrite (get_miss _ _ _ Hk).
Qed.

Lemma freq_counts_put s k v sz now :
  lfu_inv s → freq_counts s → freq_counts (exec (CachePolicy.put k v sz now) s).
Proof.
  intros Hi Hq. unfold exec. destruct (CachePolicy._cache s !! k) as [e|] eqn:Hk.
  - destruct (lfu_put_present_eq s k v sz now e Hi Hk) as (f & b & b' & Hf & _ & _ & ->).
    intros k'. unfold LFUCache.freq_key. simpl. specialize (Hq k').
    destruct (decide (k = k')) as [<-|Hne].
    + rewrite !lookup_insert_eq. simpl. rewrite Hk, Hf in Hq. simpl in Hq. congruence.
    + by rewrite !lookup_insert_ne by done.
  - destruct (lfu_put_new_eq s k v sz now Hi Hk) as (s1 & Hs1 & _ & _ & ->).
    assert (Hq1 : freq_counts s1).
    { destruct (CachePolicy.is_full s) eqn:Hf; [|by subst s1].
      destruct (lfu_evict_full s Hi (full_nonempty _ (proj1 Hi) Hf))
        as (k0 & b' & _ & _ & _ & _ & _ & Hev & _).
      rewrite Hev in Hs1. injection Hs1 as <-.
      intros k'. unfold LFUCache.freq_key. simpl. specialize (Hq k').
      destruct (decide (k0 = k')) as [<-|Hne].
      - by rewrite !lookup_delete_eq.
      - by rewrite !lookup_delete_ne by done. }
    intros k'. unfold LFUCache.freq_key. simpl. specialize (Hq1 k').
    destruct (decide (k = k')) as [<-|Hne].
    + by rewrite !lookup_insert_eq.
    + by rewrite !lookup_insert_ne by done.
Qed.

Lemma freq_counts_delete s k : lfu_inv s → freq_counts s → freq_counts (exec (CachePolicy.delete k) s).
Proof.
  intros Hi Hq. unfold exec. destruct (CachePolicy._cache s !! k) as [e|] eqn:Hk.
  - assert (Hf : LFUCache.freq_key s !! k = Some (CacheEntry.access_count e)).
    { by rewrite Hq, Hk. }
    destruct Hi as [_ [Hbk _]].
    destruct (lfu_buckets_find _ _ _ _ _ Hbk Hf) as (b & b' & Hb & _ & Hrm & _).
    rewrite (delete_present_eq s k e _ Hk (lfu_on_delete_eq s k _ b b' Hf Hb Hrm)).
    intros k'. unfold LFUCache.freq_key. simpl. specialize (Hq k').
    destruct (decide (k = k')) as [<-|Hne].
    + by rewrite !lookup_delete_eq.
    + by rewrite !lookup_delete_ne by done.
  - by rewrite (delete_absent _ _ Hk).
Qed.

Lemma freq_counts_clear s : freq_counts (exec CachePolicy.clear s).
Proof.
  unfold exec. rewrite (clear_eq s _ (lfu_on_clear_eq _)). intros k'.
  unfold LFUCache.freq_key. simpl. by rewrite !lookup_empty.
Qed.

(** [get_key_frequency(key)] is the access count of the entry of a cached
    key, which is at least 1, and [None] for a key that is not cached. *)
Theorem lfu_frequency_is_access_count s key :
  reachable (Policy.LFU s) →
  LFUCache.get_key_frequency key s =
    CacheEntry.access_count <$> CachePolicy._cache s !! key ∧
  (∀ f, LFUCache.get_key_frequency key s = Some f → 1 ≤ f) ∧
  (LFUCache.get_key_frequency key s = None ↔ CachePolicy.contains key s = false).
Proof.
  intros Hr.
  assert (Hq : freq_counts s).
  { revert s Hr.
    cut (∀ p : Policy.t K V Time, reachable p →
           match p with Policy.LFU s => freq_counts s | _ => True end).
    { intros Hp s Hr. exact (Hp _ Hr). }
    apply reachable_ind.
    - intros cls capacity name p0. unfold Policy.new, FIFOCache.__init__, LRUCache.__init__,
        LFUCache.__init__, CachePolicy.__init__.
      destruct cls; case_decide; try done; intros [= <-]; done.
    - intros p o Hr IH. pose proof (reachable_inv p Hr) as Hi.
      destruct (policy_call p o Hi) as (p' & Hc & _ & Hsc & _).
      destruct p as [s|s|s].
      + unfold exec. rewrite Hc. simpl. by destruct p'.
      + unfold exec. rewrite Hc. simpl. by destruct p'.
      + clear Hc Hsc p'. destruct (lfu_exec_call s o) as (Hg & Hp & Hd & Hcl & Hrs).
        destruct o as [k now|k v sz now|k| |].
        * rewrite (Hg _ _ eq_refl). by apply freq_counts_get.
        * rewrite (Hp _ _ _ _ eq_refl). by apply freq_counts_put.
        * rewrite (Hd _ eq_refl). by apply freq_counts_delete.
        * rewrite (Hcl eq_refl). by apply freq_counts_clear.
        * rewrite (Hrs eq_refl). done. }
  pose proof (lfu_reachable_inv s Hr) as [_ [Hbk _]].
  unfold LFUCache.get_key_frequency. split; [apply Hq|]. split.
  - intros f Hf. by destruct (proj1 (proj2 Hbk) _ _ Hf).
  - rewrite Hq. unfold CachePolicy.contains. rewrite bool_decide_eq_false.
    destruct (CachePolicy._cache s !! key) as [e|]; simpl.
    + split; [done|]. intros Hn. destruct Hn. eauto.
    + split; [|done]. by intros _ [? ?].
Qed.

Lemma lfu_empty_min s : lfu_inv s → CachePolicy._cache s = ∅ → LFUCache.min_freq s = 0.
Proof.
  intros [_ [(Hb1 & _ & Hb3) Hmin]] Hc. destruct Hmin as [[_ ?]|[[b Hb] _]]; [done|].
  destruct (Hb1 _ _ Hb) as (Hne & _ & Hk). destruct b as [|k b]; [done|].
  assert (is_Some (CachePolicy._cache s !! k)) as [e He].
  { apply Hb3. rewrite (Hk k); [eauto|by left]. }
  by rewrite Hc, lookup_empty in He.
Qed.



Lemma zsum_permutation (l l' : list Z) :
  l ≡ₚ l' → foldr Z.add 0 l = foldr Z.add 0 l'.
Proof.
  induction 1 as [|x l l' _ IH|x y l|l l' l'' _ IH1 _ IH2]; simpl.
  - done.
  - lia.
  - lia.
  - congruence.
Qed.

Lemma zsum_lengths (bs : list (list K)) :
  foldr Z.add 0 ((λ b, Z.of_nat (length b)) <$> bs) = Z.of_nat (length (concat bs)).
Proof.
  induction bs as [|b bs IH]; [done|].
  rewrite fmap_cons. cbn [foldr concat]. rewrite IH, length_app. lia.
Qed.

Lemma elem_of_concat (x : K) (ls : list (list K)) : x ∈ concat ls ↔ ∃ l, x ∈ l ∧ l ∈ ls.
Proof.
  induction ls as [|a ls IH]; simpl.
  - split; [by intros ?%elem_of_nil|by intros (? & ? & ?%elem_of_nil)].
  - rewrite elem_of_app, IH. split.
    + intros [?|(l & ? & ?)]; [exists a; split; [done|by left]|exists l; split; [done|by right]].
    + intros (l & Hx & [->|?]%elem_of_cons); [by left|right; eauto].
Qed.

Lemma buckets_concat_NoDup (fk : gmap K Z) (l : list (Z * list K)) :
  NoDup l.*1 →
  (∀ f b, (f, b) ∈ l → NoDup b ∧ ∀ k, k ∈ b → fk !! k = Some f) →
  NoDup (concat l.*2).
Proof.
  induction l as [|[f b] l IH]; simpl; intros Hnd Hl; [apply NoDup_nil_2|].
  apply NoDup_cons in Hnd as [Hf Hnd].
  destruct (Hl f b) as [Hb Hfk]; [by left|].
  apply NoDup_app. split; [done|]. split.
  - intros k Hk Hin. apply elem_of_concat in Hin as (b' & Hkb' & Hb').
    apply list_elem_of_fmap in Hb' as ([f' b''] & -> & Hin). simpl in *.
    destruct (Hl f' b'') as [_ Hfk']; [by right|].
    pose proof (Hfk _ Hk) as E1. pose proof (Hfk' _ Hkb') as E2.
    rewrite E1 in E2. injection E2 as <-.
    apply Hf. apply list_elem_of_fmap. by exists (f, b'').
  - apply IH; [done|]. intros f' b' Hin. apply Hl. by right.
Qed.

(** [get_frequency_distribution()] has no frequency below 1 and no count
    below 1, and its counts add up to the number of cached keys. *)
Theorem lfu_distribution_adds_up s :
  reachable (Policy.LFU s) →
  (∀ f n, LFUCache.get_frequency_distribution s !! f = Some n → 1 ≤ f ∧ 1 ≤ n) ∧
  foldr Z.add 0 (map_to_list (LFUCache.get_frequency_distribution s)).*2 =
    CachePolicy.current_size s.
Proof.
  intros [_ [Hbk _]]%lfu_reachable_inv. pose proof Hbk as (Hb1 & Hb2 & Hb3).
  unfold LFUCache.get_frequency_distribution. split.
  - intros f n. rewrite lookup_fmap. destruct (LFUCache.freq_map s !! f) as [b|] eqn:Hb; [|done].
    simpl. intros [= <-]. split; [eapply lfu_buckets_ge1; eauto|].
    destruct (Hb1 _ _ Hb) as (Hne & _). destruct b; [done|]. simpl. lia.
  - rewrite (zsum_permutation _ ((λ b, Z.of_nat (length b)) <$> (map_to_list (LFUCache.freq_map s)).*2)).
    2:{ rewrite map_to_list_fmap. rewrite <-!list_fmap_compose. done. }
    rewrite zsum_lengths. unfold CachePolicy.current_size. f_equal.
    apply keys_length.
    + apply (buckets_concat_NoDup (LFUCache.freq_key s)); [apply NoDup_fst_map_to_list|].
      intros f b Hin%elem_of_map_to_list. destruct (Hb1 _ _ Hin) as (_ & ? & ?). done.
    + intros k. rewrite <-Hb3. split.
      * intros (b & Hkb & Hin)%elem_of_concat.
        apply list_elem_of_fmap in Hin as ([f b'] & -> & Hin%elem_of_map_to_list).
        simpl in *. destruct (Hb1 _ _ Hin) as (_ & _ & Hfk). rewrite (Hfk _ Hkb). eauto.
      * intros [f Hf]. destruct (Hb2 _ _ Hf) as (_ & b & Hb & Hkb).
        apply elem_of_concat. exists b. split; [done|].
        apply list_elem_of_fmap. exists (f, b). split; [done|]. by apply elem_of_map_to_list.
Qed.

End lfu_frequency.

(** * More of the hierarchy *)

Section hierarchy_more.
Context {K V Time F : Type} `{Countable K} `{Float F}.
Implicit Types (h : CacheHierarchy.t K V Time F) (l : CacheLevel.t K V Time F).

(** ** [add_level], [get_level] *)

Lemma existsb_name (ls : list (CacheLevel.t K V Time F)) name :
  existsb (λ l, bool_decide (CacheLevel.name l = name)) ls = true ↔
  name ∈ CacheLevel.name <$> ls.
Proof.
  induction ls as [|l ls IH]; simpl.
  - split; [done|by intros ?%elem_of_nil].
  - rewrite orb_true_iff, IH, elem_of_cons, bool_decide_eq_true. naive_solver.
Qed.

Lemma find_name_app (ls : list (CacheLevel.t K V Time F)) l name :
  find (λ l, bool_decide (CacheLevel.name l = name)) (ls ++ [l]) =
    match find (λ l, bool_decide (CacheLevel.name l = name)) ls with
    | Some l' => Some l'
    | None => if bool_decide (CacheLevel.name l = name) then Some l else None
    end.
Proof.
  induction ls as [|l0 ls IH]; simpl; [done|].
  by destruct (bool_decide (CacheLevel.name l0 = name)).
Qed.

Lemma find_name_None (ls : list (CacheLevel.t K V Time F)) name :
  name ∉ CacheLevel.name <$> ls →
  find (λ l, bool_decide (CacheLevel.name l = name)) ls = None.
Proof.
  induction ls as [|l0 ls IH]; simpl; [done|]. intros [Hne Hin]%not_elem_of_cons.
  rewrite bool_decide_eq_false_2 by done. by apply IH.
Qed.

(** [add_level(cache, name, latency_ms)], where a [name] of [None] stands
    for ["L"] and the number of levels plus one.  If a level has that name
    already, the call raises [ValueError] and the hierarchy is as before.
    Otherwise the new level, with counters at zero, is the last one; the
    levels there were and the global counters are untouched; [get_level]
    and [get_level_stats] find the new level under its name and what they
    found before under every other name; and names that were distinct
    stay distinct. *)
Theorem add_level_appends h cache name latency_ms :
  let nm := match name with
            | None => "L" +:+ pretty (CacheHierarchy.num_levels h + 1)%nat
            | Some name => name
            end in
  let new := CacheLevel.mk cache nm latency_ms (LevelStats.new nm) in
  let h' := CacheHierarchy.set_levels (CacheHierarchy._levels h ++ [new]) h in
  if decide (nm ∈ CacheLevel.name <$> CacheHierarchy._levels h)
  then CacheHierarchy.add_level cache name latency_ms h = (Raise ValueError, h)
  else
    CacheHierarchy.add_level cache name latency_ms h = (Ok tt, h') ∧
    CacheHierarchy.num_levels h' = S (CacheHierarchy.num_levels h) ∧
    same_totals h h' ∧
    CacheHierarchy.get_level nm h' = Some new ∧
    CacheHierarchy.get_level_stats nm h' = Some (LevelStats.new nm) ∧
    (∀ other, other ≠ nm →
       CacheHierarchy.get_level other h' = CacheHierarchy.get_level other h) ∧
    (NoDup (CacheLevel.name <$> CacheHierarchy._levels h) →
     NoDup (CacheLevel.name <$> CacheHierarchy._levels h')).
Proof.
  intros nm new h'.
  destruct (existsb (λ l, bool_decide (CacheLevel.name l = nm)) (CacheHierarchy._levels h))
    eqn:Hex.
  - unfold CacheHierarchy.add_level, bind, gets. fold nm. rewrite Hex.
    apply existsb_name in Hex. by rewrite decide_True.
  - assert (Hnin : nm ∉ CacheLevel.name <$> CacheHierarchy._levels h).
    { intros Hin%existsb_name. congruence. }
    assert (Heq : CacheHierarchy.add_level cache name latency_ms h = (Ok tt, h')).
    { unfold CacheHierarchy.add_level, bind, gets. fold nm. by rewrite Hex. }
    rewrite decide_False by done. split; [done|].
    assert (Hget : CacheHierarchy.get_level nm h' = Some new).
    { unfold CacheHierarchy.get_level. simpl.
      rewrite find_name_app, (find_name_None _ _ Hnin). simpl.
      by rewrite bool_decide_eq_true_2. }
    unfold CacheHierarchy.get_level_stats. rewrite Hget.
    unfold CacheHierarchy.num_levels, CacheHierarchy.get_level. simpl.
    split; [rewrite length_app; simpl; lia|]. split; [done|]. split; [done|].
    split; [done|]. split.
    + intros other Hne. rewrite find_name_app.
      destruct (find _ (CacheHierarchy._levels h)); [done|]. simpl.
      by rewrite bool_decide_eq_false_2.
    + intros Hnd. rewrite fmap_app. apply NoDup_app. split; [done|]. split.
      * intros x Hx ->%list_elem_of_singleton. done.
      * apply NoDup_singleton.
Qed.

(** ** Sizes *)

(** The levels of a hierarchy hold no more than their capacities together,
    and no level holds more than its own. *)
Theorem total_size_within_capacity h :
  hier_ok h →
  0 ≤ CacheHierarchy.total_size h ≤ CacheHierarchy.total_capacity h ∧
  ∀ l, l ∈ CacheHierarchy._levels h →
    Policy.current_size (CacheLevel.cache l) ≤ Policy.capacity (CacheLevel.cache l).
Proof.
  intros Hok. unfold CacheHierarchy.total_size, CacheHierarchy.total_capacity.
  assert (Hl : ∀ l, l ∈ CacheHierarchy._levels h →
            0 ≤ Policy.current_size (CacheLevel.cache l) ≤ Policy.capacity (CacheLevel.cache l)).
  { intros l Hin. pose proof (reachable_inv _ (Hok l Hin)) as Hi.
    unfold Policy.current_size. split; [lia|].
    destruct (CacheLevel.cache l) as [s|s|s]; apply Hi. }
  split; [|intros l Hin; by apply Hl].
  unfold compose.
  induction (CacheHierarchy._levels h) as [|l ls IH]; [simpl; lia|].
  rewrite !fmap_cons. cbn [foldr].
  pose proof (Hl l ltac:(by left)) as Hl0.
  specialize (IH (λ l' Hin, Hl l' ltac:(by right))). lia.
Qed.

End hierarchy_more.

(** ** [delete], [clear] and [reset_stats] of the hierarchy *)

Section hierarchy_loops.
Context {K V Time F : Type} `{Countable K} `{Float F}.
Implicit Types (h : CacheHierarchy.t K V Time F) (l : CacheLevel.t K V Time F).

Lemma levels_fmap_eq (ls ls' : list (CacheLevel.t K V Time F)) f :
  (∀ j, ls' !! j = f <$> ls !! j) → ls' = f <$> ls.
Proof. intros Hl. apply list_eq. intros j. by rewrite list_lookup_fmap. Qed.

Lemma delete_loop_spec key n : ∀ i d h,
  (i + n = length (CacheHierarchy._levels h))%nat →
  levels_inv (CacheHierarchy._levels h) →
  ∃ h', CacheHierarchy.delete_loop key n i d h =
          (Ok (d || existsb (λ l, Policy.contains key (CacheLevel.cache l))
                      (drop i (CacheHierarchy._levels h))), h') ∧
        same_totals h h' ∧ levels_inv (CacheHierarchy._levels h') ∧
        ∀ j, CacheHierarchy._levels h' !! j =
             if decide (i ≤ j)%nat
             then (λ l, CacheLevel.set_cache (exec (Policy.delete key) (CacheLevel.cache l)) l)
                    <$> CacheHierarchy._levels h !! j
             else CacheHierarchy._levels h !! j.
Proof.
  induction n as [|n IH]; intros i d h Hlen Hinv.
  - exists h. rewrite drop_ge by lia. simpl. rewrite orb_false_r.
    split; [done|]. split; [done|]. split; [done|]. intros j.
    destruct (decide (i ≤ j)%nat); [|done].
    rewrite (lookup_ge_None_2 _ j) by lia. done.
  - assert (Hlt : (i < length (CacheHierarchy._levels h))%nat) by lia.
    destruct (lookup_lt_is_Some_2 _ _ Hlt) as [l Hl].
    pose proof (Forall_lookup_1 _ _ _ _ Hinv Hl) as Hi.
    destruct (policy_delete _ key Hi) as (p' & Hp & Hi' & _).
    simpl. unfold bind at 1. rewrite (on_cache_eq _ i l _ _ _ Hl Hp).
    set (h1 := CacheHierarchy.set_levels _ h).
    destruct (IH (S i) (if bool_decide (is_Some (Policy._cache (CacheLevel.cache l) !! key))
                        then true else d) h1) as (h' & Hdel & Htot & Hinv' & Hlev).
    { simpl. rewrite length_insert. lia. }
    { simpl. apply Forall_insert; done. }
    exists h'. split.
    { rewrite Hdel. f_equal. f_equal. simpl. rewrite drop_insert_lt by lia.
      rewrite (drop_S _ _ _ Hl). simpl. unfold Policy.contains.
      destruct (bool_decide (is_Some (Policy._cache (CacheLevel.cache l) !! key))), d;
        simpl; try done; by rewrite orb_true_r. }
    split; [done|]. split; [done|].
    intros j. rewrite Hlev. simpl.
    destruct (decide (j = i)) as [->|Hne].
    + rewrite decide_False by lia. rewrite decide_True by lia.
      rewrite list_lookup_insert_eq by done. rewrite Hl. simpl.
      unfold exec. by rewrite Hp.
    + rewrite list_lookup_insert_ne by done.
      destruct (decide (S i ≤ j)%nat), (decide (i ≤ j)%nat); try done; lia.
Qed.

Lemma clear_loop_spec n : ∀ i h,
  (i + n = length (CacheHierarchy._levels h))%nat →
  levels_inv (CacheHierarchy._levels h) →
  ∃ h', CacheHierarchy.clear_loop n i h = (Ok tt, h') ∧
        same_totals h h' ∧ levels_inv (CacheHierarchy._levels h') ∧
        ∀ j, CacheHierarchy._levels h' !! j =
             if decide (i ≤ j)%nat
             then (λ l, CacheLevel.set_cache (exec Policy.clear (CacheLevel.cache l)) l)
                    <$> CacheHierarchy._levels h !! j
             else CacheHierarchy._levels h !! j.
Proof.
  induction n as [|n IH]; intros i h Hlen Hinv.
  - exists h. split; [done|]. split; [done|]. split; [done|]. intros j.
    destruct (decide (i ≤ j)%nat); [|done].
    rewrite (lookup_ge_None_2 _ j) by lia. done.
  - assert (Hlt : (i < length (CacheHierarchy._levels h))%nat) by lia.
    destruct (lookup_lt_is_Some_2 _ _ Hlt) as [l Hl].
    pose proof (Forall_lookup_1 _ _ _ _ Hinv Hl) as Hi.
    destruct (policy_clear _ Hi) as (p' & Hp & Hi' & _).
    simpl. unfold bind at 1. rewrite (on_cache_eq _ i l _ _ _ Hl Hp).
    set (h1 := CacheHierarchy.set_levels _ h).
    destruct (IH (S i) h1) as (h' & Hcl & Htot & Hinv' & Hlev).
    { simpl. rewrite length_insert. lia. }
    { simpl. apply Forall_insert; done. }
    exists h'. split; [done|]. split; [done|]. split; [done|].
    intros j. rewrite Hlev. simpl.
    destruct (decide (j = i)) as [->|Hne].
    + rewrite decide_False by lia. rewrite decide_True by lia.
      rewrite list_lookup_insert_eq by done. rewrite Hl. simpl.
      unfold exec. by rewrite Hp.
    + rewrite list_lookup_insert_ne by done.
      destruct (decide (S i ≤ j)%nat), (decide (i ≤ j)%nat); try done; lia.
Qed.

Lemma reset_stats_loop_spec n : ∀ i h,
  (i + n = length (CacheHierarchy._levels h))%nat →
  ∃ h', CacheHierarchy.reset_stats_loop n i h = (Ok tt, h') ∧
        same_totals h h' ∧
        ∀ j, CacheHierarchy._levels h' !! j =
             if decide (i ≤ j)%nat
             then (λ l, CacheLevel.mk (exec Policy.reset_stats (CacheLevel.cache l))
                          (CacheLevel.name l) (CacheLevel.latency_ms l)
                          (LevelStats.new (CacheLevel.name l)))
                    <$> CacheHierarchy._levels h !! j
             else CacheHierarchy._levels h !! j.
Proof.
  induction n as [|n IH]; intros i h Hlen.
  - exists h. split; [done|]. split; [done|]. intros j.
    destruct (decide (i ≤ j)%nat); [|done].
    rewrite (lookup_ge_None_2 _ j) by lia. done.
  - assert (Hlt : (i < length (CacheHierarchy._levels h))%nat) by lia.
    destruct (lookup_lt_is_Some_2 _ _ Hlt) as [l Hl].
    simpl. unfold bind at 1. unfold CacheHierarchy.level_item at 1. rewrite Hl.
    unfold bind at 1. rewrite (modify_level_stats_eq _ _ _ _ Hl).
    set (l1 := CacheLevel.set_stats _ l).
    destruct (Policy.reset_stats (CacheLevel.cache l1)) as [r p'] eqn:Hp.
    assert (r = Ok tt) as ->.
    { revert Hp. subst l1. simpl. by destruct (CacheLevel.cache l); intros [= <- _]. }
    unfold bind at 1. erewrite (on_cache_eq _ i l1 _ _ p');
      [|simpl; by apply list_lookup_insert_eq|exact Hp].
    cbv beta iota. simpl. rewrite list_insert_insert_eq.
    pose (h1 := CacheHierarchy.set_levels
                  (<[i := CacheLevel.set_cache p' l1]> (CacheHierarchy._levels h)) h).
    destruct (IH (S i) h1) as (h' & Hrs & Htot & Hlev).
    { simpl. rewrite length_insert. lia. }
    exists h'. split; [exact Hrs|]. split; [done|].
    intros j. rewrite Hlev. simpl.
    destruct (decide (j = i)) as [->|Hne].
    + rewrite decide_False by lia. rewrite decide_True by lia.
      rewrite list_lookup_insert_eq by done. rewrite Hl. simpl.
      unfold exec. subst l1. simpl in Hp. by rewrite Hp.
    + rewrite list_lookup_insert_ne by done.
      destruct (decide (S i ≤ j)%nat), (decide (i ≤ j)%nat); try done; lia.
Qed.

Lemma contains_existsb h key :
  CacheHierarchy.contains key h = false ↔
  ∀ l, l ∈ CacheHierarchy._levels h → Policy.contains key (CacheLevel.cache l) = false.
Proof.
  unfold CacheHierarchy.contains. induction (CacheHierarchy._levels h) as [|l ls IH]; simpl.
  - split; [by intros _ ? ?%elem_of_nil|done].
  - rewrite orb_false_iff, IH. split.
    + intros [H1 H2] l' [->|Hin]%elem_of_cons; [done|by apply H2].
    + intros Hl. split; [apply Hl; by left|]. intros l' Hin. apply Hl. by right.
Qed.

(** [delete(key)] on a hierarchy returns whether some level held the key.
    Afterwards no level holds it; each level has lost this key at most,
    and has the counters, the name and the latency it had; the global
    counters are unchanged. *)
Theorem hierarchy_delete_everywhere h key :
  hier_ok h →
  ∃ h', CacheHierarchy.delete key h = (Ok (CacheHierarchy.contains key h), h') ∧
    CacheHierarchy.contains key h' = false ∧
    same_totals h h' ∧
    CacheHierarchy.num_levels h' = CacheHierarchy.num_levels h ∧
    ∀ j l, CacheHierarchy._levels h !! j = Some l →
      ∃ l', CacheHierarchy._levels h' !! j = Some l' ∧
        Policy._cache (CacheLevel.cache l') = delete key (Policy._cache (CacheLevel.cache l)) ∧
        CacheLevel.stats l' = CacheLevel.stats l ∧
        CacheLevel.name l' = CacheLevel.name l ∧
        CacheLevel.latency_ms l' = CacheLevel.latency_ms l.
Proof.
  intros Hok. pose proof (hier_levels_inv h Hok) as Hinv.
  destruct (delete_loop_spec key (length (CacheHierarchy._levels h)) 0%nat false h)
    as (h' & Hd & Htot & Hinv' & Hlev); [done|done|].
  assert (Hlev' : ∀ j, CacheHierarchy._levels h' !! j =
            (λ l, CacheLevel.set_cache (exec (Policy.delete key) (CacheLevel.cache l)) l)
              <$> CacheHierarchy._levels h !! j).
  { intros j. rewrite Hlev. by rewrite decide_True by lia. }
  assert (Hcache : ∀ l, l ∈ CacheHierarchy._levels h →
            Policy._cache (exec (Policy.delete key) (CacheLevel.cache l)) =
              delete key (Policy._cache (CacheLevel.cache l))).
  { intros l Hin. pose proof (reachable_inv _ (Hok l Hin)) as Hi.
    destruct (policy_delete _ key Hi) as (p' & Hp & _ & _ & _ & Hc).
    unfold exec. by rewrite Hp. }
  exists h'. split; [exact Hd|]. split; [|split; [done|split]].
  - apply contains_existsb. intros l' Hin.
    apply list_elem_of_lookup in Hin as [j Hj]. rewrite Hlev' in Hj.
    destruct (CacheHierarchy._levels h !! j) as [l|] eqn:Hl; [|done].
    injection Hj as <-. simpl. unfold Policy.contains.
    rewrite Hcache by (by eapply list_elem_of_lookup_2).
    rewrite lookup_delete_eq. apply bool_decide_eq_false_2. by intros [? ?].
  - unfold CacheHierarchy.num_levels.
    rewrite (levels_fmap_eq _ _ _ Hlev'). by rewrite length_fmap.
  - intros j l Hl. rewrite Hlev', Hl. simpl. eexists. split; [done|]. simpl.
    split; [|done]. apply Hcache. by eapply list_elem_of_lookup_2.
Qed.

(** [clear()] on a hierarchy empties every level, so the total size is 0
    and no key is held; the counters of the hierarchy, of its levels and
    of the policies ([hits], [misses], [evictions]) are not reset. *)
Theorem hierarchy_clear_keeps_counters h :
  hier_ok h →
  ∃ h', CacheHierarchy.clear h = (Ok tt, h') ∧
    CacheHierarchy.total_size h' = 0 ∧
    (∀ key, CacheHierarchy.contains key h' = false) ∧
    same_totals h h' ∧
    ∀ j l, CacheHierarchy._levels h !! j = Some l →
      ∃ l', CacheHierarchy._levels h' !! j = Some l' ∧
        Policy._cache (CacheLevel.cache l') = ∅ ∧
        CacheLevel.stats l' = CacheLevel.stats l ∧
        CacheStats.hits (Policy.stats (CacheLevel.cache l')) =
          CacheStats.hits (Policy.stats (CacheLevel.cache l)) ∧
        CacheStats.misses (Policy.stats (CacheLevel.cache l')) =
          CacheStats.misses (Policy.stats (CacheLevel.cache l)) ∧
        CacheStats.evictions (Policy.stats (CacheLevel.cache l')) =
          CacheStats.evictions (Policy.stats (CacheLevel.cache l)).
Proof.
  intros Hok. pose proof (hier_levels_inv h Hok) as Hinv.
  destruct (clear_loop_spec (length (CacheHierarchy._levels h)) 0%nat h)
    as (h' & Hd & Htot & Hinv' & Hlev); [done|done|].
  assert (Hlev' : ∀ j, CacheHierarchy._levels h' !! j =
            (λ l, CacheLevel.set_cache (exec Policy.clear (CacheLevel.cache l)) l)
              <$> CacheHierarchy._levels h !! j).
  { intros j. rewrite Hlev. by rewrite decide_True by lia. }
  assert (Hcache : ∀ l, l ∈ CacheHierarchy._levels h →
            Policy._cache (exec Policy.clear (CacheLevel.cache l)) = ∅).
  { intros l Hin. pose proof (reachable_inv _ (Hok l Hin)) as Hi.
    destruct (policy_clear _ Hi) as (p' & Hp & _ & _ & _ & Hc).
    unfold exec. by rewrite Hp. }
  assert (Hall : ∀ l', l' ∈ CacheHierarchy._levels h' →
            Policy._cache (CacheLevel.cache l') = ∅).
  { intros l' Hin. apply list_elem_of_lookup in Hin as [j Hj]. rewrite Hlev' in Hj.
    destruct (CacheHierarchy._levels h !! j) as [l|] eqn:Hl; [|done].
    injection Hj as <-. simpl. apply Hcache. by eapply list_elem_of_lookup_2. }
  exists h'. split; [exact Hd|]. split; [|split; [|split; [done|]]].
  - unfold CacheHierarchy.total_size, compose. revert Hall.
    generalize (CacheHierarchy._levels h'). intros ls.
    induction ls as [|l' ls IH]; intros Hall; [done|].
    rewrite fmap_cons. cbn [foldr]. rewrite IH by (intros ? ?; apply Hall; by right).
    unfold Policy.current_size. rewrite (Hall l') by (by left). by rewrite map_size_empty.
  - intros key. apply contains_existsb. intros l' Hin. unfold Policy.contains.
    rewrite (Hall l' Hin), lookup_empty. apply bool_decide_eq_false_2. by intros [? ?].
  - intros j l Hl. rewrite Hlev', Hl. simpl. eexists. split; [done|]. simpl.
    assert (Hin : l ∈ CacheHierarchy._levels h) by (by eapply list_elem_of_lookup_2).
    split; [by apply Hcache|]. split; [done|].
    rewrite (policy_clear_stats _ (reachable_inv _ (Hok l Hin))). done.
Qed.

(** [reset_stats()] on a hierarchy sets the four global counters and the
    counters of every level and of every policy to zero; it leaves the
    entries of every level, and so the total size, as they are. *)
Theorem hierarchy_reset_stats_zeroes h :
  ∃ h', CacheHierarchy.reset_stats h = (Ok tt, h') ∧
    CacheHierarchy._total_hits h' = 0 ∧ CacheHierarchy._total_misses h' = 0 ∧
    CacheHierarchy._total_promotions h' = 0 ∧ CacheHierarchy._total_latency_ms h' = fzero ∧
    CacheHierarchy.total_size h' = CacheHierarchy.total_size h ∧
    ∀ j l, CacheHierarchy._levels h !! j = Some l →
      ∃ l', CacheHierarchy._levels h' !! j = Some l' ∧
        CacheLevel.stats l' = LevelStats.new (CacheLevel.name l) ∧
        CacheLevel.name l' = CacheLevel.name l ∧
        CacheLevel.latency_ms l' = CacheLevel.latency_ms l ∧
        Policy._cache (CacheLevel.cache l') = Policy._cache (CacheLevel.cache l) ∧
        Policy.stats (CacheLevel.cache l') =
          CacheStats.new (Policy.current_size (CacheLevel.cache l))
            (Policy.capacity (CacheLevel.cache l)).
Proof.
  destruct (reset_stats_loop_spec (length (CacheHierarchy._levels h)) 0%nat h)
    as (h1 & Hd & Htot & Hlev); [done|].
  assert (Hlev' : ∀ j, CacheHierarchy._levels h1 !! j =
            (λ l, CacheLevel.mk (exec Policy.reset_stats (CacheLevel.cache l))
                    (CacheLevel.name l) (CacheLevel.latency_ms l)
                    (LevelStats.new (CacheLevel.name l)))
              <$> CacheHierarchy._levels h !! j).
  { intros j. rewrite Hlev. by rewrite decide_True by lia. }
  eexists. split.
  { unfold CacheHierarchy.reset_stats, bind, gets, CacheHierarchy.num_levels.
    rewrite Hd. unfold modify. reflexivity. }
  simpl. split; [done|]. split; [done|]. split; [done|]. split; [done|]. split.
  - unfold CacheHierarchy.total_size. simpl. rewrite (levels_fmap_eq _ _ _ Hlev').
    rewrite <-list_fmap_compose. f_equal. apply list_fmap_ext. intros j l _. simpl.
    by destruct (CacheLevel.cache l).
  - intros j l Hl. rewrite Hlev', Hl. simpl. eexists. split; [done|]. simpl.
    split; [done|]. split; [done|]. split; [done|]. by destruct (CacheLevel.cache l).
Qed.

End hierarchy_loops.

(** ** The latency of a hit, and the hit after a promotion *)

Section hierarchy_hits.
Context {K V Time F : Type} `{Countable K} `{Float F}.
Implicit Types (h : CacheHierarchy.t K V Time F) (l : CacheLevel.t K V Time F).

Lemma get_loop_hit_latency key clock v n : ∀ i cum h i0 l0,
  (i + n = length (CacheHierarchy._levels h))%nat → (i ≤ i0)%nat →
  levels_inv (CacheHierarchy._levels h) →
  CacheHierarchy._levels h !! i0 = Some l0 → lookup_at key l0 = Some v →
  (∀ j l, (i ≤ j < i0)%nat → CacheHierarchy._levels h !! j = Some l → lookup_at key l = None) →
  CacheHierarchy._total_latency_ms (exec (CacheHierarchy.get_loop key clock n i cum) h) =
    fadd (CacheHierarchy._total_latency_ms h)
      (foldl (λ acc l, fadd acc (CacheLevel.latency_ms l)) cum
         (take (S i0 - i) (drop i (CacheHierarchy._levels h)))).
Proof.
  induction n as [|n IH]; intros i cum h i0 l0 Hlen Hle Hinv Hl0 Hv Hmiss.
  - apply lookup_lt_Some in Hl0. lia.
  - assert (Hlt : (i < length (CacheHierarchy._levels h))%nat) by lia.
    destruct (lookup_lt_is_Some_2 _ _ Hlt) as [l Hl].
    pose proof (Forall_lookup_1 _ _ _ _ Hinv Hl) as Hi.
    rewrite (drop_S _ _ _ Hl).
    destruct (decide (i = i0)) as [->|Hne].
    + assert (l = l0) as -> by congruence.
      replace (S i0 - i0)%nat with 1%nat by lia. simpl take. simpl foldl.
      unfold exec. rewrite (get_loop_step_hit key clock n i0 cum h l0 v Hl Hi Hv). cbv zeta.
      set (h1 := CacheHierarchy.set_total_latency_ms _ _).
      assert (Hinv1 : levels_inv (CacheHierarchy._levels h1)).
      { simpl. apply Forall_insert; [done|]. by apply probed_inv. }
      destruct (decide (0 < i0)%nat) as [Hpos|Hz]; [|done].
      destruct (promote_loop_spec key (Some v) clock i0 (S i0) 0%nat h1)
        as (h' & Hpr & _ & _ & _ & Htl & _); [|done|].
      { simpl. rewrite length_insert. lia. }
      unfold CacheHierarchy._promote_to_upper_levels. rewrite Hpr. simpl. by rewrite Htl.
    + unfold exec.
      rewrite (get_loop_step_miss key clock n i cum h l Hl Hi) by (eapply Hmiss; [|done]; lia).
      set (h1 := CacheHierarchy.set_levels _ h).
      pose proof (IH (S i) (fadd cum (CacheLevel.latency_ms l)) h1 i0 l0) as IH'.
      unfold exec in IH'. rewrite IH'.
      * simpl. rewrite drop_insert_lt by lia.
        replace (S i0 - i)%nat with (S (S i0 - S i)) by lia. done.
      * simpl. rewrite length_insert. lia.
      * lia.
      * simpl. apply Forall_insert; [done|]. by apply probed_inv.
      * simpl. by rewrite list_lookup_insert_ne.
      * done.
      * intros j l' Hj. simpl. rewrite list_lookup_insert_ne by lia. apply Hmiss. lia.
Qed.

Lemma lookup_at_probed key clock j l :
  inv (CacheLevel.cache l) → lookup_at key (probed key clock j l) = lookup_at key l.
Proof.
  intros Hi. destruct (policy_get _ key (clock j) Hi) as (p' & Hg & _ & _ & _ & Hc & _).
  unfold lookup_at, probed, exec. simpl. rewrite Hg. simpl. rewrite Hc.
  destruct (Policy._cache (CacheLevel.cache l) !! key) as [e|] eqn:Hk; [|by rewrite Hk].
  rewrite lookup_insert_eq. simpl. apply ptouch_value.
Qed.

(** What a hit costs, in a hierarchy where every level has a policy
    object of its own.  When the lookup hits at level index [i], the
    global latency total grows by the latencies of the levels 0 to [i],
    added up in this order from 0.0; the levels up to [i] each add their
    own latency to their own total, those before [i] count a miss and
    level [i] a hit; and the levels after [i] are not consulted: they are
    what they were. *)
Theorem hit_latency_is_cumulative h key clock i v :
  hier_ok h → hits_at h key i v →
  ∃ h', CacheHierarchy.get key clock h = (Ok (Some v), h') ∧
    CacheHierarchy._total_latency_ms h' =
      fadd (CacheHierarchy._total_latency_ms h)
        (foldl (λ acc l, fadd acc (CacheLevel.latency_ms l)) fzero
           (take (S i) (CacheHierarchy._levels h))) ∧
    CacheHierarchy._total_hits h' = CacheHierarchy._total_hits h + 1 ∧
    CacheHierarchy._total_misses h' = CacheHierarchy._total_misses h ∧
    (∀ j l, (j ≤ i)%nat → CacheHierarchy._levels h !! j = Some l →
       ∃ l', CacheHierarchy._levels h' !! j = Some l' ∧
         LevelStats.total_latency_ms (CacheLevel.stats l') =
           fadd (LevelStats.total_latency_ms (CacheLevel.stats l)) (CacheLevel.latency_ms l) ∧
         LevelStats.hits (CacheLevel.stats l') =
           LevelStats.hits (CacheLevel.stats l) + (if decide (j = i) then 1 else 0) ∧
         LevelStats.misses (CacheLevel.stats l') =
           LevelStats.misses (CacheLevel.stats l) + (if decide (j = i) then 0 else 1)) ∧
    (∀ j, (i < j)%nat → CacheHierarchy._levels h' !! j = CacheHierarchy._levels h !! j).
Proof.
  intros Hok [(l0 & Hl0 & Hv) Hbefore].
  pose proof (hier_levels_inv h Hok) as Hinv.
  destruct (get_loop_hit_spec key clock v (length (CacheHierarchy._levels h))
              0%nat fzero h i l0) as (h' & Hg & Hh & Hm & _ & _ & Hlv);
    [done|lia|done|done|done|intros j l [_ Hj]; by apply Hbefore|].
  pose proof (get_loop_hit_latency key clock v (length (CacheHierarchy._levels h))
                0%nat fzero h i l0) as Hlat.
  unfold exec in Hlat. rewrite Hg in Hlat. simpl in Hlat.
  exists h'. split; [done|].
  rewrite Hlat; [|done|lia|done|done|done|intros j l [_ Hj]; by apply Hbefore].
  split; [done|].
  split; [done|]. split; [done|]. split.
  - intros j l Hj Hl. rewrite Hlv, Hl. destruct (decide (j = i)) as [->|Hne].
    + rewrite decide_False by lia. simpl. eexists. split; [done|]. simpl.
      split; [done|]. split; lia.
    + rewrite decide_True by lia. simpl. destruct (decide (0 ≤ j)%nat); [|lia].
      eexists. split; [done|]. simpl. split; [done|]. split; lia.
  - intros j Hj. rewrite Hlv. rewrite decide_False by lia. by rewrite decide_False by lia.
Qed.

(** After a hit the key is at the first level: a second lookup, right
    after the first, hits at level index 0, returns the same value,
    promotes nothing, and costs the latency of the first level only. *)
Theorem second_lookup_hits_first_level h key clock clock' i v :
  hier_ok h → hits_at h key i v →
  ∃ h1 h2 l1, CacheHierarchy.get key clock h = (Ok (Some v), h1) ∧
    CacheHierarchy._levels h1 !! 0%nat = Some l1 ∧ lookup_at key l1 = Some v ∧
    CacheHierarchy.get key clock' h1 = (Ok (Some v), h2) ∧
    CacheHierarchy._total_hits h2 = CacheHierarchy._total_hits h1 + 1 ∧
    CacheHierarchy._total_promotions h2 = CacheHierarchy._total_promotions h1 ∧
    CacheHierarchy._total_latency_ms h2 =
      fadd (CacheHierarchy._total_latency_ms h1) (fadd fzero (CacheLevel.latency_ms l1)).
Proof.
  intros Hok [(l0 & Hl0 & Hv) Hbefore].
  pose proof (hier_levels_inv h Hok) as Hinv.
  destruct (get_loop_hit_spec key clock v (length (CacheHierarchy._levels h))
              0%nat fzero h i l0) as (h1 & Hg & _ & _ & _ & Hinv1 & Hlv);
    [done|lia|done|done|done|intros j l [_ Hj]; by apply Hbefore|].
  assert (Hfirst : ∃ l1, CacheHierarchy._levels h1 !! 0%nat = Some l1 ∧
                         lookup_at key l1 = Some v).
  { rewrite Hlv. destruct (decide (i = 0%nat)) as [->|Hne].
    - rewrite decide_False by lia. rewrite decide_True by done. rewrite Hl0. simpl.
      eexists. split; [done|]. unfold hit.
      change (lookup_at key (probed key clock 0 l0) = Some v).
      rewrite lookup_at_probed; [done|]. exact (Forall_lookup_1 _ _ _ _ Hinv Hl0).
    - rewrite decide_True by lia.
      destruct (lookup_lt_is_Some_2 (CacheHierarchy._levels h) 0) as [l Hl].
      { apply lookup_lt_Some in Hl0. lia. }
      rewrite Hl. simpl. destruct (decide (0 ≤ 0)%nat); [|lia]. eexists. split; [done|].
      apply lookup_at_promoted. apply missed_inv. exact (Forall_lookup_1 _ _ _ _ Hinv Hl). }
  destruct Hfirst as (l1 & Hl1 & Hv1).
  destruct (get_loop_hit_spec key clock' v (length (CacheHierarchy._levels h1))
              0%nat fzero h1 0%nat l1) as (h2 & Hg2 & Hh2 & _ & Hp2 & _);
    [done|lia|done|done|done|intros; lia|].
  pose proof (get_loop_hit_latency key clock' v (length (CacheHierarchy._levels h1))
                0%nat fzero h1 0%nat l1) as Hlat.
  unfold exec in Hlat. rewrite Hg2 in Hlat. simpl in Hlat.
  exists h1, h2, l1. split; [done|]. split; [done|]. split; [done|]. split; [done|].
  split; [done|]. split; [simpl in Hp2; lia|].
  rewrite Hlat; [|done|lia|done|done|done|intros; lia].
  rewrite (drop_S _ _ _ Hl1). done.
Qed.

End hierarchy_hits.

(** ** Hierarchies made through their public methods *)

Section sums.

Lemma zsum_app (a b : list Z) : foldr Z.add 0 (a ++ b) = foldr Z.add 0 a + foldr Z.add 0 b.
Proof. induction a as [|x a IH]; simpl; lia. Qed.

Lemma zsum_seq_S (d : nat → Z) n :
  foldr Z.add 0 (d <$> seq 0 (S n)) = foldr Z.add 0 (d <$> seq 0 n) + d n.
Proof. rewrite seq_S, fmap_app, zsum_app. simpl. lia. Qed.

Lemma zsum_seq_shift (d : nat → Z) n :
  foldr Z.add 0 (d <$> seq 0 (S n)) = d 0%nat + foldr Z.add 0 ((d ∘ S) <$> seq 0 n).
Proof.
  change (seq 0 (S n)) with (0%nat :: seq 1 n). rewrite <-fmap_S_seq, fmap_cons.
  by rewrite <-list_fmap_compose.
Qed.

Lemma zsum_zero n : foldr Z.add 0 ((λ _ : nat, 0) <$> seq 0 n) = 0.
Proof. induction n as [|n IH]; [done|]. rewrite zsum_seq_S. lia. Qed.

Lemma zsum_at (i0 n : nat) :
  foldr Z.add 0 ((λ j, if decide (j = i0) then 1 else 0) <$> seq 0 n) =
    if decide (i0 < n)%nat then 1 else 0.
Proof.
  induction n as [|n IH]; [by rewrite decide_False by lia|].
  rewrite zsum_seq_S, IH. repeat case_decide; lia.
Qed.

Lemma zsum_below (i0 n : nat) :
  foldr Z.add 0 ((λ j, if decide (j < i0)%nat then 1 else 0) <$> seq 0 n) =
    Z.of_nat (i0 `min` n).
Proof.
  induction n as [|n IH]; [simpl; lia|].
  rewrite zsum_seq_S, IH. case_decide; lia.
Qed.

Lemma zsum_pointwise {A} (f : A → Z) : ∀ (ls ls' : list A) (d : nat → Z),
  length ls' = length ls →
  (∀ j l l', ls !! j = Some l → ls' !! j = Some l' → f l' = f l + d j) →
  foldr Z.add 0 (f <$> ls') =
    foldr Z.add 0 (f <$> ls) + foldr Z.add 0 (d <$> seq 0 (length ls)).
Proof.
  induction ls as [|l ls IH]; intros ls' d Hlen Hp.
  - destruct ls'; [done|done].
  - destruct ls' as [|l' ls']; [done|]. simpl in Hlen.
    rewrite !fmap_cons. cbn [foldr length]. rewrite zsum_seq_shift.
    rewrite (IH ls' (d ∘ S)); [|lia|].
    + pose proof (Hp 0%nat l l' eq_refl eq_refl). simpl. lia.
    + intros j x x' Hx Hx'. exact (Hp (S j) x x' Hx Hx').
Qed.

Lemma same_length_lookup {A B} (ls : list A) (ls' : list B) :
  (∀ j, is_Some (ls' !! j) ↔ is_Some (ls !! j)) → length ls' = length ls.
Proof.
  intros Hl. apply Nat.le_antisymm.
  - destruct (decide (length ls' ≤ length ls)%nat); [done|].
    assert (is_Some (ls !! length ls)) as ?%lookup_lt_is_Some; [|lia].
    apply Hl, lookup_lt_is_Some. lia.
  - destruct (decide (length ls ≤ length ls')%nat); [done|].
    assert (is_Some (ls' !! length ls')) as ?%lookup_lt_is_Some; [|lia].
    apply Hl, lookup_lt_is_Some. lia.
Qed.

End sums.

Section built_hierarchies.
Context {K V Time F : Type} `{Countable K} `{Float F}.
Implicit Types (h : CacheHierarchy.t K V Time F) (l : CacheLevel.t K V Time F).

Local Abbreviation HInv h :=
  (hier_ok h ∧ NoDup (CacheLevel.name <$> CacheHierarchy._levels h) ∧
   CacheHierarchy._total_hits h = level_sum LevelStats.hits h ∧
   CacheHierarchy._total_promotions h = level_sum LevelStats.promotions h).

Lemma reachable_delete (p : Policy.t K V Time) k :
  reachable p → reachable (exec (Policy.delete k) p).
Proof. intros Hr. rewrite <-exec_call_delete. by apply reachable_step. Qed.

Lemma reachable_clear (p : Policy.t K V Time) : reachable p → reachable (exec Policy.clear p).
Proof. intros Hr. exact (reachable_step p Clear Hr). Qed.

Lemma reachable_reset_stats (p : Policy.t K V Time) :
  reachable p → reachable (exec Policy.reset_stats p).
Proof. intros Hr. exact (reachable_step p ResetStats Hr). Qed.

Lemma get_cases h key :
  (∃ i v, hits_at h key i v) ∨
  (∀ l, l ∈ CacheHierarchy._levels h → lookup_at key l = None).
Proof.
  destruct (list_find (λ l, is_Some (lookup_at key l)) (CacheHierarchy._levels h))
    as [[i l]|] eqn:Hf.
  - apply list_find_Some in Hf as (Hl & [v Hv] & Hbefore). left. exists i, v. split.
    + by exists l.
    + intros j l' Hj Hl'. apply eq_None_not_Some. by eapply Hbefore.
  - apply list_find_None in Hf. right. intros l Hin. apply eq_None_not_Some.
    by apply (proj1 (Forall_forall _ _) Hf).
Qed.

Lemma hinv_pointwise h h' (dh dp : nat → Z) :
  HInv h →
  (∀ j, ∃ g, CacheHierarchy._levels h' !! j = g <$> CacheHierarchy._levels h !! j ∧
     ∀ l, CacheHierarchy._levels h !! j = Some l →
       CacheLevel.name (g l) = CacheLevel.name l ∧
       reachable (CacheLevel.cache (g l)) ∧
       LevelStats.hits (CacheLevel.stats (g l)) = LevelStats.hits (CacheLevel.stats l) + dh j ∧
       LevelStats.promotions (CacheLevel.stats (g l)) =
         LevelStats.promotions (CacheLevel.stats l) + dp j) →
  CacheHierarchy._total_hits h' = CacheHierarchy._total_hits h +
    foldr Z.add 0 (dh <$> seq 0 (length (CacheHierarchy._levels h))) →
  CacheHierarchy._total_promotions h' = CacheHierarchy._total_promotions h +
    foldr Z.add 0 (dp <$> seq 0 (length (CacheHierarchy._levels h))) →
  HInv h'.
Proof.
  intros (Hok & Hnd & Hh & Hp) Hpt Hth Htp.
  assert (Hlen : length (CacheHierarchy._levels h') = length (CacheHierarchy._levels h)).
  { apply same_length_lookup. intros j. destruct (Hpt j) as (g & -> & _).
    by rewrite fmap_is_Some. }
  assert (Hrel : ∀ j l l', CacheHierarchy._levels h !! j = Some l →
            CacheHierarchy._levels h' !! j = Some l' →
            CacheLevel.name l' = CacheLevel.name l ∧ reachable (CacheLevel.cache l') ∧
            LevelStats.hits (CacheLevel.stats l') = LevelStats.hits (CacheLevel.stats l) + dh j ∧
            LevelStats.promotions (CacheLevel.stats l') =
              LevelStats.promotions (CacheLevel.stats l) + dp j).
  { intros j l l' Hl Hl'. destruct (Hpt j) as (g & Hg & Hgl). rewrite Hl in Hg. simpl in Hg.
    rewrite Hg in Hl'. injection Hl' as <-. by apply Hgl. }
  split; [|split; [|split]].
  - intros l' Hin. apply list_elem_of_lookup in Hin as [j Hj].
    destruct (lookup_lt_is_Some_2 (CacheHierarchy._levels h) j) as [l Hl].
    { apply lookup_lt_Some in Hj. lia. }
    by destruct (Hrel j l l' Hl Hj) as (_ & ? & _).
  - replace (CacheLevel.name <$> CacheHierarchy._levels h')
      with (CacheLevel.name <$> CacheHierarchy._levels h); [done|].
    apply list_eq. intros j. rewrite !list_lookup_fmap.
    destruct (Hpt j) as (g & -> & Hgl).
    destruct (CacheHierarchy._levels h !! j) as [l|] eqn:Hl; [|done]. simpl.
    f_equal. symmetry. by apply Hgl.
  - rewrite Hth, Hh. unfold level_sum. symmetry. apply zsum_pointwise; [done|].
    intros j l l' Hl Hl'. by destruct (Hrel j l l' Hl Hl') as (_ & _ & ? & _).
  - rewrite Htp, Hp. unfold level_sum. symmetry. apply zsum_pointwise; [done|].
    intros j l l' Hl Hl'. by destruct (Hrel j l l' Hl Hl') as (_ & _ & _ & ?).
Qed.

Lemma hinv_get h key clock : HInv h → HInv (exec (CacheHierarchy.get key clock) h).
Proof.
  intros HI. pose proof HI as (Hok & _). pose proof (hier_levels_inv h Hok) as Hinv.
  assert (Hreach : ∀ j l, CacheHierarchy._levels h !! j = Some l → reachable (CacheLevel.cache l)).
  { intros j l Hl. apply Hok. by eapply list_elem_of_lookup_2. }
  unfold exec, CacheHierarchy.get, bind, gets, CacheHierarchy.num_levels.
  destruct (get_cases h key) as [(i & v & (l0 & Hl0 & Hv) & Hbefore)|Hmiss].
  - destruct (get_loop_hit_spec key clock v (length (CacheHierarchy._levels h))
                0%nat fzero h i l0) as (h' & Hg & Hh & _ & Hp & _ & Hlv);
      [done|lia|done|done|done|intros j l [_ Hj]; by apply Hbefore|].
    rewrite Hg. simpl.
    apply (hinv_pointwise h h' (λ j, if decide (j = i) then 1 else 0)
             (λ j, if decide (j < i)%nat then 1 else 0) HI).
    + intros j. rewrite Hlv. destruct (decide (j < i)%nat) as [Hji|Hji].
      * eexists. split; [done|]. intros l Hl. simpl.
        destruct (decide (0 ≤ j)%nat) as [_|?]; [|lia]. simpl.
        rewrite decide_False by lia. split; [done|].
        split; [by apply reachable_put, reachable_get, (Hreach j)|]. split; lia.
      * destruct (decide (j = i)) as [->|Hne].
        -- eexists. split; [done|]. intros l Hl. simpl. split; [done|].
           split; [by apply reachable_get, (Hreach i)|]. split; lia.
        -- exists id. split; [by rewrite option_fmap_id|]. intros l Hl. simpl.
           split; [done|]. split; [by apply (Hreach j)|]. split; lia.
    + rewrite Hh, zsum_at. apply lookup_lt_Some in Hl0. by rewrite decide_True.
    + rewrite Hp, zsum_below. apply lookup_lt_Some in Hl0. f_equal. lia.
  - destruct (get_loop_miss_spec key clock (length (CacheHierarchy._levels h)) 0%nat fzero h)
      as (h' & Hg & Hh & _ & Hp & _ & _ & Hlv); [done|done| |].
    { intros j l _ Hj. eapply Hmiss, list_elem_of_lookup_2, Hj. }
    rewrite Hg. simpl. apply (hinv_pointwise h h' (λ _, 0) (λ _, 0) HI).
    + intros j. rewrite Hlv. rewrite decide_True by lia. eexists. split; [done|].
      intros l Hl. simpl. split; [done|].
      split; [by apply reachable_get, (Hreach j)|]. split; lia.
    + rewrite Hh, zsum_zero. lia.
    + rewrite Hp, zsum_zero. lia.
Qed.

Lemma hinv_put h key v clock : HInv h → HInv (exec (CacheHierarchy.put key v clock) h).
Proof.
  intros HI. pose proof HI as (Hok & _). pose proof (hier_levels_inv h Hok) as Hinv.
  unfold exec, CacheHierarchy.put, bind, gets, CacheHierarchy.num_levels.
  case_decide; [done|].
  destruct (put_loop_spec key v clock (length (CacheHierarchy._levels h)) 0%nat h)
    as (h' & Hp & (Hth & _ & Htp & _) & _ & Hlv); [done|done|].
  rewrite Hp. simpl. apply (hinv_pointwise h h' (λ _, 0) (λ _, 0) HI).
  - intros j. rewrite Hlv. rewrite decide_True by lia. eexists. split; [done|].
    intros l Hl. simpl. split; [done|]. split; [|split; lia].
    apply reachable_put, Hok. by eapply list_elem_of_lookup_2.
  - rewrite Hth, zsum_zero. lia.
  - rewrite Htp, zsum_zero. lia.
Qed.

Lemma hinv_delete h key : HInv h → HInv (exec (CacheHierarchy.delete key) h).
Proof.
  intros HI. pose proof HI as (Hok & _). pose proof (hier_levels_inv h Hok) as Hinv.
  unfold exec, CacheHierarchy.delete, bind, gets, CacheHierarchy.num_levels.
  destruct (delete_loop_spec key (length (CacheHierarchy._levels h)) 0%nat false h)
    as (h' & Hp & (Hth & _ & Htp & _) & _ & Hlv); [done|done|].
  rewrite Hp. simpl. apply (hinv_pointwise h h' (λ _, 0) (λ _, 0) HI).
  - intros j. rewrite Hlv. rewrite decide_True by lia. eexists. split; [done|].
    intros l Hl. simpl. split; [done|]. split; [|split; lia].
    apply reachable_delete, Hok. by eapply list_elem_of_lookup_2.
  - rewrite Hth, zsum_zero. lia.
  - rewrite Htp, zsum_zero. lia.
Qed.

Lemma hinv_clear h : HInv h → HInv (exec CacheHierarchy.clear h).
Proof.
  intros HI. pose proof HI as (Hok & _). pose proof (hier_levels_inv h Hok) as Hinv.
  unfold exec, CacheHierarchy.clear, bind, gets, CacheHierarchy.num_levels.
  destruct (clear_loop_spec (length (CacheHierarchy._levels h)) 0%nat h)
    as (h' & Hp & (Hth & _ & Htp & _) & _ & Hlv); [done|done|].
  rewrite Hp. simpl. apply (hinv_pointwise h h' (λ _, 0) (λ _, 0) HI).
  - intros j. rewrite Hlv. rewrite decide_True by lia. eexists. split; [done|].
    intros l Hl. simpl. split; [done|]. split; [|split; lia].
    apply reachable_clear, Hok. by eapply list_elem_of_lookup_2.
  - rewrite Hth, zsum_zero. lia.
  - rewrite Htp, zsum_zero. lia.
Qed.

Lemma hinv_reset_stats h : HInv h → HInv (exec CacheHierarchy.reset_stats h).
Proof.
  intros (Hok & Hnd & _).
  destruct (reset_stats_loop_spec (length (CacheHierarchy._levels h)) 0%nat h)
    as (h1 & Hd & _ & Hlev); [done|].
  assert (Hls : CacheHierarchy._levels h1 =
            (λ l, CacheLevel.mk (exec Policy.reset_stats (CacheLevel.cache l))
                    (CacheLevel.name l) (CacheLevel.latency_ms l)
                    (LevelStats.new (CacheLevel.name l))) <$> CacheHierarchy._levels h).
  { apply levels_fmap_eq. intros j. rewrite Hlev. by rewrite decide_True by lia. }
  unfold exec, CacheHierarchy.reset_stats, bind, gets, CacheHierarchy.num_levels.
  rewrite Hd. unfold modify. cbn [snd].
  set (h' := CacheHierarchy.set_total_latency_ms _ _).
  assert (Hls' : CacheHierarchy._levels h' =
            (λ l, CacheLevel.mk (exec Policy.reset_stats (CacheLevel.cache l))
                    (CacheLevel.name l) (CacheLevel.latency_ms l)
                    (LevelStats.new (CacheLevel.name l))) <$> CacheHierarchy._levels h).
  { by rewrite <-Hls. }
  assert (Hzero : ∀ (f : LevelStats.t F → Z), (∀ nm, f (LevelStats.new nm) = 0) →
            level_sum f h' = 0).
  { intros f Hf. unfold level_sum. rewrite Hls', <-list_fmap_compose.
    generalize (CacheHierarchy._levels h). intros ls.
    induction ls as [|l ls IH]; [done|]. rewrite fmap_cons. cbn [foldr]. rewrite IH.
    simpl. rewrite Hf. lia. }
  split; [|split; [|split]].
  - intros l'. rewrite Hls'. intros (l & -> & Hin)%list_elem_of_fmap. simpl.
    by apply reachable_reset_stats, Hok.
  - rewrite Hls'. by rewrite <-list_fmap_compose.
  - by rewrite Hzero.
  - by rewrite Hzero.
Qed.

Lemma hinv_add_level h cache name latency_ms :
  reachable cache → HInv h → HInv (exec (CacheHierarchy.add_level cache name latency_ms) h).
Proof.
  intros Hr HI. pose proof (add_level_appends h cache name latency_ms) as Hadd.
  cbv zeta in Hadd. case_decide as Hin.
  - unfold exec. by rewrite Hadd.
  - destruct Hadd as (Heq & _ & _ & _ & _ & _ & Hnd).
    destruct HI as (Hok & Hnd0 & Hh & Hp).
    unfold exec. rewrite Heq. cbn [snd].
    split; [|split; [by apply Hnd|]].
    + simpl. intros l' [Hl'| ->%list_elem_of_singleton]%elem_of_app.
      * by apply Hok.
      * done.
    + unfold level_sum. simpl.
      rewrite !fmap_app, !zsum_app. simpl. unfold level_sum in Hh, Hp. lia.
Qed.

(** A hierarchy made through the public methods, each level on a policy
    instance of its own, is sound: its levels hold policy instances with
    their invariants, so what is proved of such levels holds of them; no
    two levels have the same name; and the global hit and promotion
    counters are the sums of the counters of the levels. *)
Theorem built_hierarchy_is_sound h :
  built h →
  hier_ok h ∧
  NoDup (CacheLevel.name <$> CacheHierarchy._levels h) ∧
  CacheHierarchy._total_hits h = level_sum LevelStats.hits h ∧
  CacheHierarchy._total_promotions h = level_sum LevelStats.promotions h.
Proof.
  intros (name & ops & Hops & ->).
  induction ops as [|o ops IH] using rev_ind.
  - simpl. split; [by intros l ?%elem_of_nil|]. split; [apply NoDup_nil_2|]. done.
  - apply Forall_app in Hops as [Hops Ho]. specialize (IH Hops).
    unfold hafter. rewrite foldl_app. simpl. fold (hafter ops (CacheHierarchy.__init__ name)).
    apply Forall_cons in Ho as [Ho _].
    set (h := hafter ops (CacheHierarchy.__init__ (F:=F) name)) in *.
    destruct o as [cache nm lat|key clock|key v clock|key| |]; simpl.
    + apply hinv_add_level; [exact Ho|exact IH].
    + replace (exec (CacheHierarchy.get key clock >> ret tt) h)
        with (exec (CacheHierarchy.get key clock) h); [apply hinv_get; exact IH|].
      unfold exec, bind. by destruct (CacheHierarchy.get key clock h) as [[?|?] ?].
    + apply hinv_put; exact IH.
    + replace (exec (CacheHierarchy.delete key >> ret tt) h)
        with (exec (CacheHierarchy.delete key) h); [apply hinv_delete; exact IH|].
      unfold exec, bind. by destruct (CacheHierarchy.delete key h) as [[?|?] ?].
    + apply hinv_clear; exact IH.
    + apply hinv_reset_stats; exact IH.
Qed.

End built_hierarchies.

(** ** Eviction from an empty cache *)

Section evict_empty.
Context {K V Time : Type} `{Countable K}.

(** [_evict()] on a cache without entries does nothing: it returns, with
    the object and its [evictions] counter as they were.  (A [put] does
    not get there: a full cache has an entry.) *)
Theorem evict_on_empty_does_nothing (p : Policy.t K V Time) :
  reachable p → Policy._cache p = ∅ → Policy._evict p = (Ok tt, p).
Proof.
  intros Hi%reachable_inv Hc. destruct p as [s|s|s]; simpl in *; unfold Policy.lift.
  - destruct Hi as [_ [_ Hq]].
    assert (Hnil : FIFOCache.queue s = []).
    { destruct (FIFOCache.queue s) as [|k q]; [done|].
      assert (is_Some (CachePolicy._cache s !! k)) as [e He] by (apply Hq; by left).
      by rewrite Hc, lookup_empty in He. }
    change (CachePolicy._evict s) with (FIFOCache._evict s).
    unfold FIFOCache._evict. munfold. by rewrite Hnil.
  - destruct Hi as [_ (ids & ks & Hl & Hk)].
    assert (ks = []) as ->.
    { destruct ks as [|k ks]; [done|].
      assert (is_Some (CachePolicy._cache s !! k)) as [e He] by (apply Hk; by left).
      by rewrite Hc, lookup_empty in He. }
    pose proof (lru_list_length _ _ _ Hl) as Hlen. destruct ids; [|done].
    destruct Hl as [(_ & [_ Hp] & _) _].
    change (CachePolicy._evict s) with (LRUCache._evict s).
    unfold LRUCache._evict, LRUCache.attr. munfold.
    unfold LRUCache.heap, LRUCache.tail, LRUCache.head. rewrite Hp.
    by rewrite decide_True.
  - change (CachePolicy._evict s) with (LFUCache._evict s).
    unfold LFUCache._evict. munfold. by rewrite (lfu_empty_min s Hi Hc).
Qed.

End evict_empty.

(** * The further properties on the small instances *)

Lemma fifo_one_s_reachable : reachable (Policy.FIFO fifo_one_s).
Proof. exact fifo_one_reachable. Qed.

Lemma lru_two_reachable : reachable (Policy.LRU lru_two_s).
Proof.
  exists Policy.LRUClass, 2, "LRUCache"%string, lru_new, two_puts.
  split; vm_compute; reflexivity.
Qed.

Lemma lfu_two_reachable : reachable (Policy.LFU lfu_two_s).
Proof.
  exists Policy.LFUClass, 2, "LFUCache"%string, lfu_new, two_puts.
  split; vm_compute; reflexivity.
Qed.

Lemma lru_new_made : Policy.new Policy.LRUClass 2 "LRUCache" = Ok lru_new.
Proof. vm_compute. reflexivity. Qed.

Lemma two_built_built : built two_built.
Proof.
  exists "MemoryHierarchy"%string, two_built_calls. split; [|reflexivity].
  unfold two_built_calls. repeat constructor.
  - exact fifo_new_reachable.
  - exact fifo_one_reachable.
Qed.

(** On the FIFO cache holding key 1, for [delete(1)]. *)
Lemma delete_removes_the_key_witness :
  reachable fifo_one ∧
  (∃ p', Policy.delete 1 fifo_one = (Ok (Policy.contains 1 fifo_one), p') ∧
     Policy._cache p' = delete 1 (Policy._cache fifo_one) ∧
     Policy.contains 1 p' = false ∧
     Policy.current_size p' =
       Policy.current_size fifo_one - (if Policy.contains 1 fifo_one then 1 else 0) ∧
     CacheStats.hits (Policy.stats p') = CacheStats.hits (Policy.stats fifo_one) ∧
     CacheStats.misses (Policy.stats p') = CacheStats.misses (Policy.stats fifo_one) ∧
     CacheStats.evictions (Policy.stats p') = CacheStats.evictions (Policy.stats fifo_one) ∧
     CacheStats.current_size (Policy.stats p') = Policy.current_size p' ∧
     (Policy.contains 1 fifo_one = false → p' = fifo_one)).
Proof.
  pose proof (fifo_one_reachable) as Hyp1.
  split; [exact Hyp1|].
  exact (delete_removes_the_key fifo_one 1 Hyp1).
Defined.

(** On the FIFO cache holding key 1. *)
Lemma clear_keeps_the_counters_witness :
  reachable fifo_one ∧
  (∃ p', Policy.clear fifo_one = (Ok tt, p') ∧
     Policy._cache p' = ∅ ∧ Policy.current_size p' = 0 ∧
     Policy.capacity p' = Policy.capacity fifo_one ∧
     CacheStats.hits (Policy.stats p') = CacheStats.hits (Policy.stats fifo_one) ∧
     CacheStats.misses (Policy.stats p') = CacheStats.misses (Policy.stats fifo_one) ∧
     CacheStats.evictions (Policy.stats p') = CacheStats.evictions (Policy.stats fifo_one) ∧
     CacheStats.current_size (Policy.stats p') = 0 ∧
     CacheStats.max_size (Policy.stats p') = Policy.capacity fifo_one).
Proof.
  pose proof (fifo_one_reachable) as Hyp1.
  split; [exact Hyp1|].
  exact (clear_keeps_the_counters fifo_one Hyp1).
Defined.

(** On the full FIFO cache holding key 1, for the update [put(1, 9)]. *)
Lemma put_without_eviction_witness :
  reachable fifo_one ∧
  (Policy.contains 1 fifo_one = true ∨ Policy.current_size fifo_one < Policy.capacity fifo_one) ∧
  (∃ p' e', Policy.put 1 (Some 9) 1 20 fifo_one = (Ok tt, p') ∧
     (∀ k, k ≠ 1 → Policy._cache p' !! k = Policy._cache fifo_one !! k) ∧
     Policy._cache p' !! 1 = Some e' ∧
     CacheEntry.value e' = (Some 9) ∧ CacheEntry.size e' = 1 ∧
     Policy.current_size p' =
       Policy.current_size fifo_one + (if Policy.contains 1 fifo_one then 0 else 1) ∧
     CacheStats.evictions (Policy.stats p') = CacheStats.evictions (Policy.stats fifo_one)).
Proof.
  pose proof (fifo_one_reachable) as Hyp1.
  assert (Hyp2 : Policy.contains 1 fifo_one = true ∨ Policy.current_size fifo_one < Policy.capacity fifo_one).
  { left. vm_compute; reflexivity. }
  split; [exact Hyp1|].
  split; [exact Hyp2|].
  exact (put_without_eviction fifo_one 1 (Some 9) 1 20 Hyp1 Hyp2).
Defined.

(** On the FIFO cache holding key 1, for the entry of key 1. *)
Lemma entries_are_keyed_witness :
  reachable fifo_one ∧
  Policy._cache fifo_one !! 1 = Some (CacheEntry.new 1 (Some 7) 10 1) ∧
  (CacheEntry.key (CacheEntry.new 1 (Some 7) 10 1) = 1 ∧ 1 ≤ CacheEntry.access_count (CacheEntry.new 1 (Some 7) 10 1) ∧
   (is_fifo fifo_one = true → CacheEntry.access_count (CacheEntry.new 1 (Some 7) 10 1) = 1)).
Proof.
  pose proof (fifo_one_reachable) as Hyp1.
  assert (Hyp2 : Policy._cache fifo_one !! 1 = Some (CacheEntry.new 1 (Some 7) 10 1)).
  { vm_compute; reflexivity. }
  split; [exact Hyp1|].
  split; [exact Hyp2|].
  exact (entries_are_keyed fifo_one 1 (CacheEntry.new 1 (Some 7) 10 1) Hyp1 Hyp2).
Defined.

(** On [LRUCache(2)] after five calls, three of them [get]. *)
Lemma accesses_are_counted_witness :
  Policy.new Policy.LRUClass 2 "LRUCache"%string = Ok lru_new ∧
  (CacheStats.hits (Policy.stats (after five_calls lru_new)) +
     CacheStats.misses (Policy.stats (after five_calls lru_new)) = gets_since_reset five_calls ∧
   0 ≤ CacheStats.hits (Policy.stats (after five_calls lru_new)) ∧
   0 ≤ CacheStats.misses (Policy.stats (after five_calls lru_new)) ∧
   0 ≤ CacheStats.evictions (Policy.stats (after five_calls lru_new)) ≤ puts_since_reset five_calls).
Proof.
  pose proof (lru_new_made) as Hyp1.
  split; [exact Hyp1|].
  exact (accesses_are_counted Policy.LRUClass 2 "LRUCache"%string lru_new five_calls Hyp1).
Defined.

(** On the empty [FIFOCache(1)], for key 1. *)
Lemma put_then_delete_round_trips_witness :
  reachable fifo_new ∧
  Policy.contains 1 fifo_new = false ∧
  Policy.current_size fifo_new < Policy.capacity fifo_new ∧
  (∃ p1 p2 p3, Policy.put 1 (Some 7) 1 10 fifo_new = (Ok tt, p1) ∧
     Policy.delete 1 p1 = (Ok true, p2) ∧
     Policy._cache p2 = Policy._cache fifo_new ∧
     Policy.get 1 11 p2 = (Ok None, p3) ∧
     CacheStats.misses (Policy.stats p3) = CacheStats.misses (Policy.stats fifo_new) + 1 ∧
     CacheStats.hits (Policy.stats p3) = CacheStats.hits (Policy.stats fifo_new) ∧
     CacheStats.evictions (Policy.stats p3) = CacheStats.evictions (Policy.stats fifo_new)).
Proof.
  pose proof (fifo_new_reachable) as Hyp1.
  assert (Hyp2 : Policy.contains 1 fifo_new = false).
  { vm_compute; reflexivity. }
  assert (Hyp3 : Policy.current_size fifo_new < Policy.capacity fifo_new).
  { vm_compute; reflexivity. }
  split; [exact Hyp1|].
  split; [exact Hyp2|].
  split; [exact Hyp3|].
  exact (put_then_delete_round_trips fifo_new 1 (Some 7) 1 10 11 Hyp1 Hyp2 Hyp3).
Defined.

(** On the FIFO cache holding key 1, whose insertion order is [1]. *)
Lemma fifo_insertion_order_witness :
  reachable (Policy.FIFO fifo_one_s) ∧
  (NoDup (FIFOCache.get_insertion_order fifo_one_s) ∧
   (∀ key, key ∈ FIFOCache.get_insertion_order fifo_one_s ↔ CachePolicy.contains key fifo_one_s = true) ∧
   Z.of_nat (length (FIFOCache.get_insertion_order fifo_one_s)) = CachePolicy.current_size fifo_one_s ∧
   FIFOCache.peek_next_eviction fifo_one_s = head (FIFOCache.get_insertion_order fifo_one_s) ∧
   (CachePolicy.is_empty fifo_one_s = true → FIFOCache.peek_next_eviction fifo_one_s = None)) ∧
  FIFOCache.get_insertion_order fifo_one_s = [1] ∧
  FIFOCache.peek_next_eviction fifo_one_s = Some 1 ∧
  CachePolicy.is_empty fifo_one_s = false.
Proof.
  pose proof (fifo_one_s_reachable) as Hyp1.
  split; [exact Hyp1|].
  split; [exact (fifo_insertion_order fifo_one_s Hyp1)|].
  vm_compute. repeat split.
Defined.

(** On the full FIFO cache holding key 1, for the new key 2. *)
Lemma fifo_order_after_put_and_delete_witness :
  reachable (Policy.FIFO fifo_one_s) ∧
  ((∀ v sz now, CachePolicy.contains 2 fifo_one_s = true →
      FIFOCache.get_insertion_order (exec (CachePolicy.put 2 v sz now) fifo_one_s) =
        FIFOCache.get_insertion_order fifo_one_s) ∧
   (∀ v sz now, CachePolicy.contains 2 fifo_one_s = false →
      FIFOCache.get_insertion_order (exec (CachePolicy.put 2 v sz now) fifo_one_s) =
        (if CachePolicy.is_full fifo_one_s then tail (FIFOCache.get_insertion_order fifo_one_s)
         else FIFOCache.get_insertion_order fifo_one_s) ++ [2] ∧
      (CachePolicy.is_full fifo_one_s = true →
       ∃ k0, FIFOCache.peek_next_eviction fifo_one_s = Some k0 ∧
             CachePolicy.contains k0 fifo_one_s = true ∧
             CachePolicy.contains k0 (exec (CachePolicy.put 2 v sz now) fifo_one_s) = false)) ∧
   FIFOCache.get_insertion_order (exec (CachePolicy.delete 2) fifo_one_s) =
     filter (λ k, k ≠ 2) (FIFOCache.get_insertion_order fifo_one_s)).
Proof.
  pose proof (fifo_one_s_reachable) as Hyp1.
  split; [exact Hyp1|].
  exact (fifo_order_after_put_and_delete fifo_one_s 2 Hyp1).
Defined.

(** On the LRU cache of two keys, with a loop that may run twice. *)
Lemma lru_access_order_witness :
  reachable (Policy.LRU lru_two_s) ∧
  CachePolicy.current_size lru_two_s ≤ Z.of_nat 2%nat ∧
  (∃ ks, LRUCache.get_access_order 2%nat lru_two_s = (Ok (Some (Some <$> ks)), lru_two_s) ∧
     NoDup ks ∧
     (∀ key, key ∈ ks ↔ CachePolicy.contains key lru_two_s = true) ∧
     Z.of_nat (length ks) = CachePolicy.current_size lru_two_s ∧
     LRUCache.peek_mru lru_two_s = (Ok (head ks), lru_two_s) ∧
     LRUCache.peek_lru lru_two_s = (Ok (last ks), lru_two_s)).
Proof.
  pose proof (lru_two_reachable) as Hyp1.
  assert (Hyp2 : CachePolicy.current_size lru_two_s ≤ Z.of_nat 2%nat).
  { vm_compute. discriminate. }
  split; [exact Hyp1|].
  split; [exact Hyp2|].
  exact (lru_access_order lru_two_s 2%nat Hyp1 Hyp2).
Defined.

(** On the LRU cache of two keys, for key 1. *)
Lemma lru_order_after_calls_witness :
  reachable (Policy.LRU lru_two_s) ∧
  CachePolicy._capacity lru_two_s ≤ Z.of_nat 2%nat ∧
  (∃ ks, LRUCache.get_access_order 2%nat lru_two_s = (Ok (Some (Some <$> ks)), lru_two_s) ∧
     (∀ now,
        fst (LRUCache.get_access_order 2%nat (exec (CachePolicy.get 1 now) lru_two_s)) =
          Ok (Some (Some <$> (if CachePolicy.contains 1 lru_two_s
                              then 1 :: filter (λ k, k ≠ 1) ks else ks)))) ∧
     (∀ v sz now,
        fst (LRUCache.get_access_order 2%nat (exec (CachePolicy.put 1 v sz now) lru_two_s)) =
          Ok (Some (Some <$> (1 :: (if CachePolicy.contains 1 lru_two_s
                                      then filter (λ k, k ≠ 1) ks
                                      else if CachePolicy.is_full lru_two_s then removelast ks
                                      else ks))))) ∧
     fst (LRUCache.get_access_order 2%nat (exec (CachePolicy.delete 1) lru_two_s)) =
       Ok (Some (Some <$> filter (λ k, k ≠ 1) ks)) ∧
     fst (LRUCache.get_access_order 2%nat (exec CachePolicy.clear lru_two_s)) = Ok (Some [])).
Proof.
  pose proof (lru_two_reachable) as Hyp1.
  assert (Hyp2 : CachePolicy._capacity lru_two_s ≤ Z.of_nat 2%nat).
  { vm_compute. discriminate. }
  split; [exact Hyp1|].
  split; [exact Hyp2|].
  exact (lru_order_after_calls lru_two_s 1 2%nat Hyp1 Hyp2).
Defined.

(** On the LFU cache of two keys, for key 1. *)
Lemma lfu_frequency_is_access_count_witness :
  reachable (Policy.LFU lfu_two_s) ∧
  (LFUCache.get_key_frequency 1 lfu_two_s =
     CacheEntry.access_count <$> CachePolicy._cache lfu_two_s !! 1 ∧
   (∀ f, LFUCache.get_key_frequency 1 lfu_two_s = Some f → 1 ≤ f) ∧
   (LFUCache.get_key_frequency 1 lfu_two_s = None ↔ CachePolicy.contains 1 lfu_two_s = false)).
Proof.
  pose proof (lfu_two_reachable) as Hyp1.
  split; [exact Hyp1|].
  exact (lfu_frequency_is_access_count lfu_two_s 1 Hyp1).
Defined.


(** On the LFU cache of two keys. *)
Lemma lfu_distribution_adds_up_witness :
  reachable (Policy.LFU lfu_two_s) ∧
  ((∀ f n, LFUCache.get_frequency_distribution lfu_two_s !! f = Some n → 1 ≤ f ∧ 1 ≤ n) ∧
   foldr Z.add 0 (map_to_list (LFUCache.get_frequency_distribution lfu_two_s)).*2 =
     CachePolicy.current_size lfu_two_s).
Proof.
  pose proof (lfu_two_reachable) as Hyp1.
  split; [exact Hyp1|].
  exact (lfu_distribution_adds_up lfu_two_s Hyp1).
Defined.

(** On the hierarchy of three levels. *)
Lemma total_size_within_capacity_witness :
  hier_ok three_levels ∧
  (0 ≤ CacheHierarchy.total_size three_levels ≤ CacheHierarchy.total_capacity three_levels ∧
   ∀ l, l ∈ CacheHierarchy._levels three_levels →
     Policy.current_size (CacheLevel.cache l) ≤ Policy.capacity (CacheLevel.cache l)).
Proof.
  pose proof (three_levels_ok) as Hyp1.
  split; [exact Hyp1|].
  exact (total_size_within_capacity three_levels Hyp1).
Defined.

(** On the hierarchy of three levels, for key 1, held by the last level. *)
Lemma hierarchy_delete_everywhere_witness :
  hier_ok three_levels ∧
  (∃ h', CacheHierarchy.delete 1 three_levels = (Ok (CacheHierarchy.contains 1 three_levels), h') ∧
     CacheHierarchy.contains 1 h' = false ∧
     same_totals three_levels h' ∧
     CacheHierarchy.num_levels h' = CacheHierarchy.num_levels three_levels ∧
     ∀ j l, CacheHierarchy._levels three_levels !! j = Some l →
       ∃ l', CacheHierarchy._levels h' !! j = Some l' ∧
         Policy._cache (CacheLevel.cache l') = delete 1 (Policy._cache (CacheLevel.cache l)) ∧
         CacheLevel.stats l' = CacheLevel.stats l ∧
         CacheLevel.name l' = CacheLevel.name l ∧
         CacheLevel.latency_ms l' = CacheLevel.latency_ms l).
Proof.
  pose proof (three_levels_ok) as Hyp1.
  split; [exact Hyp1|].
  exact (hierarchy_delete_everywhere three_levels 1 Hyp1).
Defined.

(** On the hierarchy of three levels. *)
Lemma hierarchy_clear_keeps_counters_witness :
  hier_ok three_levels ∧
  (∃ h', CacheHierarchy.clear three_levels = (Ok tt, h') ∧
     CacheHierarchy.total_size h' = 0 ∧
     (∀ key, CacheHierarchy.contains key h' = false) ∧
     same_totals three_levels h' ∧
     ∀ j l, CacheHierarchy._levels three_levels !! j = Some l →
       ∃ l', CacheHierarchy._levels h' !! j = Some l' ∧
         Policy._cache (CacheLevel.cache l') = ∅ ∧
         CacheLevel.stats l' = CacheLevel.stats l ∧
         CacheStats.hits (Policy.stats (CacheLevel.cache l')) =
           CacheStats.hits (Policy.stats (CacheLevel.cache l)) ∧
         CacheStats.misses (Policy.stats (CacheLevel.cache l')) =
           CacheStats.misses (Policy.stats (CacheLevel.cache l)) ∧
         CacheStats.evictions (Policy.stats (CacheLevel.cache l')) =
           CacheStats.evictions (Policy.stats (CacheLevel.cache l))).
Proof.
  pose proof (three_levels_ok) as Hyp1.
  split; [exact Hyp1|].
  exact (hierarchy_clear_keeps_counters three_levels Hyp1).
Defined.

(** On the hierarchy of three levels, for key 1, which hits at the last level. *)
Lemma hit_latency_is_cumulative_witness :
  hier_ok three_levels ∧
  hits_at three_levels 1 2%nat 7 ∧
  (∃ h', CacheHierarchy.get 1 ticking three_levels = (Ok (Some 7), h') ∧
     CacheHierarchy._total_latency_ms h' =
       fadd (CacheHierarchy._total_latency_ms three_levels)
         (foldl (λ acc l, fadd acc (CacheLevel.latency_ms l)) fzero
            (take (S 2%nat) (CacheHierarchy._levels three_levels))) ∧
     CacheHierarchy._total_hits h' = CacheHierarchy._total_hits three_levels + 1 ∧
     CacheHierarchy._total_misses h' = CacheHierarchy._total_misses three_levels ∧
     (∀ j l, (j ≤ 2%nat)%nat → CacheHierarchy._levels three_levels !! j = Some l →
        ∃ l', CacheHierarchy._levels h' !! j = Some l' ∧
          LevelStats.total_latency_ms (CacheLevel.stats l') =
            fadd (LevelStats.total_latency_ms (CacheLevel.stats l)) (CacheLevel.latency_ms l) ∧
          LevelStats.hits (CacheLevel.stats l') =
            LevelStats.hits (CacheLevel.stats l) + (if decide (j = 2%nat) then 1 else 0) ∧
          LevelStats.misses (CacheLevel.stats l') =
            LevelStats.misses (CacheLevel.stats l) + (if decide (j = 2%nat) then 0 else 1)) ∧
     (∀ j, (2%nat < j)%nat → CacheHierarchy._levels h' !! j = CacheHierarchy._levels three_levels !! j)).
Proof.
  pose proof (three_levels_ok) as Hyp1.
  pose proof (three_levels_hit) as Hyp2.
  split; [exact Hyp1|].
  split; [exact Hyp2|].
  exact (hit_latency_is_cumulative three_levels 1 ticking 2%nat 7 Hyp1 Hyp2).
Defined.

(** On the hierarchy of three levels, for key 1. *)
Lemma second_lookup_hits_first_level_witness :
  hier_ok three_levels ∧
  hits_at three_levels 1 2%nat 7 ∧
  (∃ h1 h2 l1, CacheHierarchy.get 1 ticking three_levels = (Ok (Some 7), h1) ∧
     CacheHierarchy._levels h1 !! 0%nat = Some l1 ∧ lookup_at 1 l1 = Some 7 ∧
     CacheHierarchy.get 1 ticking h1 = (Ok (Some 7), h2) ∧
     CacheHierarchy._total_hits h2 = CacheHierarchy._total_hits h1 + 1 ∧
     CacheHierarchy._total_promotions h2 = CacheHierarchy._total_promotions h1 ∧
     CacheHierarchy._total_latency_ms h2 =
       fadd (CacheHierarchy._total_latency_ms h1) (fadd fzero (CacheLevel.latency_ms l1))).
Proof.
  pose proof (three_levels_ok) as Hyp1.
  pose proof (three_levels_hit) as Hyp2.
  split; [exact Hyp1|].
  split; [exact Hyp2|].
  exact (second_lookup_hits_first_level three_levels 1 ticking ticking 2%nat 7 Hyp1 Hyp2).
Defined.

(** On a hierarchy of two levels made by [add_level] and used for two lookups. *)
Lemma built_hierarchy_is_sound_witness :
  built two_built ∧
  (hier_ok two_built ∧
   NoDup (CacheLevel.name <$> CacheHierarchy._levels two_built) ∧
   CacheHierarchy._total_hits two_built = level_sum LevelStats.hits two_built ∧
   CacheHierarchy._total_promotions two_built = level_sum LevelStats.promotions two_built).
Proof.
  pose proof (two_built_built) as Hyp1.
  split; [exact Hyp1|].
  exact (built_hierarchy_is_sound two_built Hyp1).
Defined.

(** On the empty [FIFOCache(1)]. *)
Lemma evict_on_empty_does_nothing_witness :
  reachable fifo_new ∧
  Policy._cache fifo_new = ∅ ∧
  (Policy._evict fifo_new = (Ok tt, fifo_new)).
Proof.
  pose proof (fifo_new_reachable) as Hyp1.
  assert (Hyp2 : Policy._cache fifo_new = ∅).
  { reflexivity. }
  split; [exact Hyp1|].
  split; [exact Hyp2|].
  exact (evict_on_empty_does_nothing fifo_new Hyp1 Hyp2).
Defined.
